(** * A shallow embedding of the Chord / DHash peer-to-peer DHT

    The C++ sources embedded here:
    - [GenericKey] (ring keys, clockwise betweenness, modular +/-),
    - [AbstractChordPeer::StartChord], [StoredLocally], [GetSuccessor],
    - [FingerTable::AdjustFingers],
    - [RemotePeerList::Insert] / [Delete] (the successor list),
    - [DHashPeer::Create],
    - [MerkleTree] (the bucketed Merkle tree behind the database),
    - [IDA] together with the matrix helpers of [matrix_math].

    Machine integers are modelled as [Z] with their wrap-around written
    out: [uint256_t] values wrap modulo [2^256], C [int] arithmetic wraps
    to 32 bits two's complement ([i32]). *)

From Stdlib Require Import ZArith Lia List Bool String Ascii.
From Stdlib Require Import Znumtheory Setoid Morphisms.
Import ListNotations.

Local Open Scope Z_scope.

(* ------------------------------------------------------------------ *)
(** ** Keys: [GenericKey<16, 32>] ([ChordKey]) *)

Module GenericKey.

(** [keys_in_ring_ = key_base ^ key_len] with [key_base = 16],
    [key_len = 32]. *)
Definition key_base : Z := 16.
Definition key_len : Z := 32.
Definition keys_in_ring : Z := key_base ^ key_len.

(** [boost::multiprecision::uint256_t] arithmetic wraps modulo 2^256. *)
Definition u256 (x : Z) : Z := x mod 2 ^ 256.

(** [GenericKey::InBetween(lower_bound, upper_bound, inclusive)], with
    [value] the key's own value. *)
Definition InBetween (value lower_bound upper_bound : Z) (inclusive : bool)
  : bool :=
  if lower_bound =? upper_bound then value =? upper_bound
  else
    let mod_lower_bound := lower_bound mod keys_in_ring in
    let mod_upper_bound := upper_bound mod keys_in_ring in
    let mod_value := value mod keys_in_ring in
    if lower_bound <? upper_bound then
      if inclusive
      then (mod_lower_bound <=? mod_value) && (mod_value <=? upper_bound)
      else (mod_lower_bound <? mod_value) && (mod_value <? upper_bound)
    else
      negb (if inclusive
            then (mod_upper_bound <? mod_value) && (mod_value <? mod_lower_bound)
            else (mod_upper_bound <=? mod_value) && (mod_value <=? mod_lower_bound)).

(** [operator + (const KeyType &key1, const KeyType &key2)]:
    [(key1.value_ + key2.value_) % keys_in_ring_], the sum being computed
    in [uint256_t]. The [operator + (key, number)] overload is the same
    expression. *)
Definition key_add (key1 key2 : Z) : Z :=
  u256 (key1 + key2) mod keys_in_ring.

(** [operator - (const KeyType &key1, const KeyType &key2)]: the
    difference is taken in [cpp_int]; if it is positive it is the result,
    otherwise [keys_in_ring_ + diff]. *)
Definition key_sub (key1 key2 : Z) : Z :=
  let diff := key1 - key2 in
  if 0 <? diff then diff else keys_in_ring + diff.

(** A key of the ring: a value in [0, keys_in_ring). *)
Definition in_ring (k : Z) : Prop := 0 <= k < keys_in_ring.

(** The case analysis of the specification of [in_between], written on
    values already reduced modulo [N]. *)
Definition in_between_cases (k lo hi : Z) (inclusive : bool) : bool :=
  if lo =? hi then k =? hi
  else if lo <? hi then
    if inclusive then (lo <=? k) && (k <=? hi) else (lo <? k) && (k <? hi)
  else
    negb (if inclusive then (hi <? k) && (k <? lo)
          else (hi <=? k) && (k <=? lo)).

(** The closed clockwise arc from [lo] to [hi]. *)
Definition cw_closed (lo hi k : Z) : bool :=
  if lo =? hi then k =? hi
  else if lo <? hi then (lo <=? k) && (k <=? hi)
  else (lo <=? k) || (k <=? hi).

End GenericKey.

(* ------------------------------------------------------------------ *)
(** ** Peers, fingers and the successor list *)

(** [RemotePeer]: [(id_, min_key_, ip_addr_, port_)]. *)
Record RemotePeer := mkRemotePeer {
  rp_id : Z;
  rp_min_key : Z;
  rp_ip_addr : string;
  rp_port : Z
}.

(** [Finger<PeerType>]. *)
Record Finger := mkFinger {
  lower_bound : Z;
  upper_bound : Z;
  successor : RemotePeer
}.

Module FingerTable.
Import GenericKey.

(** [FingerTable::Lookup]: the successor of the first finger whose
    [[lower_bound_, upper_bound_]] holds the key; [None] stands for the
    ["ChordKey not found"] exception. *)
Fixpoint Lookup (table : list Finger) (key : Z) : option RemotePeer :=
  match table with
  | [] => None
  | f :: rest =>
      if InBetween key (lower_bound f) (upper_bound f) true
      then Some (successor f) else Lookup rest key
  end.

(** [FingerTable::AdjustFingers]: [InBetween]'s [inclusive] argument is
    left at its default, [true]. *)
Definition AdjustFingers (table : list Finger) (new_peer : RemotePeer)
  : list Finger :=
  map (fun finger =>
         if InBetween (lower_bound finger) (rp_min_key new_peer) (rp_id new_peer) true
         then mkFinger (lower_bound finger) (upper_bound finger) new_peer
         else finger) table.

End FingerTable.

Module RemotePeerList.
Import GenericKey.

(** Outcome of the scan of [RemotePeerList::Insert] over [peers_]:
    [Dup] is the early [return false], [At n] the [break] at index [n],
    [NotFound] the loop running to its end. *)
Inductive scan_result := Dup | At (n : nat) | NotFound.

Fixpoint scan (new_id previous_key : Z) (peers : list RemotePeer) : scan_result :=
  match peers with
  | [] => NotFound
  | p :: rest =>
      if new_id =? rp_id p then Dup
      else if InBetween new_id previous_key (rp_id p) true then At 0
      else match scan new_id (rp_id p) rest with
           | At n => At (S n)
           | r => r
           end
  end.

(** [peers_.insert(position, new_peer)]. *)
Fixpoint insert_at {A} (n : nat) (x : A) (l : list A) : list A :=
  match n, l with
  | O, _ => x :: l
  | S n', y :: l' => y :: insert_at n' x l'
  | S _, [] => [x]
  end.

(** [RemotePeerList::Insert(new_peer)] on the list [peers_] with
    [max_entries_] and [starting_key_]: returns the new list and the
    boolean result; [None] is the ["Corrupted JSON"] exception. *)
Definition Insert (max_entries : nat) (starting_key : Z)
           (peers : list RemotePeer) (new_peer : RemotePeer)
  : option (list RemotePeer * bool) :=
  if rp_port new_peer =? 0 then None
  else match peers with
  | [] => Some ([new_peer], true)
  | _ =>
      match scan (rp_id new_peer) starting_key peers with
      | Dup => Some (peers, false)
      | At n =>
          let peers' := insert_at n new_peer peers in
          if Nat.ltb max_entries (List.length peers')
          then Some (removelast peers', true)
          else Some (peers', true)
      | NotFound =>
          if Nat.ltb (List.length peers) max_entries
          then Some (peers ++ [new_peer], true)
          else Some (peers, false)
      end
  end.

(** [RemotePeerList::Delete(id_to_delete)]: erase the first entry with
    that ID, if any. *)
Fixpoint Delete (peers : list RemotePeer) (id_to_delete : Z) : list RemotePeer :=
  match peers with
  | [] => []
  | p :: rest => if rp_id p =? id_to_delete then rest else p :: Delete rest id_to_delete
  end.

(** [RemotePeerList::Populate(peers)]: [peers_ = peers]. *)
Definition Populate (_old peers : list RemotePeer) : list RemotePeer := peers.

(** [RemotePeerList::Lookup(key, succ = true)]. *)
Fixpoint Lookup (previous_id : Z) (peers : list RemotePeer) (key : Z)
  : option RemotePeer :=
  match peers with
  | [] => None
  | p :: rest =>
      if InBetween key previous_id (rp_id p) true then Some p
      else Lookup (rp_id p) rest key
  end.

(** Clockwise distance from [start] to [k]. *)
Definition dist (start k : Z) : Z := (k - start) mod keys_in_ring.

(** The IDs of [peers] have clockwise distances from [start] that are
    strictly increasing and all above [d]. *)
Fixpoint increasing_from (start d : Z) (peers : list RemotePeer) : Prop :=
  match peers with
  | [] => True
  | p :: rest => d < dist start (rp_id p) /\ increasing_from start (dist start (rp_id p)) rest
  end.

(** The successor-list invariant for capacity [K] and owner [self_id]:
    at most [K] entries, keys of the ring, sorted strictly increasing
    clockwise from [self_id + 1] (so pairwise distinct and never
    [self_id]). *)
Definition succ_list_ok (K : nat) (self_id : Z) (peers : list RemotePeer) : Prop :=
  (List.length peers <= K)%nat /\
  Forall (fun p => in_ring (rp_id p)) peers /\
  increasing_from self_id 0 peers.

(** The list with [c] placed before the first entry whose ID is clockwise
    further from [self_id] than [c]'s, or at the end. *)
Fixpoint place (self_id : Z) (c : RemotePeer) (peers : list RemotePeer) : list RemotePeer :=
  match peers with
  | [] => [c]
  | p :: rest =>
      if dist self_id (rp_id c) <? dist self_id (rp_id p) then c :: p :: rest
      else p :: place self_id c rest
  end.

(** Whether a peer with [c]'s ID is in [peers]. *)
Definition has_id (id : Z) (peers : list RemotePeer) : bool :=
  existsb (fun p => rp_id p =? id) peers.

End RemotePeerList.

Module ChordPeer.
Import GenericKey.

(** The part of [AbstractChordPeer]'s state that routing reads. *)
Record State := mkState {
  id_ : Z;
  ip_addr_ : string;
  port_ : Z;
  min_key_ : Z;
  finger_table_ : list Finger;
  successors_ : list RemotePeer;   (* its [starting_key_] is [id_] *)
  predecessor_ : option RemotePeer
}.

(** What the network answers: [RemotePeer::IsAlive] and the successor
    returned by a [GET_SUCC] request sent with [SendRequest] ([None]: the
    request throws). *)
Record Net := mkNet {
  is_alive : RemotePeer -> bool;
  send_get_succ : RemotePeer -> Z -> option RemotePeer
}.

(** [AbstractChordPeer::ToRemotePeer]. *)
Definition ToRemotePeer (st : State) : RemotePeer :=
  mkRemotePeer (id_ st) (min_key_ st) (ip_addr_ st) (port_ st).

(** [AbstractChordPeer::StoredLocally]. *)
Definition StoredLocally (st : State) (key : Z) : bool :=
  InBetween key (min_key_ st) (id_ st) true.

(** [ChordPeer::ForwardRequest] for a [GET_SUCC] request. *)
Definition ForwardRequest (net : Net) (st : State) (key : Z) : option RemotePeer :=
  match FingerTable.Lookup (finger_table_ st) key with
  | None => None
  | Some key_succ =>
      let pred_case :=
        if rp_id key_succ =? id_ st then
          match predecessor_ st with
          | Some pr => Some (is_alive net pr)
          | None => None          (* [predecessor_.Get()] throws *)
          end
        else Some false in
      match pred_case with
      | None => None
      | Some true =>
          match predecessor_ st with
          | Some pr => send_get_succ net pr key
          | None => None
          end
      | Some false =>
          if negb (is_alive net key_succ) then
            match RemotePeerList.Lookup (id_ st) (successors_ st) key with
            | Some s => if is_alive net s then send_get_succ net s key else None
            | None => None
            end
          else send_get_succ net key_succ key
      end
  end.

(** [AbstractChordPeer::GetSuccessor]. *)
Definition GetSuccessor (net : Net) (st : State) (key : Z) : option RemotePeer :=
  if StoredLocally st key then Some (ToRemotePeer st)
  else ForwardRequest net st key.

(** [AbstractChordPeer::StartChord]: [min_key_.Set(id_ + 1)] (starting
    the maintenance task does not touch this state). *)
Definition StartChord (st : State) : State :=
  mkState (id_ st) (ip_addr_ st) (port_ st) (key_add (id_ st) 1)
          (finger_table_ st) (successors_ st) (predecessor_ st).

End ChordPeer.

(* ------------------------------------------------------------------ *)
(** ** Hex strings of keys *)

Module KeyString.

Definition hex_digit (d : Z) : ascii :=
  match String.get (Z.to_nat d) "0123456789abcdef" with
  | Some c => c
  | None => "0"%char
  end.

Fixpoint hex_digits (fuel : nat) (x : Z) (acc : string) : string :=
  match fuel with
  | O => acc
  | S f => if x =? 0 then acc
           else hex_digits f (x / 16) (String (hex_digit (x mod 16)) acc)
  end.

(** [std::string(count, ch)]. *)
Fixpoint repeat_char (count : nat) (ch : ascii) : string :=
  match count with
  | O => EmptyString
  | S n => String ch (repeat_char n ch)
  end.

(** [IntToHexStr]: what [std::hex] writes for a non-negative value, lower
    case and without leading zeros; a key's [string_] is
    [IntToHexStr(value_)]. The fuel [log2 x + 1] is at least the number of
    hex digits of [x]. *)
Definition IntToHexStr (x : Z) : string :=
  if x =? 0 then "0" else hex_digits (S (Z.to_nat (Z.log2 x))) x "".

(** A string of ['0'] characters only. *)
Fixpoint all_zero (s : string) : Prop :=
  match s with
  | EmptyString => True
  | String c r => c = "0"%char /\ all_zero r
  end.

End KeyString.

(* ------------------------------------------------------------------ *)
(** ** [MerkleTree<ValType>] *)

Module MerkleTree.
Import GenericKey KeyString.

(** [MerkleTree<ValType>::num_children_]. *)
Definition num_children : nat := 8.

(** [ChordKey::BinaryLen()] ([log2(16) * 32]) and [log2(num_children_)],
    as [ChildNum] computes them. *)
Definition key_bin_len : Z := 128.
Definition child_id_len : Z := 3.

(** [vector::at] on a list, applying [f] to the element in place; an
    index out of range is the [std::out_of_range] exception ([false],
    nothing changed). *)
Fixpoint at_apply {A} (f : A -> A * bool) (cs : list A) (i : nat) : list A * bool :=
  match cs, i with
  | [], _ => ([], false)
  | c :: cs', O => let (c', ok) := f c in (c' :: cs', ok)
  | c :: cs', S i' => let (cs'', ok) := at_apply f cs' i' in (c :: cs'', ok)
  end.

(** [vector::at] for a query. *)
Fixpoint at_get {A B} (f : A -> option B) (cs : list A) (i : nat) : option B :=
  match cs, i with
  | [], _ => None
  | c :: _, O => f c
  | _ :: cs', S i' => at_get f cs' i'
  end.

(** [vector::at] for an update that may throw. *)
Fixpoint at_update {A} (f : A -> option A) (cs : list A) (i : nat) : option (list A) :=
  match cs, i with
  | [], _ => None
  | c :: cs', O => match f c with Some c' => Some (c' :: cs') | None => None end
  | c :: cs', S i' => match at_update f cs' i' with
                      | Some cs'' => Some (c :: cs'')
                      | None => None
                      end
  end.

(** The first [Some] of a loop that returns at the first hit. *)
Fixpoint first_some {A} (l : list (option A)) : option A :=
  match l with
  | [] => None
  | Some a :: _ => Some a
  | None :: rest => first_some rest
  end.

(** The loop of [GetLargestEntry], which runs from the last child down
    and returns at the first hit: the last [Some] of the list. *)
Definition last_some {A} (l : list (option A)) : option A :=
  fold_left (fun acc x => match x with Some _ => x | None => acc end) l None.

Section Tree.
Context {ValType : Type}.
(** [GenerateSha1Hash] of a string, read back as a key
    ([ChordKey(s, false)]). *)
Variable sha1 : string -> Z.

(** A node: [min_key_], [max_key_], [hash_], [position_],
    [child_nodes_], [data_] (the [std::map], as a list sorted by key)
    and [largest_key_]. *)
#[warnings="-register-all"]
Inductive Node : Type := mkNode {
  min_key_ : Z;
  max_key_ : Z;
  hash_ : Z;
  position_ : list Z;
  child_nodes_ : list Node;
  data_ : list (Z * ValType);
  largest_key_ : option Z
}.

(** [std::map::find]. *)
Fixpoint map_find (k : Z) (d : list (Z * ValType)) : option ValType :=
  match d with
  | [] => None
  | (k', v') :: rest => if k =? k' then Some v' else map_find k rest
  end.

(** [std::map::insert]: keeps the map sorted, leaves a present key alone. *)
Fixpoint map_insert (k : Z) (v : ValType) (d : list (Z * ValType)) : list (Z * ValType) :=
  match d with
  | [] => [(k, v)]
  | (k', v') :: rest =>
      if k <? k' then (k, v) :: d
      else if k =? k' then d
      else (k', v') :: map_insert k v rest
  end.

(** [std::map::erase(key)]. *)
Fixpoint map_erase (k : Z) (d : list (Z * ValType)) : list (Z * ValType) :=
  match d with
  | [] => []
  | (k', v') :: rest => if k =? k' then rest else (k', v') :: map_erase k rest
  end.

(** [data_.at(k) = v] (only reached when [k] is present). *)
Fixpoint map_assign (k : Z) (v : ValType) (d : list (Z * ValType)) : list (Z * ValType) :=
  match d with
  | [] => []
  | (k', v') :: rest => if k =? k' then (k', v) :: rest else (k', v') :: map_assign k v rest
  end.

Definition set_hash (t : Node) (h : Z) : Node :=
  mkNode (min_key_ t) (max_key_ t) h (position_ t) (child_nodes_ t) (data_ t) (largest_key_ t).

Definition set_largest (t : Node) (l : option Z) : Node :=
  mkNode (min_key_ t) (max_key_ t) (hash_ t) (position_ t) (child_nodes_ t) (data_ t) l.

(** [Rehash]: an empty leaf gets [0]; a leaf hashes the concatenated hex
    strings of its keys; an internal node hashes the concatenated hex
    strings of its children's hashes, unless that string is
    [std::string(num_children_, '0')], which gives [0]. *)
Definition Rehash (t : Node) : Node :=
  match child_nodes_ t with
  | [] =>
      match data_ t with
      | [] => set_hash t 0
      | d => set_hash t (sha1 (String.concat "" (map (fun kv => IntToHexStr (fst kv)) d)))
      end
  | cs =>
      let concatenated_keys := String.concat "" (map (fun c => IntToHexStr (hash_ c)) cs) in
      if String.eqb concatenated_keys (repeat_char num_children "0"%char)
      then set_hash t 0
      else set_hash t (sha1 concatenated_keys)
  end.

(** The [while] loop of [CreateChildren]: move entries from the front of
    [data_] while [InBetween(last_key, ub - 1, true)] holds. *)
Fixpoint take_in_range (lo hi : Z) (d : list (Z * ValType))
  : list (Z * ValType) * list (Z * ValType) :=
  match d with
  | [] => ([], [])
  | kv :: rest =>
      if InBetween (fst kv) lo hi true
      then let (taken, left) := take_in_range lo hi rest in (kv :: taken, left)
      else ([], d)
  end.

(** The [for] loop of [CreateChildren], child [i] of [count] remaining. *)
Fixpoint create_children_loop (i count : nat) (pos : list Z) (last_key step : Z)
         (d : list (Z * ValType)) : list Node * list (Z * ValType) :=
  match count with
  | O => ([], d)
  | S count' =>
      let ub := u256 (last_key + step) in
      let (taken, left) := take_in_range last_key (u256 (ub - 1)) d in
      let child := Rehash (mkNode last_key ub 0 (pos ++ [Z.of_nat i]) [] taken None) in
      let (rest, d') := create_children_loop (S i) count' pos ub step left in
      (child :: rest, d')
  end.

(** [CreateChildren]: [key_range = max_key_ - min_key_] (the [ChordKey]
    difference), children of width [key_range / num_children_] appended
    to [child_nodes_], each with the entries of its range. *)
Definition CreateChildren (t : Node) : Node :=
  let key_range := u256 (key_sub (max_key_ t) (min_key_ t)) in
  let (children, d) :=
    create_children_loop 0 num_children (position_ t) (min_key_ t)
                         (key_range / Z.of_nat num_children) (data_ t) in
  mkNode (min_key_ t) (max_key_ t) (hash_ t) (position_ t)
         (child_nodes_ t ++ children) d (largest_key_ t).

Definition ToInternal (t : Node) : Node := CreateChildren t.

(** Constructor 1, [MerkleTree()]: [min_key_ = 0], [max_key_ = 16^32],
    [hash_ = 0], no position, then [CreateChildren]. *)
Definition empty_tree : Node :=
  CreateChildren (mkNode 0 keys_in_ring 0 [] [] [] None).

(** [ChildNum]. The shift is non-negative on every node the operations
    reach (depth at most 41 for an internal node). *)
Definition ChildNum (t : Node) (key : Z) : nat :=
  if max_key_ t <=? key then (num_children - 1)%nat
  else if key <? min_key_ t then 0%nat
  else
    let shift := key_bin_len - child_id_len * (Z.of_nat (List.length (position_ t)) + 1) in
    Z.to_nat (Z.land (Z.shiftr key shift) (Z.of_nat num_children - 1)).

(** The update of [largest_key_] at the top of [Insert]. *)
Definition bump_largest (k : Z) (largest : option Z) : option Z :=
  match largest with
  | Some l => if l <? k then Some k else largest
  | None => Some k
  end.

(** [Insert(kv_pair)]: the new node and whether it returned normally;
    on the ["Key already exists"] exception ([false]) the node is the
    state the exception leaves, with the [largest_key_] updates of the
    descent already made and no rehash. *)
Fixpoint Insert (t : Node) (k : Z) (v : ValType) {struct t} : Node * bool :=
  match t with
  | mkNode mn mx h pos cs d lg =>
      match cs with
      | [] =>
          match map_find k d with
          | Some _ => (mkNode mn mx h pos cs d (bump_largest k lg), false)
          | None =>
              let t2 := mkNode mn mx h pos [] (map_insert k v d) (bump_largest k lg) in
              let t3 := if Nat.ltb num_children (List.length (data_ t2))
                        then ToInternal t2 else t2 in
              (Rehash t3, true)
          end
      | _ =>
          let (cs', ok) := at_apply (fun c => Insert c k v) cs (ChildNum t k) in
          let t2 := mkNode mn mx h pos cs' d (bump_largest k lg) in
          if ok then (Rehash t2, true) else (t2, false)
      end
  end.

(** [Lookup(key)]; [None] is the ["Key does not exist in subtree"]
    exception. *)
Fixpoint Lookup (t : Node) (k : Z) {struct t} : option ValType :=
  match t with
  | mkNode _ _ _ _ cs d _ =>
      match cs with
      | [] => map_find k d
      | _ => at_get (fun c => Lookup c k) cs (ChildNum t k)
      end
  end.

(** [Update(kv_pair)]; [None] is the exception (nothing is changed
    before it is thrown). *)
Fixpoint Update (t : Node) (k : Z) (v : ValType) {struct t} : option Node :=
  match t with
  | mkNode mn mx h pos cs d lg =>
      match cs with
      | [] =>
          match map_find k d with
          | Some _ => Some (Rehash (mkNode mn mx h pos cs (map_assign k v d) lg))
          | None => None
          end
      | _ =>
          match at_update (fun c => Update c k v) cs (ChildNum t k) with
          | Some cs' => Some (Rehash (mkNode mn mx h pos cs' d lg))
          | None => None
          end
      end
  end.

(** [GetLargestEntry]. *)
Fixpoint GetLargestEntry (t : Node) : option (Z * ValType) :=
  match t with
  | mkNode _ _ h _ cs d _ =>
      if h =? 0 then None
      else match cs with
           | [] => last (map Some d) None
           | _ => last_some (map (fun c => GetLargestEntry c) cs)
           end
  end.

(** [GetSmallestEntry]. *)
Fixpoint GetSmallestEntry (t : Node) : option (Z * ValType) :=
  match t with
  | mkNode _ _ h _ cs d _ =>
      if h =? 0 then None
      else match cs with
           | [] => match d with [] => None | kv :: _ => Some kv end
           | _ => first_some (map (fun c => GetSmallestEntry c) cs)
           end
  end.

(** [Delete(key)]; [None] is the exception. An internal node rehashes and
    then resets [largest_key_] from [GetLargestEntry]. *)
Fixpoint Delete (t : Node) (k : Z) {struct t} : option Node :=
  match t with
  | mkNode mn mx h pos cs d lg =>
      match cs with
      | [] =>
          match map_find k d with
          | Some _ => Some (Rehash (mkNode mn mx h pos cs (map_erase k d) lg))
          | None => None
          end
      | _ =>
          match at_update (fun c => Delete c k) cs (ChildNum t k) with
          | Some cs' =>
              let t2 := Rehash (mkNode mn mx h pos cs' d lg) in
              Some (set_largest t2 (option_map fst (GetLargestEntry t2)))
          | None => None
          end
      end
  end.

(** [key >= largest_key_] with [std::optional]'s comparison: an empty
    optional is below every key. *)
Definition key_ge_opt (key : Z) (largest : option Z) : bool :=
  match largest with
  | None => true
  | Some l => l <=? key
  end.

Fixpoint first_greater (key : Z) (d : list (Z * ValType)) : option (Z * ValType) :=
  match d with
  | [] => None
  | kv :: rest => if key <? fst kv then Some kv else first_greater key rest
  end.

(** [Next(key)]. *)
Fixpoint Next (t : Node) (key : Z) {struct t} : option (Z * ValType) :=
  match t with
  | mkNode _ _ h pos cs d lg =>
      if h =? 0 then None
      else if key_ge_opt key lg && match pos with [] => true | _ => false end
      then GetSmallestEntry t
      else match cs with
           | [] => first_greater key d
           | _ => first_some (skipn (ChildNum t key) (map (fun c => Next c key) cs))
           end
  end.

(** [GetEntries]: the children's maps merged with [std::map::insert]. *)
Fixpoint GetEntries (t : Node) : list (Z * ValType) :=
  match t with
  | mkNode _ _ h _ cs d _ =>
      if h =? 0 then []
      else match cs with
           | [] => d
           | _ => fold_left
                    (fun acc kvs => fold_left (fun a kv => map_insert (fst kv) (snd kv) a) kvs acc)
                    (map (fun c => GetEntries c) cs) []
           end
  end.

Fixpoint list_Z_eqb (l1 l2 : list Z) : bool :=
  match l1, l2 with
  | [], [] => true
  | x :: r1, y :: r2 => (x =? y) && list_Z_eqb r1 r2
  | _, _ => false
  end.

(** [operator ==]: same position and same hash. *)
Definition node_eqb (lhs rhs : Node) : bool :=
  list_Z_eqb (position_ lhs) (position_ rhs) && (hash_ lhs =? hash_ rhs).

(** *** Vocabulary of the invariants *)

(** Width of the range of a node at depth [depth]: [2^(128 - 3 depth)]. *)
Definition span (depth : nat) : Z :=
  2 ^ (key_bin_len - child_id_len * Z.of_nat depth).

(** Keys at least [lo] and strictly increasing. *)
Fixpoint keys_from (lo : Z) (d : list (Z * ValType)) : Prop :=
  match d with
  | [] => True
  | kv :: rest => lo <= fst kv /\ keys_from (fst kv + 1) rest
  end.

Fixpoint all_of {A} (P : A -> Prop) (l : list A) : Prop :=
  match l with
  | [] => True
  | x :: rest => P x /\ all_of P rest
  end.

Fixpoint all2 {A} (R : A -> A -> Prop) (l1 l2 : list A) : Prop :=
  match l1, l2 with
  | [], [] => True
  | x :: r1, y :: r2 => R x y /\ all2 R r1 r2
  | _, _ => False
  end.

(** Children [i, i+1, ...] of a node of minimum [mn]: child [j] starts at
    [mn + j * s] and sits at [pos ++ [j]]. *)
Fixpoint children_ok (P : Node -> Prop) (mn s : Z) (pos : list Z) (i : nat)
         (cs : list Node) : Prop :=
  match cs with
  | [] => True
  | c :: rest =>
      min_key_ c = mn + Z.of_nat i * s /\ position_ c = pos ++ [Z.of_nat i] /\
      P c /\ children_ok P mn s pos (S i) rest
  end.

(** Shape of a node: its range is the aligned block of width
    [span depth]; a leaf holds sorted keys of its range; an internal node
    has no data and [num_children_] children splitting its range. *)
Fixpoint wf (t : Node) : Prop :=
  match t with
  | mkNode mn mx _ pos cs d _ =>
      (List.length pos <= 42)%nat /\ 0 <= mn /\ mn mod span (List.length pos) = 0 /\
      mx = mn + span (List.length pos) /\
      match cs with
      | [] => keys_from mn d /\ Forall (fun kv => fst kv < mx) d
      | _ => (List.length pos <= 41)%nat /\ d = [] /\ List.length cs = num_children /\
             children_ok (fun c => wf c) mn (span (S (List.length pos))) pos 0 cs
      end
  end.

(** Every [hash_] is what [Rehash] computes from the node's current
    data or children. *)
Fixpoint hash_ok (t : Node) : Prop :=
  match t with
  | mkNode _ _ h _ cs _ _ => hash_ (Rehash t) = h /\ all_of (fun c => hash_ok c) cs
  end.

(** The entries stored in a node, left to right: its own map, then its
    children's. *)
Fixpoint entries (t : Node) : list (Z * ValType) :=
  match t with
  | mkNode _ _ _ _ cs d _ => d ++ flat_map (fun c => entries c) cs
  end.

(** Same shape, positions and keys; values and caches are not compared. *)
Fixpoint same_keys (t1 t2 : Node) : Prop :=
  match t1, t2 with
  | mkNode _ _ _ pos1 cs1 d1 _, mkNode _ _ _ pos2 cs2 d2 _ =>
      pos1 = pos2 /\ map fst d1 = map fst d2 /\ all2 (fun c1 c2 => same_keys c1 c2) cs1 cs2
  end.

(** The tree with every [largest_key_] cache cleared. *)
Fixpoint strip (t : Node) : Node :=
  match t with
  | mkNode mn mx h pos cs d _ => mkNode mn mx h pos (map (fun c => strip c) cs) d None
  end.

(** Trees built from [MerkleTree()] by [Insert], [Update] and [Delete] of
    ring keys (a failed [Insert] keeps the state it leaves; failed
    [Update] and [Delete] change nothing). *)
Inductive reachable : Node -> Prop :=
| reach_empty : reachable empty_tree
| reach_insert t k v : reachable t -> in_ring k -> reachable (fst (Insert t k v))
| reach_update t k v t' : reachable t -> in_ring k -> Update t k v = Some t' -> reachable t'
| reach_delete t k t' : reachable t -> in_ring k -> Delete t k = Some t' -> reachable t'.

(** A key-value pair in the range of a node. *)
Definition in_range (t : Node) (kv : Z * ValType) : Prop :=
  min_key_ t <= fst kv < max_key_ t.

(** What every tree the public operations reach satisfies at its root. *)
Definition root_inv (t : Node) : Prop :=
  min_key_ t = 0 /\ max_key_ t = keys_in_ring /\ position_ t = [] /\
  child_nodes_ t <> [] /\ wf t /\ hash_ok t.

(** The [largest_key_] cache of a node bounds every key it holds. *)
Definition largest_ok (t : Node) : Prop :=
  forall x, In x (map fst (entries t)) -> exists l, largest_key_ t = Some l /\ x <= l.

End Tree.

End MerkleTree.

(* ------------------------------------------------------------------ *)
(** ** The information dispersal algorithm: [matrix_math] and [IDA] *)

Module IDA.

Definition Vector := list Z.
Definition Matrix := list Vector.

(** C [int] arithmetic: 32-bit two's complement wrap-around. *)
Definition i32 (x : Z) : Z := (x + 2 ^ 31) mod 2 ^ 32 - 2 ^ 31.

(** [v[i]] and [m[i]] (only read in range). *)
Definition vec_at (v : Vector) (i : nat) : Z := nth i v 0.
Definition row_at (m : Matrix) (i : nat) : Vector := nth i m [].

(** [Modulo(lhs, rhs)]: [(lhs % rhs + rhs) % rhs], C's [%] truncating
    toward zero ([Z.rem]). *)
Definition Modulo (lhs rhs : Z) : Z := Z.rem (i32 (Z.rem lhs rhs + rhs)) rhs.

(** [InnerProduct(lhs, rhs, prime)]: [sum += lhs[i] * rhs[i]] over the
    shorter length, then [Modulo(sum, prime)]. *)
Fixpoint InnerProduct_loop (lhs rhs : Vector) (sum : Z) : Z :=
  match lhs, rhs with
  | l :: lhs', r :: rhs' => InnerProduct_loop lhs' rhs' (i32 (sum + i32 (l * r)))
  | _, _ => sum
  end.

Definition InnerProduct (lhs rhs : Vector) (prime : Z) : Z :=
  Modulo (InnerProduct_loop lhs rhs 0) prime.

(** [MatrixProduct(lhs, rhs, prime)]. *)
Definition MatrixProduct (lhs rhs : Matrix) (prime : Z) : Matrix :=
  let lhs_cols := List.length (row_at lhs 0) in
  let rhs_cols := List.length (row_at rhs 0) in
  map (fun lrow =>
         map (fun j =>
                fold_left (fun cell k =>
                             Modulo (i32 (cell + i32 (vec_at lrow k * vec_at (row_at rhs k) j))) prime)
                          (seq 0 lhs_cols) 0)
             (seq 0 rhs_cols))
      lhs.

(** [Transpose(m)] of a square matrix. *)
Definition Transpose (m : Matrix) : Matrix :=
  map (fun i => map (fun j => vec_at (row_at m j) i) (seq 0 (List.length m)))
      (seq 0 (List.length m)).

(** [ModInverse(n, p)]: the extended Euclidean loop [while(new_r)], C's
    [/] truncating ([Z.quot]); [fuel] bounds the rounds ([|new_r|]
    decreases strictly, so [|n| + 1] rounds suffice). *)
Fixpoint ModInverse_loop (fuel : nat) (t new_t r new_r : Z) : Z * Z :=
  match fuel with
  | O => (t, r)
  | S fuel' =>
      if new_r =? 0 then (t, r)
      else
        let quotient := Z.quot r new_r in
        ModInverse_loop fuel' new_t (i32 (t - i32 (quotient * new_t)))
                        new_r (i32 (r - i32 (quotient * new_r)))
  end.

(** [None] is the ["N is not invertible"] exception. *)
Definition ModInverse (n p : Z) : option Z :=
  let (t, r) := ModInverse_loop (S (Z.to_nat (Z.abs n))) 0 1 p n in
  if 1 <? r then None else Some (if t <? 0 then i32 (t + p) else t).

(** [ConstructEncodingMatrix(m, n, p)]: row [a] (for [a = 1 .. n]) is
    [1, a, a^2, ...] reduced step by step with [Modulo]. *)
Fixpoint encoding_row (count : nat) (elt a p : Z) : Vector :=
  match count with
  | O => []
  | S count' => elt :: encoding_row count' (Modulo (i32 (elt * a)) p) a p
  end.

Definition ConstructEncodingMatrix (m n p : Z) : Matrix :=
  map (fun a => encoding_row (Z.to_nat m) 1 (Z.of_nat a) p) (seq 1 (Z.to_nat n)).

(** [ElementarySymmetricTransform(v, m)], the table [el] built row by row;
    [w] is the arithmetic of its cells: [i32] in the program, the identity
    for the same loop over unbounded integers. Row [0] stays zero; row [1]
    holds the prefix sums; row [i >= 2] has [el[i][j] = el[i-1][j-1] *
    v[j-1] + el[i][j-1]] for [j >= i] and zeros before. *)
Section EST.
Variable w : Z -> Z.

Fixpoint prefix_sums (v : Vector) (acc : Z) : Vector :=
  match v with
  | [] => []
  | x :: v' => let c := w (acc + x) in c :: prefix_sums v' c
  end.

Fixpoint scan_row (prev v : Vector) (cur : Z) : Vector :=
  match prev, v with
  | p0 :: prev', x :: v' => let c := w (w (p0 * x) + cur) in c :: scan_row prev' v' c
  | _, _ => []
  end.

Definition est_row (i : nat) (prev v : Vector) : Vector :=
  firstn (S (List.length v))
         (repeat 0 i ++ scan_row (skipn (i - 1) prev) (skipn (i - 1) v) 0).

Fixpoint est_rows (count i : nat) (prev v : Vector) : Matrix :=
  match count with
  | O => []
  | S count' => let r := est_row i prev v in r :: est_rows count' (S i) r v
  end.

Definition EST_with (v : Vector) (m : nat) : Vector :=
  let row0 := repeat 0 (S (List.length v)) in
  let rows :=
    match m with
    | O => [row0]
    | S m' => let row1 := 0 :: prefix_sums v 0 in row0 :: row1 :: est_rows m' 2 row1 v
    end in
  map (fun row => last row 0) rows.

End EST.

Definition ElementarySymmetricTransform (v : Vector) (m : nat) : Vector :=
  EST_with i32 v m.

(** [VandermondeInverse(basis, p)]. [None] is an exception of
    [ModInverse]; the [inverses] cache is an association list. *)
Definition denominator (basis : Vector) (p : Z) (i : nat) : Z :=
  fold_left (fun prod j =>
               if Nat.eqb j i then prod
               else Modulo (i32 (prod * i32 (vec_at basis i - vec_at basis j))) p)
            (seq 0 (List.length basis)) 1.

Fixpoint numerator_loop (count j : nat) (last sign elt p : Z) (el : Vector) : Vector :=
  match count with
  | O => []
  | S count' =>
      let cell := Modulo (i32 (Modulo (i32 (last * elt)) p + i32 (sign * vec_at el j))) p in
      cell :: numerator_loop count' (S j) cell (i32 (sign * -1)) elt p el
  end.

Definition numerator_row (el : Vector) (p : Z) (m : nat) (elt : Z) : Vector :=
  rev (1 :: numerator_loop (m - 1) 1 1 (-1) elt p el).

Fixpoint cache_find (k : Z) (cache : list (Z * Z)) : option Z :=
  match cache with
  | [] => None
  | (k', v) :: rest => if k' =? k then Some v else cache_find k rest
  end.

Fixpoint inverse_rows (p : Z) (dens : Vector) (nums : Matrix) (inverses : list (Z * Z))
  : option Matrix :=
  match dens, nums with
  | denom :: dens', num :: nums' =>
      let found :=
        match cache_find denom inverses with
        | Some inv => Some (inv, inverses)
        | None =>
            match ModInverse denom p with
            | Some inv => Some (inv, (denom, inv) :: inverses)
            | None => None
            end
        end in
      match found with
      | None => None
      | Some (inv, inverses') =>
          match inverse_rows p dens' nums' inverses' with
          | None => None
          | Some rest => Some (map (fun x => Modulo (i32 (x * inv)) p) num :: rest)
          end
      end
  | _, _ => Some []
  end.

Definition VandermondeInverse (basis : Vector) (p : Z) : option Matrix :=
  let m := List.length basis in
  let el := ElementarySymmetricTransform basis m in
  let denominators := map (denominator basis p) (seq 0 m) in
  let numerators := map (fun i => numerator_row el p m (vec_at basis i)) (seq 0 m) in
  match inverse_rows p denominators numerators [] with
  | None => None
  | Some result => Some (Transpose result)
  end.

(** The [IDA] object: [IDA(n, m, p)] builds the encoding matrix and
    throws ([None]) unless [n > m && p > n]. *)
Record IDA := mkIDA {
  n_ : Z;
  m_ : Z;
  p_ : Z;
  encoding_matrix_ : Matrix
}.

Definition make (n m p : Z) : option IDA :=
  if (m <? n) && (n <? p) then Some (mkIDA n m p (ConstructEncodingMatrix m n p))
  else None.

(** [IDA::SplitToSegments]: segments of [m_] entries, the last one padded
    with zeros ([fuel] bounds the rounds of [i += m_]). *)
Fixpoint split_loop (fuel : nat) (m : nat) (v : Vector) : Matrix :=
  match fuel with
  | O => []
  | S fuel' =>
      match v with
      | [] => []
      | _ => (firstn m v ++ repeat 0 (m - List.length (firstn m v)))
               :: split_loop fuel' m (skipn m v)
      end
  end.

Definition SplitToSegments (ida : IDA) (v : Vector) : Matrix :=
  split_loop (List.length v) (Z.to_nat (m_ ida)) v.

(** [IDA::Encode]: fragment [i] holds the inner products of row [i] of the
    encoding matrix with every segment. *)
Definition Encode (ida : IDA) (v : Vector) : Matrix :=
  let segments := SplitToSegments ida v in
  map (fun i => map (fun segment => InnerProduct (row_at (encoding_matrix_ ida) i) segment (p_ ida))
                    segments)
      (seq 0 (Z.to_nat (n_ ida))).

(** [AllZeroes]. *)
Definition AllZeroes (v : Vector) : bool := forallb (Z.eqb 0) v.

(** The two [while] loops of [Decode] that pop the zero tail, run on the
    reversed list: [pop_back] while the last segment is all zero, then
    while the last entry of the last segment is zero. [None]: [back()] of
    an empty vector. *)
Fixpoint drop_zero_segments (rsegs : Matrix) : Matrix :=
  match rsegs with
  | s :: rest => if AllZeroes s then drop_zero_segments rest else rsegs
  | [] => []
  end.

Fixpoint drop_zeros (rv : Vector) : Vector :=
  match rv with
  | x :: rest => if x =? 0 then drop_zeros rest else rv
  | [] => []
  end.

Definition strip_padding (segs : Matrix) : option Matrix :=
  match drop_zero_segments (rev segs) with
  | [] => None
  | last_seg :: rest => Some (rev rest ++ [rev (drop_zeros (rev last_seg))])
  end.

(** [IDA::Decode(encoded, frag_indices)]; [None]: an exception (fewer than
    [m_] fragments, a non-invertible denominator) or [back()] of an empty
    vector. *)
Definition Decode (ida : IDA) (encoded : Matrix) (frag_indices : Vector) : option Vector :=
  if Z.of_nat (List.length encoded) <? m_ ida then None
  else
    let first_m_frags := firstn (Z.to_nat (m_ ida)) frag_indices in
    match VandermondeInverse first_m_frags (p_ ida) with
    | None => None
    | Some inv_encoding_matrix =>
        let output_matrix := MatrixProduct inv_encoding_matrix encoded (p_ ida) in
        let num_cols := List.length (row_at output_matrix 0) in
        let num_rows := List.length output_matrix in
        let original_segments :=
          map (fun i => map (fun j => vec_at (row_at output_matrix j) i) (seq 0 num_rows))
              (seq 0 num_cols) in
        match strip_padding original_segments with
        | None => None
        | Some segs => Some (List.concat segs)
        end
    end.

(** The fragments [Decode] receives for the chosen 1-based indices: row
    [a - 1] of the encoded matrix for each index [a]. *)
Definition select_rows (encoded : Matrix) (idx : Vector) : Matrix :=
  map (fun a => row_at encoded (Z.to_nat (a - 1))) idx.

End IDA.

Module PolyZ.
Definition zsum (l : list Z) : Z := fold_right Z.add 0 l.
Fixpoint eval_lo (c : list Z) (x : Z) : Z :=
  match c with [] => 0 | a :: c' => a + x * eval_lo c' x end.
Definition eval_hi (c : list Z) (x : Z) : Z := fold_left (fun acc a => acc * x + a) c 0.
Fixpoint div_lin (c : list Z) (x : Z) : list Z * Z :=
  match c with
  | [] => ([], 0)
  | [c0] => ([], c0)
  | c0 :: c' => let (q, r) := div_lin c' x in (r :: q, c0 + x * r)
  end.
Fixpoint padd (c d : list Z) : list Z :=
  match c, d with
  | [], _ => d
  | _, [] => c
  | a :: c', b :: d' => (a + b) :: padd c' d'
  end.
Definition psub (c d : list Z) : list Z := padd c (map Z.opp d).
Definition mul_lin (c : list Z) (y : Z) : list Z := padd (0 :: c) (map (fun a => - y * a) c).
Fixpoint prod_lin (l : list Z) : list Z :=
  match l with [] => [1] | y :: l' => mul_lin (prod_lin l') y end.
Fixpoint prodX (l : list Z) (x : Z) : Z :=
  match l with [] => 1 | y :: l' => (x - y) * prodX l' x end.
Fixpoint esym_rev (i : nat) (rl : list Z) : Z :=
  match i, rl with
  | O, _ => 1
  | S _, [] => 0
  | S i', y :: rl' => esym_rev i rl' + y * esym_rev i' rl'
  end.
Definition esym (i : nat) (l : list Z) : Z := esym_rev i (rev l).
Fixpoint remove_nth (i : nat) (l : list Z) : list Z :=
  match i, l with
  | _, [] => []
  | O, _ :: l' => l'
  | S i', y :: l' => y :: remove_nth i' l'
  end.
Fixpoint sum_to (f : nat -> Z) (n : nat) : Z :=
  match n with O => 0 | S n' => sum_to f n' + f n' end.
Fixpoint prod_to (f : nat -> Z) (n : nat) : Z :=
  match n with O => 1 | S n' => prod_to f n' * f n' end.
Fixpoint hcoef (rl : list Z) : list Z :=
  match rl with
  | [] => [1]
  | y :: rl' => padd (hcoef rl' ++ [0]) (0 :: map (fun a => - y * a) (hcoef rl'))
  end.
Fixpoint dot (l1 l2 : list Z) : Z :=
  match l1, l2 with
  | a :: l1', b :: l2' => a * b + dot l1' l2'
  | _, _ => 0
  end.
(** [E_at B i j]: the [i]-th elementary symmetric value of the first [j]
    entries of [B]; [row_of B i] the row [i] of the table of
    [ElementarySymmetricTransform] over unbounded integers. *)
Definition E_at (B : list Z) (i j : nat) : Z := esym_rev i (rev (firstn j B)).
Definition row_of (B : list Z) (i : nat) : list Z := map (E_at B i) (seq 0 (S (List.length B))).
End PolyZ.

(* ------------------------------------------------------------------ *)
(** ** Finger table maintenance: [FingerTable] and [PopulateFingerTable] *)

Module FingerTableOps.
Import GenericKey ChordPeer.

(** [keys_in_chord_ = 16^32] and [num_entries_ = ChordKey::BinaryLen()]
    ([log2(16) * 32]), as the [FingerTable] constructors set them. *)
Definition keys_in_chord : Z := 16 ^ 32.
Definition num_entries : nat := 128.

(** [FingerTable::GetNthRange(n)]: both sums are [cpp_int]s reduced
    modulo [keys_in_chord_] and converted to [uint256_t]; the [- 1] of
    the upper bound is [uint256_t] arithmetic. *)
Definition GetNthRange (starting_key : Z) (n : nat) : Z * Z :=
  let lower_bound := u256 ((starting_key + 2 ^ Z.of_nat n) mod keys_in_chord) in
  let upper_bound := u256 (u256 ((starting_key + 2 ^ (Z.of_nat n + 1)) mod keys_in_chord) - 1) in
  (lower_bound, upper_bound).

(** [FingerTable::AddFinger]: [table_.push_back(finger)]. *)
Definition AddFinger (table : list Finger) (finger : Finger) : list Finger :=
  table ++ [finger].

(** [FingerTable::GetNthEntry(n)]: [table_.at(n).successor_]; [None] is
    the [std::out_of_range] exception (a negative [int] converts to a
    huge [size_t]). *)
Definition GetNthEntry (table : list Finger) (n : Z) : option RemotePeer :=
  if n <? 0 then None else option_map successor (nth_error table (Z.to_nat n)).

(** [FingerTable::EditNthFinger(n, succ)]: [table_.at(n).successor_ = succ]. *)
Definition EditNthFinger (table : list Finger) (n : Z) (succ : RemotePeer)
  : option (list Finger) :=
  if n <? 0 then None
  else MerkleTree.at_update (fun f => Some (mkFinger (lower_bound f) (upper_bound f) succ))
                            table (Z.to_nat n).

(** [FingerTable::ReplaceDeadPeer(dead_peer, replacement)]. *)
Definition ReplaceDeadPeer (table : list Finger) (dead_peer replacement : RemotePeer)
  : list Finger :=
  map (fun finger =>
         if rp_id (successor finger) =? rp_id dead_peer
         then mkFinger (lower_bound finger) (upper_bound finger) replacement
         else finger) table.

(** The successor the [initialize] branch of
    [AbstractChordPeer::PopulateFingerTable] adds for entry [i] with
    lower bound [lo]: the peer itself when [lo] is stored locally,
    otherwise the reply to a [GET_SUCC] request for [lo] sent to the
    predecessor ([i = 0]) or to the successor of entry [i - 1]. [None]:
    an exception ([predecessor_.Get()] unset, [GetNthEntry] out of range,
    a failed request). *)
Definition entry_successor (net : Net) (st : State) (i : nat) (lo : Z)
    (table : list Finger) : option RemotePeer :=
  if StoredLocally st lo then Some (ToRemotePeer st)
  else
    let peer_to_query :=
      match i with
      | O => predecessor_ st
      | S j => GetNthEntry table (Z.of_nat j)
      end in
    match peer_to_query with
    | None => None
    | Some peer => send_get_succ net peer lo
    end.

(** The [for] loop of [PopulateFingerTable(true)] from entry [i], with
    [count] entries left: the table it leaves and whether it ran to its
    end. *)
Fixpoint populate_loop (net : Net) (st : State) (i count : nat) (table : list Finger)
  : list Finger * bool :=
  match count with
  | O => (table, true)
  | S count' =>
      let (lo, hi) := GetNthRange (id_ st) i in
      match entry_successor net st i lo table with
      | None => (table, false)
      | Some succ => populate_loop net st (S i) count' (AddFinger table (mkFinger lo hi succ))
      end
  end.

(** [AbstractChordPeer::PopulateFingerTable(true)]: the table's
    [starting_key_] is [id_] ([finger_table_(id_)]). *)
Definition PopulateFingerTable_init (net : Net) (st : State) : list Finger * bool :=
  populate_loop net st 0 num_entries (finger_table_ st).

End FingerTableOps.

(* ------------------------------------------------------------------ *)
(** ** [RemotePeerList::GetIndex] and [LookupLiving] *)

Module RemotePeerListOps.
Import GenericKey ChordPeer.

(** [RemotePeerList::GetIndex(peer)]: the index of the first entry with
    [peer]'s ID, [-1] when there is none. *)
Fixpoint GetIndex (peers : list RemotePeer) (peer : RemotePeer) : Z :=
  match peers with
  | [] => -1
  | p :: rest =>
      if rp_id p =? rp_id peer then 0
      else let i := GetIndex rest peer in if i =? -1 then -1 else i + 1
  end.

(** [size_t] is 64 bits: an [int] compared with or reduced by
    [peers_.size()] is first converted to it. *)
Definition to_size_t (x : Z) : Z := x mod 2 ^ 64.

(** The [for] loop of [RemotePeerList::LookupLiving]:
    [for(int i = succ_ind; i % peers_.size() < succ_ind; ++i)], run for at
    most [fuel] iterations. *)
Fixpoint living_scan (net : Net) (peers : list RemotePeer) (succ_ind i : Z) (fuel : nat)
  : option RemotePeer :=
  match fuel with
  | O => None
  | S fuel' =>
      let at_i := to_size_t i mod Z.of_nat (List.length peers) in
      if at_i <? to_size_t succ_ind then
        match nth_error peers (Z.to_nat at_i) with
        | None => None
        | Some peer => if is_alive net peer then Some peer
                       else living_scan net peers succ_ind (i + 1) fuel'
        end
      else None
  end.

(** [RemotePeerList::LookupLiving(key)], the loop given [peers_.size()]
    iterations. *)
Definition LookupLiving (net : Net) (starting_key : Z) (peers : list RemotePeer) (key : Z)
  : option RemotePeer :=
  match RemotePeerList.Lookup starting_key peers key with
  | Some succ =>
      if is_alive net succ then Some succ
      else let succ_ind := GetIndex peers succ in
           living_scan net peers succ_ind succ_ind (List.length peers)
  | None => None
  end.

End RemotePeerListOps.

(* ------------------------------------------------------------------ *)
(** ** [DHashPeer]: routing and [Create] *)

Module DHashPeer.
Import GenericKey ChordPeer RemotePeerListOps.

(** A [DHashPeer]: the [AbstractChordPeer] state and the IDA parameters
    [n_], [m_], [p_] ([int] members). *)
Record DState := mkDState {
  chord_ : State;
  n_ : Z;
  m_ : Z;
  p_ : Z
}.

(** The constructor sets [n_(14)], [m_(10)], [p_(257)]. *)
Definition init_state (st : State) : DState := mkDState st 14 10 257.

(** [DHashPeer::SetIdaParams(n, m, p)]. *)
Definition SetIdaParams (ds : DState) (n m p : Z) : DState := mkDState (chord_ ds) n m p.

(** [DHashPeer::ForwardRequest] for a [GET_SUCC] request: as in
    [ChordPeer], except that a dead finger is replaced by
    [successors_.LookupLiving(key)], falling back to
    [successors_.GetNthEntry(0)] when it is alive. [None] is an exception
    ([Lookup] or [SendRequest] throwing, ["Lookup failed"]), or
    dereferencing [begin()] of an empty successor list. *)
Definition ForwardRequest (net : Net) (st : State) (key : Z) : option RemotePeer :=
  match FingerTable.Lookup (finger_table_ st) key with
  | None => None
  | Some key_succ =>
      let pred_case :=
        if rp_id key_succ =? id_ st then
          match predecessor_ st with
          | Some pr => Some (is_alive net pr)
          | None => None          (* [predecessor_.Get()] throws *)
          end
        else Some false in
      match pred_case with
      | None => None
      | Some true =>
          match predecessor_ st with
          | Some pr => send_get_succ net pr key
          | None => None
          end
      | Some false =>
          if negb (is_alive net key_succ) then
            match LookupLiving net (id_ st) (successors_ st) key with
            | Some s => send_get_succ net s key
            | None =>
                match successors_ st with
                | s0 :: _ => if is_alive net s0 then send_get_succ net s0 key else None
                | [] => None
                end
            end
          else send_get_succ net key_succ key
      end
  end.

(** [AbstractChordPeer::GetSuccessor] on a [DHashPeer]: the virtual
    [ForwardRequest] is [DHashPeer]'s. *)
Definition GetSuccessor (net : Net) (st : State) (key : Z) : option RemotePeer :=
  if StoredLocally st key then Some (ToRemotePeer st)
  else ForwardRequest net st key.

(** [AbstractChordPeer::GetNSuccessors]: [count] rounds of the [for]
    loop left, [previous_peer_id] and [succ_ids] as the loop keeps them;
    [None] is an exception thrown by [GetSuccessor]. *)
Fixpoint GetNSuccessors_loop (net : Net) (st : State) (count : nat)
    (previous_peer_id : Z) (succ_ids : list Z) : option (list RemotePeer) :=
  match count with
  | O => Some []
  | S count' =>
      match GetSuccessor net st (key_add previous_peer_id 1) with
      | None => None
      | Some ith_succ =>
          if existsb (Z.eqb (rp_id ith_succ)) succ_ids then Some []
          else
            match GetNSuccessors_loop net st count' (rp_id ith_succ)
                    (rp_id ith_succ :: succ_ids) with
            | None => None
            | Some rest => Some (ith_succ :: rest)
            end
      end
  end.

(** [GetNSuccessors(key, n)] with [int n]: [for(int i = 0; i < n; i++)]
    runs no round for [n <= 0]. *)
Definition GetNSuccessors (net : Net) (st : State) (key : Z) (n : Z)
  : option (list RemotePeer) :=
  GetNSuccessors_loop net st (Z.to_nat n) (key_sub key 1) [].

(** The network as [Create] sees it: the chord routing answers, and the
    [SUCCESS] field of the reply to a [CREATE_KEY] request (the remote
    [CreateKeyHandler] sets it to false when it throws, e.g. on a key it
    already holds). [IsAlive] gives the same answer to both calls made for
    one successor (in [Create] and in [SendRequest]). *)
Record DNet := mkDNet {
  chord_net : Net;
  create_ack : RemotePeer -> bool
}.

(** The exceptions [Create] can end with. *)
Inductive CreateError :=
| SuccLookupFailed      (* thrown by [GetNSuccessors] *)
| InsufficientSuccs     (* "Insufficient succs in list to complete request." *)
| KeyExists             (* [db_.Insert]: the key is already in the local db *)
| FailedRequest         (* [SendRequest]: "Failed request: ..." *)
| FragmentOutOfRange    (* [val.fragments_.at(i)] *)
| TooFewSuccs.          (* "Too few succs responded to requests." *)

(** Where a call of [Create] ends: the local database, [num_replicas],
    the [CREATE_KEY] requests sent (peer and fragment, in order) and the
    exception thrown, if any. *)
Record Outcome {Frag : Type} := mkOutcome {
  out_db : @MerkleTree.Node Frag;
  out_replicas : Z;
  out_sent : list (RemotePeer * Frag);
  out_error : option CreateError
}.
Arguments Outcome : clear implicits.
Arguments mkOutcome {Frag}.

Section Create.
Context {Frag : Type}.
Variable sha1 : string -> Z.

(** The storing loop of [DHashPeer::Create(key, val)], from index [i] of
    [succ_list] on; [frags] is [val.fragments_]. *)
Fixpoint Create_loop (dn : DNet) (self key : Z) (frags : list Frag)
    (i : nat) (succs : list RemotePeer) (db : @MerkleTree.Node Frag)
    (num_replicas : Z) (sent : list (RemotePeer * Frag)) : Outcome Frag :=
  match succs with
  | [] => mkOutcome db num_replicas sent None
  | succ :: rest =>
      if rp_id succ =? self then
        match nth_error frags i with
        | None => mkOutcome db num_replicas sent (Some FragmentOutOfRange)
        | Some f =>
            let (db', ok) := MerkleTree.Insert sha1 db key f in
            if ok then Create_loop dn self key frags (S i) rest db' (num_replicas + 1) sent
            else mkOutcome db' num_replicas sent (Some KeyExists)
        end
      else if is_alive (chord_net dn) succ then
        match nth_error frags i with
        | None => mkOutcome db num_replicas sent (Some FragmentOutOfRange)
        | Some f =>
            if create_ack dn succ
            then Create_loop dn self key frags (S i) rest db (num_replicas + 1)
                   (sent ++ [(succ, f)])
            else mkOutcome db num_replicas (sent ++ [(succ, f)]) (Some FailedRequest)
        end
      else Create_loop dn self key frags (S i) rest db num_replicas sent
  end.

(** [DHashPeer::Create(const ChordKey &key, const DataBlock &val)] on a
    peer [ds]: [GetNSuccessors(key, n_)], then [succ_list.size() < m_]
    compares as [size_t] ([m_] converted), [num_replicas < m_] as [int]. *)
Definition Create (dn : DNet) (ds : DState) (key : Z) (frags : list Frag)
    (db : @MerkleTree.Node Frag) : Outcome Frag :=
  let st := chord_ ds in
  match GetNSuccessors (chord_net dn) st key (n_ ds) with
  | None => mkOutcome db 0 [] (Some SuccLookupFailed)
  | Some succ_list =>
      if Z.of_nat (List.length succ_list) <? to_size_t (m_ ds)
      then mkOutcome db 0 [] (Some InsufficientSuccs)
      else
        let o := Create_loop dn (id_ st) key frags 0 succ_list db 0 [] in
        match out_error o with
        | Some _ => o
        | None =>
            if out_replicas o <? m_ ds
            then mkOutcome (out_db o) (out_replicas o) (out_sent o) (Some TooFewSuccs)
            else o
        end
  end.

(** How one successor answers the store: [Stored] (the local insert
    returns, or a live peer acknowledges), [Skipped] (a peer found dead)
    or [Refused] (the key is already in the local db, or a live peer's
    request fails). *)
Inductive Answer := Stored | Skipped | Refused.

Definition answer (dn : DNet) (self key : Z) (db : @MerkleTree.Node Frag)
    (s : RemotePeer) : Answer :=
  if rp_id s =? self then
    match MerkleTree.Lookup db key with None => Stored | Some _ => Refused end
  else if is_alive (chord_net dn) s then
    (if create_ack dn s then Stored else Refused)
  else Skipped.

Definition is_stored (a : Answer) : bool :=
  match a with Stored => true | _ => false end.

Definition is_refused (a : Answer) : bool :=
  match a with Refused => true | _ => false end.

(** The [CREATE_KEY] requests a run over [ps] (successor, fragment) sends:
    one to each live peer other than the peer itself. *)
Definition remote_stores (dn : DNet) (self : Z) (ps : list (RemotePeer * Frag))
  : list (RemotePeer * Frag) :=
  filter (fun p => negb (rp_id (fst p) =? self) && is_alive (chord_net dn) (fst p)) ps.

End Create.

End DHashPeer.

(* ------------------------------------------------------------------ *)
(** ** [data_fragment]: Base64 and byte serialization, [Split] *)

Module DataFragment.
Import IDA.

(** [BASE_64_ALPHABET]: a [char[65]] whose last element is the string's
    terminating NUL. [None]: an index outside the array (undefined
    behaviour). *)
Definition BASE_64_ALPHABET : string :=
  "ABCDEFGHIJKLMNOPQRSTUVWXYZabcdefghijklmnopqrstuvwxyz0123456789+/".

Definition alphabet_at (i : Z) : option ascii :=
  if i <? 0 then None
  else if i =? 64 then Some (ascii_of_nat 0)
  else String.get (Z.to_nat i) BASE_64_ALPHABET.

(** [BASE64_CHAR_TO_INT]; [at] of a missing character throws ([None]). *)
Definition BASE64_CHAR_TO_INT : list (ascii * Z) := [
  ("A"%char, 0); ("B"%char, 1); ("C"%char, 2); ("D"%char, 3); ("E"%char, 4); ("F"%char, 5);
  ("G"%char, 6); ("H"%char, 7); ("I"%char, 8); ("J"%char, 9); ("K"%char, 10); ("L"%char, 11);
  ("M"%char, 12); ("N"%char, 13); ("O"%char, 14); ("P"%char, 15); ("Q"%char, 16); ("R"%char, 17);
  ("S"%char, 18); ("T"%char, 19); ("U"%char, 20); ("V"%char, 21); ("W"%char, 22); ("X"%char, 23);
  ("Y"%char, 24); ("Z"%char, 25); ("a"%char, 26); ("b"%char, 27); ("c"%char, 28); ("d"%char, 29);
  ("e"%char, 30); ("f"%char, 31); ("g"%char, 32); ("h"%char, 33); ("i"%char, 34); ("j"%char, 35);
  ("k"%char, 36); ("l"%char, 37); ("m"%char, 38); ("n"%char, 39); ("o"%char, 40); ("p"%char, 41);
  ("q"%char, 42); ("r"%char, 43); ("s"%char, 44); ("t"%char, 45); ("u"%char, 46); ("v"%char, 47);
  ("w"%char, 48); ("x"%char, 49); ("y"%char, 50); ("z"%char, 51); ("0"%char, 52); ("1"%char, 53);
  ("2"%char, 54); ("3"%char, 55); ("4"%char, 56); ("5"%char, 57); ("6"%char, 58); ("7"%char, 59);
  ("8"%char, 60); ("9"%char, 61); ("+"%char, 62); ("/"%char, 63)
].

Definition char_to_int (c : ascii) : option Z :=
  match find (fun e => Ascii.eqb (fst e) c) BASE64_CHAR_TO_INT with
  | Some e => Some (snd e)
  | None => None
  end.

(** [(int) pow(64, i)]: exact for [0 <= i <= 5]; for a negative [i] the
    fraction truncates to [0]; for [i >= 6] the [double] exceeds [int] and
    the conversion is undefined ([None]). *)
Definition pow64_int (i : Z) : option Z :=
  if i <? 0 then Some 0 else if i <=? 5 then Some (64 ^ i) else None.

(** The inner loop of [SerializeToBase64] for one value: digits
    [i = k - 1, ..., 0] with [k] left, [/] truncating toward zero. *)
Fixpoint ser_digits (val : Z) (k : nat) : option string :=
  match k with
  | O => Some EmptyString
  | S k' =>
      match pow64_int (Z.of_nat k') with
      | None => None
      | Some w =>
          match alphabet_at (Z.quot val w) with
          | None => None
          | Some c =>
              match ser_digits (val - Z.quot val w * w) k' with
              | None => None
              | Some rest => Some (String c rest)
              end
          end
      end
  end.

(** [SerializeToBase64(frag, num_digits)]; [None] is the ["Cannot
    encode"] exception or undefined behaviour. *)
Fixpoint ser_values (frag : Vector) (max_int : Z) (num_digits : Z) : option string :=
  match frag with
  | [] => Some EmptyString
  | val :: rest =>
      if max_int <? val then None
      else match ser_digits val (Z.to_nat num_digits), ser_values rest max_int num_digits with
           | Some s1, Some s2 => Some (String.append s1 s2)
           | _, _ => None
           end
  end.

Definition SerializeToBase64 (frag : Vector) (num_digits : Z) : option string :=
  match pow64_int num_digits with
  | None => None
  | Some max_int => ser_values frag max_int num_digits
  end.

(** [BASE64_CHAR_TO_INT.at(serialized_frag[k])]: [operator[]] at
    [length()] reads the terminating NUL, missing from the map, and past
    it is undefined; both are [None]. *)
Definition digit_at (s : string) (k : nat) : option Z :=
  match String.get k s with
  | None => None
  | Some c => char_to_int c
  end.

(** The inner loop of [ParseFromBase64]: [j] counts up, [k] iterations
    are left; [el += digit * (int) pow(64, num_digits - j - 1)] overflowing
    [int] is undefined ([None]). *)
Fixpoint parse_el (s : string) (i d j k : nat) (el : Z) : option Z :=
  match k with
  | O => Some el
  | S k' =>
      match digit_at s (i + j) with
      | None => None
      | Some digit =>
          match pow64_int (Z.of_nat d - Z.of_nat j - 1) with
          | None => None
          | Some w =>
              let el' := el + digit * w in
              if (el' <? - 2 ^ 31) || (2 ^ 31 - 1 <? el') then None
              else parse_el s i d (S j) k' el'
          end
      end
  end.

(** The outer loop, [i] advancing by [d >= 1]: [length()] iterations are
    enough. *)
Fixpoint parse_loop (s : string) (d i fuel : nat) : option Vector :=
  match fuel with
  | O => Some []
  | S fuel' =>
      if Nat.ltb i (String.length s) then
        match parse_el s i d 0 d 0 with
        | None => None
        | Some el =>
            match parse_loop s d (i + d) fuel' with
            | None => None
            | Some rest => Some (el :: rest)
            end
        end
      else Some []
  end.

(** [ParseFromBase64(serialized_frag, num_digits)]. With [num_digits = 0]
    the [reserve(length() / num_digits)] divides by zero; with a negative
    one the first value is [0] and [i] then compares, as a [size_t],
    above [length()]. *)
Definition ParseFromBase64 (s : string) (num_digits : Z) : option Vector :=
  if num_digits =? 0 then None
  else if num_digits <? 0 then
    (if Nat.eqb (String.length s) 0 then Some [] else Some [0])
  else parse_loop s (Z.to_nat num_digits) 0 (String.length s).

(** [SerializeToBytes(frag)]: [(char) val] pushed into a
    [vector<unsigned char>] keeps the low 8 bits. *)
Definition SerializeToBytes (frag : Vector) : string :=
  string_of_list_ascii (map (fun val => ascii_of_nat (Z.to_nat (val mod 256))) frag).

(** [ParseFromBytes(serialized_frag)]: each [unsigned char] as an [int]. *)
Definition ParseFromBytes (serialized_frag : string) : Vector :=
  map (fun c => Z.of_nat (nat_of_ascii c)) (list_ascii_of_string serialized_frag).

(** [s.find(delimiter, pos)] for a non-empty [delimiter]: the first
    occurrence at or after [pos]; [None] is [npos]. *)
Definition find_from (s delimiter : string) (pos : nat) : option nat :=
  String.index pos delimiter s.

(** The [while] loop of [Split]: each pass moves [pos_start] past a
    non-empty delimiter, so [length() + 1] passes are enough. *)
Fixpoint split_while (s delimiter : string) (pos_start fuel : nat) : list string :=
  match fuel with
  | O => []
  | S fuel' =>
      match find_from s delimiter pos_start with
      | Some pos_end =>
          String.substring pos_start (pos_end - pos_start) s
            :: split_while s delimiter (pos_end + String.length delimiter) fuel'
      | None => [String.substring pos_start (String.length s - pos_start) s]
      end
  end.

(** [Split(s, delimiter)]; with an empty delimiter [find] returns
    [pos_start] for ever and the loop never ends ([None]). *)
Definition Split (s delimiter : string) : option (list string) :=
  match delimiter with
  | EmptyString => None
  | _ => Some (split_while s delimiter 0 (S (String.length s)))
  end.

End DataFragment.

(* ================================================================== *)
(** * Proofs *)
(* ================================================================== *)

Module KeyFacts.
Import GenericKey.

Lemma keys_in_ring_eq : keys_in_ring = 2 ^ 128.
Proof. reflexivity. Qed.

Lemma keys_in_ring_pos : 0 < keys_in_ring.
Proof. rewrite keys_in_ring_eq. lia. Qed.

Lemma mod_ring_small x : in_ring x -> x mod keys_in_ring = x.
Proof. intros H. apply Z.mod_small. exact H. Qed.

(** On reduced values the reductions of [InBetween] are identities. *)
Lemma InBetween_reduced k lo hi inclusive :
  in_ring k -> in_ring lo -> in_ring hi ->
  InBetween k lo hi inclusive = in_between_cases k lo hi inclusive.
Proof.
  intros Hk Hlo Hhi. unfold InBetween, in_between_cases.
  rewrite !mod_ring_small by assumption. reflexivity.
Qed.

(** Inclusive [InBetween] is membership in the closed clockwise arc. *)
Lemma InBetween_cw_closed k lo hi :
  in_ring k -> in_ring lo -> in_ring hi ->
  InBetween k lo hi true = cw_closed lo hi k.
Proof.
  intros Hk Hlo Hhi. rewrite InBetween_reduced by assumption.
  unfold in_between_cases, cw_closed.
  destruct (Z.eqb_spec lo hi); [reflexivity|].
  destruct (Z.ltb_spec lo hi); [reflexivity|].
  destruct (Z.ltb_spec hi k), (Z.ltb_spec k lo), (Z.leb_spec lo k), (Z.leb_spec k hi);
    simpl; try reflexivity; lia.
Qed.

(** The arc from [id + 1] to [id] is the whole ring. *)
Lemma InBetween_full_ring id k :
  in_ring id -> InBetween k (key_add id 1) id true = true.
Proof.
  intros Hid. unfold in_ring in Hid. rewrite keys_in_ring_eq in Hid.
  unfold InBetween, key_add, u256. rewrite keys_in_ring_eq.
  rewrite (Z.mod_small (id + 1) (2 ^ 256)) by lia.
  pose proof (Z.mod_pos_bound k (2 ^ 128) ltac:(lia)).
  destruct (Z.eq_dec (id + 1) (2 ^ 128)) as [E|E].
  - rewrite E, Z_mod_same_full.
    destruct (Z.eqb_spec 0 id); [lia|].
    destruct (Z.ltb_spec 0 id); [|lia].
    rewrite Zmod_0_l.
    destruct (Z.leb_spec 0 (k mod 2 ^ 128)), (Z.leb_spec (k mod 2 ^ 128) id);
      simpl; try reflexivity; lia.
  - rewrite (Z.mod_small (id + 1)) by lia.
    destruct (Z.eqb_spec (id + 1) id); [lia|].
    destruct (Z.ltb_spec (id + 1) id); [lia|].
    rewrite (Z.mod_small id) by lia.
    rewrite (Z.mod_small (id + 1)) by lia.
    destruct (Z.ltb_spec id (k mod 2 ^ 128)), (Z.ltb_spec (k mod 2 ^ 128) (id + 1));
      simpl; try reflexivity; lia.
Qed.

(** [operator +] is addition modulo [N] on non-negative values. *)
Lemma key_add_mod a b :
  0 <= a -> 0 <= b -> key_add a b = (a + b) mod keys_in_ring.
Proof.
  intros Ha Hb. unfold key_add, u256. rewrite keys_in_ring_eq.
  apply Z.mod_mod_divide.
  exists (2 ^ 128). rewrite <- Z.pow_add_r by lia. reflexivity.
Qed.

(** [operator -] is subtraction modulo [N] on distinct keys. *)
Lemma key_sub_mod_distinct a b :
  in_ring a -> in_ring b -> a <> b ->
  key_sub a b = (a - b + keys_in_ring) mod keys_in_ring.
Proof.
  unfold in_ring. intros Ha Hb Hab. unfold key_sub.
  destruct (Z.ltb_spec 0 (a - b)).
  - rewrite <- (Z.mod_small (a - b) keys_in_ring) at 1 by lia.
    rewrite <- Z.add_mod_idemp_r by lia. rewrite Z_mod_same_full, Z.add_0_r.
    reflexivity.
  - rewrite Z.mod_small by lia. lia.
Qed.

End KeyFacts.

Module KeyClaims.
Import GenericKey KeyFacts.

(** C3: on values already reduced modulo [N], [InBetween] is the total
    function given by the case analysis of the specification: for
    [lo = hi] it is [k = hi] whatever [inclusive] is; for [lo < hi] it is
    [lo <= k <= hi] (inclusive) or [lo < k < hi] (exclusive); for
    [lo > hi] it is the negation of [hi < k < lo] (inclusive) or of
    [hi <= k <= lo] (exclusive). In particular
    [in_between(0, N - 1, 1, true)] holds. *)
Theorem InBetween_case_analysis k lo hi inclusive :
  in_ring k -> in_ring lo -> in_ring hi ->
  InBetween k lo hi inclusive = in_between_cases k lo hi inclusive /\
  InBetween 0 (keys_in_ring - 1) 1 true = true.
Proof.
  intros Hk Hlo Hhi. split.
  - apply InBetween_reduced; assumption.
  - vm_compute. reflexivity.
Qed.

Lemma InBetween_case_analysis_witness :
  InBetween 3 7 2 false = in_between_cases 3 7 2 false /\
  InBetween 0 (keys_in_ring - 1) 1 true = true.
Proof.
  apply InBetween_case_analysis; unfold in_ring; rewrite keys_in_ring_eq; lia.
Defined.

(** C8: [operator -] on two equal keys yields [N] itself, not [0]: the
    test [diff > 0] sends [diff = 0] to [keys_in_ring_ + diff]. The
    result is outside the ring [[0, N)]. *)
Theorem key_sub_self_is_N a :
  key_sub a a = keys_in_ring /\ ~ in_ring (key_sub a a).
Proof.
  assert (H : key_sub a a = keys_in_ring).
  { unfold key_sub. rewrite Z.sub_diag. simpl. lia. }
  rewrite H. split; [reflexivity|]. unfold in_ring. lia.
Qed.

End KeyClaims.

Module RoutingClaims.
Import GenericKey KeyFacts ChordPeer.

(** C4: whenever [k] lies in the closed clockwise arc
    [[min_key_, id_]], [GetSuccessor k] is the peer itself, whatever the
    finger table, the successor list, the predecessor and the network
    say (the ownership test comes before any of them is read); and after
    [StartChord] ([min_key_ = id_ + 1]) the peer is the successor of
    every key. *)
Theorem GetSuccessor_local_first (net : Net) (st : State) :
  in_ring (min_key_ st) -> in_ring (id_ st) ->
  (forall k, in_ring k -> cw_closed (min_key_ st) (id_ st) k = true ->
             GetSuccessor net st k = Some (ToRemotePeer st)) /\
  (forall k, GetSuccessor net (StartChord st) k =
             Some (ToRemotePeer (StartChord st))).
Proof.
  intros Hmin Hid. split.
  - intros k Hk Harc. unfold GetSuccessor, StoredLocally.
    rewrite InBetween_cw_closed by assumption. rewrite Harc. reflexivity.
  - intros k. unfold GetSuccessor, StoredLocally. simpl.
    rewrite InBetween_full_ring by assumption. reflexivity.
Qed.

Definition peer_at (id : Z) : RemotePeer := mkRemotePeer id (id - 9) "127.0.0.1" 7300.

Definition sample_state : State :=
  mkState 40 "127.0.0.1" 7300 30
          [mkFinger 41 41 (peer_at 90); mkFinger 42 43 (peer_at 90)]
          [peer_at 90] (Some (peer_at 29)).

Definition dead_net : Net := mkNet (fun _ => false) (fun _ _ => None).

Lemma GetSuccessor_local_first_witness :
  GetSuccessor dead_net sample_state 35 = Some (ToRemotePeer sample_state) /\
  GetSuccessor dead_net (StartChord sample_state) 1000 =
    Some (ToRemotePeer (StartChord sample_state)).
Proof.
  assert (Hr : forall x, 0 <= x <= 1000 -> in_ring x)
    by (intros x Hx; unfold in_ring; rewrite keys_in_ring_eq; lia).
  destruct (GetSuccessor_local_first dead_net sample_state
              (Hr 30 ltac:(lia)) (Hr 40 ltac:(lia))) as [H1 H2].
  split.
  - apply H1; [apply Hr; lia | reflexivity].
  - apply H2.
Defined.

End RoutingClaims.

Module FingerClaims.
Import GenericKey KeyFacts FingerTable.

Definition new_peer : RemotePeer := mkRemotePeer 10 5 "127.0.0.1" 7302.
Definition old_peer : RemotePeer := mkRemotePeer 20 11 "127.0.0.1" 7300.

(** C7, refuted: a finger whose lower bound is exactly [p.min_key] is
    redirected to [p], although [p.min_key] is not in
    [(p.min_key, p.id]]. *)
Lemma AdjustFingers_min_key_included :
  rp_min_key new_peer = 5 /\ rp_id new_peer = 10 /\
  AdjustFingers [mkFinger 5 5 old_peer] new_peer = [mkFinger 5 5 new_peer] /\
  AdjustFingers [mkFinger 5 5 old_peer] new_peer <> [mkFinger 5 5 old_peer].
Proof.
  split; [reflexivity|]. split; [reflexivity|]. split; [reflexivity|].
  vm_compute. intros H. discriminate H.
Qed.

(** C7, as the code has it: [AdjustFingers p] replaces the successor of
    exactly the fingers whose lower bound lies in the closed clockwise arc
    [[p.min_key, p.id]] (both ends included; when [p.min_key = p.id] only
    [p.id] itself) and leaves every other finger as it was. *)
Theorem AdjustFingers_closed_arc (table : list Finger) (p : RemotePeer) :
  in_ring (rp_min_key p) -> in_ring (rp_id p) ->
  Forall (fun f => in_ring (lower_bound f)) table ->
  List.length (AdjustFingers table p) = List.length table /\
  forall i f, nth_error table i = Some f ->
    nth_error (AdjustFingers table p) i =
      Some (if cw_closed (rp_min_key p) (rp_id p) (lower_bound f)
            then mkFinger (lower_bound f) (upper_bound f) p else f).
Proof.
  intros Hmin Hid Hall. split.
  - unfold AdjustFingers. apply length_map.
  - intros i f Hf. unfold AdjustFingers. rewrite nth_error_map, Hf. simpl.
    rewrite InBetween_cw_closed; [reflexivity| |assumption|assumption].
    rewrite Forall_forall in Hall. apply Hall. eapply nth_error_In. exact Hf.
Qed.

Lemma AdjustFingers_closed_arc_witness :
  List.length (AdjustFingers [mkFinger 5 5 old_peer; mkFinger 15 15 old_peer] new_peer) = 2%nat /\
  nth_error (AdjustFingers [mkFinger 5 5 old_peer; mkFinger 15 15 old_peer] new_peer) 0 =
    Some (mkFinger 5 5 new_peer).
Proof.
  assert (Hr : forall x, 0 <= x <= 100 -> in_ring x)
    by (intros x Hx; unfold in_ring; rewrite keys_in_ring_eq; lia).
  destruct (AdjustFingers_closed_arc [mkFinger 5 5 old_peer; mkFinger 15 15 old_peer] new_peer
              (Hr 5 ltac:(lia)) (Hr 10 ltac:(lia))
              ltac:(repeat constructor; simpl; apply Hr; lia)) as [H1 H2].
  split; [exact H1|].
  apply (H2 0%nat (mkFinger 5 5 old_peer)). reflexivity.
Defined.

End FingerClaims.

Module SuccListFacts.
Import GenericKey KeyFacts RemotePeerList.

Ltac goal_cmp_cases :=
  repeat match goal with
  | |- context[?a =? ?b] => destruct (Z.eqb_spec a b)
  | |- context[?a <=? ?b] => destruct (Z.leb_spec a b)
  | |- context[?a <? ?b] => destruct (Z.ltb_spec a b)
  end.

Lemma dist_cases s x :
  in_ring s -> in_ring x ->
  (s <= x /\ dist s x = x - s) \/ (x < s /\ dist s x = x - s + keys_in_ring).
Proof.
  unfold in_ring, dist. intros Hs Hx. destruct (Z.leb_spec s x).
  - left. split; [lia|]. apply Z.mod_small. lia.
  - right. split; [lia|].
    rewrite <- (Z.mod_add (x - s) 1 keys_in_ring) by lia.
    apply Z.mod_small. lia.
Qed.

Lemma dist_self s : dist s s = 0.
Proof. unfold dist. rewrite Z.sub_diag. reflexivity. Qed.

Lemma dist_range s x : in_ring s -> in_ring x -> 0 <= dist s x < keys_in_ring.
Proof.
  intros Hs Hx. pose proof Hs as Hs'. pose proof Hx as Hx'. unfold in_ring in *.
  destruct (dist_cases s x Hs' Hx') as [[H E]|[H E]]; rewrite E; lia.
Qed.

Lemma dist_inj s x y :
  in_ring s -> in_ring x -> in_ring y -> dist s x = dist s y -> x = y.
Proof.
  intros Hs Hx Hy E.
  destruct (dist_cases s x Hs Hx) as [[H1 E1]|[H1 E1]];
  destruct (dist_cases s y Hs Hy) as [[H2 E2]|[H2 E2]];
  unfold in_ring in *; lia.
Qed.

(** Along a list sorted by distance from [s], the inclusive [InBetween]
    test of the scan reduces to a comparison of distances. *)
Lemma arc_dist s lo hi x :
  in_ring s -> in_ring lo -> in_ring hi -> in_ring x ->
  dist s lo < dist s hi -> dist s lo <= dist s x ->
  InBetween x lo hi true = (dist s x <=? dist s hi).
Proof.
  intros Hs Hlo Hhi Hx Hlh Hlx.
  rewrite InBetween_cw_closed by assumption.
  destruct (dist_cases s lo Hs Hlo) as [[H1 E1]|[H1 E1]]; rewrite E1 in *;
  destruct (dist_cases s hi Hs Hhi) as [[H2 E2]|[H2 E2]]; rewrite E2 in *;
  destruct (dist_cases s x Hs Hx) as [[H3 E3]|[H3 E3]]; rewrite E3 in *;
  unfold in_ring in *; unfold cw_closed; goal_cmp_cases; simpl;
  first [reflexivity | exfalso; lia].
Qed.

Lemma has_id_spec id peers :
  has_id id peers = true <-> exists p, In p peers /\ rp_id p = id.
Proof.
  unfold has_id. rewrite existsb_exists. split.
  - intros [p [Hp E]]. exists p. split; [exact Hp|]. apply Z.eqb_eq. exact E.
  - intros [p [Hp E]]. exists p. split; [exact Hp|]. apply Z.eqb_eq. exact E.
Qed.

Lemma has_id_cons id p rest :
  has_id id (p :: rest) = (rp_id p =? id) || has_id id rest.
Proof. reflexivity. Qed.

Lemma increasing_weaken s d d' l :
  increasing_from s d l -> d' <= d -> increasing_from s d' l.
Proof.
  destruct l as [|p rest]; simpl; [trivial|]. intros [H1 H2] Hd. split; [lia|exact H2].
Qed.

Lemma increasing_below s d l p :
  increasing_from s d l -> In p l -> d < dist s (rp_id p).
Proof.
  revert d. induction l as [|q rest IH]; simpl; [tauto|].
  intros d [Hq Hrest] [E|Hin].
  - subst. exact Hq.
  - specialize (IH _ Hrest Hin). lia.
Qed.

Lemma increasing_firstn s d l k :
  increasing_from s d l -> increasing_from s d (firstn k l).
Proof.
  revert d k. induction l as [|p rest IH]; intros d k H.
  - rewrite firstn_nil. exact I.
  - destruct k; simpl; [exact I|]. destruct H as [H1 H2]. split; [exact H1|].
    apply IH. exact H2.
Qed.

Lemma Forall_firstn' {A} (P : A -> Prop) k l : Forall P l -> Forall P (firstn k l).
Proof.
  revert k. induction l as [|x l IH]; intros k H.
  - rewrite firstn_nil. constructor.
  - destruct k; simpl; constructor; inversion H; subst; auto.
Qed.

Lemma scan_dup s c prev peers :
  in_ring s -> in_ring c -> in_ring prev ->
  Forall (fun p => in_ring (rp_id p)) peers ->
  increasing_from s (dist s prev) peers ->
  dist s prev <= dist s c ->
  has_id c peers = true -> scan c prev peers = Dup.
Proof.
  revert prev. induction peers as [|p rest IH]; intros prev Hs Hc Hprev Hall Hinc Hle Hid.
  - discriminate Hid.
  - simpl. inversion Hall as [|? ? Hp Hrest]; subst. destruct Hinc as [Hlt Hinc].
    rewrite has_id_cons in Hid.
    destruct (Z.eqb_spec c (rp_id p)) as [E|Ne]; [reflexivity|].
    assert (Hin : has_id c rest = true).
    { destruct (Z.eqb_spec (rp_id p) c); [congruence|exact Hid]. }
    assert (Hgt : dist s (rp_id p) < dist s c).
    { apply has_id_spec in Hin. destruct Hin as [q [Hq Eq]]. subst c.
      eapply increasing_below; eassumption. }
    rewrite (arc_dist s prev (rp_id p) c) by (auto; lia).
    destruct (Z.leb_spec (dist s c) (dist s (rp_id p))); [lia|].
    rewrite (IH (rp_id p)) by (auto; lia). reflexivity.
Qed.

Lemma scan_fresh s c prev peers :
  in_ring s -> in_ring (rp_id c) -> in_ring prev ->
  Forall (fun p => in_ring (rp_id p)) peers ->
  increasing_from s (dist s prev) peers ->
  dist s prev <= dist s (rp_id c) ->
  has_id (rp_id c) peers = false ->
  match scan (rp_id c) prev peers with
  | Dup => False
  | At n => insert_at n c peers = place s c peers /\ (n < List.length peers)%nat
  | NotFound => place s c peers = peers ++ [c]
  end.
Proof.
  revert prev. induction peers as [|p rest IH]; intros prev Hs Hc Hprev Hall Hinc Hle Hid.
  - reflexivity.
  - simpl. inversion Hall as [|? ? Hp Hrest]; subst. destruct Hinc as [Hlt Hinc].
    rewrite has_id_cons in Hid. apply orb_false_iff in Hid. destruct Hid as [Hpc Hid].
    destruct (Z.eqb_spec (rp_id c) (rp_id p)) as [E|Ne].
    { rewrite E, Z.eqb_refl in Hpc. discriminate Hpc. }
    assert (Hd : dist s (rp_id c) <> dist s (rp_id p)).
    { intros E. apply Ne. apply (dist_inj s); assumption. }
    rewrite (arc_dist s prev (rp_id p) (rp_id c)) by (auto; lia).
    destruct (Z.leb_spec (dist s (rp_id c)) (dist s (rp_id p))).
    + destruct (Z.ltb_spec (dist s (rp_id c)) (dist s (rp_id p))); [|lia].
      simpl. split; [reflexivity|lia].
    + destruct (Z.ltb_spec (dist s (rp_id c)) (dist s (rp_id p))); [lia|].
      specialize (IH (rp_id p) Hs Hc Hp Hrest Hinc ltac:(lia) Hid).
      destruct (scan (rp_id c) (rp_id p) rest) as [|n|].
      * exact IH.
      * destruct IH as [IH1 IH2]. simpl. rewrite IH1. split; [reflexivity|lia].
      * rewrite IH. reflexivity.
Qed.

Lemma place_increasing s c d l :
  in_ring s -> in_ring (rp_id c) ->
  Forall (fun p => in_ring (rp_id p)) l ->
  increasing_from s d l -> d < dist s (rp_id c) ->
  has_id (rp_id c) l = false ->
  increasing_from s d (place s c l).
Proof.
  revert d. induction l as [|p rest IH]; intros d Hs Hc Hall Hinc Hd Hid.
  - simpl. split; [exact Hd|exact I].
  - inversion Hall as [|? ? Hp Hrest]; subst. destruct Hinc as [Hlt Hinc].
    rewrite has_id_cons in Hid. apply orb_false_iff in Hid. destruct Hid as [Hpc Hid].
    simpl. destruct (Z.ltb_spec (dist s (rp_id c)) (dist s (rp_id p))).
    + simpl. repeat split; assumption.
    + split; [exact Hlt|]. apply IH; auto.
      assert (dist s (rp_id c) <> dist s (rp_id p)).
      { intros E. apply (dist_inj s) in E; auto. rewrite E, Z.eqb_refl in Hpc. discriminate. }
      lia.
Qed.

Lemma place_Forall s c l P :
  P c -> Forall P l -> Forall P (place s c l).
Proof.
  intros Hc. induction l as [|p rest IH]; intros Hall; simpl.
  - constructor; [exact Hc|constructor].
  - inversion Hall; subst. destruct (_ <? _); constructor; auto.
Qed.

Lemma place_length s c l : List.length (place s c l) = S (List.length l).
Proof.
  induction l as [|p rest IH]; simpl; [reflexivity|].
  destruct (_ <? _); simpl; [reflexivity|]. rewrite IH. reflexivity.
Qed.

Lemma insert_at_kept {A} n (c : A) l k :
  (n < k)%nat -> (n <= List.length l)%nat -> In c (firstn k (insert_at n c l)).
Proof.
  revert l k. induction n as [|n IH]; intros l k Hk Hl.
  - destruct k; [lia|]. simpl. left. reflexivity.
  - destruct l as [|y l]; simpl in Hl; [lia|]. destruct k; [lia|].
    simpl. right. apply IH; lia.
Qed.

Lemma removelast_firstn {A} (l : list A) :
  removelast l = firstn (List.length l - 1) l.
Proof.
  induction l as [|x l IH]; [reflexivity|].
  destruct l as [|y l]; [reflexivity|].
  change (removelast (x :: y :: l)) with (x :: removelast (y :: l)).
  rewrite IH. simpl. rewrite Nat.sub_0_r. reflexivity.
Qed.

Lemma has_id_In id c l : rp_id c = id -> In c l -> has_id id l = true.
Proof. intros E H. apply has_id_spec. exists c. auto. Qed.

Lemma Delete_increasing s d l x :
  increasing_from s d l -> increasing_from s d (Delete l x).
Proof.
  revert d. induction l as [|p rest IH]; intros d Hinc; simpl; [exact I|].
  destruct Hinc as [Hlt Hinc]. destruct (rp_id p =? x).
  - eapply increasing_weaken; [exact Hinc|lia].
  - split; [exact Hlt|]. apply IH. exact Hinc.
Qed.

Lemma Delete_Forall (P : RemotePeer -> Prop) l x : Forall P l -> Forall P (Delete l x).
Proof.
  induction l as [|p rest IH]; intros H; simpl; [constructor|].
  inversion H; subst. destruct (rp_id p =? x); auto.
Qed.

Lemma Delete_length l x : (List.length (Delete l x) <= List.length l)%nat.
Proof.
  induction l as [|p rest IH]; simpl; [lia|]. destruct (rp_id p =? x); simpl; lia.
Qed.

Lemma place_In s c l : In c (place s c l).
Proof.
  induction l as [|p rest IH]; simpl; [left; reflexivity|].
  destruct (_ <? _); [left; reflexivity|right; exact IH].
Qed.

Lemma Insert_nonempty K s peers c :
  peers <> [] -> rp_port c <> 0 ->
  Insert K s peers c =
    match scan (rp_id c) s peers with
    | Dup => Some (peers, false)
    | At n =>
        let peers' := insert_at n c peers in
        if Nat.ltb K (List.length peers')
        then Some (removelast peers', true)
        else Some (peers', true)
    | NotFound =>
        if Nat.ltb (List.length peers) K
        then Some (peers ++ [c], true)
        else Some (peers, false)
    end.
Proof.
  intros Hne Hport. unfold Insert.
  destruct (Z.eqb_spec (rp_port c) 0); [contradiction|].
  destruct peers; [congruence|reflexivity].
Qed.

End SuccListFacts.

Module SuccListClaims.
Import GenericKey KeyFacts RemotePeerList SuccListFacts.

Definition self_peer : RemotePeer := mkRemotePeer 10 31 "127.0.0.1" 7301.
Definition peer20 : RemotePeer := mkRemotePeer 20 11 "127.0.0.1" 7302.
Definition peer25 : RemotePeer := mkRemotePeer 25 21 "127.0.0.1" 7303.
Definition peer30 : RemotePeer := mkRemotePeer 30 26 "127.0.0.1" 7304.

(** C6, refuted: with capacity [2] and owner [10], the sorted list
    [[20]] accepts a candidate carrying the owner's own ID and puts it at
    the front, which breaks the order from [self_id + 1]. *)
Lemma Insert_self_breaks_order :
  succ_list_ok 2 10 [peer20] /\
  Insert 2 10 [peer20] self_peer = Some ([self_peer; peer20], true) /\
  ~ succ_list_ok 2 10 [self_peer; peer20].
Proof.
  split; [|split; [reflexivity|]].
  - split; [simpl; lia|]. split.
    + constructor; [|constructor]. unfold in_ring. rewrite keys_in_ring_eq. simpl. lia.
    + vm_compute. repeat split; reflexivity.
  - intros [_ [_ [H _]]]. simpl in H. rewrite dist_self in H. lia.
Qed.

(** C6, as the code has it. For capacity [K >= 1], owner [self_id], a
    list [peers] satisfying [succ_list_ok] (at most [K] entries, sorted
    strictly increasing clockwise from [self_id + 1], hence distinct and
    without [self_id]) and a candidate [c] whose ID is a key of the ring
    other than [self_id] and whose port is not [0]:
    - if [c]'s ID is already listed, [Insert] leaves the list and returns
      [false];
    - otherwise the new list is the first [K] entries of the list with [c]
      placed before the first entry clockwise-further than [c] (so on
      overflow the tail entry is evicted), and the result is [true]
      exactly when [c] is kept;
    - the invariant holds after [Insert] and after every [Delete].
    [Populate] installs its argument unchecked, so the invariant after it
    is whatever its caller passes. *)
Theorem Insert_keeps_order (K : nat) (self_id : Z) (peers : list RemotePeer)
        (c : RemotePeer) :
  (1 <= K)%nat -> in_ring self_id -> succ_list_ok K self_id peers ->
  in_ring (rp_id c) -> rp_id c <> self_id -> rp_port c <> 0 ->
  (has_id (rp_id c) peers = true -> Insert K self_id peers c = Some (peers, false)) /\
  (has_id (rp_id c) peers = false ->
     Insert K self_id peers c =
       Some (firstn K (place self_id c peers),
             has_id (rp_id c) (firstn K (place self_id c peers)))) /\
  (forall peers' ok, Insert K self_id peers c = Some (peers', ok) ->
                     succ_list_ok K self_id peers') /\
  (forall x, succ_list_ok K self_id (Delete peers x)).
Proof.
  intros HK Hs Hok Hc Hne Hport.
  pose proof Hok as [Hlen [Hall Hinc]].
  assert (Hd0 : 0 < dist self_id (rp_id c)).
  { pose proof (dist_range self_id (rp_id c) Hs Hc).
    destruct (Z.eq_dec (dist self_id (rp_id c)) 0) as [E|]; [|lia].
    rewrite <- (dist_self self_id) in E. apply (dist_inj self_id) in E; auto.
    contradiction. }
  assert (Hinc0 : increasing_from self_id (dist self_id self_id) peers)
    by (rewrite dist_self; exact Hinc).
  assert (Hle0 : dist self_id self_id <= dist self_id (rp_id c))
    by (rewrite dist_self; lia).
  assert (Hdup : has_id (rp_id c) peers = true -> Insert K self_id peers c = Some (peers, false)).
  { intros Hid. rewrite Insert_nonempty by (auto; intros E; subst; discriminate Hid).
    rewrite (scan_dup self_id (rp_id c) self_id peers) by auto. reflexivity. }
  assert (Hfresh : has_id (rp_id c) peers = false ->
     Insert K self_id peers c =
       Some (firstn K (place self_id c peers),
             has_id (rp_id c) (firstn K (place self_id c peers)))).
  { intros Hid. destruct peers as [|p0 rest0] eqn:Hp.
    - unfold Insert. destruct (Z.eqb_spec (rp_port c) 0); [contradiction|].
      destruct K as [|K]; [lia|]. simpl. rewrite Z.eqb_refl, firstn_nil. reflexivity.
    - rewrite <- Hp in *. rewrite Insert_nonempty by (auto; congruence).
      pose proof (scan_fresh self_id c self_id peers Hs Hc Hs Hall Hinc0 Hle0 Hid) as Hsc.
      destruct (scan (rp_id c) self_id peers) as [|n|]; [contradiction| |].
      + destruct Hsc as [Hpl Hn]. simpl. rewrite Hpl, place_length.
        assert (Hin : In c (place self_id c peers)) by apply place_In.
        destruct (Nat.ltb_spec K (S (List.length peers))).
        * rewrite removelast_firstn, place_length.
          replace (S (List.length peers) - 1)%nat with K by lia.
          rewrite (has_id_In (rp_id c) c); [reflexivity|reflexivity|].
          rewrite <- Hpl. apply insert_at_kept; lia.
        * rewrite firstn_all2 by (rewrite place_length; lia).
          rewrite (has_id_In (rp_id c) c); auto.
      + rewrite Hsc. destruct (Nat.ltb_spec (List.length peers) K).
        * rewrite firstn_all2 by (rewrite length_app; simpl; lia).
          rewrite (has_id_In (rp_id c) c); [reflexivity|reflexivity|].
          apply in_or_app. right. left. reflexivity.
        * assert (E : firstn K (peers ++ [c]) = peers).
          { rewrite firstn_app. replace (K - List.length peers)%nat with 0%nat by lia.
            rewrite firstn_all2 by lia. apply app_nil_r. }
          rewrite E, Hid. reflexivity. }
  split; [exact Hdup|]. split; [exact Hfresh|]. split.
  - intros peers' ok H. destruct (has_id (rp_id c) peers) eqn:Hid.
    + rewrite (Hdup eq_refl) in H. inversion H; subst. exact Hok.
    + rewrite (Hfresh eq_refl) in H. inversion H; subst.
      split; [apply firstn_le_length|]. split.
      * apply Forall_firstn'. apply place_Forall; assumption.
      * apply increasing_firstn. apply place_increasing; auto.
  - intros x. split; [|split].
    + pose proof (Delete_length peers x). lia.
    + apply Delete_Forall. exact Hall.
    + apply Delete_increasing. exact Hinc.
Qed.

Lemma Insert_keeps_order_witness :
  Insert 2 10 [peer20; peer30] peer25 = Some ([peer20; peer25], true).
Proof.
  assert (Hr : forall x, 0 <= x <= 100 -> in_ring x)
    by (intros x Hx; unfold in_ring; rewrite keys_in_ring_eq; lia).
  assert (Hok : succ_list_ok 2 10 [peer20; peer30]).
  { split; [simpl; lia|]. split.
    - constructor; [apply Hr; simpl; lia|]. constructor; [apply Hr; simpl; lia|]. constructor.
    - vm_compute. repeat split; reflexivity. }
  destruct (Insert_keeps_order 2 10 [peer20; peer30] peer25 ltac:(lia)
              (Hr 10 ltac:(lia)) Hok (Hr 25 ltac:(lia)) ltac:(simpl; lia) ltac:(simpl; lia))
    as [_ [H _]].
  rewrite (H eq_refl). vm_compute. reflexivity.
Defined.

End SuccListClaims.

Module MerkleFacts.
Import GenericKey KeyFacts KeyString MerkleTree.

Section Facts.
Context {V : Type}.
Variable sha1 : string -> Z.
Local Abbreviation node := (@Node V).

(** Induction on nodes, with the hypothesis for every child. *)
Lemma Node_ind' (P : node -> Prop)
  (H : forall mn mx h pos cs d lg, Forall P cs -> P (mkNode mn mx h pos cs d lg)) :
  forall t, P t.
Proof.
  fix IH 1. intros [mn mx h pos cs d lg]. apply H.
  revert cs. fix IHl 1. intros [|c cs]; constructor; [apply IH | apply IHl].
Qed.

Lemma Rehash_set_hash (t : node) : exists h, Rehash sha1 t = set_hash t h.
Proof.
  unfold Rehash. destruct (child_nodes_ t); [destruct (data_ t)|]; eauto.
  destruct String.eqb; eauto.
Qed.

Ltac rehash_fields t :=
  destruct (Rehash_set_hash t) as [?h ->]; reflexivity.

Lemma Rehash_min (t : node) : min_key_ (Rehash sha1 t) = min_key_ t.
Proof. rehash_fields t. Qed.
Lemma Rehash_max (t : node) : max_key_ (Rehash sha1 t) = max_key_ t.
Proof. rehash_fields t. Qed.
Lemma Rehash_pos (t : node) : position_ (Rehash sha1 t) = position_ t.
Proof. rehash_fields t. Qed.
Lemma Rehash_children (t : node) : child_nodes_ (Rehash sha1 t) = child_nodes_ t.
Proof. rehash_fields t. Qed.
Lemma Rehash_data (t : node) : data_ (Rehash sha1 t) = data_ t.
Proof. rehash_fields t. Qed.
Lemma Rehash_largest (t : node) : largest_key_ (Rehash sha1 t) = largest_key_ t.
Proof. rehash_fields t. Qed.

(** The hash [Rehash] computes reads only the children and the data. *)
Lemma Rehash_hash_eq (t1 t2 : node) :
  child_nodes_ t1 = child_nodes_ t2 -> data_ t1 = data_ t2 ->
  hash_ (Rehash sha1 t1) = hash_ (Rehash sha1 t2).
Proof.
  intros E1 E2. unfold Rehash. rewrite E1, E2.
  destruct (child_nodes_ t2); [destruct (data_ t2)|]; try reflexivity.
  destruct String.eqb; reflexivity.
Qed.

Lemma Rehash_hash_idem (t : node) :
  hash_ (Rehash sha1 (Rehash sha1 t)) = hash_ (Rehash sha1 t).
Proof. apply Rehash_hash_eq; [apply Rehash_children | apply Rehash_data]. Qed.

Lemma entries_node mn mx h pos cs d lg :
  entries (mkNode mn mx h pos cs d lg : node) = d ++ flat_map entries cs.
Proof. reflexivity. Qed.

Lemma entries_set_hash (t : node) h : entries (set_hash t h) = entries t.
Proof. destruct t; reflexivity. Qed.

Lemma entries_set_largest (t : node) l : entries (set_largest t l) = entries t.
Proof. destruct t; reflexivity. Qed.

Lemma entries_Rehash (t : node) : entries (Rehash sha1 t) = entries t.
Proof. destruct (Rehash_set_hash t) as [h ->]. apply entries_set_hash. Qed.

Lemma Lookup_set_hash (t : node) h k : Lookup (set_hash t h) k = Lookup t k.
Proof. destruct t as [mn mx h0 pos [|c cs] d lg]; reflexivity. Qed.

Lemma Lookup_set_largest (t : node) l k : Lookup (set_largest t l) k = Lookup t k.
Proof. destruct t as [mn mx h0 pos [|c cs] d lg]; reflexivity. Qed.

Lemma Lookup_Rehash (t : node) k : Lookup (Rehash sha1 t) k = Lookup t k.
Proof. destruct (Rehash_set_hash t) as [h ->]. apply Lookup_set_hash. Qed.

(** The [vector::at] helpers through [nth_error]. *)
Lemma at_get_nth {A B} (f : A -> option B) cs i :
  at_get f cs i = match nth_error cs i with Some c => f c | None => None end.
Proof. revert i; induction cs as [|c cs IH]; intros [|i]; simpl; auto. Qed.

Lemma at_update_nth {A} (f : A -> option A) cs i :
  at_update f cs i =
  match nth_error cs i with
  | Some c => option_map (fun c' => firstn i cs ++ c' :: skipn (S i) cs) (f c)
  | None => None
  end.
Proof.
  revert i; induction cs as [|c cs IH]; intros [|i]; try reflexivity.
  cbn [at_update nth_error]. rewrite IH.
  destruct (nth_error cs i) as [a|]; [|reflexivity].
  destruct (f a); reflexivity.
Qed.

Lemma at_apply_nth {A} (f : A -> A * bool) cs i c :
  nth_error cs i = Some c ->
  at_apply f cs i = (firstn i cs ++ fst (f c) :: skipn (S i) cs, snd (f c)).
Proof.
  revert i; induction cs as [|c0 cs IH]; intros [|i] Hn; simpl in Hn; try discriminate.
  - injection Hn as ->. simpl. destruct (f c); reflexivity.
  - simpl. rewrite (IH i Hn). reflexivity.
Qed.

Lemma at_apply_out {A} (f : A -> A * bool) cs i :
  nth_error cs i = None -> at_apply f cs i = (cs, false).
Proof.
  revert i; induction cs as [|c0 cs IH]; intros [|i] Hn; simpl in Hn; try discriminate.
  - reflexivity.
  - reflexivity.
  - simpl. rewrite (IH i Hn). reflexivity.
Qed.

Lemma nth_split {A} (cs : list A) i c :
  nth_error cs i = Some c -> cs = firstn i cs ++ c :: skipn (S i) cs.
Proof.
  revert i; induction cs as [|c0 cs IH]; intros [|i] Hn; simpl in Hn; try discriminate.
  - injection Hn as ->. reflexivity.
  - simpl. f_equal. apply IH. exact Hn.
Qed.

(** A failed [Update] or [Delete] is exactly a failed [Lookup]: they
    descend the same way. *)
Lemma Update_None_iff (t : node) k v :
  Update sha1 t k v = None <-> Lookup t k = None.
Proof.
  revert t. apply Node_ind'. intros mn mx h pos cs d lg IH.
  destruct cs as [|c cs].
  - simpl. destruct (map_find k d); split; congruence.
  - cbn [Update Lookup]. rewrite at_update_nth, at_get_nth.
    destruct (nth_error (c :: cs) _) as [c'|] eqn:En; [|tauto].
    apply nth_error_In in En. rewrite Forall_forall in IH. specialize (IH c' En).
    destruct (Update sha1 c' k v); simpl.
    + split; [discriminate|]. intros E. apply IH in E. discriminate.
    + split; [|reflexivity]. intros _. apply IH. reflexivity.
Qed.

Lemma Delete_None_iff (t : node) k :
  Delete sha1 t k = None <-> Lookup t k = None.
Proof.
  revert t. apply Node_ind'. intros mn mx h pos cs d lg IH.
  destruct cs as [|c cs].
  - simpl. destruct (map_find k d); split; congruence.
  - cbn [Delete Lookup]. rewrite at_update_nth, at_get_nth.
    destruct (nth_error (c :: cs) _) as [c'|] eqn:En; [|tauto].
    apply nth_error_In in En. rewrite Forall_forall in IH. specialize (IH c' En).
    destruct (Delete sha1 c' k); simpl.
    + split; [discriminate|]. intros E. apply IH in E. discriminate.
    + split; [|reflexivity]. intros _. apply IH. reflexivity.
Qed.

End Facts.
End MerkleFacts.

Module MerkleMaps.
Import MerkleTree.

Section Maps.
Context {V : Type}.
Local Abbreviation kvs := (list (Z * V)).

Ltac cmp k k' := destruct (Z.ltb_spec k k'), (Z.eqb_spec k k'); try lia.

Lemma map_find_app k (l1 l2 : kvs) :
  map_find k (l1 ++ l2) =
  match map_find k l1 with Some v => Some v | None => map_find k l2 end.
Proof.
  induction l1 as [|[k' v'] l1 IH]; [reflexivity|].
  simpl. destruct (k =? k'); [reflexivity | exact IH].
Qed.

Lemma map_find_none k (l : kvs) :
  Forall (fun kv => fst kv <> k) l -> map_find k l = None.
Proof.
  induction l as [|[k' v'] l IH]; intros H; [reflexivity|].
  inversion H as [|? ? Hk Hl]; subst. simpl in *.
  destruct (Z.eqb_spec k k'); [congruence | auto].
Qed.

Lemma map_find_some_in k (l : kvs) v :
  map_find k l = Some v -> In k (map fst l).
Proof.
  induction l as [|[k' v'] l IH]; simpl; [discriminate|].
  destruct (Z.eqb_spec k k'); auto.
Qed.

Lemma map_insert_app_l k v (l1 l2 : kvs) :
  Forall (fun kv => fst kv < k) l1 ->
  map_insert k v (l1 ++ l2) = l1 ++ map_insert k v l2.
Proof.
  induction l1 as [|[k' v'] l1 IH]; intros H; [reflexivity|].
  inversion H as [|? ? Hk Hl]; subst. simpl in *.
  cmp k k'. rewrite IH by assumption. reflexivity.
Qed.

Lemma map_insert_app_r k v (l1 l2 : kvs) :
  Forall (fun kv => k < fst kv) l2 ->
  map_insert k v (l1 ++ l2) = map_insert k v l1 ++ l2.
Proof.
  intros H. induction l1 as [|[k' v'] l1 IH].
  - destruct l2 as [|[k2 v2] l2]; [reflexivity|].
    inversion H as [|? ? Hk Hl]; subst. simpl in *.
    cmp k k2. reflexivity.
  - simpl. cmp k k'; try reflexivity. rewrite IH. reflexivity.
Qed.

Lemma map_erase_none k (l : kvs) :
  Forall (fun kv => fst kv <> k) l -> map_erase k l = l.
Proof.
  induction l as [|[k' v'] l IH]; intros H; [reflexivity|].
  inversion H as [|? ? Hk Hl]; subst. simpl in *.
  destruct (Z.eqb_spec k k'); [congruence|]. rewrite IH by assumption. reflexivity.
Qed.

Lemma map_erase_app_l k (l1 l2 : kvs) :
  Forall (fun kv => fst kv <> k) l1 ->
  map_erase k (l1 ++ l2) = l1 ++ map_erase k l2.
Proof.
  induction l1 as [|[k' v'] l1 IH]; intros H; [reflexivity|].
  inversion H as [|? ? Hk Hl]; subst. simpl in *.
  destruct (Z.eqb_spec k k'); [congruence|]. rewrite IH by assumption. reflexivity.
Qed.

Lemma map_erase_app_r k (l1 l2 : kvs) :
  Forall (fun kv => fst kv <> k) l2 ->
  map_erase k (l1 ++ l2) = map_erase k l1 ++ l2.
Proof.
  intros H. induction l1 as [|[k' v'] l1 IH].
  - simpl. apply map_erase_none. exact H.
  - simpl. destruct (k =? k'); [reflexivity|]. rewrite IH. reflexivity.
Qed.

Lemma map_assign_none k v (l : kvs) :
  Forall (fun kv => fst kv <> k) l -> map_assign k v l = l.
Proof.
  induction l as [|[k' v'] l IH]; intros H; [reflexivity|].
  inversion H as [|? ? Hk Hl]; subst. simpl in *.
  destruct (Z.eqb_spec k k'); [congruence|]. rewrite IH by assumption. reflexivity.
Qed.

Lemma map_assign_app_l k v (l1 l2 : kvs) :
  Forall (fun kv => fst kv <> k) l1 ->
  map_assign k v (l1 ++ l2) = l1 ++ map_assign k v l2.
Proof.
  induction l1 as [|[k' v'] l1 IH]; intros H; [reflexivity|].
  inversion H as [|? ? Hk Hl]; subst. simpl in *.
  destruct (Z.eqb_spec k k'); [congruence|]. rewrite IH by assumption. reflexivity.
Qed.

Lemma map_assign_app_r k v (l1 l2 : kvs) :
  Forall (fun kv => fst kv <> k) l2 ->
  map_assign k v (l1 ++ l2) = map_assign k v l1 ++ l2.
Proof.
  intros H. induction l1 as [|[k' v'] l1 IH].
  - simpl. apply map_assign_none. exact H.
  - simpl. destruct (k =? k'); [reflexivity|]. rewrite IH. reflexivity.
Qed.

Lemma map_assign_keys k v (l : kvs) : map fst (map_assign k v l) = map fst l.
Proof.
  induction l as [|[k' v'] l IH]; [reflexivity|].
  simpl. destruct (k =? k'); simpl; [reflexivity | f_equal; exact IH].
Qed.

Lemma map_find_insert_same k v (l : kvs) :
  map_find k l = None -> map_find k (map_insert k v l) = Some v.
Proof.
  induction l as [|[k' v'] l IH]; intros H; simpl in *.
  - rewrite Z.eqb_refl. reflexivity.
  - cmp k k'; simpl; try rewrite Z.eqb_refl; try reflexivity; try discriminate.
    destruct (Z.eqb_spec k k'); [lia|]. auto.
Qed.

Lemma map_find_assign_same k v (l : kvs) :
  map_find k l <> None -> map_find k (map_assign k v l) = Some v.
Proof.
  induction l as [|[k' v'] l IH]; intros H; simpl in *; [congruence|].
  destruct (Z.eqb_spec k k'); simpl.
  - subst. rewrite Z.eqb_refl. reflexivity.
  - destruct (Z.eqb_spec k k'); [lia|]. auto.
Qed.

Lemma length_map_insert k v (l : kvs) :
  map_find k l = None -> List.length (map_insert k v l) = S (List.length l).
Proof.
  induction l as [|[k' v'] l IH]; intros H; simpl in *; [reflexivity|].
  cmp k k'; simpl; try reflexivity; try discriminate.
  destruct (Z.eqb_spec k k') in H; [lia|]. rewrite IH; auto.
Qed.

Lemma Forall_map_insert (P : Z -> Prop) k v (l : kvs) :
  Forall (fun kv => P (fst kv)) l -> P k ->
  Forall (fun kv => P (fst kv)) (map_insert k v l).
Proof.
  induction l as [|[k' v'] l IH]; intros H Hk; simpl; [constructor; auto|].
  inversion H as [|? ? Hk' Hl]; subst.
  destruct (k <? k'); [constructor; auto|].
  destruct (k =? k'); [exact H|]. constructor; auto.
Qed.

Lemma Forall_map_erase (P : Z * V -> Prop) k (l : kvs) :
  Forall P l -> Forall P (map_erase k l).
Proof.
  induction l as [|[k' v'] l IH]; intros H; simpl; [constructor|].
  inversion H as [|? ? Hk' Hl]; subst.
  destruct (k =? k'); [exact Hl|]. constructor; auto.
Qed.

Lemma Forall_keys (P : Z -> Prop) (l1 l2 : kvs) :
  map fst l1 = map fst l2 ->
  Forall (fun kv => P (fst kv)) l1 -> Forall (fun kv => P (fst kv)) l2.
Proof.
  intros E H. rewrite Forall_forall in *. intros x Hx.
  assert (Hin : In (fst x) (map fst l1)) by (rewrite E; apply in_map; exact Hx).
  apply in_map_iff in Hin as [y [Ey Hy]]. rewrite <- Ey. apply H. exact Hy.
Qed.

(** Sorted key lists. *)
Lemma keys_from_lower lo (l : kvs) :
  keys_from lo l -> Forall (fun kv => lo <= fst kv) l.
Proof.
  revert lo; induction l as [|kv l IH]; intros lo H; constructor; simpl in H; [lia|].
  eapply Forall_impl; [|apply IH; apply H]. simpl. intros. lia.
Qed.

Lemma keys_from_weaken lo lo' (l : kvs) :
  lo' <= lo -> keys_from lo l -> keys_from lo' l.
Proof. destruct l; simpl; [auto|]. intros; split; [lia | tauto]. Qed.

Lemma keys_from_app lo m (l1 l2 : kvs) :
  lo <= m -> keys_from lo l1 -> Forall (fun kv => fst kv < m) l1 -> keys_from m l2 ->
  keys_from lo (l1 ++ l2).
Proof.
  revert lo; induction l1 as [|kv l1 IH]; intros lo Hlo H1 Hm H2; simpl.
  - eapply keys_from_weaken; eassumption.
  - inversion Hm; subst. simpl in H1. split; [tauto|]. apply IH; tauto || lia.
Qed.

Lemma keys_from_app_inv lo (l1 l2 : kvs) :
  keys_from lo (l1 ++ l2) -> keys_from lo l1 /\ Forall (fun kv => lo <= fst kv) l2.
Proof.
  revert lo; induction l1 as [|kv l1 IH]; intros lo H; simpl in *.
  - split; [exact I | apply keys_from_lower; exact H].
  - destruct H as [H1 H2]. apply IH in H2 as [H3 H4]. split; [tauto|].
    eapply Forall_impl; [|exact H4]. simpl. intros. lia.
Qed.

Lemma keys_from_insert lo k v (l : kvs) :
  keys_from lo l -> lo <= k -> keys_from lo (map_insert k v l).
Proof.
  revert lo; induction l as [|[k' v'] l IH]; intros lo H Hk; simpl in *.
  - tauto.
  - cmp k k'; simpl.
    + split; [lia|]. split; [lia | tauto].
    + exact H.
    + split; [tauto|]. apply IH; [tauto | lia].
Qed.

Lemma keys_from_erase lo k (l : kvs) :
  keys_from lo l -> keys_from lo (map_erase k l).
Proof.
  revert lo; induction l as [|[k' v'] l IH]; intros lo H; simpl in *; [tauto|].
  destruct (k =? k'); simpl.
  - eapply keys_from_weaken; [|apply H]. lia.
  - split; [tauto|]. apply IH. tauto.
Qed.

Lemma keys_from_keys lo (l1 l2 : kvs) :
  map fst l1 = map fst l2 -> keys_from lo l1 -> keys_from lo l2.
Proof.
  revert lo l2; induction l1 as [|kv l1 IH]; intros lo [|kv2 l2] E H; simpl in *;
    try discriminate; [exact I|].
  injection E as E1 E2. rewrite <- E1. split; [tauto|]. apply IH; tauto.
Qed.

Lemma map_find_erase_sorted lo k (l : kvs) :
  keys_from lo l -> map_find k (map_erase k l) = None.
Proof.
  revert lo; induction l as [|[k' v'] l IH]; intros lo H; simpl in *; [reflexivity|].
  destruct (Z.eqb_spec k k'); simpl.
  - subst. apply map_find_none. destruct H as [_ H].
    apply keys_from_lower in H. eapply Forall_impl; [|exact H]. simpl. intros. lia.
  - destruct (Z.eqb_spec k k'); [lia|]. eapply IH. apply H.
Qed.

End Maps.
End MerkleMaps.

Module MerkleShape.
Import GenericKey KeyFacts KeyString MerkleTree MerkleFacts MerkleMaps.

Section Shape.
Context {V : Type}.
Variable sha1 : string -> Z.
Local Abbreviation node := (@Node V).
Local Abbreviation kvs := (list (Z * V)).

Lemma span_S dep : (dep <= 41)%nat -> span dep = 8 * span (S dep).
Proof.
  intros H. unfold span, key_bin_len, child_id_len. rewrite Nat2Z.inj_succ.
  replace (128 - 3 * Z.of_nat dep) with (3 + (128 - 3 * Z.succ (Z.of_nat dep))) by lia.
  rewrite Z.pow_add_r by lia. reflexivity.
Qed.

Lemma span_ge_4 dep : (dep <= 42)%nat -> 4 <= span dep.
Proof.
  intros H. unfold span, key_bin_len, child_id_len.
  change 4 with (2 ^ 2). apply Z.pow_le_mono_r; lia.
Qed.

Lemma span_0 : span 0 = keys_in_ring.
Proof. reflexivity. Qed.

Lemma span_42 : span 42 = 4.
Proof. reflexivity. Qed.

(** [ChildNum] on a node of depth at most 41 whose range is the aligned
    block [mn, mn + span depth): the index of the sub-block holding
    [key]. *)
Lemma ChildNum_spec (t : node) k :
  (List.length (position_ t) <= 41)%nat -> 0 <= min_key_ t ->
  min_key_ t mod span (List.length (position_ t)) = 0 ->
  max_key_ t = min_key_ t + span (List.length (position_ t)) ->
  min_key_ t <= k < max_key_ t ->
  let s := span (S (List.length (position_ t))) in
  let j := (k - min_key_ t) / s in
  ChildNum t k = Z.to_nat j /\ 0 <= j < 8 /\
  min_key_ t + j * s <= k < min_key_ t + (j + 1) * s.
Proof.
  intros Hd Hmn Hal Hmx Hk s j.
  pose proof (span_S _ Hd) as Hs. fold s in Hs.
  pose proof (span_ge_4 (S (List.length (position_ t))) ltac:(lia)) as Hs4. fold s in Hs4.
  set (mn := min_key_ t) in *.
  apply Z.mod_divide in Hal; [|lia]. destruct Hal as [q Hq].
  assert (Hr : 0 <= k - mn < 8 * s) by lia.
  assert (Hj : 0 <= j < 8).
  { unfold j. split; [apply Z.div_pos; lia|]. apply Z.div_lt_upper_bound; lia. }
  split; [|split; [exact Hj|]].
  - unfold ChildNum. destruct (Z.leb_spec (max_key_ t) k); [lia|].
    destruct (Z.ltb_spec k (min_key_ t)); [lia|].
    set (sh := key_bin_len - child_id_len * (Z.of_nat (List.length (position_ t)) + 1)).
    assert (Hsh : s = 2 ^ sh).
    { unfold s, sh, span. rewrite Nat2Z.inj_succ. f_equal. }
    assert (Hsh0 : 0 <= sh) by (unfold sh, key_bin_len, child_id_len; lia).
    rewrite Z.shiftr_div_pow2 by exact Hsh0. rewrite <- Hsh.
    change (Z.of_nat num_children - 1) with (Z.ones 3).
    rewrite Z.land_ones by lia.
    f_equal. unfold j.
    replace k with ((q * 8) * s + (k - mn)) at 1 by (rewrite Hs in Hq; lia).
    rewrite Z.div_add_l by lia.
    change (2 ^ 3) with 8.
    rewrite Z.add_comm, Z_mod_plus_full. apply Z.mod_small. exact Hj.
  - pose proof (Z.div_mod (k - mn) s ltac:(lia)) as Hdm.
    pose proof (Z.mod_pos_bound (k - mn) s ltac:(lia)) as Hmb.
    fold j in Hdm. nia.
Qed.

Lemma u256_small x : 0 <= x <= keys_in_ring -> u256 x = x.
Proof.
  intros H. unfold u256. rewrite keys_in_ring_eq in H. apply Z.mod_small. lia.
Qed.

Lemma keys_from_reset lo lo' (l : kvs) :
  keys_from lo l -> Forall (fun kv => lo' <= fst kv) l -> keys_from lo' l.
Proof.
  destruct l as [|kv l]; simpl; [auto|]. intros H F. inversion F; subst. tauto.
Qed.

Lemma keys_from_tail lo lo' (l1 l2 : kvs) :
  keys_from lo (l1 ++ l2) -> Forall (fun kv => lo' <= fst kv) l2 -> keys_from lo' l2.
Proof.
  revert lo; induction l1 as [|kv l1 IH]; intros lo H F; simpl in *.
  - eapply keys_from_reset; eassumption.
  - eapply IH; [apply H | exact F].
Qed.

(** The [while] loop of [CreateChildren] on sorted ring keys: it takes
    exactly the prefix of keys below [ub]. *)
Lemma take_in_range_spec lo ub (d : kvs) :
  0 <= lo -> lo + 2 <= ub -> ub <= keys_in_ring ->
  keys_from lo d -> Forall (fun kv => fst kv < keys_in_ring) d ->
  forall a b, take_in_range lo (ub - 1) d = (a, b) ->
  d = a ++ b /\ Forall (fun kv => fst kv < ub) a /\ Forall (fun kv => ub <= fst kv) b.
Proof.
  intros Hlo Hub HN. induction d as [|[k v] d IH]; intros Hs Hr a b E.
  - injection E as <- <-. auto.
  - simpl in Hs. inversion Hr as [|? ? Hk Hd]; subst. simpl in Hk.
    assert (EB : InBetween k lo (ub - 1) true = (k <? ub)).
    { unfold InBetween.
      destruct (Z.eqb_spec lo (ub - 1)); [lia|].
      destruct (Z.ltb_spec lo (ub - 1)); [|lia].
      rewrite (Z.mod_small lo), (Z.mod_small k) by lia.
      destruct (Z.leb_spec lo k), (Z.leb_spec k (ub - 1)), (Z.ltb_spec k ub);
        simpl; reflexivity || lia. }
    simpl in E. rewrite EB in E. destruct (Z.ltb_spec k ub).
    + destruct (take_in_range lo (ub - 1) d) as [a' b'] eqn:Et.
      injection E as <- <-.
      destruct (IH (keys_from_weaken (k + 1) lo d ltac:(lia) (proj2 Hs)) Hd a' b' eq_refl)
        as [-> [Ha Hb]].
      split; [reflexivity|]. split; [constructor; simpl; [lia | exact Ha] | exact Hb].
    + injection E as <- <-. split; [reflexivity|]. split; [constructor|].
      constructor; [simpl; lia|].
      eapply Forall_impl; [|apply keys_from_lower; apply Hs]. simpl. intros. lia.
Qed.

Lemma wf_set_hash (t : node) h : wf (set_hash t h) <-> wf t.
Proof. destruct t; reflexivity. Qed.

Lemma hash_ok_Rehash (t : node) :
  all_of (fun c => hash_ok sha1 c) (child_nodes_ t) -> hash_ok sha1 (Rehash sha1 t).
Proof.
  intros H. destruct (Rehash_set_hash sha1 t) as [h E]. rewrite E.
  destruct t as [mn mx h0 pos cs d lg]. simpl. split; [|exact H].
  change h with (hash_ (set_hash (mkNode mn mx h0 pos cs d lg) h)) at 2.
  rewrite <- E. apply Rehash_hash_eq; reflexivity.
Qed.

(** The [for] loop of [CreateChildren]: leaves of width [step] covering
    [last, last + count * step), each with its entries, nothing left. *)
Lemma create_children_loop_spec pos step count :
  step = span (S (List.length pos)) -> (S (List.length pos) <= 42)%nat ->
  forall i last (d : kvs), 0 <= last -> last mod step = 0 ->
  last + Z.of_nat count * step <= keys_in_ring ->
  keys_from last d -> Forall (fun kv => fst kv < last + Z.of_nat count * step) d ->
  forall cs d', create_children_loop sha1 i count pos last step d = (cs, d') ->
  d' = [] /\ List.length cs = count /\ flat_map entries cs = d /\
  children_ok (fun c => wf c /\ hash_ok sha1 c) (last - Z.of_nat i * step) step pos i cs.
Proof.
  intros Hstep Hdep. pose proof (span_ge_4 _ Hdep) as H4. rewrite <- Hstep in H4.
  induction count as [|count IH]; intros i last d Hl Hal HN Hs Hr cs d' E.
  - simpl in E. injection E as <- <-.
    destruct d as [|kv d]; [auto|].
    inversion Hr; subst. simpl in Hs. lia.
  - simpl in E. rewrite Nat2Z.inj_succ in HN, Hr.
    rewrite (u256_small (last + step)) in E by lia.
    rewrite (u256_small (last + step - 1)) in E by lia.
    destruct (take_in_range last (last + step - 1) d) as [a b] eqn:Et.
    destruct (create_children_loop sha1 (S i) count pos (last + step) step b)
      as [rest d''] eqn:El.
    injection E as <- <-.
    assert (HrN : Forall (fun kv => fst kv < keys_in_ring) d).
    { eapply Forall_impl; [|exact Hr]. simpl. intros. lia. }
    destruct (take_in_range_spec last (last + step) d ltac:(lia) ltac:(lia) ltac:(lia)
                Hs HrN a b Et) as [Hd [Ha Hb]].
    assert (Hbr : Forall (fun kv => fst kv < last + step + Z.of_nat count * step) b).
    { rewrite Hd in Hr. apply Forall_app in Hr as [_ Hr].
      eapply Forall_impl; [|exact Hr]. simpl. intros. lia. }
    assert (Hbs : keys_from (last + step) b).
    { rewrite Hd in Hs. eapply keys_from_tail; eassumption. }
    destruct (IH (S i) (last + step) b ltac:(lia)
                 ltac:(rewrite <- Z.add_mod_idemp_l, Hal by lia; apply Z_mod_same_full)
                 ltac:(lia) Hbs Hbr rest d'' El) as [-> [Hlen [Hfl Hok]]].
    split; [reflexivity|]. split; [simpl; congruence|].
    rewrite Hd in Hs. apply keys_from_app_inv in Hs as [Has _].
    split.
    + simpl. rewrite Hfl, entries_Rehash. simpl. rewrite app_nil_r. symmetry. exact Hd.
    + simpl. rewrite Rehash_min, Rehash_pos. simpl.
      split; [lia|]. split; [reflexivity|].
      split; [split|].
      * destruct (Rehash_set_hash sha1 (mkNode last (last + step) 0 (pos ++ [Z.of_nat i]) [] a None))
          as [h ->].
        apply wf_set_hash. simpl. rewrite length_app. simpl.
        rewrite Nat.add_comm. simpl. rewrite <- Hstep.
        repeat split; try lia; assumption.
      * apply hash_ok_Rehash. exact I.
      * replace (last - Z.of_nat i * step) with (last + step - Z.of_nat (S i) * step)
          by (rewrite Nat2Z.inj_succ; lia).
        exact Hok.
Qed.

(** [CreateChildren] on a leaf of depth at most 41 with sorted keys of
    its range: eight leaves, each with its entries, and no data left. *)
Lemma CreateChildren_spec mn mx h pos (d : kvs) lg :
  (List.length pos <= 41)%nat -> 0 <= mn -> mn mod span (List.length pos) = 0 ->
  mx = mn + span (List.length pos) -> mx <= keys_in_ring ->
  keys_from mn d -> Forall (fun kv => fst kv < mx) d ->
  exists cs, CreateChildren sha1 (mkNode mn mx h pos [] d lg) = mkNode mn mx h pos cs [] lg /\
    List.length cs = num_children /\ flat_map entries cs = d /\
    children_ok (fun c => wf c /\ hash_ok sha1 c) mn (span (S (List.length pos))) pos 0 cs.
Proof.
  intros Hd Hmn Hal Hmx HN Hs Hr.
  pose proof (span_S _ Hd) as HS. pose proof (span_ge_4 (S (List.length pos)) ltac:(lia)) as H4.
  pose proof (span_ge_4 (List.length pos) ltac:(lia)) as H4'.
  unfold CreateChildren.
  cbn [min_key_ max_key_ position_ data_ child_nodes_ hash_ largest_key_ app].
  assert (Hks : key_sub mx mn = span (List.length pos)).
  { unfold key_sub. destruct (Z.ltb_spec 0 (mx - mn)); lia. }
  rewrite Hks, u256_small by lia.
  rewrite HS. change (Z.of_nat num_children) with 8.
  rewrite (Z.mul_comm 8), Z.div_mul by lia.
  destruct (create_children_loop sha1 0 num_children pos mn (span (S (List.length pos))) d)
    as [cs d'] eqn:E.
  assert (Hal' : mn mod span (S (List.length pos)) = 0).
  { apply Z.mod_divide in Hal; [|lia]. destruct Hal as [q Hq].
    rewrite Hq, HS, Z.mul_assoc. apply Z_mod_mult. }
  assert (Hr' : Forall (fun kv => fst kv < mn + Z.of_nat num_children * span (S (List.length pos))) d).
  { eapply Forall_impl; [|exact Hr]. change (Z.of_nat num_children) with 8. intros a Ha. cbv beta in Ha. lia. }
  destruct (create_children_loop_spec pos (span (S (List.length pos))) num_children eq_refl
              ltac:(lia) 0 mn d Hmn Hal'
              ltac:(change (Z.of_nat num_children) with 8; lia) Hs Hr' cs d' E)
    as [-> [Hlen [Hfl Hok]]].
  exists cs. split; [reflexivity|]. split; [exact Hlen|]. split; [exact Hfl|].
  replace mn with (mn - Z.of_nat 0 * span (S (List.length pos))) at 1 by lia. exact Hok.
Qed.

Lemma all_of_Forall {A} (P : A -> Prop) l : all_of P l <-> Forall P l.
Proof.
  induction l as [|x l IH]; simpl.
  - split; auto.
  - rewrite Forall_cons_iff. tauto.
Qed.

Lemma children_ok_impl (P Q : node -> Prop) mn s pos i cs :
  (forall c, P c -> Q c) -> children_ok P mn s pos i cs -> children_ok Q mn s pos i cs.
Proof.
  intros HPQ. revert i; induction cs as [|c cs IH]; simpl; [auto|].
  intros i H. split; [tauto|]. split; [tauto|]. split; [apply HPQ; tauto | apply IH; tauto].
Qed.

Lemma children_ok_Forall (P : node -> Prop) mn s pos i cs :
  children_ok P mn s pos i cs -> Forall P cs.
Proof.
  revert i; induction cs as [|c cs IH]; simpl; intros i H; constructor; [tauto|].
  eapply IH. apply H.
Qed.

Lemma children_ok_and (P Q : node -> Prop) mn s pos i cs :
  children_ok P mn s pos i cs -> Forall Q cs -> children_ok (fun c => P c /\ Q c) mn s pos i cs.
Proof.
  revert i; induction cs as [|c cs IH]; simpl; intros i H F; [auto|].
  inversion F; subst. split; [tauto|]. split; [tauto|]. split; [tauto|]. apply IH; tauto.
Qed.

Lemma children_ok_nth (P : node -> Prop) mn s pos cs : forall i j c,
  children_ok P mn s pos i cs -> nth_error cs j = Some c ->
  min_key_ c = mn + Z.of_nat (i + j) * s /\ position_ c = pos ++ [Z.of_nat (i + j)] /\ P c.
Proof.
  induction cs as [|c0 cs IH]; intros i [|j] c H E; simpl in *; try discriminate.
  - injection E as <-. rewrite Nat.add_0_r. tauto.
  - rewrite <- Nat.add_succ_comm. apply IH; tauto.
Qed.

Lemma children_ok_replace (P : node -> Prop) mn s pos cs : forall i j c c',
  children_ok P mn s pos i cs -> nth_error cs j = Some c ->
  min_key_ c' = min_key_ c -> position_ c' = position_ c -> P c' ->
  children_ok P mn s pos i (firstn j cs ++ c' :: skipn (S j) cs).
Proof.
  induction cs as [|c0 cs IH]; intros i [|j] c c' H E Hm Hp HP; simpl in *; try discriminate.
  - injection E as <-. rewrite Hm, Hp. tauto.
  - split; [tauto|]. split; [tauto|]. split; [tauto|]. eapply IH; eauto. tauto.
Qed.

Lemma length_replace {A} (cs : list A) j c c' :
  nth_error cs j = Some c -> List.length (firstn j cs ++ c' :: skipn (S j) cs) = List.length cs.
Proof.
  intros E. assert (Hj : (j < List.length cs)%nat) by (apply nth_error_Some; congruence).
  rewrite length_app. cbn [List.length]. rewrite length_firstn, length_skipn. lia.
Qed.

Lemma Forall_replace {A} (P : A -> Prop) cs j c c' :
  Forall P cs -> nth_error cs j = Some c -> P c' ->
  Forall P (firstn j cs ++ c' :: skipn (S j) cs).
Proof.
  intros F E H. rewrite (nth_split cs j c E) in F.
  apply Forall_app in F as [F1 F2]. inversion F2; subst.
  apply Forall_app. split; [exact F1 | constructor; assumption].
Qed.

Lemma keys_from_length lo hi (l : kvs) :
  lo <= hi -> keys_from lo l -> Forall (fun kv => fst kv < hi) l ->
  Z.of_nat (List.length l) <= hi - lo.
Proof.
  revert lo; induction l as [|kv l IH]; intros lo Hlo H F; simpl; [lia|].
  inversion F; subst. simpl in H.
  specialize (IH (fst kv + 1) ltac:(lia) (proj2 H) ltac:(assumption)). lia.
Qed.

(** *** The [largest_key_] caches are invisible to everything else *)

Lemma flat_map_map_Forall {A B C} (f : B -> list C) (g : A -> B) (f' : A -> list C) cs :
  Forall (fun c => f (g c) = f' c) cs -> flat_map f (map g cs) = flat_map f' cs.
Proof. induction 1; simpl; [reflexivity|]. congruence. Qed.

Lemma map_map_Forall {A B C} (f : B -> C) (g : A -> B) (f' : A -> C) cs :
  Forall (fun c => f (g c) = f' c) cs -> map f (map g cs) = map f' cs.
Proof. induction 1; simpl; [reflexivity|]. congruence. Qed.

Lemma strip_min (t : node) : min_key_ (strip t) = min_key_ t.
Proof. destruct t; reflexivity. Qed.
Lemma strip_max (t : node) : max_key_ (strip t) = max_key_ t.
Proof. destruct t; reflexivity. Qed.
Lemma strip_pos (t : node) : position_ (strip t) = position_ t.
Proof. destruct t; reflexivity. Qed.
Lemma strip_hash (t : node) : hash_ (strip t) = hash_ t.
Proof. destruct t; reflexivity. Qed.

Lemma entries_strip (t : node) : entries (strip t) = entries t.
Proof.
  revert t. apply Node_ind'. intros mn mx h pos cs d lg IH. simpl.
  f_equal. apply flat_map_map_Forall. exact IH.
Qed.

Lemma children_ok_map_strip (P : node -> Prop) mn s pos cs : forall i,
  Forall (fun c => P (strip c) <-> P c) cs ->
  children_ok P mn s pos i (map strip cs) <-> children_ok P mn s pos i cs.
Proof.
  induction cs as [|c cs IH]; intros i F; simpl; [tauto|].
  inversion F; subst. rewrite strip_min, strip_pos, (IH (S i)) by assumption. tauto.
Qed.

Lemma wf_strip (t : node) : wf (strip t) <-> wf t.
Proof.
  revert t. apply Node_ind'. intros mn mx h pos cs d lg IH.
  destruct cs as [|c cs]; simpl; [tauto|].
  rewrite length_map.
  pose proof (children_ok_map_strip (fun c => wf c) mn (span (S (List.length pos))) pos
                (c :: cs) 0 IH) as E. simpl in E. rewrite E. tauto.
Qed.

(** The hash [Rehash] computes reads only the children's hashes and the
    data. *)
Lemma Rehash_hash_map (t1 t2 : node) :
  map hash_ (child_nodes_ t1) = map hash_ (child_nodes_ t2) -> data_ t1 = data_ t2 ->
  hash_ (Rehash sha1 t1) = hash_ (Rehash sha1 t2).
Proof.
  intros E1 E2. unfold Rehash. rewrite E2.
  destruct (child_nodes_ t1) as [|c1 l1], (child_nodes_ t2) as [|c2 l2];
    try discriminate E1.
  - destruct (data_ t2); reflexivity.
  - rewrite <- (map_map hash_ IntToHexStr (c1 :: l1)), <- (map_map hash_ IntToHexStr (c2 :: l2)).
    rewrite E1. destruct String.eqb; reflexivity.
Qed.

Lemma hash_ok_strip (t : node) : hash_ok sha1 (strip t) <-> hash_ok sha1 t.
Proof.
  revert t. apply Node_ind'. intros mn mx h pos cs d lg IH.
  cbn [strip hash_ok]. cbn [hash_].
  change (map (fun c : node => strip c) cs) with (map strip cs).
  rewrite (Rehash_hash_map (mkNode mn mx h pos (map strip cs) d None) (mkNode mn mx h pos cs d lg)).
  - rewrite !all_of_Forall. split; intros [H1 H2]; split; try exact H1.
    + rewrite Forall_map in H2. rewrite Forall_forall in *. intros c Hc.
      apply (IH c Hc). apply H2. exact Hc.
    + rewrite Forall_map. rewrite Forall_forall in *. intros c Hc.
      apply (IH c Hc). apply H2. exact Hc.
  - simpl. rewrite map_map. apply map_ext. apply strip_hash.
  - reflexivity.
Qed.

Lemma ChildNum_fields (t1 t2 : node) k :
  min_key_ t1 = min_key_ t2 -> max_key_ t1 = max_key_ t2 -> position_ t1 = position_ t2 ->
  ChildNum t1 k = ChildNum t2 k.
Proof. intros E1 E2 E3. unfold ChildNum. rewrite E1, E2, E3. reflexivity. Qed.

Lemma Lookup_strip (t : node) k : Lookup (strip t) k = Lookup t k.
Proof.
  revert t. apply Node_ind'. intros mn mx h pos cs d lg IH.
  destruct cs as [|c cs]; [reflexivity|].
  cbn [strip map Lookup].
  rewrite (ChildNum_fields (mkNode mn mx h pos (strip c :: map strip cs) d None)
                           (mkNode mn mx h pos (c :: cs) d lg)) by reflexivity.
  change (strip c :: map (fun c0 : node => strip c0) cs) with (map strip (c :: cs)).
  rewrite !at_get_nth, nth_error_map.
  destruct (nth_error (c :: cs) _) as [c'|] eqn:En; [|reflexivity]. simpl.
  apply nth_error_In in En. rewrite Forall_forall in IH. apply IH. exact En.
Qed.

Lemma strip_node mn mx h pos cs d lg :
  strip (mkNode mn mx h pos cs d lg : node) = mkNode mn mx h pos (map strip cs) d None.
Proof. reflexivity. Qed.

Ltac strip_children IH :=
  rewrite strip_node; simpl;
  inversion IH as [|? ? Hc Hcs]; subst; rewrite Hc;
  match goal with |- context [map ?f (map strip ?cs)] =>
    rewrite (map_map_Forall f strip f cs Hcs) end;
  reflexivity.

Lemma GetEntries_strip (t : node) : GetEntries (strip t) = GetEntries t.
Proof.
  revert t. apply Node_ind'. intros mn mx h pos cs d lg IH.
  destruct cs as [|c cs]; [reflexivity|]. strip_children IH.
Qed.

Lemma GetSmallestEntry_strip (t : node) : GetSmallestEntry (strip t) = GetSmallestEntry t.
Proof.
  revert t. apply Node_ind'. intros mn mx h pos cs d lg IH.
  destruct cs as [|c cs]; [reflexivity|]. strip_children IH.
Qed.

Lemma GetLargestEntry_strip (t : node) : GetLargestEntry (strip t) = GetLargestEntry t.
Proof.
  revert t. apply Node_ind'. intros mn mx h pos cs d lg IH.
  destruct cs as [|c cs]; [reflexivity|]. strip_children IH.
Qed.

Lemma children_ok_pos (P : node -> Prop) mn s pos i cs :
  children_ok P mn s pos i cs -> Forall (fun c => position_ c <> []) cs.
Proof.
  revert i; induction cs as [|c cs IH]; intros i H; simpl in H; constructor.
  - destruct H as [_ [E _]]. rewrite E. destruct pos; discriminate.
  - eapply IH. apply H.
Qed.

Lemma strip_children (t : node) : child_nodes_ (strip t) = map strip (child_nodes_ t).
Proof. destruct t; reflexivity. Qed.
Lemma strip_data (t : node) : data_ (strip t) = data_ t.
Proof. destruct t; reflexivity. Qed.

Lemma Next_unfold (t : node) k :
  Next t k =
  if hash_ t =? 0 then None
  else if key_ge_opt k (largest_key_ t) &&
          match position_ t with [] => true | _ => false end
  then GetSmallestEntry t
  else match child_nodes_ t with
       | [] => first_greater k (data_ t)
       | _ => first_some (skipn (ChildNum t k) (map (fun c => Next c k) (child_nodes_ t)))
       end.
Proof. destruct t; reflexivity. Qed.

Lemma wf_children (t : node) :
  wf t -> child_nodes_ t <> [] ->
  Forall (fun c => wf c) (child_nodes_ t) /\ Forall (fun c => position_ c <> []) (child_nodes_ t).
Proof.
  destruct t as [mn mx h pos [|c cs] d lg]; cbn [wf child_nodes_]; intros Hwf Hne;
    [congruence|].
  destruct Hwf as [_ [_ [_ [_ [_ [_ [_ Hok]]]]]]].
  split; [eapply children_ok_Forall | eapply children_ok_pos]; exact Hok.
Qed.

(** Below the root ([position_] not empty), [Next] does not read the
    caches. *)
Lemma Next_strip (t : node) k :
  wf t -> position_ t <> [] -> Next (strip t) k = Next t k.
Proof.
  revert t.
  apply (Node_ind' (fun t => wf t -> position_ t <> [] -> Next (strip t) k = Next t k)).
  intros mn mx h pos cs d lg IH Hwf Hpos.
  set (t := mkNode mn mx h pos cs d lg) in *.
  rewrite !Next_unfold, strip_hash, strip_pos, strip_children, strip_data.
  destruct (position_ t) as [|p ps] eqn:Ep; [congruence|]. rewrite !andb_false_r.
  destruct cs as [|c0 cs0]; [reflexivity|].
  destruct (wf_children t Hwf ltac:(discriminate)) as [Fw Fp]. simpl in Fw, Fp.
  change (child_nodes_ t) with (c0 :: cs0).
  rewrite (ChildNum_fields (strip t) t) by (apply strip_min || apply strip_max || apply strip_pos).
  cbn [map]. destruct (hash_ t =? 0); [reflexivity|]. f_equal. f_equal.
  inversion IH as [|? ? Hc Hcs]; subst.
  inversion Fw; inversion Fp; subst.
  f_equal; [apply Hc; assumption|].
  apply map_map_Forall. rewrite Forall_forall in *. intros c' Hc'. apply Hcs; auto.
Qed.

(** At the root, [Next] reads only the root's cache. *)
Lemma Next_root (t : node) k :
  wf t -> Next t k = Next (set_largest (strip t) (largest_key_ t)) k.
Proof.
  intros Hwf. rewrite !Next_unfold.
  set (t' := set_largest (strip t) (largest_key_ t)).
  assert (Eh : hash_ t' = hash_ t) by (destruct t; reflexivity).
  assert (El : largest_key_ t' = largest_key_ t) by (destruct t; reflexivity).
  assert (Ep : position_ t' = position_ t) by (destruct t; reflexivity).
  assert (Ec : child_nodes_ t' = map strip (child_nodes_ t)) by (destruct t; reflexivity).
  assert (Ed : data_ t' = data_ t) by (destruct t; reflexivity).
  assert (Es : GetSmallestEntry t' = GetSmallestEntry t).
  { transitivity (GetSmallestEntry (strip t)); [destruct t; reflexivity|].
    apply GetSmallestEntry_strip. }
  assert (Ek : ChildNum t' k = ChildNum t k).
  { apply ChildNum_fields; destruct t; reflexivity. }
  rewrite Eh, El, Ep, Ec, Ed, Es, Ek.
  destruct (hash_ t =? 0); [reflexivity|].
  destruct (_ && _); [reflexivity|].
  destruct (child_nodes_ t) as [|c0 cs0] eqn:E; [reflexivity|].
  destruct (wf_children t Hwf ltac:(rewrite E; discriminate)) as [Fw Fp].
  rewrite E in Fw, Fp. inversion Fw; inversion Fp; subst.
  cbn [map]. f_equal. f_equal. f_equal; [symmetry; apply Next_strip; assumption|].
  symmetry. apply map_map_Forall. rewrite Forall_forall in *. intros c' Hc'.
  apply Next_strip; auto.
Qed.

(** A failed [Insert] changes nothing but [largest_key_] caches. *)
Lemma Insert_fail_strip (t : node) k v :
  snd (Insert sha1 t k v) = false -> strip (fst (Insert sha1 t k v)) = strip t.
Proof.
  revert t.
  apply (Node_ind' (fun t => snd (Insert sha1 t k v) = false ->
                             strip (fst (Insert sha1 t k v)) = strip t)).
  intros mn mx h pos cs d lg IH.
  destruct cs as [|c cs].
  - simpl. destruct (map_find k d); simpl; [reflexivity | discriminate].
  - cbn [Insert]. set (j := ChildNum _ k).
    destruct (at_apply (fun c0 => Insert sha1 c0 k v) (c :: cs) j) as [cs' ok] eqn:E.
    destruct ok; [discriminate|]. intros _. cbn [fst strip]. f_equal.
    destruct (nth_error (c :: cs) j) as [c'|] eqn:En.
    + rewrite (at_apply_nth _ _ _ _ En) in E. injection E as <- Hok.
      rewrite (nth_split (c :: cs) j c' En) at 2. rewrite !map_app. cbn [map].
      f_equal. f_equal. rewrite Forall_forall in IH. apply IH; [|exact Hok].
      eapply nth_error_In; eassumption.
    + rewrite (at_apply_out _ _ _ En) in E. injection E as <-. reflexivity.
Qed.

End Shape.
End MerkleShape.

Module MerkleOps.
Import GenericKey KeyFacts KeyString MerkleTree MerkleFacts MerkleMaps MerkleShape.

Section Ops.
Context {V : Type}.
Variable sha1 : string -> Z.
Local Abbreviation node := (@Node V).
Local Abbreviation kvs := (list (Z * V)).

Lemma wf_max (t : node) :
  wf t -> max_key_ t = min_key_ t + span (List.length (position_ t)).
Proof. destruct t as [mn mx h pos [|c cs] d lg]; simpl; tauto. Qed.

Lemma wf_depth (t : node) : wf t -> (List.length (position_ t) <= 42)%nat.
Proof. destruct t as [mn mx h pos [|c cs] d lg]; simpl; tauto. Qed.

Lemma wf_min (t : node) : wf t -> 0 <= min_key_ t.
Proof. destruct t as [mn mx h pos [|c cs] d lg]; simpl; tauto. Qed.

(** The entries of the children of a node, read left to right, are sorted
    and lie in the children's consecutive ranges. *)
Lemma flat_ranges (R : node -> Prop) mn s pos cs : forall i,
  s = span (S (List.length pos)) ->
  (forall c, wf c -> R c ->
     keys_from (min_key_ c) (entries c) /\ Forall (in_range c) (entries c)) ->
  children_ok (fun c => wf c) mn s pos i cs -> Forall R cs ->
  keys_from (mn + Z.of_nat i * s) (flat_map entries cs) /\
  Forall (fun kv => mn + Z.of_nat i * s <= fst kv < mn + Z.of_nat (i + List.length cs) * s)
         (flat_map entries cs).
Proof.
  intros i Hs HR. revert i. induction cs as [|c cs IH]; intros i Hok F; simpl in *.
  - split; [exact I | constructor].
  - destruct Hok as [Hm [Hp [Hw Hok]]]. apply Forall_cons_iff in F as [Rc Rcs].
    destruct (HR c Hw Rc) as [Hk Hr].
    pose proof (wf_max c Hw) as Hmx. rewrite Hp, length_app, Nat.add_comm in Hmx. simpl in Hmx.
    rewrite <- Hs in Hmx.
    destruct (IH (S i) Hok Rcs) as [Hk' Hr'].
    pose proof (span_ge_4 (S (List.length pos))) as H4.
    assert (Hd : (S (List.length pos) <= 42)%nat).
    { pose proof (wf_depth c Hw) as D. rewrite Hp, length_app in D. simpl in D. lia. }
    specialize (H4 Hd). rewrite <- Hs in H4.
    rewrite Nat2Z.inj_succ in Hk', Hr'. rewrite Hm in Hk.
    split.
    + apply (keys_from_app _ (mn + Z.succ (Z.of_nat i) * s)); [nia | exact Hk | | exact Hk'].
      eapply Forall_impl; [|exact Hr]. unfold in_range. intros kv Hkv. nia.
    + apply Forall_app. split.
      * eapply Forall_impl; [|exact Hr]. unfold in_range. intros kv Hkv. rewrite Nat2Z.inj_add in *.
        rewrite Nat2Z.inj_succ. nia.
      * eapply Forall_impl; [|exact Hr']. intros kv Hkv. rewrite Nat2Z.inj_add in *.
        rewrite Nat2Z.inj_succ in *. nia.
Qed.

Lemma entries_range (t : node) :
  wf t -> keys_from (min_key_ t) (entries t) /\ Forall (in_range t) (entries t).
Proof.
  revert t.
  apply (Node_ind' (fun t => wf t ->
           keys_from (min_key_ t) (entries t) /\ Forall (in_range t) (entries t))).
  intros mn mx h pos cs d lg IH Hwf.
  destruct cs as [|c cs].
  - simpl in Hwf |- *. rewrite app_nil_r. destruct Hwf as [_ [_ [_ [_ [Hk Hr]]]]].
    split; [exact Hk|]. pose proof (keys_from_lower _ _ Hk) as Hl.
    rewrite Forall_forall in *. intros kv Hkv. unfold in_range. simpl.
    specialize (Hl kv Hkv). specialize (Hr kv Hkv). simpl in *. lia.
  - cbn [wf] in Hwf. destruct Hwf as [Hd [Hmn [Hal [Hmx [Hd' [-> [Hlen Hok]]]]]]].
    destruct (flat_ranges (fun c => wf c -> keys_from (min_key_ c) (entries c) /\
                                          Forall (in_range c) (entries c))
                mn _ pos (c :: cs) 0 eq_refl
                ltac:(intros c' W H; apply H; exact W) Hok IH) as [Hk Hr].
    rewrite entries_node. simpl app. rewrite Hlen in Hr. split.
    + replace mn with (mn + Z.of_nat 0 * span (S (List.length pos))) at 1 by lia. exact Hk.
    + eapply Forall_impl; [|exact Hr]. unfold in_range. cbn [min_key_ max_key_]. intros kv.
      change (Z.of_nat (0 + num_children)) with 8.
      rewrite (span_S _ Hd') in Hmx. lia.
Qed.

Lemma flat_split mn s pos cs : forall i j c,
  s = span (S (List.length pos)) ->
  children_ok (fun c => wf c) mn s pos i cs -> nth_error cs j = Some c ->
  Forall (fun kv : Z * V => fst kv < mn + Z.of_nat (i + j) * s) (flat_map entries (firstn j cs)) /\
  Forall (fun kv : Z * V => mn + Z.of_nat (i + j + 1) * s <= fst kv)
         (flat_map entries (skipn (S j) cs)).
Proof.
  intros i j c Hs. revert i j. induction cs as [|c0 cs IH]; intros i [|j] Hok En;
    simpl in En; try discriminate; cbn [children_ok] in Hok;
    destruct Hok as [Hm [Hp [Hw Hok]]].
  - injection En as <-. split; [constructor|]. simpl.
    destruct (flat_ranges (fun _ => True) mn s pos cs (S i) Hs
                ltac:(intros; apply entries_range; assumption) Hok
                ltac:(apply Forall_forall; auto)) as [_ Hr].
    eapply Forall_impl; [|exact Hr]. intros kv Hkv. rewrite Nat2Z.inj_succ in Hkv.
    rewrite Nat.add_0_r, Nat2Z.inj_add. simpl Z.of_nat. lia.
  - destruct (IH (S i) j Hok En) as [H1 H2]. split.
    + simpl. apply Forall_app. split.
      * destruct (entries_range c0 Hw) as [_ Hr].
        pose proof (wf_max c0 Hw) as Hmx. rewrite Hp, length_app, Nat.add_comm in Hmx.
        simpl in Hmx. rewrite <- Hs in Hmx.
        pose proof (span_ge_4 (S (List.length pos))) as H4.
        eapply Forall_impl; [|exact Hr]. unfold in_range. intros kv Hkv.
        rewrite Hmx, Hm in Hkv. rewrite Nat2Z.inj_add, Nat2Z.inj_succ.
        assert (0 <= s) by (rewrite Hs; unfold span; apply Z.pow_nonneg; lia). nia.
      * eapply Forall_impl; [|exact H1]. intros kv Hkv.
        rewrite Nat.add_succ_comm in Hkv. exact Hkv.
    + simpl skipn. eapply Forall_impl; [|exact H2]. intros kv Hkv.
      rewrite Nat.add_succ_comm in Hkv. exact Hkv.
Qed.

Lemma wf_internal (t : node) :
  wf t -> child_nodes_ t <> [] ->
  data_ t = [] /\ List.length (child_nodes_ t) = num_children /\
  (List.length (position_ t) <= 41)%nat /\ 0 <= min_key_ t /\
  min_key_ t mod span (List.length (position_ t)) = 0 /\
  max_key_ t = min_key_ t + span (List.length (position_ t)) /\
  children_ok (fun c => wf c) (min_key_ t) (span (S (List.length (position_ t))))
              (position_ t) 0 (child_nodes_ t).
Proof.
  destruct t as [mn mx h pos [|c cs] d lg]; cbn [wf child_nodes_]; intros Hwf Hne;
    [congruence|]. cbn [data_ child_nodes_ position_ min_key_ max_key_]. tauto.
Qed.

(** The child [ChildNum] selects holds [k] in its range; the entries of
    the children before it are below [k], those after it above. *)
Lemma focus (t : node) k :
  wf t -> child_nodes_ t <> [] -> min_key_ t <= k < max_key_ t ->
  exists c, nth_error (child_nodes_ t) (ChildNum t k) = Some c /\ wf c /\
    min_key_ c <= k < max_key_ c /\ min_key_ t <= min_key_ c /\ max_key_ c <= max_key_ t /\
    position_ c = position_ t ++ [Z.of_nat (ChildNum t k)] /\
    Forall (fun kv : Z * V => fst kv < k)
           (flat_map entries (firstn (ChildNum t k) (child_nodes_ t))) /\
    Forall (fun kv : Z * V => k < fst kv)
           (flat_map entries (skipn (S (ChildNum t k)) (child_nodes_ t))).
Proof.
  intros Hwf Hne Hk.
  destruct (wf_internal t Hwf Hne) as [Hd [Hlen [Hdep [Hmn [Hal [Hmx Hok]]]]]].
  destruct (ChildNum_spec t k Hdep Hmn Hal Hmx Hk) as [Ej [Hj Hr]].
  set (s := span (S (List.length (position_ t)))) in *.
  set (j := (k - min_key_ t) / s) in *.
  pose proof (span_ge_4 (S (List.length (position_ t))) ltac:(lia)) as H4. fold s in H4.
  pose proof (span_S _ Hdep) as HS. fold s in HS.
  destruct (nth_error (child_nodes_ t) (ChildNum t k)) as [c|] eqn:En.
  2:{ apply nth_error_None in En. rewrite Hlen, Ej in En. unfold num_children in En. lia. }
  destruct (children_ok_nth _ _ _ _ _ 0 _ _ Hok En) as [Hm [Hp Hw]].
  pose proof (wf_max c Hw) as Hcx. rewrite Hp, length_app, Nat.add_comm in Hcx. simpl in Hcx.
  fold s in Hcx.
  destruct (flat_split _ _ _ _ 0 _ _ eq_refl Hok En) as [H1 H2].
  simpl Nat.add in Hm, Hp, H1, H2. fold s in H1, H2.
  rewrite Ej, Z2Nat.id in Hm by lia.
  exists c. split; [reflexivity|]. split; [exact Hw|].
  split; [lia|]. split; [nia|]. split; [rewrite Hmx, HS; nia|]. split; [exact Hp|].
  split.
  - eapply Forall_impl; [|exact H1]. intros kv Hkv. rewrite Ej, Z2Nat.id in Hkv by lia. lia.
  - eapply Forall_impl; [|exact H2]. intros kv Hkv.
    rewrite Nat2Z.inj_add, Ej, Z2Nat.id in Hkv by lia. simpl in Hkv. lia.
Qed.

Lemma map_find_mid k (l1 e l2 : kvs) :
  Forall (fun kv => fst kv < k) l1 -> Forall (fun kv => k < fst kv) l2 ->
  map_find k (l1 ++ e ++ l2) = map_find k e.
Proof.
  intros H1 H2.
  rewrite map_find_app, map_find_none
    by (eapply Forall_impl; [|exact H1]; simpl; intros; lia).
  rewrite map_find_app, (map_find_none k l2)
    by (eapply Forall_impl; [|exact H2]; simpl; intros; lia).
  destruct (map_find k e); reflexivity.
Qed.

Lemma entries_focus (t : node) j c :
  data_ t = [] -> nth_error (child_nodes_ t) j = Some c ->
  entries t = flat_map entries (firstn j (child_nodes_ t)) ++ entries c ++
              flat_map entries (skipn (S j) (child_nodes_ t)).
Proof.
  intros Hd En. destruct t as [mn mx h pos cs d lg]. simpl in Hd, En. subst d.
  rewrite entries_node. simpl app. rewrite (nth_split cs j c En) at 1.
  rewrite flat_map_app. reflexivity.
Qed.

(** On a well-formed node, [Lookup] of a key of its range is [find] in
    its entries. *)
Lemma Lookup_entries (t : node) k :
  wf t -> min_key_ t <= k < max_key_ t -> Lookup t k = map_find k (entries t).
Proof.
  revert t.
  apply (Node_ind' (fun t => wf t -> min_key_ t <= k < max_key_ t ->
                             Lookup t k = map_find k (entries t))).
  intros mn mx h pos cs d lg IH Hwf Hk.
  destruct cs as [|c0 cs0].
  - simpl. rewrite app_nil_r. reflexivity.
  - set (t := mkNode mn mx h pos (c0 :: cs0) d lg) in *.
    destruct (focus t k Hwf ltac:(discriminate) Hk)
      as [c [En [Hw [Hck [_ [_ [_ [H1 H2]]]]]]]].
    destruct (wf_internal t Hwf ltac:(discriminate)) as [Hd _].
    change (Lookup t k) with (at_get (fun c => Lookup c k) (child_nodes_ t) (ChildNum t k)).
    rewrite at_get_nth, En, (entries_focus t _ c Hd En), map_find_mid by assumption.
    rewrite Forall_forall in IH. apply IH; [eapply nth_error_In; exact En | exact Hw | exact Hck].
Qed.

Lemma wf_internal_intro mn mx h pos cs d lg :
  cs <> [] ->
  (List.length pos <= 42)%nat /\ 0 <= mn /\ mn mod span (List.length pos) = 0 /\
  mx = mn + span (List.length pos) /\ (List.length pos <= 41)%nat /\ d = [] /\
  List.length cs = num_children /\
  children_ok (fun c => wf c) mn (span (S (List.length pos))) pos 0 cs ->
  wf (mkNode mn mx h pos cs d lg : node).
Proof. destruct cs; [congruence|]. cbn [wf]. tauto. Qed.

Lemma wf_leaf_intro mn mx h pos (d : kvs) lg :
  (List.length pos <= 42)%nat /\ 0 <= mn /\ mn mod span (List.length pos) = 0 /\
  mx = mn + span (List.length pos) /\ keys_from mn d /\ Forall (fun kv => fst kv < mx) d ->
  wf (mkNode mn mx h pos [] d lg : node).
Proof. cbn [wf]. tauto. Qed.

Lemma wf_leaf (mn mx h : Z) pos (d : kvs) lg :
  wf (mkNode mn mx h pos [] d lg : node) ->
  (List.length pos <= 42)%nat /\ 0 <= mn /\ mn mod span (List.length pos) = 0 /\
  mx = mn + span (List.length pos) /\ keys_from mn d /\ Forall (fun kv => fst kv < mx) d.
Proof. cbn [wf]. tauto. Qed.

Lemma wf_Rehash (t : node) : wf (Rehash sha1 t) <-> wf t.
Proof. destruct (Rehash_set_hash sha1 t) as [h ->]. apply wf_set_hash. Qed.

(** [Insert] fails exactly on a key already present. *)
Lemma Insert_fail_iff (t : node) k v :
  wf t -> min_key_ t <= k < max_key_ t ->
  snd (Insert sha1 t k v) = false <-> map_find k (entries t) <> None.
Proof.
  revert t.
  apply (Node_ind' (fun t => wf t -> min_key_ t <= k < max_key_ t ->
           snd (Insert sha1 t k v) = false <-> map_find k (entries t) <> None)).
  intros mn mx h pos cs d lg IH Hwf Hk.
  destruct cs as [|c0 cs0].
  - simpl. rewrite app_nil_r. destruct (map_find k d); simpl; split; congruence.
  - set (t := mkNode mn mx h pos (c0 :: cs0) d lg) in *.
    destruct (focus t k Hwf ltac:(discriminate) Hk)
      as [c [En [Hw [Hck [_ [_ [_ [H1 H2]]]]]]]].
    destruct (wf_internal t Hwf ltac:(discriminate)) as [Hd _].
    rewrite (entries_focus t _ c Hd En), map_find_mid by assumption.
    change (child_nodes_ t) with (c0 :: cs0) in En. unfold t. cbn [Insert].
    fold t. rewrite (at_apply_nth _ _ _ c En). cbn beta iota.
    rewrite Forall_forall in IH. rewrite <- (IH c (nth_error_In _ _ En) Hw Hck).
    destruct (snd (Insert sha1 c k v)); simpl; split; congruence.
Qed.

(** A successful [Insert] keeps the node's range and shape invariants and
    adds the entry. *)
Lemma Insert_ok_spec (t : node) k v :
  wf t -> max_key_ t <= keys_in_ring -> min_key_ t <= k < max_key_ t ->
  snd (Insert sha1 t k v) = true ->
  let t' := fst (Insert sha1 t k v) in
  min_key_ t' = min_key_ t /\ max_key_ t' = max_key_ t /\ position_ t' = position_ t /\
  wf t' /\ (hash_ok sha1 t -> hash_ok sha1 t') /\
  (child_nodes_ t <> [] -> child_nodes_ t' <> []) /\
  entries t' = map_insert k v (entries t).
Proof.
  revert t.
  apply (Node_ind' (fun t => wf t -> max_key_ t <= keys_in_ring -> min_key_ t <= k < max_key_ t ->
    snd (Insert sha1 t k v) = true ->
    let t' := fst (Insert sha1 t k v) in
    min_key_ t' = min_key_ t /\ max_key_ t' = max_key_ t /\ position_ t' = position_ t /\
    wf t' /\ (hash_ok sha1 t -> hash_ok sha1 t') /\
    (child_nodes_ t <> [] -> child_nodes_ t' <> []) /\
    entries t' = map_insert k v (entries t))).
  intros mn mx h pos cs d lg IH Hwf HN Hk Hok. cbv zeta.
  destruct cs as [|c0 cs0].
  - (* a leaf *)
    cbn [Insert] in Hok |- *. cbn [min_key_ max_key_] in HN, Hk.
    destruct (map_find k d) eqn:Ef; [discriminate|].
    apply wf_leaf in Hwf as [Hd [Hmn [Hal [Hmx [Hs Hr]]]]].
    assert (Hs' : keys_from mn (map_insert k v d)) by (apply keys_from_insert; [exact Hs | lia]).
    assert (Hr' : Forall (fun kv => fst kv < mx) (map_insert k v d))
      by (apply (Forall_map_insert (fun x => x < mx)); [exact Hr | lia]).
    rewrite entries_node. simpl app. rewrite app_nil_r. cbn [fst data_].
    destruct (Nat.ltb_spec num_children (List.length (map_insert k v d))) as [Hlt|Hge].
    + (* the leaf splits *)
      assert (Hdep : (List.length pos <= 41)%nat).
      { destruct (Nat.eq_dec (List.length pos) 42) as [E|E]; [|lia].
        pose proof (keys_from_length mn mx _ ltac:(lia) Hs' Hr') as HL.
        rewrite Hmx, E, span_42 in HL. unfold num_children in Hlt. lia. }
      destruct (CreateChildren_spec sha1 mn mx h pos (map_insert k v d) (bump_largest k lg)
                  Hdep Hmn Hal Hmx HN Hs' Hr') as [cs' [Ec [Hlen [Hfl Hcs]]]].
      unfold ToInternal. rewrite Ec.
      rewrite Rehash_min, Rehash_max, Rehash_pos, Rehash_children, entries_Rehash, wf_Rehash.
      cbn [min_key_ max_key_ position_ child_nodes_].
      assert (Hne : cs' <> []) by (destruct cs'; [discriminate | congruence]).
      split; [reflexivity|]. split; [reflexivity|]. split; [reflexivity|].
      split; [|split; [|split; [intros E; congruence|]]].
      * apply wf_internal_intro; [exact Hne|].
        repeat split; try assumption; try lia.
        eapply children_ok_impl; [|exact Hcs]. simpl. tauto.
      * intros _. apply hash_ok_Rehash. cbn [child_nodes_]. apply all_of_Forall.
        eapply Forall_impl; [|eapply children_ok_Forall; exact Hcs]. simpl. tauto.
      * rewrite entries_node. simpl app. exact Hfl.
    + (* the leaf stays a leaf *)
      rewrite Rehash_min, Rehash_max, Rehash_pos, Rehash_children, entries_Rehash, wf_Rehash.
      cbn [min_key_ max_key_ position_ child_nodes_].
      split; [reflexivity|]. split; [reflexivity|]. split; [reflexivity|].
      split; [|split; [|split; [intros E; congruence|]]].
      * apply wf_leaf_intro. repeat split; assumption.
      * intros _. apply hash_ok_Rehash. exact I.
      * rewrite entries_node. simpl app. apply app_nil_r.
  - (* an internal node *)
    cbn [Insert] in Hok |- *.
    set (t := mkNode mn mx h pos (c0 :: cs0) d lg) in *.
    destruct (focus t k Hwf ltac:(discriminate) Hk)
      as [c [En [Hw [Hck [Hcmn [Hcmx [Hcp [H1 H2]]]]]]]].
    destruct (wf_internal t Hwf ltac:(discriminate))
      as [Hd [Hlen [Hdep [Hmn [Hal [Hmx Hcs]]]]]].
    pose proof En as En'. change (child_nodes_ t) with (c0 :: cs0) in En'.
    rewrite (at_apply_nth _ _ _ c En') in Hok |- *. cbn beta iota zeta in Hok |- *.
    destruct (snd (Insert sha1 c k v)) eqn:Eokc; [|discriminate]. cbn [fst].
    rewrite Forall_forall in IH.
    destruct (IH c (nth_error_In _ _ En') Hw ltac:(lia) Hck Eokc)
      as [Em [Ex [Ep [Hw' [Hh' [_ He']]]]]].
    set (c' := fst (Insert sha1 c k v)) in *.
    rewrite Rehash_min, Rehash_max, Rehash_pos, Rehash_children, entries_Rehash, wf_Rehash.
    cbn [min_key_ max_key_ position_ child_nodes_].
    assert (Hne : firstn (ChildNum t k) (c0 :: cs0) ++ c' :: skipn (S (ChildNum t k)) (c0 :: cs0) <> [])
      by (destruct (firstn _ _); discriminate).
    split; [reflexivity|]. split; [reflexivity|]. split; [reflexivity|].
    split; [|split; [|split; [intros _; exact Hne|]]].
    + apply wf_internal_intro; [exact Hne|].
      change (data_ t) with d in Hd. change (position_ t) with pos in *.
      change (min_key_ t) with mn in *. change (max_key_ t) with mx in *.
      change (child_nodes_ t) with (c0 :: cs0) in *.
      repeat split; try assumption; try lia.
      all: first [ rewrite (length_replace _ _ c c' En'); exact Hlen
                 | eapply children_ok_replace; eauto; rewrite Hcp in Ep; exact Ep ].
    + intros Hh. apply hash_ok_Rehash. cbn [child_nodes_]. apply all_of_Forall.
      destruct Hh as [_ Hh]. apply all_of_Forall in Hh.
      eapply Forall_replace; [exact Hh | exact En' |].
      apply Hh'. rewrite Forall_forall in Hh. apply Hh. eapply nth_error_In; exact En'.
    + rewrite (entries_focus t _ c Hd En).
      change (data_ t) with d in Hd. subst d. rewrite entries_node, flat_map_app. simpl app.
      cbn [flat_map]. rewrite He'. change (child_nodes_ t) with (c0 :: cs0).
      rewrite map_insert_app_l by assumption. rewrite map_insert_app_r by assumption.
      reflexivity.
Qed.

Lemma Forall_lt_ne (k : Z) (l : kvs) :
  Forall (fun kv => fst kv < k) l -> Forall (fun kv => fst kv <> k) l.
Proof. apply Forall_impl. intros kv H. lia. Qed.

Lemma Forall_gt_ne (k : Z) (l : kvs) :
  Forall (fun kv => k < fst kv) l -> Forall (fun kv => fst kv <> k) l.
Proof. apply Forall_impl. intros kv H. lia. Qed.

Lemma wf_set_largest (t : node) l : wf (set_largest t l) <-> wf t.
Proof. destruct t; reflexivity. Qed.

Lemma hash_ok_set_largest (t : node) l : hash_ok sha1 (set_largest t l) <-> hash_ok sha1 t.
Proof.
  destruct t as [mn mx h pos cs d lg]. cbn [hash_ok set_largest hash_ child_nodes_ min_key_
    max_key_ position_ data_].
  rewrite (Rehash_hash_eq sha1 (mkNode mn mx h pos cs d l) (mkNode mn mx h pos cs d lg)) by reflexivity.
  tauto.
Qed.

Lemma CreateChildren_largest (t : node) : largest_key_ (CreateChildren sha1 t) = largest_key_ t.
Proof.
  unfold CreateChildren. destruct (create_children_loop _ _ _ _ _ _). reflexivity.
Qed.

(** [largest_key_] after [Insert], whether it returns or throws. *)
Lemma Insert_largest (t : node) k v :
  largest_key_ (fst (Insert sha1 t k v)) = bump_largest k (largest_key_ t).
Proof.
  destruct t as [mn mx h pos [|c0 cs0] d lg]; cbn [Insert].
  - destruct (map_find k d); [reflexivity|]. cbn [fst]. rewrite Rehash_largest.
    destruct (Nat.ltb _ _); [unfold ToInternal; rewrite CreateChildren_largest|]; reflexivity.
  - destruct (at_apply _ _ _) as [cs' ok]. destruct ok; cbn [fst];
      [rewrite Rehash_largest|]; reflexivity.
Qed.

Lemma Update_ok_spec (t : node) k v : forall t',
  wf t -> min_key_ t <= k < max_key_ t -> Update sha1 t k v = Some t' ->
  min_key_ t' = min_key_ t /\ max_key_ t' = max_key_ t /\ position_ t' = position_ t /\
  largest_key_ t' = largest_key_ t /\
  wf t' /\ (hash_ok sha1 t -> hash_ok sha1 t') /\
  (child_nodes_ t <> [] -> child_nodes_ t' <> []) /\
  entries t' = map_assign k v (entries t).
Proof.
  revert t.
  apply (Node_ind' (fun t => forall t', wf t -> min_key_ t <= k < max_key_ t ->
    Update sha1 t k v = Some t' ->
    min_key_ t' = min_key_ t /\ max_key_ t' = max_key_ t /\ position_ t' = position_ t /\
    largest_key_ t' = largest_key_ t /\
    wf t' /\ (hash_ok sha1 t -> hash_ok sha1 t') /\
    (child_nodes_ t <> [] -> child_nodes_ t' <> []) /\
    entries t' = map_assign k v (entries t))).
  intros mn mx h pos cs d lg IH t' Hwf Hk Hu.
  destruct cs as [|c0 cs0].
  - (* a leaf *)
    cbn [Update] in Hu. destruct (map_find k d) eqn:Ef; [|discriminate].
    injection Hu as <-. apply wf_leaf in Hwf as [Hd [Hmn [Hal [Hmx [Hs Hr]]]]].
    rewrite Rehash_min, Rehash_max, Rehash_pos, Rehash_largest, Rehash_children,
      entries_Rehash, wf_Rehash.
    cbn [min_key_ max_key_ position_ largest_key_ child_nodes_].
    split; [reflexivity|]. split; [reflexivity|]. split; [reflexivity|]. split; [reflexivity|].
    split; [|split; [|split; [intros E; congruence|]]].
    + apply wf_leaf_intro. repeat split; try assumption.
      * apply (keys_from_keys mn d); [symmetry; apply map_assign_keys | exact Hs].
      * apply (Forall_keys (fun x => x < mx) d); [symmetry; apply map_assign_keys | exact Hr].
    + intros _. apply hash_ok_Rehash. exact I.
    + rewrite !entries_node. simpl app. rewrite !app_nil_r. reflexivity.
  - (* an internal node *)
    cbn [Update] in Hu.
    set (t := mkNode mn mx h pos (c0 :: cs0) d lg) in *.
    destruct (focus t k Hwf ltac:(discriminate) Hk)
      as [c [En [Hw [Hck [Hcmn [Hcmx [Hcp [H1 H2]]]]]]]].
    destruct (wf_internal t Hwf ltac:(discriminate))
      as [Hd [Hlen [Hdep [Hmn [Hal [Hmx Hcs]]]]]].
    pose proof En as En'. change (child_nodes_ t) with (c0 :: cs0) in En'.
    rewrite at_update_nth, En' in Hu. cbn [option_map] in Hu.
    destruct (Update sha1 c k v) as [c'|] eqn:Ec; [|discriminate].
    injection Hu as <-.
    change (skipn (ChildNum t k) cs0) with (skipn (S (ChildNum t k)) (c0 :: cs0)).
    rewrite Forall_forall in IH.
    destruct (IH c (nth_error_In _ _ En') c' Hw Hck Ec)
      as [Em [Ex [Ep [_ [Hw' [Hh' [_ He']]]]]]].
    rewrite Rehash_min, Rehash_max, Rehash_pos, Rehash_largest, Rehash_children,
      entries_Rehash, wf_Rehash.
    cbn [min_key_ max_key_ position_ largest_key_ child_nodes_].
    assert (Hne : firstn (ChildNum t k) (c0 :: cs0) ++ c' :: skipn (S (ChildNum t k)) (c0 :: cs0) <> [])
      by (destruct (firstn _ _); discriminate).
    split; [reflexivity|]. split; [reflexivity|]. split; [reflexivity|]. split; [reflexivity|].
    split; [|split; [|split; [intros _; exact Hne|]]].
    + apply wf_internal_intro; [exact Hne|].
      change (data_ t) with d in Hd. change (position_ t) with pos in *.
      change (min_key_ t) with mn in *. change (max_key_ t) with mx in *.
      change (child_nodes_ t) with (c0 :: cs0) in *.
      repeat split; try assumption; try lia.
      all: first [ rewrite (length_replace _ _ c c' En'); exact Hlen
                 | eapply children_ok_replace; eauto; rewrite Hcp in Ep; exact Ep ].
    + intros Hh. apply hash_ok_Rehash. cbn [child_nodes_]. apply all_of_Forall.
      destruct Hh as [_ Hh]. apply all_of_Forall in Hh.
      eapply Forall_replace; [exact Hh | exact En' |].
      apply Hh'. rewrite Forall_forall in Hh. apply Hh. eapply nth_error_In; exact En'.
    + rewrite (entries_focus t _ c Hd En).
      change (data_ t) with d in Hd. subst d. rewrite entries_node, flat_map_app. simpl app.
      cbn [flat_map]. rewrite He'. change (child_nodes_ t) with (c0 :: cs0).
      rewrite map_assign_app_l by (apply Forall_lt_ne; assumption).
      rewrite map_assign_app_r by (apply Forall_gt_ne; assumption).
      reflexivity.
Qed.

Lemma GetLargestEntry_set_largest (t : node) l :
  GetLargestEntry (set_largest t l) = GetLargestEntry t.
Proof. destruct t; reflexivity. Qed.

Lemma Delete_ok_spec (t : node) k : forall t',
  wf t -> min_key_ t <= k < max_key_ t -> Delete sha1 t k = Some t' ->
  min_key_ t' = min_key_ t /\ max_key_ t' = max_key_ t /\ position_ t' = position_ t /\
  (child_nodes_ t <> [] -> largest_key_ t' = option_map fst (GetLargestEntry t')) /\
  wf t' /\ (hash_ok sha1 t -> hash_ok sha1 t') /\
  (child_nodes_ t <> [] -> child_nodes_ t' <> []) /\
  entries t' = map_erase k (entries t).
Proof.
  revert t.
  apply (Node_ind' (fun t => forall t', wf t -> min_key_ t <= k < max_key_ t ->
    Delete sha1 t k = Some t' ->
    min_key_ t' = min_key_ t /\ max_key_ t' = max_key_ t /\ position_ t' = position_ t /\
    (child_nodes_ t <> [] -> largest_key_ t' = option_map fst (GetLargestEntry t')) /\
    wf t' /\ (hash_ok sha1 t -> hash_ok sha1 t') /\
    (child_nodes_ t <> [] -> child_nodes_ t' <> []) /\
    entries t' = map_erase k (entries t))).
  intros mn mx h pos cs d lg IH t' Hwf Hk Hu.
  destruct cs as [|c0 cs0].
  - (* a leaf *)
    cbn [Delete] in Hu. destruct (map_find k d) eqn:Ef; [|discriminate].
    injection Hu as <-. apply wf_leaf in Hwf as [Hd [Hmn [Hal [Hmx [Hs Hr]]]]].
    rewrite Rehash_min, Rehash_max, Rehash_pos, Rehash_children,
      entries_Rehash, wf_Rehash.
    cbn [min_key_ max_key_ position_ child_nodes_].
    split; [reflexivity|]. split; [reflexivity|]. split; [reflexivity|].
    split; [intros E; congruence|].
    split; [|split; [|split; [intros E; congruence|]]].
    + apply wf_leaf_intro. repeat split; try assumption.
      * apply keys_from_erase. exact Hs.
      * apply Forall_map_erase. exact Hr.
    + intros _. apply hash_ok_Rehash. exact I.
    + rewrite !entries_node. simpl app. rewrite !app_nil_r. reflexivity.
  - (* an internal node *)
    cbn [Delete] in Hu.
    set (t := mkNode mn mx h pos (c0 :: cs0) d lg) in *.
    destruct (focus t k Hwf ltac:(discriminate) Hk)
      as [c [En [Hw [Hck [Hcmn [Hcmx [Hcp [H1 H2]]]]]]]].
    destruct (wf_internal t Hwf ltac:(discriminate))
      as [Hd [Hlen [Hdep [Hmn [Hal [Hmx Hcs]]]]]].
    pose proof En as En'. change (child_nodes_ t) with (c0 :: cs0) in En'.
    rewrite at_update_nth, En' in Hu. cbn [option_map] in Hu.
    destruct (Delete sha1 c k) as [c'|] eqn:Ec; [|discriminate].
    injection Hu as <-.
    change (skipn (ChildNum t k) cs0) with (skipn (S (ChildNum t k)) (c0 :: cs0)).
    rewrite Forall_forall in IH.
    destruct (IH c (nth_error_In _ _ En') c' Hw Hck Ec)
      as [Em [Ex [Ep [_ [Hw' [Hh' [_ He']]]]]]].
    set (cs' := firstn (ChildNum t k) (c0 :: cs0) ++ c' :: skipn (S (ChildNum t k)) (c0 :: cs0)).
    set (t2 := Rehash sha1 (mkNode mn mx h pos cs' d lg)).
    rewrite GetLargestEntry_set_largest, wf_set_largest, hash_ok_set_largest, entries_set_largest.
    unfold set_largest. cbn [min_key_ max_key_ position_ child_nodes_ largest_key_].
    unfold t2. rewrite Rehash_min, Rehash_max, Rehash_pos, Rehash_children,
      entries_Rehash, wf_Rehash.
    cbn [min_key_ max_key_ position_ child_nodes_].
    assert (Hne : cs' <> []) by (unfold cs'; destruct (firstn _ _); discriminate).
    split; [reflexivity|]. split; [reflexivity|]. split; [reflexivity|].
    split; [intros _; reflexivity|].
    split; [|split; [|split; [intros _; exact Hne|]]].
    + apply wf_internal_intro; [exact Hne|]. unfold cs'.
      change (data_ t) with d in Hd. change (position_ t) with pos in *.
      change (min_key_ t) with mn in *. change (max_key_ t) with mx in *.
      change (child_nodes_ t) with (c0 :: cs0) in *.
      repeat split; try assumption; try lia.
      all: first [ rewrite (length_replace _ _ c c' En'); exact Hlen
                 | eapply children_ok_replace; eauto; rewrite Hcp in Ep; exact Ep ].
    + intros Hh. apply hash_ok_Rehash. cbn [child_nodes_]. apply all_of_Forall.
      destruct Hh as [_ Hh]. apply all_of_Forall in Hh.
      eapply Forall_replace; [exact Hh | exact En' |].
      apply Hh'. rewrite Forall_forall in Hh. apply Hh. eapply nth_error_In; exact En'.
    + rewrite (entries_focus t _ c Hd En).
      change (data_ t) with d in Hd. subst d. rewrite entries_node. unfold cs'.
      rewrite flat_map_app. simpl app.
      cbn [flat_map]. rewrite He'. change (child_nodes_ t) with (c0 :: cs0).
      rewrite map_erase_app_l by (apply Forall_lt_ne; assumption).
      rewrite map_erase_app_r by (apply Forall_gt_ne; assumption).
      reflexivity.
Qed.

End Ops.
End MerkleOps.

Module MerkleInv.
Import GenericKey KeyFacts KeyString MerkleTree MerkleFacts MerkleMaps MerkleShape MerkleOps.

Section Inv.
Context {V : Type}.
Variable sha1 : string -> Z.
Local Abbreviation node := (@Node V).
Local Abbreviation kvs := (list (Z * V)).

Lemma empty_tree_shape : exists cs,
  empty_tree sha1 = mkNode 0 keys_in_ring 0 [] cs [] None /\
  List.length cs = num_children /\ flat_map entries cs = ([] : kvs) /\
  children_ok (fun c => wf c /\ hash_ok sha1 c) 0 (span 1) [] 0 cs.
Proof.
  destruct (CreateChildren_spec sha1 0 keys_in_ring 0 [] ([] : kvs) None
              ltac:(simpl; lia) ltac:(lia) ltac:(reflexivity)
              ltac:(reflexivity) ltac:(lia) I (Forall_nil _))
    as [cs [Ec [Hlen [Hfl Hcs]]]].
  exists cs. unfold empty_tree. rewrite Ec. auto.
Qed.

Lemma empty_tree_inv : root_inv sha1 (empty_tree sha1 : node).
Proof.
  assert (Hh : hash_ok sha1 (empty_tree sha1 : node)) by (vm_compute; tauto).
  destruct empty_tree_shape as [cs [Ec [Hlen [Hfl Hcs]]]].
  unfold root_inv. rewrite Ec in *. cbn [min_key_ max_key_ position_ child_nodes_].
  assert (Hne : cs <> []) by (intros ->; discriminate).
  split; [reflexivity|]. split; [reflexivity|]. split; [reflexivity|].
  split; [exact Hne|]. split; [|exact Hh].
  apply wf_internal_intro; [exact Hne|].
  refine (conj _ (conj _ (conj _ (conj _ (conj _ (conj _ (conj Hlen _)))))));
    [simpl; lia | lia | reflexivity | reflexivity | simpl; lia | reflexivity |].
  eapply children_ok_impl; [|exact Hcs]. simpl. tauto.
Qed.

Lemma empty_tree_entries : entries (empty_tree sha1) = ([] : kvs).
Proof.
  destruct empty_tree_shape as [cs [Ec [_ [Hfl _]]]]. rewrite Ec, entries_node. exact Hfl.
Qed.

Lemma Insert_root_inv (t : node) k v :
  root_inv sha1 t -> in_ring k -> root_inv sha1 (fst (Insert sha1 t k v)).
Proof.
  intros (Hmn & Hmx & Hp & Hne & Hwf & Hh) Hk. unfold in_ring in Hk.
  destruct (snd (Insert sha1 t k v)) eqn:Eok.
  - destruct (Insert_ok_spec sha1 t k v Hwf ltac:(lia) ltac:(lia) Eok)
      as (Em & Ex & Ep & Hw' & Hh' & Hne' & _).
    unfold root_inv. repeat split; try congruence; auto.
  - pose proof (Insert_fail_strip sha1 t k v Eok) as Es.
    unfold root_inv.
    rewrite <- (strip_min (fst _)), <- (strip_max (fst _)), <- (strip_pos (fst _)),
      <- (wf_strip (fst _)), <- (hash_ok_strip sha1 (fst _)), Es.
    rewrite strip_min, strip_max, strip_pos, wf_strip, hash_ok_strip.
    repeat split; auto.
    intros E. apply (f_equal child_nodes_) in Es. rewrite !strip_children, E in Es.
    destruct (child_nodes_ t); [congruence | discriminate].
Qed.

Lemma Update_root_inv (t t' : node) k v :
  root_inv sha1 t -> in_ring k -> Update sha1 t k v = Some t' -> root_inv sha1 t'.
Proof.
  intros (Hmn & Hmx & Hp & Hne & Hwf & Hh) Hk Hu. unfold in_ring in Hk.
  destruct (Update_ok_spec sha1 t k v t' Hwf ltac:(lia) Hu)
    as (Em & Ex & Ep & _ & Hw' & Hh' & Hne' & _).
  unfold root_inv. repeat split; try congruence; auto.
Qed.

Lemma Delete_root_inv (t t' : node) k :
  root_inv sha1 t -> in_ring k -> Delete sha1 t k = Some t' -> root_inv sha1 t'.
Proof.
  intros (Hmn & Hmx & Hp & Hne & Hwf & Hh) Hk Hu. unfold in_ring in Hk.
  destruct (Delete_ok_spec sha1 t k t' Hwf ltac:(lia) Hu)
    as (Em & Ex & Ep & _ & Hw' & Hh' & Hne' & _).
  unfold root_inv. repeat split; try congruence; auto.
Qed.

Lemma reachable_root_inv (t : node) : reachable sha1 t -> root_inv sha1 t.
Proof.
  induction 1.
  - apply empty_tree_inv.
  - apply Insert_root_inv; assumption.
  - eapply Update_root_inv; eassumption.
  - eapply Delete_root_inv; eassumption.
Qed.

Lemma Rehash_hash_keys (t1 t2 : node) :
  map hash_ (child_nodes_ t1) = map hash_ (child_nodes_ t2) ->
  map fst (data_ t1) = map fst (data_ t2) ->
  hash_ (Rehash sha1 t1) = hash_ (Rehash sha1 t2).
Proof.
  intros E1 E2. unfold Rehash.
  destruct (child_nodes_ t1) as [|c1 l1], (child_nodes_ t2) as [|c2 l2];
    try discriminate E1.
  - destruct (data_ t1) as [|kv1 d1], (data_ t2) as [|kv2 d2]; try discriminate E2;
      [reflexivity|].
    cbn [hash_ set_hash].
    rewrite <- (map_map fst IntToHexStr (kv1 :: d1)), <- (map_map fst IntToHexStr (kv2 :: d2)).
    rewrite E2. reflexivity.
  - rewrite <- (map_map hash_ IntToHexStr (c1 :: l1)), <- (map_map hash_ IntToHexStr (c2 :: l2)).
    rewrite E1. destruct String.eqb; reflexivity.
Qed.

Lemma map_hash_keys (cs1 cs2 : list node) :
  Forall (fun c1 => forall c2, hash_ok sha1 c1 -> hash_ok sha1 c2 -> same_keys c1 c2 ->
                               hash_ c1 = hash_ c2) cs1 ->
  all_of (fun c => hash_ok sha1 c) cs1 -> all_of (fun c => hash_ok sha1 c) cs2 ->
  all2 (fun c1 c2 => same_keys c1 c2) cs1 cs2 -> map hash_ cs1 = map hash_ cs2.
Proof.
  revert cs2. induction cs1 as [|c1 cs1 IH]; intros [|c2 cs2] F H1 H2 S;
    cbn [all2] in S; try contradiction; [reflexivity|].
  apply Forall_cons_iff in F as [F1 F2]. destruct H1, H2, S.
  cbn [map]. f_equal; auto.
Qed.

(** Nodes of the same shape holding the same keys have the same hash. *)
Lemma hash_keys (t1 : node) : forall t2,
  hash_ok sha1 t1 -> hash_ok sha1 t2 -> same_keys t1 t2 -> hash_ t1 = hash_ t2.
Proof.
  revert t1.
  apply (Node_ind' (fun t1 => forall t2, hash_ok sha1 t1 -> hash_ok sha1 t2 ->
    same_keys t1 t2 -> hash_ t1 = hash_ t2)).
  intros mn mx h pos cs d lg IH [mn2 mx2 h2 pos2 cs2 d2 lg2] [E1 H1] [E2 H2] [Ep [Ed Ec]].
  cbn [hash_]. rewrite <- E1, <- E2. apply Rehash_hash_keys; [|exact Ed].
  cbn [child_nodes_]. apply map_hash_keys; assumption.
Qed.

Lemma list_Z_eqb_refl (l : list Z) : list_Z_eqb l l = true.
Proof. induction l as [|x l IH]; [reflexivity|]. cbn [list_Z_eqb]. rewrite Z.eqb_refl. exact IH. Qed.

End Inv.
End MerkleInv.

Module HexFacts.
Import KeyString.

Lemma all_zero_app (s1 s2 : string) :
  all_zero (String.append s1 s2) <-> all_zero s1 /\ all_zero s2.
Proof. induction s1 as [|c s1 IH]; simpl; [tauto|]. rewrite IH. tauto. Qed.

Lemma all_zero_repeat n : all_zero (repeat_char n "0"%char).
Proof. induction n; simpl; auto. Qed.

Lemma all_zero_concat (l : list string) : all_zero (String.concat "" l) -> Forall all_zero l.
Proof.
  induction l as [|x [|y l] IH]; intros H.
  - constructor.
  - constructor; [exact H | constructor].
  - change (String.concat "" (x :: y :: l)) with (String.append x (String.append "" (String.concat "" (y :: l)))) in H.
    apply all_zero_app in H as [Hx Hr]. simpl in Hr. constructor; auto.
Qed.

Lemma hex_digit_nz d : 0 < d < 16 -> hex_digit d <> "0"%char.
Proof.
  intros Hd.
  assert (d = 1 \/ d = 2 \/ d = 3 \/ d = 4 \/ d = 5 \/ d = 6 \/ d = 7 \/ d = 8 \/ d = 9 \/
          d = 10 \/ d = 11 \/ d = 12 \/ d = 13 \/ d = 14 \/ d = 15) as Hc by lia.
  repeat destruct Hc as [-> | Hc]; subst; vm_compute; discriminate.
Qed.

Lemma hex_digits_acc f x acc : all_zero (hex_digits f x acc) -> all_zero acc.
Proof.
  revert x acc. induction f as [|f IH]; intros x acc H; simpl in H; [exact H|].
  destruct (x =? 0); [exact H|]. apply IH in H. simpl in H. tauto.
Qed.

Lemma hex_digits_nz f x acc :
  0 < x < 16 ^ Z.of_nat f -> ~ all_zero (hex_digits f x acc).
Proof.
  revert x acc. induction f as [|f IH]; intros x acc Hx H.
  - simpl in Hx. lia.
  - simpl in H. destruct (Z.eqb_spec x 0) as [E|E]; [lia|].
    destruct (Z.eq_dec (x mod 16) 0) as [Em|Em].
    + apply (IH (x / 16) (String (hex_digit (x mod 16)) acc)); [|exact H].
      rewrite Nat2Z.inj_succ, Z.pow_succ_r in Hx by lia.
      pose proof (Z.div_mod x 16 ltac:(lia)). split; [|apply Z.div_lt_upper_bound]; lia.
    + apply hex_digits_acc in H. simpl in H. destruct H as [H _].
      revert H. apply hex_digit_nz. pose proof (Z.mod_pos_bound x 16 ltac:(lia)). lia.
Qed.

(** The hex string of a positive value has a non-['0'] digit. *)
Lemma IntToHexStr_nz x : 0 < x -> ~ all_zero (IntToHexStr x).
Proof.
  intros Hx. unfold IntToHexStr. destruct (Z.eqb_spec x 0) as [E|E]; [lia|].
  apply hex_digits_nz. split; [exact Hx|].
  pose proof (Z.log2_spec x Hx) as [_ H2]. pose proof (Z.log2_nonneg x).
  rewrite Nat2Z.inj_succ, Z2Nat.id by lia.
  eapply Z.lt_le_trans; [exact H2|]. rewrite <- Z.add_1_r.
  apply Z.pow_le_mono_l. lia.
Qed.

End HexFacts.

Module MerkleLargest.
Import GenericKey KeyFacts KeyString MerkleTree MerkleFacts MerkleMaps MerkleShape MerkleOps
  MerkleInv HexFacts.

Lemma last_app_ne {A} (l1 l2 : list A) d : l2 <> [] -> last (l1 ++ l2) d = last l2 d.
Proof.
  intros H. induction l1 as [|a l1 IH]; [reflexivity|].
  cbn [app]. destruct (l1 ++ l2) as [|b r] eqn:E.
  - apply app_eq_nil in E as [_ E]. contradiction.
  - change (last (a :: b :: r) d) with (last (b :: r) d). exact IH.
Qed.

Lemma last_Some_ne {A} (l : list A) : l <> [] -> exists x, last (map Some l) None = Some x.
Proof.
  induction l as [|a l IH]; intros H; [congruence|].
  destruct l as [|b l]; [eexists; reflexivity|].
  destruct (IH ltac:(discriminate)) as [x Hx]. exists x. exact Hx.
Qed.

Lemma last_Some_app {A} (l1 l2 : list A) :
  last (map Some (l1 ++ l2)) None =
  match l2 with [] => last (map Some l1) None | _ => last (map Some l2) None end.
Proof.
  destruct l2 as [|b r]; [rewrite app_nil_r; reflexivity|].
  rewrite map_app. apply last_app_ne. discriminate.
Qed.

(** The loop of [GetLargestEntry] over children whose own answer is the
    last of their entries. *)
Lemma fold_last_some {A} (ls : list (list A)) acc :
  fold_left (fun acc x => match x with Some _ => x | None => acc end)
            (map (fun l => last (map Some l) None) ls) acc =
  match last (map Some (List.concat ls)) None with Some x => Some x | None => acc end.
Proof.
  revert acc. induction ls as [|l ls IH]; intros acc; [reflexivity|].
  cbn [map fold_left List.concat]. rewrite IH, last_Some_app.
  destruct (List.concat ls) as [|y ys] eqn:E.
  - cbn [map last]. destruct (last (map Some l) None); reflexivity.
  - destruct (last_Some_ne (y :: ys) ltac:(discriminate)) as [x Hx]. rewrite Hx. reflexivity.
Qed.

(** In a sorted map every key is at most the last one. *)
Lemma last_max {V} lo (l : list (Z * V)) x :
  keys_from lo l -> In x (map fst l) -> exists kv, last (map Some l) None = Some kv /\ x <= fst kv.
Proof.
  revert lo x. induction l as [|kv0 l IH]; intros lo x Hs Hin; [destruct Hin|].
  destruct Hs as [H0 Hs].
  destruct l as [|b r].
  - destruct Hin as [<- | []]. exists kv0. split; [reflexivity | lia].
  - change (last (map Some (kv0 :: b :: r)) None) with (last (map Some (b :: r)) None).
    destruct Hin as [<- | Hin].
    + destruct (IH _ (fst b) Hs (or_introl eq_refl)) as [kv [Hl Hle]].
      exists kv. split; [exact Hl|]. destruct Hs as [Hb _]. lia.
    + exact (IH _ x Hs Hin).
Qed.

Section Largest.
Context {V : Type}.
Variable sha1 : string -> Z.
(** [GenerateSha1Hash] never reads back as the key [0]. *)
Hypothesis sha1_pos : forall s, 0 < sha1 s.
Local Abbreviation node := (@Node V).
Local Abbreviation kvs := (list (Z * V)).

Lemma Rehash_hash_cases (t : node) :
  hash_ (Rehash sha1 t) = 0 \/ exists s, hash_ (Rehash sha1 t) = sha1 s.
Proof.
  unfold Rehash. destruct (child_nodes_ t); [destruct (data_ t)|destruct String.eqb];
    unfold set_hash; cbn [hash_]; eauto.
Qed.

Lemma hash_nonneg (t : node) : hash_ok sha1 t -> 0 <= hash_ t.
Proof.
  destruct t as [mn mx h pos cs d lg]. intros [E _]. cbn [hash_]. rewrite <- E.
  destruct (Rehash_hash_cases (mkNode mn mx h pos cs d lg)) as [-> | [s' ->]];
    [lia | pose proof (sha1_pos s'); lia].
Qed.

Lemma concat_zero_hashes (cs : list node) :
  all_of (fun c => hash_ok sha1 c) cs ->
  String.eqb (String.concat "" (map (fun c => IntToHexStr (hash_ c)) cs))
             (repeat_char num_children "0"%char) = true ->
  Forall (fun c => hash_ c = 0) cs.
Proof.
  intros Hh E. apply String.eqb_eq in E.
  pose proof (all_zero_repeat num_children) as Z0. rewrite <- E in Z0.
  apply all_zero_concat in Z0. apply all_of_Forall in Hh.
  rewrite Forall_forall in *. intros c Hc.
  pose proof (hash_nonneg c (Hh c Hc)).
  destruct (Z.eq_dec (hash_ c) 0) as [E0|E0]; [exact E0|].
  exfalso. apply (IntToHexStr_nz (hash_ c)); [lia|].
  apply Z0. apply (in_map (fun c => IntToHexStr (hash_ c))). exact Hc.
Qed.

Lemma flat_map_nil (cs : list node) :
  Forall (fun c => entries c = ([] : kvs)) cs -> flat_map entries cs = [].
Proof. induction 1 as [|c cs E _ IH]; [reflexivity|]. cbn [flat_map]. rewrite E, IH. reflexivity. Qed.

(** A node with hash [0] holds no entry. *)
Lemma hash_zero_entries (t : node) :
  wf t -> hash_ok sha1 t -> hash_ t = 0 -> entries t = [].
Proof.
  revert t.
  apply (Node_ind' (fun t => wf t -> hash_ok sha1 t -> hash_ t = 0 -> entries t = [])).
  intros mn mx h pos cs d lg IH Hwf [Eh Hcs] H0. cbn [hash_] in H0. subst h.
  rewrite entries_node. destruct cs as [|c0 cs0].
  - destruct d as [|kv d]; [reflexivity|]. exfalso.
    unfold Rehash, set_hash in Eh. cbn [child_nodes_ data_ hash_] in Eh.
    pose proof (sha1_pos (String.concat "" (map (fun kv => IntToHexStr (fst kv)) (kv :: d)))).
    lia.
  - destruct (wf_internal (mkNode mn mx 0 pos (c0 :: cs0) d lg) Hwf ltac:(discriminate))
      as [Hd [_ [_ [_ [_ [_ Hok]]]]]].
    cbn [data_ child_nodes_] in Hd, Hok. subst d. cbn [app].
    unfold Rehash, set_hash in Eh. cbv zeta in Eh. cbn [child_nodes_ hash_] in Eh.
    destruct (String.eqb _ _) eqn:Eq.
    + apply concat_zero_hashes in Eq; [|exact Hcs].
      apply flat_map_nil. apply children_ok_Forall in Hok. apply all_of_Forall in Hcs.
      rewrite Forall_forall in *. intros c Hc. apply IH; auto.
    + exfalso. cbv zeta in Eh. cbn [hash_] in Eh.
      match type of Eh with sha1 ?s = 0 => pose proof (sha1_pos s) end. lia.
Qed.

(** [GetLargestEntry] is the last entry. *)
Lemma GetLargestEntry_last (t : node) :
  wf t -> hash_ok sha1 t -> GetLargestEntry t = last (map Some (entries t)) None.
Proof.
  revert t.
  apply (Node_ind' (fun t => wf t -> hash_ok sha1 t ->
                             GetLargestEntry t = last (map Some (entries t)) None)).
  intros mn mx h pos cs d lg IH Hwf Hh. cbn [GetLargestEntry].
  destruct (Z.eqb_spec h 0) as [E|E].
  - subst h. rewrite (hash_zero_entries _ Hwf Hh eq_refl). reflexivity.
  - rewrite entries_node. destruct cs as [|c0 cs0].
    + cbn [flat_map]. rewrite app_nil_r. reflexivity.
    + destruct (wf_internal (mkNode mn mx h pos (c0 :: cs0) d lg) Hwf ltac:(discriminate))
        as [Hd [_ [_ [_ [_ [_ Hok]]]]]].
      cbn [data_ child_nodes_] in Hd, Hok. subst d. cbn [app].
      destruct Hh as [_ Hcs]. apply children_ok_Forall in Hok. apply all_of_Forall in Hcs.
      unfold last_some.
      rewrite (map_ext_in (fun c => GetLargestEntry c)
                 (fun c => last (map Some (entries c)) None)).
      * rewrite <- (map_map entries (fun l => last (map Some l) None)).
        rewrite fold_last_some, flat_map_concat_map.
        destruct (last _ None); reflexivity.
      * rewrite Forall_forall in *. intros c Hc. apply IH; auto.
Qed.

Lemma map_insert_keys_In k v (l : kvs) x :
  In x (map fst (map_insert k v l)) -> x = k \/ In x (map fst l).
Proof.
  induction l as [|[k' v'] l IH]; intros H.
  - destruct H as [<- | []]. left. reflexivity.
  - cbn [map_insert] in H. destruct (k <? k'); [|destruct (k =? k')].
    + destruct H as [<- | H]; [left; reflexivity | right; exact H].
    + right. exact H.
    + destruct H as [<- | H]; [right; left; reflexivity|].
      destruct (IH H) as [E | H']; [left; exact E | right; right; exact H'].
Qed.

Lemma bump_largest_ge k lg :
  exists l', bump_largest k lg = Some l' /\ k <= l' /\ (forall l, lg = Some l -> l <= l').
Proof.
  destruct lg as [l|]; cbn [bump_largest].
  - destruct (Z.ltb_spec l k).
    + exists k. split; [reflexivity|]. split; [lia|]. intros l0 E. injection E. lia.
    + exists l. split; [reflexivity|]. split; [lia|]. intros l0 E. injection E. lia.
  - exists k. split; [reflexivity|]. split; [lia|]. discriminate.
Qed.

(** The root's [largest_key_] bounds every key of the trees the public
    operations build. *)
Lemma reachable_largest_ok (t : node) : reachable sha1 t -> largest_ok t.
Proof.
  induction 1 as [|t k v Hr IH Hk|t k v t' Hr IH Hk Hu|t k t' Hr IH Hk Hd].
  - intros x. rewrite empty_tree_entries. intros [].
  - destruct (reachable_root_inv sha1 t Hr) as (Hmn & Hmx & Hp & Hne & Hwf & Hh).
    unfold in_ring in Hk. unfold largest_ok. rewrite Insert_largest.
    destruct (bump_largest_ge k (largest_key_ t)) as [l' [El' [Hkl Hll]]]. rewrite El'.
    intros x Hx. exists l'. split; [reflexivity|].
    assert (Hx' : x = k \/ In x (map fst (entries t))).
    { destruct (snd (Insert sha1 t k v)) eqn:Eok.
      - destruct (Insert_ok_spec sha1 t k v Hwf ltac:(lia) ltac:(lia) Eok)
          as (_ & _ & _ & _ & _ & _ & He).
        rewrite He in Hx. apply map_insert_keys_In in Hx. exact Hx.
      - right. rewrite <- entries_strip, (Insert_fail_strip sha1 t k v Eok), entries_strip in Hx.
        exact Hx. }
    destruct Hx' as [-> | Hx']; [exact Hkl|].
    destruct (IH x Hx') as [l [El Hle]]. specialize (Hll l El). lia.
  - destruct (reachable_root_inv sha1 t Hr) as (Hmn & Hmx & Hp & Hne & Hwf & Hh).
    unfold in_ring in Hk.
    destruct (Update_ok_spec sha1 t k v t' Hwf ltac:(lia) Hu)
      as (_ & _ & _ & El & _ & _ & _ & He).
    intros x Hx. rewrite El. apply IH. rewrite He, map_assign_keys in Hx. exact Hx.
  - destruct (reachable_root_inv sha1 t Hr) as (Hmn & Hmx & Hp & Hne & Hwf & Hh).
    unfold in_ring in Hk.
    destruct (Delete_ok_spec sha1 t k t' Hwf ltac:(lia) Hd)
      as (_ & _ & _ & El & Hw' & Hh' & _ & _).
    intros x Hx. rewrite (El Hne), (GetLargestEntry_last t' Hw' (Hh' Hh)).
    destruct (last_max (min_key_ t') (entries t') x (proj1 (entries_range t' Hw')) Hx)
      as [kv [-> Hle]].
    exists (fst kv). split; [reflexivity | exact Hle].
Qed.

End Largest.
End MerkleLargest.

Module MerkleClaims.
Import GenericKey KeyFacts KeyString MerkleTree MerkleFacts MerkleMaps MerkleShape MerkleOps
  MerkleInv MerkleLargest.

Section Claims.
Context {V : Type}.
Variable sha1 : string -> Z.
Local Abbreviation node := (@Node V).
Local Abbreviation kvs := (list (Z * V)).

(** C5. On every tree built by the public operations and every ring key
    [k]: [Insert(k, v)] throws exactly when [Lookup(k)] finds [k]; when
    it returns, [Lookup(k)] then gives [v], and a following [Delete(k)]
    returns, after which [Lookup(k)] throws; [Update(k, v)] and
    [Delete(k)] throw exactly when [Lookup(k)] throws. *)
Theorem Merkle_store_contract (t : node) k v :
  reachable sha1 t -> in_ring k ->
  (snd (Insert sha1 t k v) = false <-> Lookup t k <> None) /\
  (snd (Insert sha1 t k v) = true ->
     Lookup (fst (Insert sha1 t k v)) k = Some v /\
     exists t'', Delete sha1 (fst (Insert sha1 t k v)) k = Some t'' /\ Lookup t'' k = None) /\
  (Update sha1 t k v = None <-> Lookup t k = None) /\
  (Delete sha1 t k = None <-> Lookup t k = None).
Proof.
  intros Hr Hk. unfold in_ring in Hk.
  destruct (reachable_root_inv sha1 t Hr) as (Hmn & Hmx & Hp & Hne & Hwf & Hh).
  assert (Hkt : min_key_ t <= k < max_key_ t) by lia.
  rewrite (Lookup_entries t k Hwf Hkt).
  split; [apply (Insert_fail_iff sha1 t k v Hwf Hkt)|].
  split; [|split; rewrite <- (Lookup_entries t k Hwf Hkt);
            [apply Update_None_iff | apply Delete_None_iff]].
  intros Eok.
  assert (Hnf : map_find k (entries t) = None).
  { destruct (map_find k (entries t)) eqn:E; [|reflexivity].
    assert (snd (Insert sha1 t k v) = false) as F
      by (apply (Insert_fail_iff sha1 t k v Hwf Hkt); congruence).
    congruence. }
  destruct (Insert_ok_spec sha1 t k v Hwf ltac:(lia) Hkt Eok)
    as (Em & Ex & _ & Hw' & _ & _ & He').
  set (t' := fst (Insert sha1 t k v)) in *.
  assert (Hkt' : min_key_ t' <= k < max_key_ t') by lia.
  assert (HL : Lookup t' k = Some v)
    by (rewrite (Lookup_entries t' k Hw' Hkt'), He'; apply map_find_insert_same; exact Hnf).
  split; [exact HL|].
  destruct (Delete sha1 t' k) as [t''|] eqn:Ed.
  - exists t''. split; [reflexivity|].
    destruct (Delete_ok_spec sha1 t' k t'' Hw' Hkt' Ed)
      as (Em' & Ex' & _ & _ & Hw'' & _ & _ & He'').
    rewrite (Lookup_entries t'' k Hw'' ltac:(lia)), He''.
    apply (map_find_erase_sorted (min_key_ t')). apply entries_range. exact Hw'.
  - apply Delete_None_iff in Ed. congruence.
Qed.

(** C9. The hash of a node is computed from its keys alone: two trees
    built by the public operations with the same shape, positions and keys
    at every node have the same root hash and compare equal with
    [operator ==], whatever values they hold. *)
Theorem Merkle_hash_ignores_values (t1 t2 : node) :
  reachable sha1 t1 -> reachable sha1 t2 -> same_keys t1 t2 ->
  hash_ t1 = hash_ t2 /\ node_eqb t1 t2 = true.
Proof.
  intros R1 R2 S.
  destruct (reachable_root_inv sha1 t1 R1) as (_ & _ & _ & _ & _ & H1).
  destruct (reachable_root_inv sha1 t2 R2) as (_ & _ & _ & _ & _ & H2).
  assert (E : hash_ t1 = hash_ t2) by (apply (hash_keys sha1 t1 t2 H1 H2 S)).
  split; [exact E|].
  unfold node_eqb. destruct t1 as [mn mx h pos cs d lg], t2 as [mn2 mx2 h2 pos2 cs2 d2 lg2].
  destruct S as [Ep _]. cbn [position_ hash_] in *. subst pos2 h2.
  rewrite list_Z_eqb_refl, Z.eqb_refl. reflexivity.
Qed.

(** X21. When [Insert(k, v)] throws ["Key already exists"] on
    a tree built by the public operations, the tree it leaves differs
    from the original at most in the [largest_key_] caches below the
    root: with those cleared the two trees are equal, and the root's
    cache, hash, entries, [GetEntries], [Lookup] and [Next] are
    unchanged. This needs [GenerateSha1Hash] never to read back as [0]. *)
Theorem Insert_fail_unobservable (sha1_pos : forall s, 0 < sha1 s) (t : node) k v :
  reachable sha1 t -> in_ring k -> snd (Insert sha1 t k v) = false ->
  let t' := fst (Insert sha1 t k v) in
  strip t' = strip t /\ largest_key_ t' = largest_key_ t /\ hash_ t' = hash_ t /\
  entries t' = entries t /\ GetEntries t' = GetEntries t /\
  (forall key, Lookup t' key = Lookup t key) /\ (forall key, Next t' key = Next t key).
Proof.
  intros Hr Hk Ef t'.
  destruct (reachable_root_inv sha1 t Hr) as (Hmn & Hmx & Hp & Hne & Hwf & Hh).
  assert (Hwf' : wf t') by apply (Insert_root_inv sha1 t k v (reachable_root_inv sha1 t Hr) Hk).
  unfold in_ring in Hk.
  pose proof (Insert_fail_strip sha1 t k v Ef) as Es. fold t' in Es.
  assert (Hin : In k (map fst (entries t))).
  { apply (Insert_fail_iff sha1 t k v Hwf ltac:(lia)) in Ef.
    destruct (map_find k (entries t)) as [v0|] eqn:E; [|congruence].
    exact (map_find_some_in k (entries t) v0 E). }
  destruct (reachable_largest_ok sha1 sha1_pos t Hr k Hin) as [l [El Hkl]].
  assert (Hl : largest_key_ t' = largest_key_ t).
  { unfold t'. rewrite Insert_largest, El. cbn [bump_largest].
    destruct (Z.ltb_spec l k); [lia | reflexivity]. }
  split; [exact Es|]. split; [exact Hl|].
  split; [rewrite <- (strip_hash t'), Es, strip_hash; reflexivity|].
  split; [rewrite <- (entries_strip t'), Es, entries_strip; reflexivity|].
  split; [rewrite <- (GetEntries_strip t'), Es, GetEntries_strip; reflexivity|].
  split; [intros key; rewrite <- (Lookup_strip t'), Es, Lookup_strip; reflexivity|].
  intros key. rewrite (Next_root t' key Hwf'), (Next_root t key Hwf), Es, Hl. reflexivity.
Qed.

End Claims.

(** A stand-in for [GenerateSha1Hash] with positive values. *)
Definition toy_sha1 (s : string) : Z := Z.of_nat (String.length s) + 1.

Lemma Merkle_store_contract_witness :
  let t := fst (Insert toy_sha1 (empty_tree toy_sha1 : @Node nat) 3 30%nat) in
  reachable toy_sha1 t /\ in_ring 7 /\
  ((snd (Insert toy_sha1 t 7 70%nat) = false <-> Lookup t 7 <> None) /\
   (snd (Insert toy_sha1 t 7 70%nat) = true ->
      Lookup (fst (Insert toy_sha1 t 7 70%nat)) 7 = Some 70%nat /\
      exists t'', Delete toy_sha1 (fst (Insert toy_sha1 t 7 70%nat)) 7 = Some t'' /\
                  Lookup t'' 7 = None) /\
   (Update toy_sha1 t 7 70%nat = None <-> Lookup t 7 = None) /\
   (Delete toy_sha1 t 7 = None <-> Lookup t 7 = None)).
Proof.
  intros t.
  assert (Hr : reachable toy_sha1 t)
    by (apply reach_insert; [apply reach_empty | unfold in_ring; rewrite keys_in_ring_eq; lia]).
  assert (Hk : in_ring 7) by (unfold in_ring; rewrite keys_in_ring_eq; lia).
  split; [exact Hr|]. split; [exact Hk|].
  apply (Merkle_store_contract toy_sha1 t 7 70%nat Hr Hk).
Defined.

Lemma Merkle_hash_ignores_values_witness :
  let t1 := fst (Insert toy_sha1 (empty_tree toy_sha1 : @Node nat) 3 30%nat) in
  let t2 := fst (Insert toy_sha1 (empty_tree toy_sha1 : @Node nat) 3 31%nat) in
  reachable toy_sha1 t1 /\ reachable toy_sha1 t2 /\ same_keys t1 t2 /\
  (hash_ t1 = hash_ t2 /\ node_eqb t1 t2 = true).
Proof.
  intros t1 t2.
  assert (Hk : in_ring 3) by (unfold in_ring; rewrite keys_in_ring_eq; lia).
  assert (R1 : reachable toy_sha1 t1) by (apply reach_insert; [apply reach_empty | exact Hk]).
  assert (R2 : reachable toy_sha1 t2) by (apply reach_insert; [apply reach_empty | exact Hk]).
  assert (S : same_keys t1 t2) by (vm_compute; repeat (split || reflexivity)).
  split; [exact R1|]. split; [exact R2|]. split; [exact S|].
  apply (Merkle_hash_ignores_values toy_sha1 t1 t2 R1 R2 S).
Defined.

(** The tree after inserting [ks], in order, each with value [0]. *)
Definition insert_keys (sha1 : string -> Z) (t : @Node nat) (ks : list Z) : @Node nat :=
  fold_left (fun t k => fst (Insert sha1 t k 0%nat)) ks t.

Lemma reachable_insert_keys sha1 (t : @Node nat) ks :
  reachable sha1 t -> Forall in_ring ks -> reachable sha1 (insert_keys sha1 t ks).
Proof.
  revert t. induction ks as [|k ks IH]; intros t Hr Hks; [exact Hr|].
  apply Forall_cons_iff in Hks as [Hk Hks]. apply IH; [|exact Hks].
  apply reach_insert; assumption.
Qed.

(** The first leaf of the tree holding [1..9]: child [0] of child [0]. *)
Definition first_leaf (t : @Node nat) : @Node nat :=
  nth 0 (child_nodes_ (nth 0 (child_nodes_ t) t)) t.

(** C10 (code bug): [CreateChildren] gives the children of a split
    leaf an empty [largest_key_] cache. After [1..9] are inserted, the child that split
    keeps [largest_key_ = 9] but the new leaf holding [1..9] has an empty
    cache, so a second [Insert(1, _)] throws and still writes [1] into
    that cache: the tree is changed, and a key present in that subtree
    exceeded its recorded largest key. *)
Lemma Insert_fail_changes_cache :
  let t := insert_keys toy_sha1 (empty_tree toy_sha1) [1; 2; 3; 4; 5; 6; 7; 8; 9] in
  let t' := fst (Insert toy_sha1 t 1 0%nat) in
  reachable toy_sha1 t /\ snd (Insert toy_sha1 t 1 0%nat) = false /\
  In 1 (map fst (data_ (first_leaf t))) /\
  largest_key_ (first_leaf t) = None /\ largest_key_ (first_leaf t') = Some 1 /\ t' <> t.
Proof.
  intros t t'.
  assert (Hr : reachable toy_sha1 t).
  { apply reachable_insert_keys; [apply reach_empty|].
    apply Forall_forall. intros x Hx. unfold in_ring. rewrite keys_in_ring_eq.
    simpl in Hx. lia. }
  assert (H1 : largest_key_ (first_leaf t) = None) by (vm_compute; reflexivity).
  assert (H2 : largest_key_ (first_leaf t') = Some 1) by (vm_compute; reflexivity).
  split; [exact Hr|]. split; [vm_compute; reflexivity|].
  split; [vm_compute; left; reflexivity|].
  split; [exact H1|]. split; [exact H2|].
  intros E. rewrite E in H2. congruence.
Qed.

Lemma Insert_fail_unobservable_witness :
  let t := insert_keys toy_sha1 (empty_tree toy_sha1) [1; 2; 3; 4; 5; 6; 7; 8; 9] in
  (forall s, 0 < toy_sha1 s) /\ reachable toy_sha1 t /\ in_ring 1 /\
  snd (Insert toy_sha1 t 1 0%nat) = false /\
  (let t' := fst (Insert toy_sha1 t 1 0%nat) in
   strip t' = strip t /\ largest_key_ t' = largest_key_ t /\ hash_ t' = hash_ t /\
   entries t' = entries t /\ GetEntries t' = GetEntries t /\
   (forall key, Lookup t' key = Lookup t key) /\ (forall key, Next t' key = Next t key)).
Proof.
  intros t.
  assert (Hp : forall s, 0 < toy_sha1 s) by (intros s; unfold toy_sha1; lia).
  assert (Hr : reachable toy_sha1 t).
  { apply reachable_insert_keys; [apply reach_empty|].
    apply Forall_forall. intros x Hx. unfold in_ring. rewrite keys_in_ring_eq.
    simpl in Hx. lia. }
  assert (Hk : in_ring 1) by (unfold in_ring; rewrite keys_in_ring_eq; lia).
  assert (Ef : snd (Insert toy_sha1 t 1 0%nat) = false) by (vm_compute; reflexivity).
  split; [exact Hp|]. split; [exact Hr|]. split; [exact Hk|]. split; [exact Ef|].
  exact (Insert_fail_unobservable toy_sha1 Hp t 1 0%nat Hr Hk Ef).
Defined.

End MerkleClaims.

Module DHashFacts.
Import GenericKey KeyFacts ChordPeer DHashPeer MerkleTree MerkleFacts MerkleMaps MerkleShape
  MerkleOps MerkleInv.

(** [GetNSuccessors] returns at most [n] peers, with pairwise distinct
    IDs, none of them already in [succ_ids]. *)
Lemma GetNSuccessors_loop_spec net st c : forall prev ids l,
  GetNSuccessors_loop net st c prev ids = Some l ->
  (List.length l <= c)%nat /\ NoDup (map rp_id l) /\
  Forall (fun s => ~ In (rp_id s) ids) l.
Proof.
  induction c as [|c IH]; intros prev ids l E; cbn [GetNSuccessors_loop] in E.
  - injection E as <-. repeat constructor.
  - destruct (GetSuccessor net st (key_add prev 1)) as [s|]; [|discriminate].
    destruct (existsb (Z.eqb (rp_id s)) ids) eqn:Ex.
    + injection E as <-. cbn. repeat constructor. lia.
    + destruct (GetNSuccessors_loop net st c (rp_id s) (rp_id s :: ids)) as [rest|] eqn:Er;
        [|discriminate].
      injection E as <-.
      destruct (IH _ _ _ Er) as (Hl & Hnd & Hf).
      assert (Hni : ~ In (rp_id s) ids).
      { intros Hin. assert (existsb (Z.eqb (rp_id s)) ids = true) as T
          by (apply existsb_exists; exists (rp_id s); split; [exact Hin | apply Z.eqb_refl]).
        congruence. }
      cbn [List.length map]. split; [lia|]. split.
      * constructor; [|exact Hnd].
        intros Hin. apply in_map_iff in Hin as (s' & Es & Hs').
        rewrite Forall_forall in Hf. apply (Hf s' Hs'). rewrite Es. left. reflexivity.
      * constructor; [exact Hni|].
        eapply Forall_impl; [|exact Hf]. intros s' H Hin. apply H. right. exact Hin.
Qed.

Lemma GetNSuccessors_spec net st key n l :
  GetNSuccessors net st key n = Some l ->
  (List.length l <= Z.to_nat n)%nat /\ NoDup (map rp_id l).
Proof.
  intros E. destruct (GetNSuccessors_loop_spec net st (Z.to_nat n) _ _ _ E) as (H1 & H2 & _). auto.
Qed.

Lemma skipn_nth_error {A} (l : list A) : forall i x,
  nth_error l i = Some x -> skipn i l = x :: skipn (S i) l.
Proof.
  induction l as [|y l IH]; intros [|i] x E; cbn in *; try discriminate.
  - injection E as ->. reflexivity.
  - apply IH. exact E.
Qed.

Lemma nth_error_lt {A} (l : list A) i :
  (i < List.length l)%nat -> exists x, nth_error l i = Some x.
Proof.
  intros H. destruct (nth_error l i) eqn:E; [eauto|].
  apply nth_error_None in E. lia.
Qed.

Section Facts.
Context {F : Type}.
Variable sha1 : string -> Z.
Local Abbreviation node := (@Node F).

(** [db_.Insert] on a database built by the public operations. *)
Lemma local_insert (db : node) key f :
  reachable sha1 db -> in_ring key ->
  (Lookup db key = None ->
     snd (Insert sha1 db key f) = true /\
     Lookup (fst (Insert sha1 db key f)) key = Some f /\
     reachable sha1 (fst (Insert sha1 db key f))) /\
  (Lookup db key <> None -> snd (Insert sha1 db key f) = false).
Proof.
  intros Hr Hk. pose proof Hk as Hk0. unfold in_ring in Hk.
  destruct (reachable_root_inv sha1 db Hr) as (Hmn & Hmx & Hp & Hne & Hwf & Hh).
  assert (Hkt : min_key_ db <= key < max_key_ db) by lia.
  rewrite (Lookup_entries db key Hwf Hkt).
  split.
  - intros Hnf.
    assert (Eok : snd (Insert sha1 db key f) = true).
    { destruct (snd (Insert sha1 db key f)) eqn:E; [reflexivity|].
      apply (Insert_fail_iff sha1 db key f Hwf Hkt) in E. congruence. }
    destruct (Insert_ok_spec sha1 db key f Hwf ltac:(lia) Hkt Eok)
      as (Em & Ex & _ & Hw' & _ & _ & He').
    split; [exact Eok|]. split; [|apply reach_insert; assumption].
    rewrite (Lookup_entries _ key Hw' ltac:(lia)), He'.
    apply map_find_insert_same. exact Hnf.
  - intros Hin. apply (Insert_fail_iff sha1 db key f Hwf Hkt). exact Hin.
Qed.


Lemma answer_other dn self key (db db' : node) s :
  rp_id s <> self -> answer dn self key db s = answer dn self key db' s.
Proof.
  intros H. unfold answer. destruct (Z.eqb_spec (rp_id s) self); [contradiction|reflexivity].
Qed.

Lemma map_answer_other dn self key (db db' : node) l :
  (forall s, In s l -> rp_id s <> self) ->
  map (answer dn self key db) l = map (answer dn self key db') l.
Proof.
  intros H. apply map_ext_in. intros s Hs. apply answer_other, H, Hs.
Qed.

Lemma filter_answer_other dn self key (db db' : node) l (g : Answer -> bool) :
  (forall s, In s l -> rp_id s <> self) ->
  filter (fun s => g (answer dn self key db s)) l =
  filter (fun s => g (answer dn self key db' s)) l.
Proof.
  intros H. induction l as [|s l IH]; [reflexivity|]. cbn [filter].
  rewrite (answer_other dn self key db db' s) by (apply H; left; reflexivity).
  rewrite IH by (intros s' Hs'; apply H; right; exact Hs'). reflexivity.
Qed.

Lemma forallb_answer_other dn self key (db db' : node) l (g : Answer -> bool) :
  (forall s, In s l -> rp_id s <> self) ->
  forallb (fun s => g (answer dn self key db s)) l =
  forallb (fun s => g (answer dn self key db' s)) l.
Proof.
  intros H. induction l as [|s l IH]; [reflexivity|]. cbn [forallb].
  rewrite (answer_other dn self key db db' s) by (apply H; left; reflexivity).
  rewrite IH by (intros s' Hs'; apply H; right; exact Hs'). reflexivity.
Qed.

Lemma others_after_self (s : RemotePeer) rest self :
  NoDup (map rp_id (s :: rest)) -> rp_id s = self ->
  forall s', In s' rest -> rp_id s' <> self.
Proof.
  intros Hnd Hs s' Hin E. cbn [map] in Hnd. inversion Hnd as [|? ? Hni _]; subst.
  apply Hni. rewrite <- E. apply in_map. exact Hin.
Qed.

Lemma remote_stores_cons dn self (p : RemotePeer * F) ps :
  remote_stores dn self (p :: ps) =
  (if negb (rp_id (fst p) =? self) && is_alive (chord_net dn) (fst p) then [p] else [])
  ++ remote_stores dn self ps.
Proof.
  unfold remote_stores. cbn [filter].
  destruct (negb (rp_id (fst p) =? self) && is_alive (chord_net dn) (fst p)); reflexivity.
Qed.


(** A run of the storing loop in which nobody refuses. *)
Lemma Create_loop_ok dn self key (frags : list F) : forall succs i (db : node) r sent,
  reachable sha1 db -> in_ring key -> NoDup (map rp_id succs) ->
  (i + List.length succs <= List.length frags)%nat ->
  forallb (fun s => negb (is_refused (answer dn self key db s))) succs = true ->
  let o := Create_loop sha1 dn self key frags i succs db r sent in
  out_error o = None /\
  out_sent o = sent ++ remote_stores dn self (combine succs (skipn i frags)) /\
  out_replicas o =
    r + Z.of_nat (List.length (filter (fun s => is_stored (answer dn self key db s)) succs)) /\
  (forall s f, In (s, f) (combine succs (skipn i frags)) -> rp_id s = self ->
     Lookup (out_db o) key = Some f) /\
  ((forall s, In s succs -> rp_id s <> self) -> out_db o = db).
Proof.
  induction succs as [|s rest IH]; intros i db r sent Hr Hk Hnd Hlen Hnr.
  - cbn. rewrite app_nil_r. split; [reflexivity|]. split; [reflexivity|].
    split; [lia|]. split; [|reflexivity].
    intros s f Hin. destruct (skipn i frags); contradiction.
  - cbn [List.length] in Hlen.
    destruct (nth_error_lt frags i ltac:(lia)) as [f Ef].
    rewrite (skipn_nth_error frags i f Ef). cbn [combine].
    cbn [forallb] in Hnr. apply andb_prop in Hnr as [Hs Hnr].
    pose proof Hnd as Hnd'. cbn [map] in Hnd'. inversion Hnd' as [|? ? _ Hndr]; subst.
    cbn [Create_loop]. rewrite remote_stores_cons. cbn [fst filter List.length].
    unfold answer at 1 in Hs. unfold answer at 1.
    destruct (Z.eqb_spec (rp_id s) self) as [Es|Es].
    + (* the peer itself: a local insert *)
      rewrite Ef.
      destruct (Lookup db key) eqn:El; [discriminate|].
      destruct (local_insert db key f Hr Hk) as [Hins _].
      destruct (Hins El) as (Eok & Hl' & Hr').
      destruct (Insert sha1 db key f) as [db' ok] eqn:Ei. cbn [fst snd] in Eok, Hl', Hr'.
      subst ok.
      pose proof (others_after_self s rest self Hnd Es) as Hoth.
      rewrite (forallb_answer_other dn self key db db' rest (fun a => negb (is_refused a)) Hoth) in Hnr.
      destruct (IH (S i) db' (r + 1) sent Hr' Hk Hndr ltac:(lia) Hnr)
        as (He & Hsent & Hrep & Hloc & Hdb).
      cbn [negb andb app is_stored].
      split; [exact He|]. split; [exact Hsent|]. split.
      { rewrite Hrep, (filter_answer_other dn self key db db' rest is_stored Hoth). cbn [List.length]. lia. }
      split; [|intros Hall; exfalso; apply (Hall s); [left; reflexivity | exact Es]].
      intros s0 f0 [E0|Hin] Hs0.
      * injection E0 as <- <-. rewrite (Hdb Hoth). exact Hl'.
      * exfalso. apply in_combine_l in Hin. exact (Hoth s0 Hin Hs0).
    + assert (Ne : (rp_id s =? self) = false) by (apply Z.eqb_neq; exact Es).
      cbn [negb andb].
      destruct (is_alive (chord_net dn) s) eqn:Ea.
      * rewrite Ef. destruct (create_ack dn s) eqn:Ec; [|discriminate].
        destruct (IH (S i) db (r + 1) (sent ++ [(s, f)]) Hr Hk Hndr ltac:(lia) Hnr)
          as (He & Hsent & Hrep & Hloc & Hdb).
        cbn [is_stored]. split; [exact He|]. split.
        { rewrite Hsent, <- app_assoc. reflexivity. }
        split; [rewrite Hrep; cbn [is_stored List.length]; lia|]. split.
        { intros s0 f0 [E0|Hin] Hs0; [injection E0 as <- <-; contradiction|].
          exact (Hloc s0 f0 Hin Hs0). }
        intros Hall. apply Hdb. intros s' Hs'. apply Hall. right. exact Hs'.
      * destruct (IH (S i) db r sent Hr Hk Hndr ltac:(lia) Hnr)
          as (He & Hsent & Hrep & Hloc & Hdb).
        cbn [is_stored app]. split; [exact He|]. split; [exact Hsent|].
        split; [rewrite Hrep; cbn [is_stored List.length]; lia|]. split.
        { intros s0 f0 [E0|Hin] Hs0; [injection E0 as <- <-; contradiction|].
          exact (Hloc s0 f0 Hin Hs0). }
        intros Hall. apply Hdb. intros s' Hs'. apply Hall. right. exact Hs'.
Qed.


(** A run of the storing loop reaching the first successor that refuses:
    the loop throws there. *)
Lemma Create_loop_refused dn self key (frags : list F) : forall succs i (db : node) r sent j s,
  reachable sha1 db -> in_ring key -> NoDup (map rp_id succs) ->
  (i + List.length succs <= List.length frags)%nat ->
  nth_error succs j = Some s -> answer dn self key db s = Refused ->
  (forall j' s', (j' < j)%nat -> nth_error succs j' = Some s' ->
     answer dn self key db s' <> Refused) ->
  let o := Create_loop sha1 dn self key frags i succs db r sent in
  out_error o = Some (if rp_id s =? self then KeyExists else FailedRequest) /\
  out_sent o = sent ++ remote_stores dn self (firstn (S j) (combine succs (skipn i frags))).
Proof.
  induction succs as [|s0 rest IH]; intros i db r sent j s Hr Hk Hnd Hlen Ej Hs Hbefore;
    [destruct j; discriminate|].
  cbn [List.length] in Hlen.
  destruct (nth_error_lt frags i ltac:(lia)) as [f Ef].
  rewrite (skipn_nth_error frags i f Ef). cbn [combine].
  pose proof Hnd as Hnd'. cbn [map] in Hnd'. inversion Hnd' as [|? ? _ Hndr]; subst.
  cbn [Create_loop].
  destruct j as [|j].
  - cbn [nth_error] in Ej. injection Ej as <-.
    cbn [firstn]. rewrite remote_stores_cons. cbn [fst remote_stores filter app].
    unfold answer in Hs.
    destruct (Z.eqb_spec (rp_id s0) self) as [Es|Es].
    + rewrite Ef. destruct (Lookup db key) eqn:El; [|discriminate].
      destruct (local_insert db key f Hr Hk) as [_ Hfail].
      assert (Ef' : snd (Insert sha1 db key f) = false) by (apply Hfail; congruence).
      destruct (Insert sha1 db key f) as [db' ok]. cbn [snd] in Ef'. subst ok.
      cbn [negb andb]. rewrite app_nil_r. split; reflexivity.
    + destruct (is_alive (chord_net dn) s0) eqn:Ea; [|discriminate].
      rewrite Ef. destruct (create_ack dn s0) eqn:Ec; [discriminate|].
      cbn [negb andb]. split; reflexivity.
  - cbn [nth_error] in Ej.
    assert (H0 : answer dn self key db s0 <> Refused)
      by (apply (Hbefore 0%nat); [lia | reflexivity]).
    assert (Hb' : forall j' s', (j' < j)%nat -> nth_error rest j' = Some s' ->
                    answer dn self key db s' <> Refused)
      by (intros j' s' Hj' E'; apply (Hbefore (S j')); [lia | exact E']).
    cbn [firstn]. rewrite remote_stores_cons. cbn [fst].
    unfold answer at 1 in H0.
    destruct (Z.eqb_spec (rp_id s0) self) as [Es|Es].
    + rewrite Ef.
      destruct (Lookup db key) eqn:El; [exfalso; apply H0; reflexivity|].
      destruct (local_insert db key f Hr Hk) as [Hins _].
      destruct (Hins El) as (Eok & _ & Hr').
      destruct (Insert sha1 db key f) as [db' ok]. cbn [fst snd] in Eok, Hr'. subst ok.
      pose proof (others_after_self s0 rest self Hnd Es) as Hoth.
      assert (Hin : In s rest) by (eapply nth_error_In; exact Ej).
      rewrite (answer_other dn self key db db' s (Hoth s Hin)) in Hs.
      assert (Hb'' : forall j' s', (j' < j)%nat -> nth_error rest j' = Some s' ->
                       answer dn self key db' s' <> Refused).
      { intros j' s' Hj' E'.
        rewrite <- (answer_other dn self key db db' s' (Hoth s' (nth_error_In _ _ E'))).
        exact (Hb' j' s' Hj' E'). }
      destruct (IH (S i) db' (r + 1) sent j s Hr' Hk Hndr ltac:(lia) Ej Hs Hb'') as [He Hsent].
      cbn [negb andb app]. split; [exact He | exact Hsent].
    + destruct (is_alive (chord_net dn) s0) eqn:Ea.
      * rewrite Ef. destruct (create_ack dn s0) eqn:Ec; [|exfalso; apply H0; reflexivity].
        destruct (IH (S i) db (r + 1) (sent ++ [(s0, f)]) j s Hr Hk Hndr ltac:(lia) Ej Hs Hb')
          as [He Hsent].
        cbn [negb andb]. split; [exact He|]. rewrite Hsent, <- app_assoc. reflexivity.
      * destruct (IH (S i) db r sent j s Hr Hk Hndr ltac:(lia) Ej Hs Hb') as [He Hsent].
        cbn [negb andb app]. split; [exact He | exact Hsent].
Qed.

End Facts.
End DHashFacts.

Module DHashClaims.
Import GenericKey ChordPeer RemotePeerListOps DHashPeer DHashFacts.

(** A ring of fourteen peers with IDs [10, 20, ..., 140] around a peer
    with ID [0] whose only finger covers the whole ring. *)
Definition ring_peer (j : nat) : RemotePeer :=
  mkRemotePeer (10 * Z.of_nat j) (10 * Z.of_nat j - 9) "peer" (Z.of_nat j + 1).

Definition ring_peers : list RemotePeer := map ring_peer (seq 1 14).

Definition self_st : State :=
  mkState 0 "self" 1 0 [mkFinger 1 0 (ring_peer 1)] [] None.

Definition ring_succ (k : Z) : RemotePeer :=
  match find (fun p => k <=? rp_id p) ring_peers with
  | Some p => p
  | None => ToRemotePeer self_st
  end.

Definition ring_net : Net := mkNet (fun _ => true) (fun _ k => Some (ring_succ k)).

(** Every peer is alive; the peer with ID [140] refuses the request. *)
Definition refusing_net : DNet := mkDNet ring_net (fun p => negb (rp_id p =? 140)).

Definition toy_sha1 (s : string) : Z := 1.

Definition frags14 : list Z := map Z.of_nat (seq 1 14).

(** C2 fails as stated: with the constructor's [n_ = 14], [m_ = 10] and
    the last of the fourteen successors refusing, [Create] throws at that
    successor although thirteen stores were acknowledged. *)
Lemma Create_refusal_throws_midloop :
  let ds := init_state self_st in
  GetNSuccessors ring_net self_st 1 (n_ ds) = Some ring_peers /\
  let o := Create toy_sha1 refusing_net ds 1 frags14 (MerkleTree.empty_tree toy_sha1) in
  out_replicas o = 13 /\ m_ ds <= out_replicas o /\ out_error o = Some FailedRequest.
Proof. vm_compute. repeat split; congruence. Qed.


Section Claims.
Context {F : Type}.
Variable sha1 : string -> Z.

(** C2 (amended). For a [DHashPeer] with any IDA parameters [n_], [m_]
    (those of the constructor or of [SetIdaParams], an [int] [m_ >= 0]), routing
    through [DHashPeer::ForwardRequest], let [succs] be what
    [GetNSuccessors(key, n)] returns: at most [n] peers with pairwise
    distinct IDs. If [|succs| < m],
    [Create] throws "Insufficient succs" before storing anything.
    Otherwise it walks [succs] in order and gives the [j]-th successor
    the [j]-th fragment: the peer itself by a local insert, a dead peer
    is skipped, a live peer by a [CREATE_KEY] request. If nobody refuses,
    the local insert (if the peer is among [succs]) stores its fragment,
    one request goes to each live remote successor, and [Create] throws
    "Too few succs" after the loop exactly when fewer than [m] stores
    were made. If some successor refuses (the key is already in the
    local db, or a live peer's request fails), [Create] throws at the
    first such successor ([KeyExists] or [FailedRequest]), after the
    requests to the live remote successors up to and including it. *)
Theorem Create_contract (dn : DNet) (ds : DState) key (frags : list F)
    (db : @MerkleTree.Node F) succs :
  MerkleTree.reachable sha1 db -> in_ring key -> 0 <= m_ ds < 2 ^ 31 ->
  GetNSuccessors (chord_net dn) (chord_ ds) key (n_ ds) = Some succs ->
  Z.of_nat (List.length frags) = n_ ds ->
  (List.length succs <= Z.to_nat (n_ ds))%nat /\ NoDup (map rp_id succs) /\
  let o := Create sha1 dn ds key frags db in
  let self := id_ (chord_ ds) in
  let ans := answer dn self key db in
  let ps := combine succs frags in
  (Z.of_nat (List.length succs) < m_ ds -> o = mkOutcome db 0 [] (Some InsufficientSuccs)) /\
  (m_ ds <= Z.of_nat (List.length succs) ->
     (forallb (fun s => negb (is_refused (ans s))) succs = true ->
        out_sent o = remote_stores dn self ps /\
        (forall s f, In (s, f) ps -> rp_id s = self ->
           MerkleTree.Lookup (out_db o) key = Some f) /\
        ((forall s, In s succs -> rp_id s <> self) -> out_db o = db) /\
        out_error o =
          (if Z.of_nat (List.length (filter (fun s => is_stored (ans s)) succs)) <? m_ ds
           then Some TooFewSuccs else None)) /\
     (forall j s, nth_error succs j = Some s -> ans s = Refused ->
        (forall j' s', (j' < j)%nat -> nth_error succs j' = Some s' -> ans s' <> Refused) ->
        out_error o = Some (if rp_id s =? self then KeyExists else FailedRequest) /\
        out_sent o = remote_stores dn self (firstn (S j) ps))).
Proof.
  intros Hr Hk Hm Hg Hf.
  destruct (GetNSuccessors_spec _ _ _ _ _ Hg) as [Hl Hnd].
  split; [exact Hl|]. split; [exact Hnd|].
  intros o self ans ps. unfold o, Create. rewrite Hg.
  assert (Hsz : to_size_t (m_ ds) = m_ ds)
    by (unfold to_size_t; apply Z.mod_small; split; [lia|]; apply (Z.lt_le_trans _ (2 ^ 31)); [lia|];
        apply Z.pow_le_mono_r; lia).
  rewrite Hsz. split.
  - intros Hlt. destruct (Z.ltb_spec (Z.of_nat (List.length succs)) (m_ ds)); [reflexivity | lia].
  - intros Hge. destruct (Z.ltb_spec (Z.of_nat (List.length succs)) (m_ ds)); [lia|]. split.
    + intros Hnr.
      destruct (Create_loop_ok sha1 dn self key frags succs 0 db 0 [] Hr Hk Hnd
                  ltac:(lia) Hnr) as (He & Hsent & Hrep & Hloc & Hdb).
      cbv zeta. fold self. rewrite He. cbn [skipn app] in Hsent, Hloc. unfold ans, ps.
      set (c := List.length (filter (fun s => is_stored (answer dn self key db s)) succs))
        in *.
      assert (Hc : (out_replicas (Create_loop sha1 dn self key frags 0 succs db 0 [])
                      <? m_ ds) = (Z.of_nat c <? m_ ds)) by (rewrite Hrep; reflexivity).
      rewrite Hc.
      destruct (Z.of_nat c <? m_ ds); cbn [out_sent out_db out_error];
        (split; [exact Hsent|]); (split; [exact Hloc|]); (split; [exact Hdb | first [reflexivity | exact He]]).
    + intros j s Ej Hs Hb.
      destruct (Create_loop_refused sha1 dn self key frags succs 0 db 0 [] j s Hr Hk Hnd
                  ltac:(lia) Ej Hs Hb) as [He Hsent].
      cbv zeta. fold self. rewrite He. split; [exact He|]. exact Hsent.
Qed.

End Claims.

(** Every peer alive and acknowledging. *)
Definition acking_net : DNet := mkDNet ring_net (fun _ => true).

(** The parameters [dhash_test] sets: [SetIdaParams(3, 2, 257)]. *)
Definition test_state : DState := SetIdaParams (init_state self_st) 3 2 257.

Definition frags3 : list Z := [1; 2; 3].

Lemma Create_contract_witness :
  let dn := acking_net in
  let ds := test_state in
  let db := (MerkleTree.empty_tree toy_sha1 : @MerkleTree.Node Z) in
  let succs := [ring_peer 1; ring_peer 2; ring_peer 3] in
  MerkleTree.reachable toy_sha1 db /\ in_ring 1 /\ 0 <= m_ ds < 2 ^ 31 /\
  GetNSuccessors (chord_net dn) (chord_ ds) 1 (n_ ds) = Some succs /\
  Z.of_nat (List.length frags3) = n_ ds /\
  ((List.length succs <= Z.to_nat (n_ ds))%nat /\ NoDup (map rp_id succs) /\
   let o := Create toy_sha1 dn ds 1 frags3 db in
   let self := id_ (chord_ ds) in
   let ans := answer dn self 1 db in
   let ps := combine succs frags3 in
   (Z.of_nat (List.length succs) < m_ ds -> o = mkOutcome db 0 [] (Some InsufficientSuccs)) /\
   (m_ ds <= Z.of_nat (List.length succs) ->
      (forallb (fun s => negb (is_refused (ans s))) succs = true ->
         out_sent o = remote_stores dn self ps /\
         (forall s f, In (s, f) ps -> rp_id s = self ->
            MerkleTree.Lookup (out_db o) 1 = Some f) /\
         ((forall s, In s succs -> rp_id s <> self) -> out_db o = db) /\
         out_error o =
           (if Z.of_nat (List.length (filter (fun s => is_stored (ans s)) succs)) <? m_ ds
            then Some TooFewSuccs else None)) /\
      (forall j s, nth_error succs j = Some s -> ans s = Refused ->
         (forall j' s', (j' < j)%nat -> nth_error succs j' = Some s' -> ans s' <> Refused) ->
         out_error o = Some (if rp_id s =? self then KeyExists else FailedRequest) /\
         out_sent o = remote_stores dn self (firstn (S j) ps)))).
Proof.
  intros dn ds db succs.
  assert (Hr : MerkleTree.reachable toy_sha1 db) by apply MerkleTree.reach_empty.
  assert (Hk : in_ring 1) by (unfold in_ring; rewrite KeyFacts.keys_in_ring_eq; lia).
  assert (Hm : 0 <= m_ ds < 2 ^ 31) by (cbn; lia).
  assert (Hg : GetNSuccessors (chord_net dn) (chord_ ds) 1 (n_ ds) = Some succs)
    by (vm_compute; reflexivity).
  assert (Hf : Z.of_nat (List.length frags3) = n_ ds) by reflexivity.
  split; [exact Hr|]. split; [exact Hk|]. split; [exact Hm|]. split; [exact Hg|].
  split; [exact Hf|].
  exact (Create_contract toy_sha1 dn ds 1 frags3 db succs Hr Hk Hm Hg Hf).
Defined.

End DHashClaims.

Module IDAArith.
Import IDA.

Lemma pow31 : 2 ^ 31 = 2147483648.
Proof. reflexivity. Qed.

Lemma i32_id x : - 2 ^ 31 <= x < 2 ^ 31 -> i32 x = x.
Proof.
  intros H. unfold i32. rewrite pow31 in *.
  change (2 ^ 32) with 4294967296. rewrite Z.mod_small by lia. lia.
Qed.

Lemma Modulo_mod l r : 0 < r -> 2 * r <= 2 ^ 31 -> Modulo l r = l mod r.
Proof.
  intros Hr Hb. unfold Modulo. rewrite pow31 in Hb.
  pose proof (Z.rem_bound_abs l r ltac:(lia)) as Hrem.
  rewrite (Z.abs_eq r) in Hrem by lia.
  assert (-r < Z.rem l r < r) as Hrr by (apply Z.abs_lt; exact Hrem).
  rewrite i32_id by (rewrite pow31; lia).
  rewrite Z.rem_mod_nonneg by lia.
  replace (Z.rem l r + r) with (Z.rem l r + 1 * r) by ring.
  rewrite Z.mod_add by lia.
  rewrite (Z.rem_eq l r) by lia.
  replace (l - r * Z.quot l r) with (l + (- Z.quot l r) * r) by ring.
  apply Z.mod_add. lia.
Qed.
End IDAArith.

Module PolyFacts.
Import PolyZ.

Lemma eval_lo_padd c d x : eval_lo (padd c d) x = eval_lo c x + eval_lo d x.
Proof.
  revert d; induction c as [|a c IH]; intros [|b d]; cbn [padd eval_lo]; try ring.
  rewrite IH. ring.
Qed.

Lemma eval_lo_scale k c x : eval_lo (map (fun a => k * a) c) x = k * eval_lo c x.
Proof. induction c as [|a c IH]; cbn [map eval_lo]; [ring|]. rewrite IH. ring. Qed.

Lemma eval_lo_opp c x : eval_lo (map Z.opp c) x = - eval_lo c x.
Proof. induction c as [|a c IH]; cbn [map eval_lo]; [ring|]. rewrite IH. ring. Qed.

Lemma eval_lo_psub c d x : eval_lo (psub c d) x = eval_lo c x - eval_lo d x.
Proof. unfold psub. rewrite eval_lo_padd, eval_lo_opp. ring. Qed.

Lemma eval_lo_mul_lin c y x : eval_lo (mul_lin c y) x = (x - y) * eval_lo c x.
Proof. unfold mul_lin. rewrite eval_lo_padd, eval_lo_scale. cbn [eval_lo]. ring. Qed.

Lemma length_padd c d : List.length (padd c d) = Nat.max (List.length c) (List.length d).
Proof.
  revert d; induction c as [|a c IH]; intros [|b d]; cbn [padd List.length]; try lia.
  rewrite IH. lia.
Qed.

Lemma length_mul_lin c y : List.length (mul_lin c y) = S (List.length c).
Proof. unfold mul_lin. rewrite length_padd, length_map. cbn [List.length]. lia. Qed.

Lemma length_psub c d : List.length (psub c d) = Nat.max (List.length c) (List.length d).
Proof. unfold psub. rewrite length_padd, length_map. reflexivity. Qed.

Lemma eval_lo_prod_lin l x : eval_lo (prod_lin l) x = prodX l x.
Proof.
  induction l as [|y l IH]; cbn [prod_lin prodX eval_lo]; [ring|].
  rewrite eval_lo_mul_lin, IH. reflexivity.
Qed.

Lemma length_prod_lin l : List.length (prod_lin l) = S (List.length l).
Proof. induction l as [|y l IH]; cbn [prod_lin List.length]; [reflexivity|]. rewrite length_mul_lin, IH. reflexivity. Qed.

Lemma div_lin_spec c x : forall y,
  eval_lo c y = (y - x) * eval_lo (fst (div_lin c x)) y + snd (div_lin c x) /\
  List.length (fst (div_lin c x)) = pred (List.length c).
Proof.
  induction c as [|c0 c IH]; intros y; [cbn; split; [ring|reflexivity]|].
  destruct c as [|c1 c].
  - cbn. split; [ring|reflexivity].
  - change (div_lin (c0 :: c1 :: c) x) with
      (let (q, r) := div_lin (c1 :: c) x in (r :: q, c0 + x * r)).
    destruct (IH y) as [E L]. destruct (div_lin (c1 :: c) x) as [q r]. cbn [fst snd] in *.
    split.
    + change (eval_lo (c0 :: c1 :: c) y) with (c0 + y * eval_lo (c1 :: c) y).
      rewrite E. cbn [eval_lo]. ring.
    + cbn [List.length] in *. lia.
Qed.


Section Modp.
Variable p : Z.
Hypothesis p_prime : prime p.

Lemma p_pos : 0 < p.
Proof. destruct p_prime as [H _]. lia. Qed.

Lemma mod_sub_zero a b : (a - b) mod p = 0 -> a mod p = b mod p.
Proof.
  intros H. pose proof p_pos.
  apply Z.mod_divide in H; [|lia]. destruct H as [k Hk].
  replace a with (b + k * p) by lia. apply Z.mod_add. lia.
Qed.

Lemma mod_eq_sub_zero a b : a mod p = b mod p -> (a - b) mod p = 0.
Proof.
  intros H. pose proof p_pos. rewrite Zminus_mod, H, Z.sub_diag. reflexivity.
Qed.

Lemma prime_mul_zero a b : (a * b) mod p = 0 -> a mod p <> 0 -> b mod p = 0.
Proof.
  intros H Ha. pose proof p_pos.
  apply Z.mod_divide in H; [|lia].
  destruct (proj1 (Z.divide_prime_mul a b p (proj2 (prime_alt p) p_prime)) H) as [D|D].
  - apply Z.mod_divide in D; [contradiction|lia].
  - apply Z.mod_divide; [lia|exact D].
Qed.

Lemma div_lin_zero c x :
  Forall (fun a => a mod p = 0) (fst (div_lin c x)) -> snd (div_lin c x) mod p = 0 ->
  Forall (fun a => a mod p = 0) c.
Proof.
  pose proof p_pos.
  induction c as [|c0 c IH]; intros Hq Hr; [constructor|].
  destruct c as [|c1 c].
  - cbn in Hr. constructor; [exact Hr | constructor].
  - change (div_lin (c0 :: c1 :: c) x) with
      (let (q, r) := div_lin (c1 :: c) x in (r :: q, c0 + x * r)) in Hq, Hr.
    destruct (div_lin (c1 :: c) x) as [q r] eqn:E. cbn [fst snd] in Hq, Hr, IH.
    inversion Hq as [|? ? Hr' Hq']; subst.
    specialize (IH Hq' Hr'). constructor; [|exact IH].
    replace c0 with ((c0 + x * r) + (- x) * r) by ring.
    rewrite Z.add_mod, Hr, Z.mul_mod, Hr', Z.mul_0_r, Z.mod_0_l by lia. reflexivity.
Qed.

Lemma root_bound pts : forall c,
  NoDup (map (fun x => x mod p) pts) -> (List.length c <= List.length pts)%nat ->
  (forall x, In x pts -> eval_lo c x mod p = 0) ->
  Forall (fun a => a mod p = 0) c.
Proof.
  pose proof p_pos.
  induction pts as [|x pts IH]; intros c Hnd Hlen Hroot.
  - destruct c; [constructor | cbn in Hlen; lia].
  - cbn [map] in Hnd. inversion Hnd as [|? ? Hni Hnd']; subst.
    pose proof (div_lin_spec c x) as Hd.
    destruct (div_lin c x) as [q r] eqn:Ed.
    apply (div_lin_zero c x); rewrite Ed; cbn [fst snd].
    + apply IH; [exact Hnd' | destruct (Hd x) as [_ L]; cbn [fst] in L; cbn [List.length] in Hlen; lia|].
      intros y Hy.
      destruct (Hd y) as [E _]. cbn [fst snd] in E.
      assert (Hr : r mod p = 0).
      { destruct (Hd x) as [Ex _]. cbn [fst snd] in Ex.
        rewrite Z.sub_diag, Z.mul_0_l, Z.add_0_l in Ex. rewrite <- Ex.
        apply Hroot. left. reflexivity. }
      apply (prime_mul_zero (y - x)).
      * assert (Hc : eval_lo c y mod p = 0) by (apply Hroot; right; exact Hy).
        rewrite E, Z.add_mod, Hr, Z.add_0_r, Z.mod_mod in Hc by lia. exact Hc.
      * intros Hz. apply mod_sub_zero in Hz. apply Hni.
        rewrite <- Hz. apply (in_map (fun x => x mod p)). exact Hy.
    + destruct (Hd x) as [Ex _]. cbn [fst snd] in Ex.
      rewrite Z.sub_diag, Z.mul_0_l, Z.add_0_l in Ex. rewrite <- Ex.
      apply Hroot. left. reflexivity.
Qed.

End Modp.

End PolyFacts.

Module HornerFacts.
Import PolyZ PolyFacts.

Lemma fold_horner_acc l x acc :
  fold_left (fun acc a => acc * x + a) l acc = acc * x ^ Z.of_nat (List.length l) + eval_hi l x.
Proof.
  unfold eval_hi. revert acc; induction l as [|a l IH]; intros acc; cbn [fold_left List.length].
  - cbn. ring.
  - rewrite IH, (IH (0 * x + a)). rewrite Nat2Z.inj_succ, Z.pow_succ_r by lia. ring.
Qed.

Lemma eval_hi_cons a l x : eval_hi (a :: l) x = a * x ^ Z.of_nat (List.length l) + eval_hi l x.
Proof. unfold eval_hi at 1. cbn [fold_left]. rewrite fold_horner_acc. ring. Qed.

Lemma eval_hi_cons0 l x : eval_hi (0 :: l) x = eval_hi l x.
Proof. reflexivity. Qed.

Lemma eval_hi_app1 l a x : eval_hi (l ++ [a]) x = eval_hi l x * x + a.
Proof. unfold eval_hi. rewrite fold_left_app. reflexivity. Qed.

Lemma eval_lo_app l1 l2 x :
  eval_lo (l1 ++ l2) x = eval_lo l1 x + x ^ Z.of_nat (List.length l1) * eval_lo l2 x.
Proof.
  induction l1 as [|a l1 IH]; cbn [app eval_lo List.length].
  - change (Z.of_nat 0) with 0. ring.
  - rewrite IH, Nat2Z.inj_succ, Z.pow_succ_r by lia. ring.
Qed.

Lemma eval_lo_rev l x : eval_lo (rev l) x = eval_hi l x.
Proof.
  induction l as [|a l IH]; [reflexivity|].
  cbn [rev]. rewrite eval_lo_app, IH, eval_hi_cons, length_rev. cbn [eval_lo]. ring.
Qed.

Lemma fold_horner_padd l1 l2 x a1 a2 : List.length l1 = List.length l2 ->
  fold_left (fun acc a => acc * x + a) (padd l1 l2) (a1 + a2) =
  fold_left (fun acc a => acc * x + a) l1 a1 + fold_left (fun acc a => acc * x + a) l2 a2.
Proof.
  revert l2 a1 a2; induction l1 as [|c l1 IH]; intros [|d l2] a1 a2 Hl;
    cbn [List.length] in Hl; try discriminate; cbn [padd fold_left].
  - reflexivity.
  - rewrite <- IH by lia. f_equal. ring.
Qed.

Lemma eval_hi_padd l1 l2 x : List.length l1 = List.length l2 ->
  eval_hi (padd l1 l2) x = eval_hi l1 x + eval_hi l2 x.
Proof. intros Hl. unfold eval_hi. rewrite <- fold_horner_padd by exact Hl. reflexivity. Qed.

Lemma fold_horner_scale k l x a :
  fold_left (fun acc a => acc * x + a) (map (fun c => k * c) l) (k * a) =
  k * fold_left (fun acc a => acc * x + a) l a.
Proof.
  revert a; induction l as [|c l IH]; intros a; cbn [map fold_left]; [reflexivity|].
  rewrite <- IH. f_equal. ring.
Qed.

Lemma eval_hi_scale k l x : eval_hi (map (fun c => k * c) l) x = k * eval_hi l x.
Proof. unfold eval_hi. rewrite <- fold_horner_scale. f_equal. ring. Qed.

Lemma length_hcoef rl : List.length (hcoef rl) = S (List.length rl).
Proof.
  induction rl as [|y rl IH]; cbn [hcoef List.length]; [reflexivity|].
  rewrite length_padd, length_app. cbn [List.length]. rewrite length_map, IH. lia.
Qed.

Lemma eval_hi_hcoef rl x : eval_hi (hcoef rl) x = prodX rl x.
Proof.
  induction rl as [|y rl IH]; [reflexivity|].
  cbn [hcoef prodX].
  rewrite eval_hi_padd by (cbn [List.length]; rewrite length_app, length_map; cbn [List.length]; lia).
  rewrite eval_hi_app1, eval_hi_cons0, (eval_hi_scale (- y)), IH. ring.
Qed.

Lemma nth_padd l1 l2 j : nth j (padd l1 l2) 0 = nth j l1 0 + nth j l2 0.
Proof.
  revert l2 j; induction l1 as [|a l1 IH]; intros [|b l2] [|j]; cbn [padd nth];
    try solve [ring | destruct j; reflexivity].
  apply IH.
Qed.

Lemma nth_app1_0 l j : nth j (l ++ [0]) 0 = nth j l 0.
Proof. revert j; induction l as [|a l IH]; intros [|j]; cbn; auto. destruct j; reflexivity. Qed.

Lemma nth_map0 (f : Z -> Z) l j : f 0 = 0 -> nth j (map f l) 0 = f (nth j l 0).
Proof. intros H. revert j; induction l as [|a l IH]; intros [|j]; cbn; auto. Qed.

Lemma esym_rev_big i rl : (List.length rl < i)%nat -> esym_rev i rl = 0.
Proof.
  revert i; induction rl as [|y rl IH]; intros [|i] H; cbn [List.length esym_rev] in *; try lia; try reflexivity.
  rewrite (IH (S i)), (IH i) by lia. ring.
Qed.

Lemma esym_rev_0 rl : esym_rev 0 rl = 1.
Proof. destruct rl; reflexivity. Qed.

Lemma nth_hcoef rl j : nth j (hcoef rl) 0 = (-1) ^ Z.of_nat j * esym_rev j rl.
Proof.
  revert j; induction rl as [|y rl IH]; intros j.
  - destruct j as [|[|j]]; cbn [nth esym_rev]; try reflexivity.
    rewrite Z.mul_0_r. reflexivity.
  - cbn [hcoef]. rewrite nth_padd, nth_app1_0, IH. destruct j as [|j].
    + cbn [nth esym_rev]. rewrite esym_rev_0. ring.
    + cbn [nth]. rewrite nth_map0 by ring. rewrite IH. cbn [esym_rev].
      rewrite Nat2Z.inj_succ, Z.pow_succ_r by lia. ring.
Qed.

End HornerFacts.

Module IDAInverse.
Import IDA IDAArith PolyFacts.

Section Inv.
Variables (p d : Z).
Hypothesis p_prime : prime p.
Hypothesis Hd : 0 < d < p.
Hypothesis Hp : 2 * p < 2 ^ 31.

Lemma mod0_comb a b u v : a mod p = 0 -> b mod p = 0 -> (u * a + v * b) mod p = 0.
Proof.
  intros Ha Hb. pose proof (p_pos p p_prime).
  rewrite Z.add_mod, Z.mul_mod, Ha, (Z.mul_mod v), Hb by lia.
  rewrite !Z.mul_0_r, !Z.mod_0_l by lia. reflexivity.
Qed.

Lemma ModInverse_loop_spec : forall fuel t nt r nr,
  0 < r <= p -> 0 <= nr < r -> Z.of_nat fuel > nr ->
  Z.gcd r nr = 1 ->
  (t * d - r) mod p = 0 -> (nt * d - nr) mod p = 0 ->
  t * nt <= 0 -> Z.abs nt * r + Z.abs t * nr = p -> Z.abs t <= p ->
  snd (ModInverse_loop fuel t nt r nr) = 1 /\
  (fst (ModInverse_loop fuel t nt r nr) * d - 1) mod p = 0 /\
  Z.abs (fst (ModInverse_loop fuel t nt r nr)) <= p.
Proof.
  pose proof pow31 as P31.
  induction fuel as [|fuel IH]; intros t nt r nr Hr Hnr Hf Hg Ht Hnt Hs Hsum Hta.
  - lia.
  - cbn [ModInverse_loop].
    destruct (Z.eqb_spec nr 0) as [E|E].
    + subst nr. cbn [fst snd]. rewrite Z.gcd_0_r, Z.abs_eq in Hg by lia. subst r. auto.
    + set (q := Z.quot r nr).
      assert (Hq : q = r / nr) by (apply Z.quot_div_nonneg; lia).
      assert (Hmod : r - q * nr = r mod nr) by (rewrite Hq, Z.mod_eq by lia; ring).
      assert (Hq0 : 0 <= q) by (rewrite Hq; apply Z.div_pos; lia).
      assert (Hqr : nr * q <= r) by (rewrite Hq; apply Z.mul_div_le; lia).
      assert (Hntr : Z.abs nt * r <= p) by nia.
      assert (Hqnt : Z.abs (q * nt) <= p) by (rewrite Z.abs_mul, (Z.abs_eq q) by lia; nia).
      assert (Habs : Z.abs (t - q * nt) = Z.abs t + q * Z.abs nt).
      { destruct (Z.le_gt_cases 0 nt); destruct (Z.le_gt_cases 0 t).
        - assert (t = 0 \/ nt = 0) as [-> | ->] by nia.
          + rewrite Z.sub_0_l, Z.abs_opp, Z.abs_mul, (Z.abs_eq q) by lia. lia.
          + rewrite Z.mul_0_r, Z.sub_0_r. lia.
        - rewrite (Z.abs_neq t), (Z.abs_eq nt), Z.abs_neq by nia. ring.
        - rewrite (Z.abs_eq t), (Z.abs_neq nt), Z.abs_eq by nia. ring.
        - nia. }
      rewrite (i32_id (q * nt)) by lia.
      rewrite (i32_id (t - q * nt)) by lia.
      rewrite (i32_id (q * nr)) by nia.
      rewrite (i32_id (r - q * nr)) by nia.
      pose proof (Z.mod_pos_bound r nr ltac:(lia)) as Hb.
      apply IH.
      * lia.
      * lia.
      * rewrite Nat2Z.inj_succ in Hf. lia.
      * rewrite Hmod, Z.gcd_comm, Z.gcd_mod, Z.gcd_comm by lia. exact Hg.
      * exact Hnt.
      * replace ((t - q * nt) * d - (r - q * nr)) with (1 * (t * d - r) + (- q) * (nt * d - nr)) by ring.
        apply mod0_comb; assumption.
      * nia.
      * rewrite Habs. nia.
      * nia.
Qed.

Lemma ModInverse_spec : exists inv,
  ModInverse d p = Some inv /\ (inv * d) mod p = 1 /\ 0 < inv < p.
Proof.
  pose proof (p_pos p p_prime) as Hp0. pose proof pow31 as P31.
  assert (Hp1 : 1 < p) by (destruct p_prime; lia).
  unfold ModInverse. rewrite Z.abs_eq by lia.
  destruct (ModInverse_loop_spec (S (Z.to_nat d)) 0 1 p d) as (Hr & Ht & Hta).
  - lia.
  - lia.
  - rewrite Nat2Z.inj_succ, Z2Nat.id by lia. lia.
  - apply (Z.coprime_prime_small p d (proj2 (prime_alt p) p_prime)). lia.
  - replace (0 * d - p) with ((-1) * p) by ring. apply Z.mod_mul. lia.
  - rewrite Z.mul_1_l, Z.sub_diag. apply Z.mod_0_l. lia.
  - lia.
  - cbn [Z.abs]. lia.
  - cbn [Z.abs]. lia.
  - destruct (ModInverse_loop (S (Z.to_nat d)) 0 1 p d) as [t r]. cbn [fst snd] in *.
    subst r. cbn [Z.ltb Z.compare].
    assert (Hm : (t * d) mod p = 1).
    { apply (mod_sub_zero p p_prime) in Ht. rewrite Ht. apply Z.mod_small. lia. }
    destruct (Z.ltb_spec t 0) as [Hneg|Hnn].
    + exists (i32 (t + p)). rewrite i32_id by lia. split; [reflexivity|].
      split.
      * rewrite Z.mul_add_distr_r, Z.add_mod, Hm, (Z.mul_comm p d), Z.mod_mul, Z.add_0_r by lia.
        apply Z.mod_small. lia.
      * split; [|lia].
        destruct (Z.eq_dec t (- p)) as [->|]; [|lia].
        replace (- p * d) with ((- d) * p) in Hm by ring. rewrite Z.mod_mul in Hm by lia. discriminate.
    + exists t. split; [reflexivity|]. split; [exact Hm|].
      destruct (Z.eq_dec t 0) as [->|]; [rewrite Z.mul_0_l, Z.mod_0_l in Hm by lia; discriminate|].
      destruct (Z.eq_dec t p) as [->|]; [|lia].
      rewrite Z.mul_comm, Z.mod_mul in Hm by lia. discriminate.
Qed.

End Inv.
End IDAInverse.

Module IDAEst.
Import IDA IDAArith PolyZ HornerFacts.

Lemma i32_mod x : i32 x mod 2 ^ 32 = x mod 2 ^ 32.
Proof.
  unfold i32. rewrite Zminus_mod_idemp_l. f_equal. ring.
Qed.

Lemma i32_eq x y : x mod 2 ^ 32 = y mod 2 ^ 32 -> i32 x = i32 y.
Proof.
  intros H. unfold i32. rewrite (Z.add_mod x), H, <- Z.add_mod by lia. reflexivity.
Qed.

Lemma i32_add_l a b : i32 (i32 a + b) = i32 (a + b).
Proof. apply i32_eq. rewrite Z.add_mod, i32_mod, <- Z.add_mod by lia. reflexivity. Qed.

Lemma i32_scan a x b : i32 (i32 (i32 a * x) + i32 b) = i32 (a * x + b).
Proof.
  apply i32_eq.
  rewrite Z.add_mod, !i32_mod, Z.mul_mod, i32_mod, <- Z.mul_mod, <- Z.add_mod by lia.
  reflexivity.
Qed.

Definition R32 (a a' : Z) : Prop := a = i32 a'.

Lemma R32_0 : R32 0 0.
Proof. reflexivity. Qed.

Lemma Forall2_R32_repeat i : Forall2 R32 (repeat 0 i) (repeat 0 i).
Proof. induction i; constructor; [exact R32_0 | exact IHi]. Qed.

Lemma Forall2_skipn {A B} (P : A -> B -> Prop) k l l' :
  Forall2 P l l' -> Forall2 P (skipn k l) (skipn k l').
Proof.
  intros H. revert k; induction H as [|a a' l l' Ha H IH]; intros [|k]; cbn; auto.
Qed.

Lemma Forall2_firstn {A B} (P : A -> B -> Prop) k l l' :
  Forall2 P l l' -> Forall2 P (firstn k l) (firstn k l').
Proof.
  intros H. revert k; induction H as [|a a' l l' Ha H IH]; intros [|k]; cbn; auto.
Qed.

Lemma Forall2_R32_last l l' : Forall2 R32 l l' -> R32 (last l 0) (last l' 0).
Proof.
  induction 1 as [|a a' l l' Ha H IH]; [exact R32_0|].
  destruct H; [exact Ha | exact IH].
Qed.

Lemma prefix_sums_R32 v acc acc' : R32 acc acc' ->
  Forall2 R32 (prefix_sums i32 v acc) (prefix_sums id v acc').
Proof.
  revert acc acc'; induction v as [|x v IH]; intros acc acc' H; cbn; constructor.
  - unfold R32 in *. rewrite H, i32_add_l. reflexivity.
  - apply IH. unfold R32 in *. rewrite H, i32_add_l. reflexivity.
Qed.

Lemma scan_row_R32 prev prev' v cur cur' : Forall2 R32 prev prev' -> R32 cur cur' ->
  Forall2 R32 (scan_row i32 prev v cur) (scan_row id prev' v cur').
Proof.
  intros H. revert v cur cur'; induction H as [|a a' l l' Ha H IH]; intros v cur cur' Hc;
    destruct v as [|x v]; cbn; constructor.
  - unfold R32 in *. rewrite Ha, Hc, i32_scan. reflexivity.
  - apply IH. unfold R32 in *. rewrite Ha, Hc, i32_scan. reflexivity.
Qed.

Lemma est_row_R32 i prev prev' v : Forall2 R32 prev prev' ->
  Forall2 R32 (est_row i32 i prev v) (est_row id i prev' v).
Proof.
  intros H. unfold est_row. apply Forall2_firstn, Forall2_app.
  - apply Forall2_R32_repeat.
  - apply scan_row_R32; [apply Forall2_skipn; exact H | exact R32_0].
Qed.

Lemma est_rows_R32 count i prev prev' v : Forall2 R32 prev prev' ->
  Forall2 (Forall2 R32) (est_rows i32 count i prev v) (est_rows id count i prev' v).
Proof.
  revert i prev prev'; induction count as [|count IH]; intros i prev prev' H; cbn; constructor.
  - apply est_row_R32. exact H.
  - apply IH. apply est_row_R32. exact H.
Qed.

Lemma map_last_R32 rows rows' : Forall2 (Forall2 R32) rows rows' ->
  Forall2 R32 (map (fun row => last row 0) rows) (map (fun row => last row 0) rows').
Proof.
  induction 1; cbn; constructor; [apply Forall2_R32_last |]; assumption.
Qed.

Lemma EST_with_R32 v m : Forall2 R32 (EST_with i32 v m) (EST_with id v m).
Proof.
  unfold EST_with. apply map_last_R32.
  assert (H1 : Forall2 R32 (0 :: prefix_sums i32 v 0) (0 :: prefix_sums id v 0))
    by (constructor; [exact R32_0 | apply prefix_sums_R32, R32_0]).
  destruct m as [|m]; constructor; try apply Forall2_R32_repeat; [constructor|].
  constructor; [exact H1|]. apply est_rows_R32. exact H1.
Qed.

Lemma EST_nth v m j :
  nth j (ElementarySymmetricTransform v m) 0 = i32 (nth j (EST_with id v m) 0).
Proof.
  unfold ElementarySymmetricTransform. generalize (EST_with_R32 v m).
  generalize (EST_with i32 v m) (EST_with id v m). intros l0 l0' H0. revert j.
  induction H0 as [|a a' l l' Ha H IH]; intros j; [destruct j; reflexivity|].
  destruct j; [exact Ha | apply IH].
Qed.

Lemma firstn_S_nth (B : list Z) j : (j < List.length B)%nat ->
  firstn (S j) B = firstn j B ++ [nth j B 0].
Proof.
  revert j; induction B as [|x B IH]; intros [|j] H; cbn [List.length] in H; try lia; [reflexivity|].
  change (x :: firstn (S j) B = x :: (firstn j B ++ [nth j B 0])). rewrite IH by lia. reflexivity.
Qed.

Lemma E_at_step B i j : (j < List.length B)%nat ->
  E_at B (S i) (S j) = E_at B (S i) j + nth j B 0 * E_at B i j.
Proof. intros H. unfold E_at. rewrite firstn_S_nth, rev_app_distr by exact H. reflexivity. Qed.

Lemma E_at_small B i j : (j < i)%nat -> E_at B i j = 0.
Proof. intros H. unfold E_at. apply esym_rev_big. rewrite length_rev, length_firstn. lia. Qed.

Lemma E_at_0 B j : E_at B 0 j = 1.
Proof. apply esym_rev_0. Qed.

Lemma nth_map_seq (f : nat -> Z) s n k d : (k < n)%nat -> nth k (map f (seq s n)) d = f (s + k)%nat.
Proof.
  intros H. rewrite (nth_indep _ d (f 0%nat)) by (rewrite length_map, length_seq; exact H).
  rewrite map_nth, seq_nth by exact H. reflexivity.
Qed.

Lemma repeat_map_seq (f : nat -> Z) : forall i s,
  (forall j, (s <= j < s + i)%nat -> f j = 0) -> repeat 0 i = map f (seq s i).
Proof.
  induction i as [|i IH]; intros s H; [reflexivity|].
  cbn [repeat seq map]. rewrite (H s) by lia. f_equal. apply IH. intros j Hj. apply H. lia.
Qed.

Lemma scan_row_spec (F G : nat -> Z) (B : list Z) : forall L s prev v cur,
  (forall j, (s <= j < s + L)%nat -> F (S j) = G j * nth j B 0 + F j) ->
  (List.length prev >= L)%nat -> List.length v = L ->
  (forall k, (k < L)%nat -> nth k prev 0 = G (s + k)%nat) ->
  (forall k, (k < L)%nat -> nth k v 0 = nth (s + k) B 0) ->
  cur = F s ->
  scan_row id prev v cur = map (fun j => F (S j)) (seq s L).
Proof.
  induction L as [|L IH]; intros s prev v cur HF Hp Hv Hprev Hvv Hc.
  - destruct v; [|cbn in Hv; lia]. destruct prev; reflexivity.
  - destruct prev as [|p0 prev]; [cbn in Hp; lia|]. destruct v as [|x v]; [cbn in Hv; lia|].
    cbn [scan_row seq map]. unfold id.
    assert (Hp0 : p0 = G s) by (rewrite <- (Nat.add_0_r s); exact (Hprev 0%nat ltac:(lia))).
    assert (Hx : x = nth s B 0) by (rewrite <- (Nat.add_0_r s); exact (Hvv 0%nat ltac:(lia))).
    assert (Hstep : p0 * x + cur = F (S s)) by (rewrite Hp0, Hx, Hc, HF by lia; reflexivity).
    rewrite Hstep. f_equal.
    apply IH.
    + intros j Hj. apply HF. lia.
    + cbn [List.length] in Hp. lia.
    + cbn [List.length] in Hv. lia.
    + intros k Hk. replace (S s + k)%nat with (s + S k)%nat by lia. exact (Hprev (S k) ltac:(lia)).
    + intros k Hk. replace (S s + k)%nat with (s + S k)%nat by lia. exact (Hvv (S k) ltac:(lia)).
    + reflexivity.
Qed.

Lemma prefix_sums_spec (F : nat -> Z) (B : list Z) : forall L s v acc,
  (forall j, (s <= j < s + L)%nat -> F (S j) = F j + nth j B 0) ->
  List.length v = L -> (forall k, (k < L)%nat -> nth k v 0 = nth (s + k) B 0) -> acc = F s ->
  prefix_sums id v acc = map (fun j => F (S j)) (seq s L).
Proof.
  induction L as [|L IH]; intros s v acc HF Hv Hvv Hc.
  - destruct v; [reflexivity | cbn in Hv; lia].
  - destruct v as [|x v]; [cbn in Hv; lia|].
    cbn [prefix_sums seq map]. unfold id.
    assert (Hx : x = nth s B 0) by (rewrite <- (Nat.add_0_r s); exact (Hvv 0%nat ltac:(lia))).
    assert (Hstep : acc + x = F (S s)) by (rewrite Hx, Hc, HF by lia; reflexivity).
    rewrite Hstep. f_equal.
    apply IH.
    + intros j Hj. apply HF. lia.
    + cbn [List.length] in Hv. lia.
    + intros k Hk. replace (S s + k)%nat with (s + S k)%nat by lia. exact (Hvv (S k) ltac:(lia)).
    + reflexivity.
Qed.

Lemma row1_spec B : 0 :: prefix_sums id B 0 = row_of B 1.
Proof.
  unfold row_of. cbn [seq map]. rewrite (E_at_small B 1 0) by lia. f_equal.
  rewrite <- seq_shift, map_map.
  apply (prefix_sums_spec (E_at B 1) B (List.length B) 0 B 0).
  - intros j Hj. rewrite E_at_step by lia. rewrite E_at_0. ring.
  - reflexivity.
  - intros k Hk. reflexivity.
  - symmetry. apply E_at_small. lia.
Qed.

Lemma est_row_spec B i : (2 <= i <= List.length B)%nat ->
  est_row id i (row_of B (i - 1)) B = row_of B i.
Proof.
  intros Hi. destruct i as [|i']; [lia|].
  unfold est_row, row_of.
  replace (S i' - 1)%nat with i' by lia.
  rewrite (scan_row_spec (E_at B (S i')) (E_at B i') B (List.length B - i') i'
             (skipn i' (map (E_at B i') (seq 0 (S (List.length B))))) (skipn i' B) 0).
  - rewrite firstn_all2
      by (rewrite length_app, repeat_length, length_map, length_seq; lia).
    rewrite (repeat_map_seq (E_at B (S i')) (S i') 0) by (intros; apply E_at_small; lia).
    replace (map (fun j => E_at B (S i') (S j)) (seq i' (List.length B - i')))
      with (map (E_at B (S i')) (seq (S i') (List.length B - i')))
      by (rewrite <- seq_shift, map_map; reflexivity).
    rewrite <- map_app. f_equal.
    replace (S (List.length B)) with (S i' + (List.length B - i'))%nat by lia. symmetry. apply seq_app.
  - intros j Hj. rewrite E_at_step by lia. ring.
  - rewrite length_skipn, length_map, length_seq. lia.
  - rewrite length_skipn. lia.
  - intros k Hk. rewrite nth_skipn, nth_map_seq by lia. reflexivity.
  - intros k Hk. apply nth_skipn.
  - symmetry. apply E_at_small. lia.
Qed.

Lemma est_rows_spec B : forall count i, (2 <= i)%nat -> (i + count <= S (List.length B))%nat ->
  est_rows id count i (row_of B (i - 1)) B = map (row_of B) (seq i count).
Proof.
  induction count as [|count IH]; intros i Hi Hc; [reflexivity|].
  cbn [est_rows seq map]. rewrite est_row_spec by lia. f_equal.
  replace (row_of B i) with (row_of B (S i - 1)) by (f_equal; lia).
  apply IH; lia.
Qed.

Lemma last_map_seq (f : nat -> Z) n : last (map f (seq 0 (S n))) 0 = f n.
Proof. rewrite seq_S, map_app. cbn [map]. apply last_last. Qed.

Lemma last_repeat0 k : last (repeat 0 k) 0 = 0.
Proof. induction k as [|k IH]; [reflexivity|]. destruct k; [reflexivity | exact IH]. Qed.

Lemma last_row_of B i : last (row_of B i) 0 = esym_rev i (rev B).
Proof. unfold row_of. rewrite last_map_seq. unfold E_at. rewrite firstn_all. reflexivity. Qed.

Lemma EST_id_spec B m : S m = List.length B ->
  EST_with id B (S m) = 0 :: map (fun i => esym_rev i (rev B)) (seq 1 (S m)).
Proof.
  intros Hm. unfold EST_with. rewrite row1_spec.
  replace (est_rows id m 2 (row_of B 1) B) with (map (row_of B) (seq 2 m))
    by (symmetry; apply (est_rows_spec B m 2); lia).
  cbn [map seq]. rewrite last_repeat0, last_row_of, map_map. f_equal. f_equal.
  apply map_ext. intros i. apply last_row_of.
Qed.

Lemma esym_rev_nonneg i rl : Forall (fun x => 0 <= x) rl -> 0 <= esym_rev i rl.
Proof.
  intros H. revert i; induction H as [|y rl Hy H IH]; intros [|i]; cbn [esym_rev]; try lia.
  pose proof (IH (S i)). pose proof (IH i). nia.
Qed.

End IDAEst.

Module IDANumer.
Import IDA IDAArith PolyZ PolyFacts HornerFacts IDAInverse.

Lemma last_cons_default (a : Z) l d : last (a :: l) d = last l a.
Proof.
  revert a d; induction l as [|c l IH]; intros a d; [reflexivity|].
  change (last (a :: c :: l) d) with (last (c :: l) d). rewrite !IH. reflexivity.
Qed.

Lemma neg1_pow n : (-1) ^ Z.of_nat n = 1 \/ (-1) ^ Z.of_nat n = -1.
Proof.
  induction n as [|n IH]; [left; reflexivity|].
  rewrite Nat2Z.inj_succ, Z.pow_succ_r by lia. destruct IH as [-> | ->]; [right | left]; reflexivity.
Qed.

Section Numer.
Variables (p b x : Z) (el : Vector).
Hypothesis p_prime : prime p.
Hypothesis Hb : 0 <= b < p.
Hypothesis Hpp : p * p < 2 ^ 31.
Hypothesis Hel : forall k, 0 <= vec_at el k /\ vec_at el k + p < 2 ^ 31.

Lemma numerator_loop_horner : forall count j lst sign Sv Tv,
  0 <= lst < p -> sign = (-1) ^ Z.of_nat j ->
  ((x - b) * Sv - (x * Tv - b * lst)) mod p = 0 ->
  ((x - b) * fold_left (fun acc a => acc * x + a) (numerator_loop count j lst sign b p el) Sv
    - (x * fold_left (fun acc a => acc * x + a)
                     (map (fun k => (-1) ^ Z.of_nat k * vec_at el k) (seq j count)) Tv
       - b * last (numerator_loop count j lst sign b p el) lst)) mod p = 0
  /\ Forall (fun c => 0 <= c < p) (numerator_loop count j lst sign b p el).
Proof.
  pose proof (p_pos p p_prime) as Hp0. pose proof pow31 as P31.
  assert (Hp2 : 2 * p <= 2 ^ 31) by nia.
  induction count as [|count IH]; intros j lst sign Sv Tv Hl Hs Hinv.
  - cbn [numerator_loop fold_left seq map last]. split; [exact Hinv | constructor].
  - cbn [numerator_loop seq map fold_left].
    destruct (Hel j) as [He1 He2].
    assert (Hsg : sign = 1 \/ sign = -1) by (rewrite Hs; apply neg1_pow).
    set (e := vec_at el j) in *.
    rewrite (i32_id (lst * b)) by nia.
    rewrite (Modulo_mod (lst * b) p) by lia.
    rewrite (i32_id (sign * e)) by (destruct Hsg as [-> | ->]; lia).
    pose proof (Z.mod_pos_bound (lst * b) p Hp0).
    rewrite i32_id by (destruct Hsg as [-> | ->]; lia).
    rewrite Modulo_mod by lia.
    set (cell := ((lst * b) mod p + sign * e) mod p).
    assert (Hc : 0 <= cell < p) by (apply Z.mod_pos_bound; lia).
    rewrite i32_id by (destruct Hsg as [-> | ->]; lia).
    destruct (IH (S j) cell (sign * -1) (Sv * x + cell) (Tv * x + (-1) ^ Z.of_nat j * e))
      as [IH1 IH2].
    + exact Hc.
    + rewrite Hs, Nat2Z.inj_succ, Z.pow_succ_r by lia. ring.
    + replace ((x - b) * (Sv * x + cell) - (x * (Tv * x + (-1) ^ Z.of_nat j * e) - b * cell))
        with (x * ((x - b) * Sv - (x * Tv - b * lst)) + x * (cell - (lst * b + sign * e)))
        by (rewrite Hs; ring).
      apply (mod0_comb p p_prime); [exact Hinv|].
      apply (mod_eq_sub_zero p p_prime). unfold cell.
      rewrite Z.mod_mod, Zplus_mod_idemp_l by lia. reflexivity.
    + split; [|constructor; assumption].
      rewrite last_cons_default. exact IH1.
Qed.

End Numer.

Lemma list_nth_seq (l : list Z) : l = map (fun k => nth k l 0) (seq 0 (List.length l)).
Proof.
  induction l as [|a l IH]; [reflexivity|].
  cbn [List.length seq map]. f_equal. rewrite <- seq_shift, map_map. exact IH.
Qed.

Lemma prodX_app l1 l2 x : prodX (l1 ++ l2) x = prodX l1 x * prodX l2 x.
Proof. induction l1 as [|y l1 IH]; cbn [app prodX]; [ring|]. rewrite IH. ring. Qed.

Lemma prodX_rev l x : prodX (rev l) x = prodX l x.
Proof. induction l as [|y l IH]; [reflexivity|]. cbn [rev prodX]. rewrite prodX_app, IH. cbn [prodX]. ring. Qed.

Lemma prodX_root l y : In y l -> prodX l y = 0.
Proof.
  induction l as [|c l IH]; intros H; [destruct H|]. cbn [prodX].
  destruct H as [->|H]; [ring|]. rewrite IH by exact H. ring.
Qed.

Lemma length_numerator_loop count j lst sign elt p el :
  List.length (numerator_loop count j lst sign elt p el) = count.
Proof. revert j lst sign; induction count; intros; cbn [numerator_loop List.length]; auto. Qed.

Section NumerRow.
Variables (p b : Z) (el B : Vector).
Hypothesis p_prime : prime p.
Hypothesis Hb : 0 <= b < p.
Hypothesis Hpp : p * p < 2 ^ 31.
Hypothesis Hel : forall k, 0 <= vec_at el k /\ vec_at el k + p < 2 ^ 31.
Hypothesis Hesym : forall k, (1 <= k < List.length B)%nat -> vec_at el k = esym_rev k (rev B).
Hypothesis HbB : In b B.

Lemma hcoef_split m' x : List.length B = S m' ->
  prodX B x = x * fold_left (fun acc a => acc * x + a)
                   (map (fun k => (-1) ^ Z.of_nat k * vec_at el k) (seq 1 m')) 1
              + (-1) ^ Z.of_nat (S m') * esym_rev (S m') (rev B).
Proof.
  intros Hm.
  rewrite <- prodX_rev, <- eval_hi_hcoef, (list_nth_seq (hcoef (rev B))), length_hcoef, length_rev, Hm.
  rewrite seq_S, map_app. cbn [map]. rewrite eval_hi_app1, nth_hcoef.
  cbn [seq map]. unfold eval_hi. cbn [fold_left].
  rewrite nth_hcoef, esym_rev_0.
  replace (map (fun k => nth k (hcoef (rev B)) 0) (seq 1 m'))
    with (map (fun k => (-1) ^ Z.of_nat k * vec_at el k) (seq 1 m')).
  - cbn. ring.
  - apply map_ext_in. intros k Hk. apply in_seq in Hk.
    rewrite nth_hcoef, Hesym by lia. reflexivity.
Qed.

Lemma numerator_row_spec :
  List.length (numerator_row el p (List.length B) b) = List.length B /\
  Forall (fun c => 0 <= c < p) (numerator_row el p (List.length B) b) /\
  forall x, ((x - b) * eval_lo (numerator_row el p (List.length B) b) x - prodX B x) mod p = 0.
Proof.
  pose proof (p_pos p p_prime) as Hp0.
  assert (Hp1 : 1 < p) by (destruct p_prime; lia).
  assert (Hm : List.length B = S (pred (List.length B))) by (destruct B; [destruct HbB | reflexivity]).
  set (m' := pred (List.length B)) in Hm. rewrite Hm.
  unfold numerator_row. replace (S m' - 1)%nat with m' by lia.
  set (L := numerator_loop m' 1 1 (-1) b p el).
  assert (HL : forall x,
    ((x - b) * fold_left (fun acc a => acc * x + a) L 1
      - (x * fold_left (fun acc a => acc * x + a)
                       (map (fun k => (-1) ^ Z.of_nat k * vec_at el k) (seq 1 m')) 1
         - b * last L 1)) mod p = 0 /\ Forall (fun c => 0 <= c < p) L).
  { intros x. apply (numerator_loop_horner p b x el); auto; try lia.
    cbn. replace ((x - b) * 1 - (x * 1 - b * 1)) with 0 by ring. apply Z.mod_0_l. lia. }
  set (K := (-1) ^ Z.of_nat (S m') * esym_rev (S m') (rev B) + b * last L 1).
  assert (HQ : forall x, ((x - b) * fold_left (fun acc a => acc * x + a) L 1 - (prodX B x - K)) mod p = 0).
  { intros x. destruct (HL x) as [H _]. rewrite (hcoef_split m' x Hm). unfold K.
    replace ((x - b) * fold_left (fun acc a => acc * x + a) L 1 -
     (x * fold_left (fun acc a => acc * x + a) (map (fun k => (-1) ^ Z.of_nat k * vec_at el k) (seq 1 m')) 1 +
      (-1) ^ Z.of_nat (S m') * esym_rev (S m') (rev B) -
      ((-1) ^ Z.of_nat (S m') * esym_rev (S m') (rev B) + b * last L 1)))
    with ((x - b) * fold_left (fun acc a => acc * x + a) L 1 -
      (x * fold_left (fun acc a => acc * x + a) (map (fun k => (-1) ^ Z.of_nat k * vec_at el k) (seq 1 m')) 1 -
       b * last L 1)) by ring.
    exact H. }
  assert (HK : K mod p = 0).
  { specialize (HQ b). rewrite prodX_root in HQ by exact HbB.
    replace ((b - b) * fold_left (fun acc a => acc * b + a) L 1 - (0 - K)) with K in HQ by ring.
    exact HQ. }
  split; [|split].
  - rewrite length_rev. cbn [List.length]. unfold L. rewrite length_numerator_loop. reflexivity.
  - apply Forall_rev. constructor; [lia|]. exact (proj2 (HL 0)).
  - intros x. rewrite eval_lo_rev. unfold eval_hi. cbn [fold_left].
    rewrite Z.mul_0_l, Z.add_0_l.
    replace ((x - b) * fold_left (fun acc a => acc * x + a) L 1 - prodX B x)
      with (1 * ((x - b) * fold_left (fun acc a => acc * x + a) L 1 - (prodX B x - K)) + (-1) * K)
      by ring.
    apply (mod0_comb p p_prime); [apply HQ | exact HK].
Qed.

End NumerRow.
End IDANumer.

Module IDALagrange.
Import IDA IDAArith PolyZ PolyFacts HornerFacts IDAInverse IDANumer.

Lemma prodX_remove B i x : (i < List.length B)%nat ->
  prodX B x = (x - nth i B 0) * prodX (remove_nth i B) x.
Proof.
  revert i; induction B as [|y B IH]; intros [|i] Hi; cbn [List.length] in Hi; try lia;
    cbn [remove_nth prodX nth]; [reflexivity|].
  rewrite (IH i) by lia. cbn [prodX]. ring.
Qed.

Lemma length_remove_nth B i : (i < List.length B)%nat -> List.length (remove_nth i B) = pred (List.length B).
Proof.
  revert i; induction B as [|y B IH]; intros [|i] Hi; cbn [List.length] in Hi; try lia;
    cbn [remove_nth List.length]; [reflexivity|].
  rewrite IH by lia. lia.
Qed.

Lemma NoDup_map_inj_in {A} (f : A -> Z) (l : list A) :
  (forall x y, In x l -> In y l -> f x = f y -> x = y) -> NoDup l -> NoDup (map f l).
Proof.
  intros Hinj Hnd. induction Hnd as [|a l Ha Hnd IH]; cbn [map]; constructor.
  - intros Hin. apply in_map_iff in Hin. destruct Hin as (y & Hy & Hyl).
    assert (y = a) by (apply Hinj; cbn; auto). subst y. contradiction.
  - apply IH. intros x y Hx Hy. apply Hinj; cbn; auto.
Qed.

Section Lagrange.
Variables (p : Z) (el B : Vector) (i : nat).
Hypothesis p_prime : prime p.
Hypothesis Hpp : p * p < 2 ^ 31.
Hypothesis Hel : forall k, 0 <= vec_at el k /\ vec_at el k + p < 2 ^ 31.
Hypothesis Hesym : forall k, (1 <= k < List.length B)%nat -> vec_at el k = esym_rev k (rev B).
Hypothesis HBr : Forall (fun y => 0 <= y < p) B.
Hypothesis HBnd : NoDup B.
Hypothesis Hmp : Z.of_nat (List.length B) < p.
Hypothesis Hi : (i < List.length B)%nat.

Lemma small_nonzero_mod a : 0 < Z.abs a < p -> a mod p <> 0.
Proof.
  intros Ha H. pose proof (p_pos p p_prime).
  apply Z.mod_divide in H; [|lia]. destruct H as [k ->].
  destruct (Z.lt_trichotomy k 0) as [Hk|[Hk|Hk]]; nia.
Qed.

Lemma eval_lo_zero_mod c x : Forall (fun a => a mod p = 0) c -> eval_lo c x mod p = 0.
Proof.
  pose proof (p_pos p p_prime).
  induction 1 as [|a c Ha Hc IH]; cbn [eval_lo]; [apply Z.mod_0_l; lia|].
  replace (a + x * eval_lo c x) with (1 * a + x * eval_lo c x) by ring.
  apply (mod0_comb p p_prime); assumption.
Qed.

Lemma nth_B_range j : (j < List.length B)%nat -> 0 <= nth j B 0 < p.
Proof. intros Hj. rewrite Forall_forall in HBr. apply HBr, nth_In, Hj. Qed.

Lemma lagrange_other j : (j < List.length B)%nat -> j <> i ->
  eval_lo (numerator_row el p (List.length B) (nth i B 0)) (nth j B 0) mod p = 0.
Proof.
  intros Hj Hji.
  pose proof (nth_B_range i Hi). pose proof (nth_B_range j Hj).
  destruct (numerator_row_spec p (nth i B 0) el B p_prime ltac:(lia) Hpp Hel Hesym
              (nth_In B 0 Hi)) as (_ & _ & HQ).
  specialize (HQ (nth j B 0)). rewrite prodX_root in HQ by (apply nth_In; exact Hj).
  rewrite Z.sub_0_r in HQ.
  apply (prime_mul_zero p p_prime (nth j B 0 - nth i B 0)); [exact HQ|].
  apply small_nonzero_mod.
  assert (nth j B 0 <> nth i B 0).
  { intros E. apply Hji. eapply (proj1 (NoDup_nth B 0)); eauto. }
  lia.
Qed.

Lemma lagrange_self :
  (eval_lo (numerator_row el p (List.length B) (nth i B 0)) (nth i B 0)
   - prodX (remove_nth i B) (nth i B 0)) mod p = 0.
Proof.
  pose proof (p_pos p p_prime) as Hp0.
  pose proof (nth_B_range i Hi) as Hbr.
  set (b := nth i B 0) in *.
  destruct (numerator_row_spec p b el B p_prime ltac:(lia) Hpp Hel Hesym
              (nth_In B 0 Hi)) as (Hlen & _ & HQ).
  set (Qr := numerator_row el p (List.length B) b) in *.
  set (G := psub Qr (prod_lin (remove_nth i B))).
  set (pts := map (fun k => b + 1 + Z.of_nat k) (seq 0 (List.length B))).
  assert (HG : Forall (fun a => a mod p = 0) G).
  { apply (root_bound p p_prime pts).
    - apply NoDup_map_inj_in; [|apply NoDup_map_inj_in; [intros u v _ _ E; lia | apply seq_NoDup]].
      intros u v Hu Hv E. unfold pts in Hu, Hv. apply in_map_iff in Hu, Hv.
      destruct Hu as (ku & <- & Hku). destruct Hv as (kv & <- & Hkv).
      apply in_seq in Hku, Hkv.
      apply (mod_eq_sub_zero p p_prime) in E.
      destruct (Z.eq_dec (Z.of_nat ku) (Z.of_nat kv)) as [Ek|Ek]; [lia|].
      exfalso. revert E. apply small_nonzero_mod. lia.
    - unfold G, pts. rewrite length_psub, length_prod_lin, length_remove_nth, length_map, length_seq by exact Hi.
      lia.
    - intros y Hy. unfold pts in Hy. apply in_map_iff in Hy. destruct Hy as (k & <- & Hk).
      apply in_seq in Hk.
      apply (prime_mul_zero p p_prime (b + 1 + Z.of_nat k - b)).
      + unfold G. rewrite eval_lo_psub, eval_lo_prod_lin.
        replace ((b + 1 + Z.of_nat k - b) * (eval_lo Qr (b + 1 + Z.of_nat k)
                   - prodX (remove_nth i B) (b + 1 + Z.of_nat k)))
          with ((b + 1 + Z.of_nat k - b) * eval_lo Qr (b + 1 + Z.of_nat k)
                - prodX B (b + 1 + Z.of_nat k))
          by (rewrite (prodX_remove B i) by exact Hi; unfold b; ring).
        apply HQ.
      + apply small_nonzero_mod. lia. }
  pose proof (eval_lo_zero_mod G b HG) as E.
  unfold G in E. rewrite eval_lo_psub, eval_lo_prod_lin in E. exact E.
Qed.

End Lagrange.
End IDALagrange.

Module IDASums.
Import IDA IDAArith PolyZ PolyFacts HornerFacts IDAInverse.

Lemma sum_to_ext f g n : (forall k, (k < n)%nat -> f k = g k) -> sum_to f n = sum_to g n.
Proof.
  induction n as [|n IH]; intros H; [reflexivity|]. cbn [sum_to].
  rewrite IH by (intros; apply H; lia). rewrite H by lia. reflexivity.
Qed.

Lemma sum_to_add f g n : sum_to (fun k => f k + g k) n = sum_to f n + sum_to g n.
Proof. induction n as [|n IH]; cbn [sum_to]; [reflexivity|]. rewrite IH. ring. Qed.

Lemma sum_to_sub f g n : sum_to (fun k => f k - g k) n = sum_to f n - sum_to g n.
Proof. induction n as [|n IH]; cbn [sum_to]; [reflexivity|]. rewrite IH. ring. Qed.

Lemma sum_to_scale c f n : sum_to (fun k => c * f k) n = c * sum_to f n.
Proof. induction n as [|n IH]; cbn [sum_to]; [ring|]. rewrite IH. ring. Qed.

Lemma sum_to_swap (g : nat -> nat -> Z) n m :
  sum_to (fun i => sum_to (fun k => g i k) m) n = sum_to (fun k => sum_to (fun i => g i k) n) m.
Proof.
  induction n as [|n IH]; cbn [sum_to].
  - induction m as [|m IHm]; cbn [sum_to]; [reflexivity|]. rewrite <- IHm. ring.
  - rewrite IH, <- sum_to_add. reflexivity.
Qed.

Lemma sum_to_shift f n : sum_to f (S n) = f 0%nat + sum_to (fun k => f (S k)) n.
Proof. induction n as [|n IH]; cbn [sum_to] in *; [ring|]. rewrite IH. ring. Qed.

Lemma prod_to_shift f n : prod_to f (S n) = f 0%nat * prod_to (fun j => f (S j)) n.
Proof. induction n as [|n IH]; cbn [prod_to] in *; [ring|]. rewrite IH. ring. Qed.

Lemma eval_lo_sum c x : eval_lo c x = sum_to (fun i => nth i c 0 * x ^ Z.of_nat i) (List.length c).
Proof.
  induction c as [|a c IH]; [reflexivity|].
  cbn [List.length eval_lo]. rewrite sum_to_shift, IH, <- sum_to_scale. cbn [nth].
  change (Z.of_nat 0) with 0. rewrite Z.pow_0_r, Z.mul_1_r. f_equal.
  apply sum_to_ext. intros k _. rewrite Nat2Z.inj_succ, Z.pow_succ_r by lia. ring.
Qed.

Lemma nth_map_seq' {A} (f : nat -> A) s n k d : (k < n)%nat -> nth k (map f (seq s n)) d = f (s + k)%nat.
Proof.
  intros H. rewrite (nth_indep _ d (f 0%nat)) by (rewrite length_map, length_seq; exact H).
  rewrite map_nth, seq_nth by exact H. reflexivity.
Qed.

Lemma eval_lo_map_seq (g : nat -> Z) n x :
  eval_lo (map g (seq 0 n)) x = sum_to (fun i => g i * x ^ Z.of_nat i) n.
Proof.
  rewrite eval_lo_sum, length_map, length_seq. apply sum_to_ext. intros k Hk.
  rewrite nth_map_seq' by exact Hk. reflexivity.
Qed.

Lemma prodX_prod_to B x : prodX B x = prod_to (fun j => x - nth j B 0) (List.length B).
Proof.
  induction B as [|y B IH]; [reflexivity|]. cbn [List.length prodX]. rewrite prod_to_shift, IH. reflexivity.
Qed.

Lemma prodX_remove_prod_to B i x :
  prodX (remove_nth i B) x = prod_to (fun j => if Nat.eqb j i then 1 else x - nth j B 0) (List.length B).
Proof.
  revert i; induction B as [|y B IH]; intros i; [destruct i; reflexivity|].
  cbn [List.length]. rewrite prod_to_shift. destruct i as [|i].
  - cbn [remove_nth]. rewrite prodX_prod_to. cbn [Nat.eqb]. rewrite Z.mul_1_l. reflexivity.
  - cbn [remove_nth prodX]. rewrite IH. reflexivity.
Qed.

Section Modp.
Variable p : Z.
Hypothesis p_prime : prime p.

Lemma sum_to_mod f g n : (forall k, (k < n)%nat -> (f k - g k) mod p = 0) ->
  (sum_to f n - sum_to g n) mod p = 0.
Proof.
  pose proof (p_pos p p_prime) as Hp0.
  induction n as [|n IH]; intros H; cbn [sum_to]; [apply Z.mod_0_l; lia|].
  replace (sum_to f n + f n - (sum_to g n + g n)) with (1 * (sum_to f n - sum_to g n) + 1 * (f n - g n)) by ring.
  apply (mod0_comb p p_prime); [apply IH; intros; apply H; lia | apply H; lia].
Qed.

Lemma sum_to_single h n j : (j < n)%nat -> (forall k, (k < n)%nat -> k <> j -> h k mod p = 0) ->
  (sum_to h n - h j) mod p = 0.
Proof.
  pose proof (p_pos p p_prime) as Hp0.
  induction n as [|n IH]; intros Hj H; [lia|]. cbn [sum_to].
  destruct (Nat.eq_dec j n) as [->|Hne].
  - replace (sum_to h n + h n - h n) with (sum_to h n - sum_to (fun _ => 0) n)
      by (rewrite (sum_to_ext (fun _ => 0) (fun k => 0 * h k)), sum_to_scale by reflexivity; ring).
    apply sum_to_mod. intros k Hk. rewrite Z.sub_0_r. apply H; lia.
  - replace (sum_to h n + h n - h j) with (1 * (sum_to h n - h j) + 1 * h n) by ring.
    apply (mod0_comb p p_prime); [apply IH; [lia | intros; apply H; lia] | apply H; lia].
Qed.

End Modp.
End IDASums.

Module IDAMatrix.
Import IDA IDAArith PolyZ PolyFacts HornerFacts IDAInverse IDASums.

Lemma denominator_spec B p i : prime p -> p * p < 2 ^ 31 -> Forall (fun y => 0 <= y < p) B ->
  (i < List.length B)%nat -> denominator B p i = prodX (remove_nth i B) (nth i B 0) mod p.
Proof.
  intros Hpr Hpp HB Hi. pose proof (p_pos p Hpr) as Hp0. pose proof pow31 as P31.
  assert (Hp1 : 1 < p) by (destruct Hpr; lia).
  assert (Hp2 : 2 * p <= 2 ^ 31) by nia.
  unfold denominator. rewrite prodX_remove_prod_to.
  assert (Hr : forall j, (j < List.length B)%nat -> 0 <= nth j B 0 < p)
    by (intros j Hj; rewrite Forall_forall in HB; apply HB, nth_In, Hj).
  assert (Hgen : forall k, (k <= List.length B)%nat ->
     fold_left (fun prod j => if Nat.eqb j i then prod
                 else Modulo (i32 (prod * i32 (vec_at B i - vec_at B j))) p) (seq 0 k) 1
     = prod_to (fun j => if Nat.eqb j i then 1 else nth i B 0 - nth j B 0) k mod p).
  { induction k as [|k IH]; intros Hk.
    - cbn [seq fold_left prod_to]. rewrite Z.mod_1_l by lia. reflexivity.
    - rewrite seq_S, fold_left_app, IH by lia. cbn [fold_left prod_to Nat.add].
      destruct (Nat.eqb_spec k i) as [E|E].
      + rewrite Z.mul_1_r. reflexivity.
      + unfold vec_at. pose proof (Hr i Hi). pose proof (Hr k ltac:(lia)).
        pose proof (Z.mod_pos_bound (prod_to (fun j => if Nat.eqb j i then 1 else nth i B 0 - nth j B 0) k) p Hp0).
        rewrite (i32_id (nth i B 0 - nth k B 0)) by lia.
        rewrite i32_id by nia. rewrite Modulo_mod by lia.
        rewrite Z.mul_mod_idemp_l by lia. reflexivity. }
  apply Hgen. lia.
Qed.

Lemma prodX_nonzero_mod p l x : prime p -> (forall y, In y l -> (x - y) mod p <> 0) -> prodX l x mod p <> 0.
Proof.
  intros Hpr. induction l as [|y l IH]; intros H; cbn [prodX].
  - rewrite Z.mod_1_l; [lia | destruct Hpr; lia].
  - intros E. apply (prime_mul_zero p Hpr) in E; [|apply H; left; reflexivity].
    revert E. apply IH. intros; apply H; right; assumption.
Qed.

Lemma remove_nth_In i B y : In y (remove_nth i B) -> In y B.
Proof.
  revert i; induction B as [|c B IH]; intros [|i] H; cbn [remove_nth] in H; try solve [destruct H].
  - right. exact H.
  - destruct H as [->|H]; [left; reflexivity | right; eapply IH; exact H].
Qed.

Lemma remove_nth_notin i B : NoDup B -> (i < List.length B)%nat -> ~ In (nth i B 0) (remove_nth i B).
Proof.
  revert i; induction B as [|c B IH]; intros [|i] Hnd Hi; cbn [List.length] in Hi; try lia;
    inversion Hnd as [|? ? Hc Hnd']; subst; cbn [remove_nth nth].
  - exact Hc.
  - intros [E|H].
    + apply Hc. rewrite E. apply nth_In. lia.
    + revert H. apply IH; [exact Hnd' | lia].
Qed.

Lemma cache_find_spec p k cache inv :
  Forall (fun kv => ModInverse (fst kv) p = Some (snd kv)) cache ->
  cache_find k cache = Some inv -> ModInverse k p = Some inv.
Proof.
  induction 1 as [|[k' v] cache Hkv Hc IH]; cbn [cache_find]; [discriminate|].
  cbn [fst snd] in Hkv.
  destruct (Z.eqb_spec k' k) as [<-|]; [intros [= <-]; exact Hkv | exact IH].
Qed.

Lemma inverse_rows_spec p : forall dens nums cache,
  Forall (fun kv => ModInverse (fst kv) p = Some (snd kv)) cache ->
  Forall (fun d => exists inv, ModInverse d p = Some inv) dens ->
  List.length dens = List.length nums ->
  exists invs, Forall2 (fun d inv => ModInverse d p = Some inv) dens invs /\
    inverse_rows p dens nums cache =
    Some (map (fun pr => map (fun x => Modulo (i32 (x * fst pr)) p) (snd pr)) (combine invs nums)).
Proof.
  induction dens as [|d dens IH]; intros nums cache Hc Hd Hl.
  - exists []. destruct nums; [|discriminate]. split; [constructor | reflexivity].
  - destruct nums as [|num nums]; [discriminate|].
    inversion Hd as [|? ? [inv Hinv] Hd']; subst. cbn [List.length] in Hl.
    assert (Hf : exists cache',
      Forall (fun kv => ModInverse (fst kv) p = Some (snd kv)) cache' /\
      match cache_find d cache with
      | Some inv => Some (inv, cache)
      | None => match ModInverse d p with
                | Some inv => Some (inv, (d, inv) :: cache)
                | None => None
                end
      end = Some (inv, cache')).
    { destruct (cache_find d cache) as [v|] eqn:Ecf.
      - exists cache. split; [exact Hc|].
        apply (cache_find_spec p) in Ecf; [|exact Hc]. rewrite Ecf in Hinv. congruence.
      - exists ((d, inv) :: cache). rewrite Hinv. split; [constructor; [exact Hinv | exact Hc] | reflexivity]. }
    destruct Hf as (cache' & Hc' & Hf).
    destruct (IH nums cache' Hc' Hd' ltac:(lia)) as (invs & Hinvs & Heq).
    exists (inv :: invs). split; [constructor; assumption|].
    cbn [inverse_rows]. rewrite Hf, Heq. reflexivity.
Qed.

Lemma encoding_row_spec p a : prime p -> p * p < 2 ^ 31 -> 0 <= a < p -> forall count elt, 0 <= elt < p ->
  List.length (encoding_row count elt a p) = count /\
  Forall (fun c => 0 <= c < p) (encoding_row count elt a p) /\
  forall seg, (List.length seg <= count)%nat ->
    (dot (encoding_row count elt a p) seg - elt * eval_lo seg a) mod p = 0.
Proof.
  intros Hpr Hpp Ha. pose proof (p_pos p Hpr) as Hp0. pose proof pow31 as P31.
  assert (Hp2 : 2 * p <= 2 ^ 31) by nia.
  induction count as [|count IH]; intros elt He.
  - split; [reflexivity|]. split; [constructor|]. intros seg Hs.
    destruct seg; [|cbn in Hs; lia]. cbn. rewrite Z.mul_0_r. reflexivity.
  - cbn [encoding_row]. rewrite i32_id by nia. rewrite Modulo_mod by lia.
    pose proof (Z.mod_pos_bound (elt * a) p Hp0).
    destruct (IH ((elt * a) mod p) ltac:(lia)) as (IH1 & IH2 & IH3).
    split; [cbn [List.length]; rewrite IH1; reflexivity|]. split; [constructor; assumption|].
    intros [|s seg] Hs; cbn [dot eval_lo].
    + rewrite Z.mul_0_r. apply Z.mod_0_l. lia.
    + cbn [List.length] in Hs. specialize (IH3 seg ltac:(lia)).
      replace (elt * s + dot (encoding_row count ((elt * a) mod p) a p) seg - elt * (s + a * eval_lo seg a))
        with (1 * (dot (encoding_row count ((elt * a) mod p) a p) seg - (elt * a) mod p * eval_lo seg a)
              + eval_lo seg a * ((elt * a) mod p - elt * a)) by ring.
      apply (mod0_comb p Hpr); [exact IH3|].
      apply (mod_eq_sub_zero p Hpr). apply Z.mod_mod. lia.
Qed.

Lemma InnerProduct_loop_dot p : 0 < p -> forall l1 l2 acc,
  Forall (fun c => 0 <= c < p) l1 -> Forall (fun c => 0 <= c < p) l2 -> 0 <= acc ->
  acc + Z.of_nat (List.length l1) * (p * p) < 2 ^ 31 ->
  InnerProduct_loop l1 l2 acc = acc + dot l1 l2.
Proof.
  intros Hp0. pose proof pow31 as P31.
  induction l1 as [|a l1 IH]; intros l2 acc H1 H2 Hacc Hb; [cbn; ring|].
  destruct l2 as [|c l2]; [cbn; ring|].
  inversion H1 as [|? ? Ha H1']; inversion H2 as [|? ? Hc H2']; subst.
  cbn [List.length] in Hb. rewrite Nat2Z.inj_succ in Hb.
  cbn [InnerProduct_loop dot].
  rewrite (i32_id (a * c)) by nia. rewrite i32_id by nia.
  rewrite IH by (auto; nia). ring.
Qed.

Lemma InnerProduct_encoding p m a seg : prime p -> p * p < 2 ^ 31 ->
  Z.of_nat m * (p * p) < 2 ^ 31 -> 0 <= a < p ->
  List.length seg = m -> Forall (fun c => 0 <= c < p) seg ->
  InnerProduct (encoding_row m 1 a p) seg p = eval_lo seg a mod p.
Proof.
  intros Hpr Hpp Hm Ha Hl Hs. pose proof (p_pos p Hpr) as Hp0. pose proof pow31 as P31.
  assert (Hp1 : 1 < p) by (destruct Hpr; lia).
  destruct (encoding_row_spec p a Hpr Hpp Ha m 1 ltac:(lia)) as (E1 & E2 & E3).
  unfold InnerProduct. rewrite (InnerProduct_loop_dot p Hp0); auto; [|lia|rewrite E1; lia].
  rewrite Modulo_mod by nia. rewrite Z.add_0_l.
  apply (mod_sub_zero p Hpr). rewrite <- (Z.mul_1_l (eval_lo seg a)). apply E3. lia.
Qed.

Lemma fold_mod_sum p (g : nat -> Z) : 0 < p -> p * p < 2 ^ 31 -> forall k acc, 0 <= acc < p ->
  (forall j, (j < k)%nat -> 0 <= g j <= (p - 1) * (p - 1)) ->
  fold_left (fun cell j => Modulo (i32 (cell + i32 (g j))) p) (seq 0 k) acc = (acc + sum_to g k) mod p.
Proof.
  intros Hp0 Hpp. pose proof pow31 as P31. assert (Hp2 : 2 * p <= 2 ^ 31) by nia.
  induction k as [|k IH]; intros acc Hacc Hg.
  - cbn. rewrite Z.add_0_r, Z.mod_small by lia. reflexivity.
  - rewrite seq_S, fold_left_app, IH by (auto; intros; apply Hg; lia).
    cbn [fold_left Nat.add sum_to].
    pose proof (Hg k ltac:(lia)).
    pose proof (Z.mod_pos_bound (acc + sum_to g k) p Hp0).
    rewrite (i32_id (g k)) by nia. rewrite i32_id by nia. rewrite Modulo_mod by lia.
    rewrite Zplus_mod_idemp_l. f_equal. ring.
Qed.

End IDAMatrix.

Module IDASegments.
Import IDA.

Lemma split_loop_nil fuel m : split_loop fuel m [] = [].
Proof. destruct fuel; reflexivity. Qed.

Lemma split_loop_shape m : (1 <= m)%nat -> forall fuel v, v <> [] -> (List.length v <= fuel)%nat ->
  exists init tl, split_loop fuel m v = init ++ [tl ++ repeat 0 (m - List.length tl)] /\
    List.concat init ++ tl = v /\ tl <> [] /\ (List.length tl <= m)%nat /\
    Forall (fun s => List.length s = m) init.
Proof.
  intros Hm. induction fuel as [|fuel IH]; intros v Hv Hl.
  - destruct v; [contradiction | cbn in Hl; lia].
  - destruct v as [|x v']; [contradiction|].
    cbn [split_loop]. set (v := x :: v') in *.
    destruct (Nat.le_gt_cases (List.length v) m) as [Hle|Hgt].
    + rewrite firstn_all2, skipn_all2, split_loop_nil by exact Hle.
      exists [], v. repeat split; auto.
    + assert (Hf : List.length (firstn m v) = m) by (rewrite length_firstn; lia).
      destruct (IH (skipn m v)) as (init & tl & E & Hc & Htl & Hlt & Hall).
      * intros E. assert (List.length (skipn m v) = 0)%nat by (rewrite E; reflexivity).
        rewrite length_skipn in H. lia.
      * rewrite length_skipn. cbn [List.length] in Hl |- *. unfold v in Hgt. cbn [List.length] in Hgt. lia.
      * exists (firstn m v :: init), tl. rewrite E, Hf, Nat.sub_diag. cbn [repeat].
        rewrite app_nil_r. split; [reflexivity|]. split.
        -- cbn [List.concat]. rewrite <- app_assoc, Hc. apply firstn_skipn.
        -- repeat split; auto.
Qed.

Lemma drop_zeros_repeat k l : drop_zeros (repeat 0 k ++ l) = drop_zeros l.
Proof. induction k as [|k IH]; [reflexivity|]. cbn [repeat app drop_zeros]. exact IH. Qed.

Lemma last_app_nonempty (l tl : list Z) d : tl <> [] -> last (l ++ tl) d = last tl d.
Proof.
  intros H. destruct (exists_last H) as (tl' & a & ->).
  rewrite app_assoc, !last_last. reflexivity.
Qed.

Lemma strip_padding_shape init tl k : tl <> [] -> last tl 0 <> 0 ->
  strip_padding (init ++ [tl ++ repeat 0 k]) = Some (init ++ [tl]).
Proof.
  intros Htl Hlast. unfold strip_padding.
  rewrite rev_app_distr. cbn [rev app].
  destruct (exists_last Htl) as (tl' & a & Etl). rewrite Etl in Hlast |- *.
  rewrite last_last in Hlast.
  assert (HA : AllZeroes ((tl' ++ [a]) ++ repeat 0 k) = false).
  { unfold AllZeroes. apply Bool.not_true_iff_false. intros Hf.
    rewrite forallb_forall in Hf.
    specialize (Hf a ltac:(apply in_or_app; left; apply in_or_app; right; left; reflexivity)).
    apply Z.eqb_eq in Hf. lia. }
  cbn [drop_zero_segments]. rewrite HA, rev_involutive. f_equal. f_equal. f_equal.
  rewrite rev_app_distr, rev_repeat, drop_zeros_repeat, rev_app_distr. cbn [rev app drop_zeros].
  destruct (Z.eqb_spec a 0) as [|_]; [contradiction|].
  change (a :: rev tl') with (rev [a] ++ rev tl'). rewrite <- rev_app_distr, rev_involutive. reflexivity.
Qed.

End IDASegments.

Module IDAInterp.
Import IDA PolyZ PolyFacts HornerFacts IDASums.

Lemma prime_gt1 p : prime p -> 1 < p.
Proof. intros [H _]. exact H. Qed.

#[export] Instance eqm_equiv p : Equivalence (eqm p) := eqm_setoid p.
#[export] Instance eqm_add p : Proper (eqm p ==> eqm p ==> eqm p) Z.add := Zplus_eqm p.
#[export] Instance eqm_sub p : Proper (eqm p ==> eqm p ==> eqm p) Z.sub := Zminus_eqm p.
#[export] Instance eqm_mul p : Proper (eqm p ==> eqm p ==> eqm p) Z.mul := Zmult_eqm p.

Section Eqm.
Variable p : Z.
Hypothesis p_prime : prime p.

Lemma sum_to_eqm f g n : (forall k, (k < n)%nat -> eqm p (f k) (g k)) ->
  eqm p (sum_to f n) (sum_to g n).
Proof.
  induction n as [|n IH]; intros H; cbn [sum_to]; [reflexivity|].
  rewrite IH by (intros; apply H; lia). rewrite (H n) by lia. reflexivity.
Qed.

Lemma eqm_of_sub_zero a b : (a - b) mod p = 0 -> eqm p a b.
Proof. apply (mod_sub_zero p p_prime). Qed.

Lemma eqm_to_sub_zero a b : eqm p a b -> (a - b) mod p = 0.
Proof. apply (mod_eq_sub_zero p p_prime). Qed.

Lemma eqm_mod a : eqm p (a mod p) a.
Proof. pose proof (p_pos p p_prime). unfold eqm. apply Z.mod_mod. lia. Qed.

End Eqm.

Section Interp.
Variables (p : Z) (B : Vector) (nums : list Vector) (invs : Vector) (seg : Vector).
Variables (W : nat -> nat -> Z) (F : nat -> Z).
Hypothesis p_prime : prime p.
Hypothesis HBnd : NoDup (map (fun y => y mod p) B).
Hypothesis Hnum_len : forall k, (k < List.length B)%nat -> List.length (nth k nums []) = List.length B.
Hypothesis Hother : forall k t, (k < List.length B)%nat -> (t < List.length B)%nat -> k <> t ->
  eval_lo (nth k nums []) (nth t B 0) mod p = 0.
Hypothesis Hself : forall t, (t < List.length B)%nat ->
  (nth t invs 0 * eval_lo (nth t nums []) (nth t B 0)) mod p = 1.
Hypothesis Hseg_len : List.length seg = List.length B.
Hypothesis Hseg : Forall (fun c => 0 <= c < p) seg.
Hypothesis HW : forall j k, (j < List.length B)%nat -> (k < List.length B)%nat ->
  eqm p (W j k) (nth j (nth k nums []) 0 * nth k invs 0).
Hypothesis HF : forall k, (k < List.length B)%nat -> eqm p (F k) (eval_lo seg (nth k B 0)).

Lemma interp_at t : (t < List.length B)%nat ->
  eqm p (eval_lo (map (fun j => sum_to (fun k => W j k * F k) (List.length B) - nth j seg 0)
                      (seq 0 (List.length B))) (nth t B 0)) 0.
Proof.
  intros Ht. pose proof (p_pos p p_prime) as Hp0. pose proof (prime_gt1 p p_prime) as Hp2.
  set (mm := List.length B) in *. set (bt := nth t B 0).
  rewrite eval_lo_map_seq.
  rewrite (sum_to_ext _ (fun i => sum_to (fun k => W i k * F k * bt ^ Z.of_nat i) mm
                                  - nth i seg 0 * bt ^ Z.of_nat i)).
  2: { intros i Hi. rewrite Z.mul_sub_distr_r, (Z.mul_comm (sum_to _ _)), <- sum_to_scale.
       f_equal. apply sum_to_ext. intros. ring. }
  rewrite sum_to_sub, sum_to_swap.
  assert (Es : sum_to (fun i => nth i seg 0 * bt ^ Z.of_nat i) mm = eval_lo seg bt)
    by (rewrite eval_lo_sum, Hseg_len; reflexivity).
  rewrite Es.
  rewrite (sum_to_eqm p _ (fun k => F k * (nth k invs 0 * eval_lo (nth k nums []) bt)) mm).
  2: { intros k Hk.
       rewrite (sum_to_ext _ (fun i => F k * (W i k * bt ^ Z.of_nat i))) by (intros; ring).
       rewrite sum_to_scale. f_equiv.
       rewrite eval_lo_sum, Hnum_len by exact Hk. rewrite <- sum_to_scale.
       apply sum_to_eqm. intros i Hi. rewrite HW by assumption. unfold eqm. f_equal. ring. }
  assert (H0 : forall k, (k < mm)%nat -> k <> t ->
            (F k * (nth k invs 0 * eval_lo (nth k nums []) bt)) mod p = 0).
  { intros k Hk Hkt. pose proof (Hother k t Hk Ht Hkt) as Hk0. fold bt in Hk0.
    rewrite Z.mul_assoc, Z.mul_mod, Hk0, Z.mul_0_r by lia.
    apply Z.mod_0_l. lia. }
  rewrite (eqm_of_sub_zero p p_prime _ _ (sum_to_single p p_prime _ mm t Ht H0)).
  assert (Hs : eqm p (nth t invs 0 * eval_lo (nth t nums []) bt) 1).
  { unfold eqm. rewrite Hself by exact Ht. symmetry. apply Z.mod_1_l. lia. }
  rewrite Hs, (HF t Ht). rewrite Z.mul_1_r, Z.sub_diag. reflexivity.
Qed.

Lemma interp_row j : (j < List.length B)%nat ->
  (sum_to (fun k => W j k * F k) (List.length B)) mod p = nth j seg 0.
Proof.
  intros Hj. pose proof (p_pos p p_prime) as Hp0.
  set (R := map (fun j => sum_to (fun k => W j k * F k) (List.length B) - nth j seg 0)
                (seq 0 (List.length B))).
  assert (HR : Forall (fun a => a mod p = 0) R).
  { apply (root_bound p p_prime B R HBnd).
    - unfold R. rewrite length_map, length_seq. lia.
    - intros x Hx. destruct (In_nth B x 0 Hx) as (t & Ht & <-).
      pose proof (interp_at t Ht) as E. unfold eqm in E. fold R in E. rewrite E. apply Z.mod_0_l. lia. }
  rewrite Forall_forall in HR.
  assert (Hin : In (nth j R 0) R) by (apply nth_In; unfold R; rewrite length_map, length_seq; exact Hj).
  specialize (HR _ Hin). unfold R in HR. rewrite nth_map_seq' in HR by exact Hj.
  apply (mod_sub_zero p p_prime) in HR. cbn [Nat.add] in HR. rewrite HR. apply Z.mod_small.
  rewrite Forall_forall in Hseg. apply Hseg, nth_In. lia.
Qed.

End Interp.
End IDAInterp.

Module IDARoundTrip.
Import IDA PolyZ IDAArith PolyFacts HornerFacts IDAInverse IDAEst IDANumer IDALagrange IDASums
  IDAMatrix IDASegments IDAInterp.

Lemma nth_Forall_default {A} (P : A -> Prop) l k d : Forall P l -> P d -> P (nth k l d).
Proof.
  intros Hl Hd. destruct (nth_in_or_default k l d) as [Hin | ->]; [|exact Hd].
  rewrite Forall_forall in Hl. apply Hl, Hin.
Qed.

Lemma EST_id_full B : (1 <= List.length B)%nat ->
  EST_with id B (List.length B) = 0 :: map (fun i => esym_rev i (rev B)) (seq 1 (List.length B)).
Proof.
  intros H. assert (Hm : List.length B = S (pred (List.length B))) by lia.
  rewrite Hm at 1. rewrite EST_id_spec by lia. rewrite <- Hm. reflexivity.
Qed.

Lemma Forall2_nth' {A B} (R : A -> B -> Prop) l1 l2 k d1 d2 :
  Forall2 R l1 l2 -> (k < List.length l1)%nat -> R (nth k l1 d1) (nth k l2 d2).
Proof.
  intros H. revert k. induction H as [|a b l1 l2 Hab H IH]; intros k Hk; cbn in Hk; [lia|].
  destruct k; cbn [nth]; [exact Hab|]. apply IH. lia.
Qed.

Lemma nth_map_lt {A B} (f : A -> B) l k d d0 : (k < List.length l)%nat -> nth k (map f l) d = f (nth k l d0).
Proof.
  intros Hk. rewrite (nth_indep _ d (f d0)) by (rewrite length_map; exact Hk). apply map_nth.
Qed.

Lemma list_nth_seq_gen {A} (l : list A) d : l = map (fun k => nth k l d) (seq 0 (List.length l)).
Proof.
  induction l as [|a l IH]; [reflexivity|].
  cbn [List.length seq map]. f_equal. rewrite <- seq_shift, map_map. exact IH.
Qed.

Lemma length_Transpose m : List.length (Transpose m) = List.length m.
Proof. unfold Transpose. rewrite length_map, length_seq. reflexivity. Qed.

Lemma Transpose_row m j : (j < List.length m)%nat ->
  row_at (Transpose m) j = map (fun k => vec_at (row_at m k) j) (seq 0 (List.length m)).
Proof. intros Hj. unfold Transpose, row_at at 1. rewrite nth_map_seq' by exact Hj. reflexivity. Qed.

Lemma Transpose_entry m j k : (j < List.length m)%nat -> (k < List.length m)%nat ->
  vec_at (row_at (Transpose m) j) k = vec_at (row_at m k) j.
Proof.
  intros Hj Hk. rewrite Transpose_row by exact Hj. unfold vec_at at 1.
  rewrite nth_map_seq' by exact Hk. reflexivity.
Qed.

Lemma length_MatrixProduct l r prime : List.length (MatrixProduct l r prime) = List.length l.
Proof. unfold MatrixProduct. apply length_map. Qed.

Lemma MatrixProduct_row_length l r prime j : (j < List.length l)%nat ->
  List.length (row_at (MatrixProduct l r prime) j) = List.length (row_at r 0).
Proof.
  intros Hj. unfold row_at at 1. unfold MatrixProduct. cbv beta zeta. unfold Vector. rewrite (nth_map_lt _ _ j [] []) by exact Hj.
  rewrite length_map, length_seq. reflexivity.
Qed.

Lemma MatrixProduct_entry l r prime j i : (j < List.length l)%nat -> (i < List.length (row_at r 0))%nat ->
  vec_at (row_at (MatrixProduct l r prime) j) i =
  fold_left (fun cell k => Modulo (i32 (cell + i32 (vec_at (row_at l j) k * vec_at (row_at r k) i))) prime)
            (seq 0 (List.length (row_at l 0))) 0.
Proof.
  intros Hj Hi. unfold row_at at 1. unfold MatrixProduct. cbv beta zeta. unfold Vector. rewrite (nth_map_lt _ _ j [] []) by exact Hj.
  unfold vec_at at 1. rewrite nth_map_seq' by exact Hi. reflexivity.
Qed.

Section RoundTrip.
Variables (n p : Z) (v idx : Vector).
Hypothesis p_prime : prime p.
Hypothesis Hm1 : (1 <= List.length idx)%nat.
Hypothesis Hmn : Z.of_nat (List.length idx) < n.
Hypothesis Hnp : n < p.
Hypothesis Hmpp : Z.of_nat (List.length idx) * p * p < 2 ^ 31.
Hypothesis Hv : v <> [].
Hypothesis Hvr : Forall (fun x => 0 <= x < p) v.
Hypothesis Hlast : last v 0 <> 0.
Hypothesis Hnd : NoDup idx.
Hypothesis Hir : Forall (fun a => 1 <= a <= n) idx.
Hypothesis Hest : Forall (fun e => e + p < 2 ^ 31) (EST_with id idx (List.length idx)).

Definition the_ida : IDA :=
  mkIDA n (Z.of_nat (List.length idx)) p (ConstructEncodingMatrix (Z.of_nat (List.length idx)) n p).

Lemma p_facts : 2 <= p /\ p * p < 2 ^ 31 /\ 2 * p < 2 ^ 31.
Proof. pose proof (prime_gt1 p p_prime). nia. Qed.

Lemma idx_range : Forall (fun y => 0 <= y < p) idx.
Proof. eapply Forall_impl; [|exact Hir]. cbn. intros a Ha. lia. Qed.

Lemma segs_shape : exists init tl,
  SplitToSegments the_ida v = init ++ [tl ++ repeat 0 (List.length idx - List.length tl)] /\
  List.concat init ++ tl = v /\ tl <> [] /\ (List.length tl <= List.length idx)%nat /\
  Forall (fun s => List.length s = List.length idx) init.
Proof.
  unfold SplitToSegments, the_ida. cbn [m_]. rewrite Nat2Z.id.
  apply split_loop_shape; auto.
Qed.

Lemma segs_ok : Forall (fun s => List.length s = List.length idx /\ Forall (fun c => 0 <= c < p) s)
                       (SplitToSegments the_ida v).
Proof.
  destruct segs_shape as (init & tl & -> & Hc & Htl & Hlt & Hall).
  rewrite <- Hc in Hvr. apply Forall_app in Hvr as [Hi Ht].
  apply Forall_app. split.
  - rewrite Forall_forall in Hall |- *. intros s Hs. split; [apply Hall, Hs|].
    rewrite Forall_forall in Hi |- *. intros c Hcs. apply Hi. apply in_concat. eauto.
  - constructor; [|constructor]. split.
    + rewrite length_app, repeat_length. lia.
    + apply Forall_app. split; [exact Ht|]. apply Forall_forall. intros c Hcs.
      apply repeat_spec in Hcs. subst. pose proof p_facts. lia.
Qed.

Lemma segs_strip : exists X, strip_padding (SplitToSegments the_ida v) = Some X /\ List.concat X = v.
Proof.
  destruct segs_shape as (init & tl & -> & Hc & Htl & Hlt & Hall).
  exists (init ++ [tl]). split.
  - apply strip_padding_shape; [exact Htl|]. rewrite <- Hc, last_app_nonempty in Hlast by exact Htl.
    exact Hlast.
  - rewrite concat_app. cbn [List.concat]. rewrite app_nil_r. exact Hc.
Qed.

Lemma segs_nonempty : SplitToSegments the_ida v <> [].
Proof.
  destruct segs_shape as (init & tl & -> & _). destruct init; discriminate.
Qed.

Definition el_of : Vector := ElementarySymmetricTransform idx (List.length idx).

Lemma est_nonneg : Forall (fun e => 0 <= e) (EST_with id idx (List.length idx)).
Proof.
  rewrite EST_id_full by exact Hm1. constructor; [lia|].
  apply Forall_forall. intros e He. apply in_map_iff in He as (i & <- & _).
  apply esym_rev_nonneg. apply Forall_rev. eapply Forall_impl; [|exact Hir]. cbn. intros. lia.
Qed.

Lemma Hel : forall k, 0 <= vec_at el_of k /\ vec_at el_of k + p < 2 ^ 31.
Proof.
  intros k. pose proof p_facts as Pf. unfold vec_at, el_of. rewrite EST_nth.
  pose proof (nth_Forall_default _ _ k 0 (Forall_and est_nonneg Hest)) as H.
  cbn beta in H. rewrite i32_id; lia.
Qed.

Lemma Hesym : forall k, (1 <= k < List.length idx)%nat -> vec_at el_of k = esym_rev k (rev idx).
Proof.
  intros k Hk. pose proof p_facts as Pf. unfold vec_at, el_of. rewrite EST_nth.
  pose proof (nth_Forall_default _ _ k 0 (Forall_and est_nonneg Hest)) as H.
  cbn beta in H. rewrite i32_id by lia.
  rewrite EST_id_full by exact Hm1.
  replace k with (S (k - 1)) at 1 by lia. cbn [nth]. rewrite nth_map_seq' by lia.
  f_equal. lia.
Qed.

Lemma idx_nth_range k : (k < List.length idx)%nat -> 1 <= nth k idx 0 <= n.
Proof.
  intros Hk. apply (proj1 (Forall_forall _ _) Hir), nth_In, Hk.
Qed.

Lemma num_spec k : (k < List.length idx)%nat ->
  List.length (numerator_row el_of p (List.length idx) (nth k idx 0)) = List.length idx /\
  Forall (fun c => 0 <= c < p) (numerator_row el_of p (List.length idx) (nth k idx 0)).
Proof.
  intros Hk. pose proof p_facts as Pf. pose proof (idx_nth_range k Hk).
  destruct (numerator_row_spec p (nth k idx 0) el_of idx p_prime ltac:(lia) ltac:(lia)
              Hel Hesym (nth_In _ _ Hk)) as (H1 & H2 & _).
  split; assumption.
Qed.

Lemma den_spec k : (k < List.length idx)%nat ->
  denominator idx p k = prodX (remove_nth k idx) (nth k idx 0) mod p /\
  0 < denominator idx p k < p.
Proof.
  intros Hk. pose proof p_facts as Pf.
  assert (E : denominator idx p k = prodX (remove_nth k idx) (nth k idx 0) mod p)
    by (apply denominator_spec; auto; [lia | exact idx_range]).
  split; [exact E|]. rewrite E.
  assert (Hnz : prodX (remove_nth k idx) (nth k idx 0) mod p <> 0).
  { apply prodX_nonzero_mod; [exact p_prime|]. intros y Hy.
    pose proof (remove_nth_notin k idx Hnd Hk) as Hn.
    assert (Hyk : y <> nth k idx 0) by (intros ->; contradiction).
    apply remove_nth_In in Hy.
    pose proof (proj1 (Forall_forall _ _) Hir y Hy) as Hyr. cbn beta in Hyr.
    pose proof (idx_nth_range k Hk).
    intros Hm. apply Z.mod_divide in Hm; [|lia]. destruct Hm as [q Hq].
    destruct (Z.lt_trichotomy q 0) as [Hq'|[Hq'|Hq']]; [nia| |nia]. subst. lia. }
  pose proof (Z.mod_pos_bound (prodX (remove_nth k idx) (nth k idx 0)) p). lia.
Qed.

Definition dens_of : Vector := map (denominator idx p) (seq 0 (List.length idx)).
Definition nums_of : Matrix :=
  map (fun i => numerator_row el_of p (List.length idx) (vec_at idx i)) (seq 0 (List.length idx)).

Lemma nth_nums k : (k < List.length idx)%nat ->
  nth k nums_of [] = numerator_row el_of p (List.length idx) (nth k idx 0).
Proof. intros Hk. unfold nums_of. rewrite nth_map_seq' by exact Hk. reflexivity. Qed.

Lemma nth_dens k : (k < List.length idx)%nat -> nth k dens_of 0 = denominator idx p k.
Proof. intros Hk. unfold dens_of. rewrite nth_map_seq' by exact Hk. reflexivity. Qed.

Lemma vinv : exists invs,
  Forall2 (fun d inv => ModInverse d p = Some inv) dens_of invs /\
  VandermondeInverse idx p =
    Some (Transpose (map (fun pr => map (fun x => Modulo (i32 (x * fst pr)) p) (snd pr))
                         (combine invs nums_of))).
Proof.
  pose proof p_facts as Pf.
  assert (Hd : Forall (fun d => exists inv, ModInverse d p = Some inv) dens_of).
  { apply Forall_forall. intros d Hd. unfold dens_of in Hd.
    apply in_map_iff in Hd as (k & <- & Hk). apply in_seq in Hk.
    destruct (den_spec k ltac:(lia)) as [_ Hr].
    destruct (ModInverse_spec p _ p_prime Hr ltac:(lia)) as (inv & Hi & _). eauto. }
  assert (Hl : List.length dens_of = List.length nums_of)
    by (unfold dens_of, nums_of; rewrite !length_map; reflexivity).
  destruct (inverse_rows_spec p dens_of nums_of [] (Forall_nil _) Hd Hl) as (invs & HF & E).
  exists invs. split; [exact HF|].
  unfold VandermondeInverse. fold el_of. fold dens_of. fold nums_of. rewrite E. reflexivity.
Qed.

Lemma enc_row a : 1 <= a <= n ->
  row_at (Encode the_ida v) (Z.to_nat (a - 1)) =
  map (fun seg => eval_lo seg a mod p) (SplitToSegments the_ida v).
Proof.
  intros Ha. pose proof p_facts as Pf. pose proof segs_ok as Hs.
  unfold Encode at 1. cbn zeta. cbn [n_ p_ encoding_matrix_ the_ida].
  unfold row_at at 1. rewrite nth_map_seq' by lia. cbn [Nat.add].
  apply map_ext_in. intros seg Hseg. rewrite Forall_forall in Hs. destruct (Hs seg Hseg) as [Hl Hr].
  unfold ConstructEncodingMatrix, row_at. rewrite nth_map_seq' by lia.
  rewrite Nat2Z.id.
  replace (Z.of_nat (1 + Z.to_nat (a - 1))) with a by lia.
  apply InnerProduct_encoding; auto; lia.
Qed.

Lemma enc_sel k : (k < List.length idx)%nat ->
  row_at (select_rows (Encode the_ida v) idx) k =
  map (fun seg => eval_lo seg (nth k idx 0) mod p) (SplitToSegments the_ida v).
Proof.
  intros Hk. unfold select_rows, row_at at 1. unfold Vector. rewrite (nth_map_lt _ _ k [] 0) by exact Hk.
  apply enc_row, idx_nth_range, Hk.
Qed.

Lemma idx_mod_nodup : NoDup (map (fun y => y mod p) idx).
Proof.
  apply NoDup_map_inj_in; [|exact Hnd]. intros x y Hx Hy E.
  pose proof (proj1 (Forall_forall _ _) idx_range x Hx) as Hx'.
  pose proof (proj1 (Forall_forall _ _) idx_range y Hy) as Hy'. cbn beta in Hx', Hy'.
  rewrite !Z.mod_small in E by lia. exact E.
Qed.

Lemma decode_round_trip :
  Decode the_ida (select_rows (Encode the_ida v) idx) idx = Some v.
Proof.
  pose proof p_facts as Pf. pose proof segs_ok as Hsegs.
  destruct vinv as (invs & HF2 & EV).
  set (rows := map (fun pr => map (fun x => Modulo (i32 (x * fst pr)) p) (snd pr))
                   (combine invs nums_of)) in EV.
  set (segs := SplitToSegments the_ida v) in *.
  set (enc := select_rows (Encode the_ida v) idx).
  assert (Hdl : List.length dens_of = List.length idx) by (unfold dens_of; rewrite length_map, length_seq; reflexivity).
  assert (Hnl : List.length nums_of = List.length idx) by (unfold nums_of; rewrite length_map, length_seq; reflexivity).
  assert (Hil : List.length invs = List.length idx) by (rewrite <- (Forall2_length HF2); exact Hdl).
  assert (Hinv : forall k, (k < List.length idx)%nat ->
            (nth k invs 0 * nth k dens_of 0) mod p = 1 /\ 0 < nth k invs 0 < p).
  { intros k Hk. pose proof (Forall2_nth' _ _ _ k 0 0 HF2 ltac:(lia)) as Hm. cbn beta in Hm.
    rewrite nth_dens in Hm |- * by exact Hk. destruct (den_spec k Hk) as [_ Hr].
    destruct (ModInverse_spec p _ p_prime Hr ltac:(lia)) as (inv & Hi & Hi1 & Hi2).
    rewrite Hm in Hi. injection Hi as <-. auto. }
  assert (Hrl : List.length rows = List.length idx) by (unfold rows; rewrite length_map, length_combine; lia).
  assert (Hrl' : @List.length Vector rows = List.length idx) by exact Hrl.
  assert (Hrow : forall k, (k < List.length idx)%nat ->
            row_at rows k = map (fun x => Modulo (i32 (x * nth k invs 0)) p) (nth k nums_of [])).
  { intros k Hk. assert (Hk' : (k < List.length (combine invs nums_of))%nat) by (rewrite length_combine; lia).
    assert (Hcl : List.length invs = List.length nums_of) by lia.
    unfold rows, row_at. unfold Vector, Matrix.
    rewrite (nth_map_lt _ _ k [] (0, [])) by exact Hk'.
    rewrite combine_nth by exact Hcl. reflexivity. }
  assert (HWe : forall j k, (j < List.length idx)%nat -> (k < List.length idx)%nat ->
            vec_at (row_at (Transpose rows) j) k = (nth j (nth k nums_of []) 0 * nth k invs 0) mod p).
  { intros j k Hj Hk. rewrite Transpose_entry by lia. rewrite Hrow by exact Hk.
    destruct (num_spec k Hk) as [Hl Hr]. rewrite <- nth_nums in Hl, Hr by exact Hk.
    unfold vec_at. rewrite (nth_map_lt _ _ j 0 0) by lia.
    pose proof (proj1 (Forall_forall _ _) Hr _ (nth_In _ 0 (ltac:(lia) : (j < List.length (nth k nums_of []))%nat))) as He.
    cbn beta in He. destruct (Hinv k Hk) as [_ Hi].
    rewrite Modulo_mod by lia. rewrite i32_id by nia. reflexivity. }
  assert (Hel0 : forall k, (k < List.length idx)%nat -> row_at enc k = map (fun seg => eval_lo seg (nth k idx 0) mod p) segs)
    by (intros; apply enc_sel; assumption).
  assert (Hee : forall k i, (k < List.length idx)%nat -> (i < List.length segs)%nat ->
            vec_at (row_at enc k) i = eval_lo (nth i segs []) (nth k idx 0) mod p).
  { intros k i Hk Hi. rewrite Hel0 by exact Hk. unfold vec_at. unfold Vector, Matrix.
    rewrite (nth_map_lt _ _ i 0 []) by exact Hi. reflexivity. }
  assert (Hlenc : List.length (row_at enc 0) = List.length segs)
    by (rewrite Hel0 by lia; apply length_map).
  assert (HW0 : List.length (row_at (Transpose rows) 0) = List.length idx)
    by (rewrite Transpose_row by lia; rewrite length_map, length_seq; exact Hrl).
  set (out := MatrixProduct (Transpose rows) enc p).
  assert (Hout : forall j i, (j < List.length idx)%nat -> (i < List.length segs)%nat ->
            vec_at (row_at out j) i = nth j (nth i segs []) 0).
  { intros j i Hj Hi. unfold out.
    rewrite MatrixProduct_entry by (rewrite ?length_Transpose; lia).
    rewrite HW0.
    pose proof (proj1 (Forall_forall _ _) Hsegs _ (nth_In segs [] Hi)) as [Hsl Hsr].
    rewrite (fold_mod_sum p (fun k => vec_at (row_at (Transpose rows) j) k * vec_at (row_at enc k) i))
      by (try lia; intros k Hk; rewrite HWe, Hee by lia;
          pose proof (Z.mod_pos_bound (nth j (nth k nums_of []) 0 * nth k invs 0) p ltac:(lia));
          pose proof (Z.mod_pos_bound (eval_lo (nth i segs []) (nth k idx 0)) p ltac:(lia)); nia).
    rewrite Z.add_0_l.
    apply (interp_row p idx nums_of invs (nth i segs [])
             (fun j k => vec_at (row_at (Transpose rows) j) k) (fun k => vec_at (row_at enc k) i));
      auto.
    - exact idx_mod_nodup.
    - intros k Hk. rewrite nth_nums by exact Hk. apply num_spec, Hk.
    - intros k t Hk Ht Hkt. rewrite nth_nums by exact Hk.
      apply (lagrange_other p el_of idx k);
        first [exact p_prime | exact Hel | exact Hesym | exact idx_range | exact Hnd | lia].
    - intros t Ht. rewrite nth_nums by exact Ht.
      assert (Ls : (eval_lo (numerator_row el_of p (List.length idx) (nth t idx 0)) (nth t idx 0)
                    - prodX (remove_nth t idx) (nth t idx 0)) mod p = 0)
        by (apply (lagrange_self p el_of idx t);
            first [exact p_prime | exact Hel | exact Hesym | exact idx_range | exact Hnd | lia]).
      destruct (Hinv t Ht) as [Hi1 _]. rewrite nth_dens in Hi1 by exact Ht.
      destruct (den_spec t Ht) as [Ed _]. rewrite Ed in Hi1.
      rewrite <- Hi1. apply (mod_sub_zero p p_prime) in Ls.
      rewrite Z.mul_mod, Ls, <- Z.mul_mod by lia. rewrite (Z.mul_mod _ (_ mod p)), Z.mod_mod, <- Z.mul_mod by lia.
      reflexivity.
    - intros j' k Hj' Hk. rewrite HWe by assumption. apply eqm_mod, p_prime.
    - intros k Hk. cbn beta. rewrite Hee by assumption. apply eqm_mod, p_prime. }
  assert (Hol : List.length out = List.length idx) by (unfold out; rewrite length_MatrixProduct, length_Transpose; exact Hrl).
  assert (Hocl : List.length (row_at out 0) = List.length segs)
    by (unfold out; rewrite MatrixProduct_row_length by (rewrite length_Transpose; lia); exact Hlenc).
  assert (Horig : map (fun i => map (fun j => vec_at (row_at out j) i) (seq 0 (List.length out)))
                      (seq 0 (List.length (row_at out 0))) = segs).
  { rewrite Hol, Hocl.
    transitivity (map (fun i => nth i segs []) (seq 0 (List.length segs)));
      [|symmetry; apply list_nth_seq_gen]. apply map_ext_in.
    intros i Hi. apply in_seq in Hi.
    pose proof (proj1 (Forall_forall _ _) Hsegs _ (nth_In segs [] (ltac:(lia) : (i < List.length segs)%nat))) as [Hsl _].
    transitivity (map (fun j => nth j (nth i segs []) 0) (seq 0 (List.length (nth i segs []))));
      [|symmetry; apply list_nth_seq]. rewrite Hsl. apply map_ext_in.
    intros j Hj. apply in_seq in Hj. apply Hout; lia. }
  unfold Decode. change (m_ the_ida) with (Z.of_nat (List.length idx)). change (p_ the_ida) with p.
  assert (Hle : List.length enc = List.length idx) by (unfold enc, select_rows; apply length_map).
  rewrite Hle, Z.ltb_irrefl, Nat2Z.id, firstn_all.  rewrite EV. cbv beta zeta.
  fold out. rewrite Horig.
  destruct segs_strip as (X & E1 & E2). fold segs in E1. rewrite E1, E2. reflexivity.
Qed.

End RoundTrip.
End IDARoundTrip.

Module IDAClaims.
Import IDA IDAArith IDARoundTrip.

(** Trial division: [prime] decided on a concrete number. *)
Definition is_prime_b (p : Z) : bool :=
  (1 <? p) && forallb (fun d => negb (p mod Z.of_nat d =? 0)) (seq 2 (Z.to_nat p - 2)).

Lemma prime_of_b p : is_prime_b p = true -> prime p.
Proof.
  unfold is_prime_b. intros H. apply andb_prop in H as [H1 H2]. apply Z.ltb_lt in H1.
  apply prime_alt. split; [exact H1|]. intros d Hd Hdiv.
  rewrite forallb_forall in H2.
  specialize (H2 (Z.to_nat d) ltac:(apply in_seq; lia)).
  rewrite Z2Nat.id in H2 by lia. apply Z.mod_divide in Hdiv; [|lia].
  rewrite Hdiv in H2. discriminate.
Qed.

Lemma Forall_of_forallb {A} (f : A -> bool) (P : A -> Prop) l :
  (forall x, f x = true -> P x) -> forallb f l = true -> Forall P l.
Proof.
  intros Hf Hl. apply Forall_forall. intros x Hx. apply Hf.
  rewrite forallb_forall in Hl. apply Hl, Hx.
Qed.

Lemma NoDup_of_b (l : list Z) :
  forallb (fun i => forallb (fun j => Nat.eqb i j || negb (nth i l 0 =? nth j l 0))
                            (seq 0 (List.length l))) (seq 0 (List.length l)) = true -> NoDup l.
Proof.
  intros H. apply NoDup_nth with (d := 0). intros i j Hi Hj E.
  rewrite forallb_forall in H. specialize (H i ltac:(apply in_seq; lia)).
  rewrite forallb_forall in H. specialize (H j ltac:(apply in_seq; lia)).
  rewrite E, Z.eqb_refl in H. cbn in H. rewrite orb_false_r in H. apply Nat.eqb_eq, H.
Qed.

(** The parameters of the program: [IDA(14, 10, 257)]. *)
Definition ida_default : IDA := mkIDA 14 10 257 (ConstructEncodingMatrix 10 14 257).

(** Fragments 1 to 10 of [[1; 0]] decode to [[1]]: the trailing zero of the
    content is stripped with the padding. *)
Lemma Decode_drops_trailing_zero :
  make 14 10 257 = Some ida_default /\
  Decode ida_default (select_rows (Encode ida_default [1; 0]) [1; 2; 3; 4; 5; 6; 7; 8; 9; 10])
         [1; 2; 3; 4; 5; 6; 7; 8; 9; 10] = Some [1].
Proof. split; vm_compute; reflexivity. Qed.

(** C1 (code bug): the round trip fails through [int] overflow in
    [ElementarySymmetricTransform]. With [IDA(14, 10, 257)] and fragments
    [3, 5, 7, 8, 9, 10, 11, 12, 13, 14], the ninth elementary symmetric
    sum of the indices (2424456720) wraps in [int], the inverse
    Vandermonde matrix is wrong, and [[1; 2; ...; 10]] decodes to
    [[11; 2; ...; 10]]. *)
Lemma Decode_EST_overflow :
  Decode ida_default (select_rows (Encode ida_default [1; 2; 3; 4; 5; 6; 7; 8; 9; 10])
                                  [3; 5; 7; 8; 9; 10; 11; 12; 13; 14])
         [3; 5; 7; 8; 9; 10; 11; 12; 13; 14] = Some [11; 2; 3; 4; 5; 6; 7; 8; 9; 10] /\
  nth 9 (EST_with id [3; 5; 7; 8; 9; 10; 11; 12; 13; 14] 10) 0 = 2424456720.
Proof. split; vm_compute; reflexivity. Qed.

(** X20: for [IDA(n, m, p)] with [p] prime, [m >= 1] and
    [m * p * p < 2^31], every nonempty [v] with entries in [[0, p)] whose last
    entry is nonzero, and every list of [m] distinct fragment indices in
    [1 .. n] (in any order) whose elementary symmetric sums, computed in
    [int], stay below [2^31 - p], [Decode] of those rows of [Encode v] with
    their indices returns exactly [v]. *)
Theorem IDA_round_trip (n m p : Z) (ida : IDA) (v idx : Vector) :
  make n m p = Some ida -> prime p -> 1 <= m -> m * p * p < 2 ^ 31 ->
  v <> [] -> Forall (fun x => 0 <= x < p) v -> last v 0 <> 0 ->
  Z.of_nat (List.length idx) = m -> NoDup idx -> Forall (fun a => 1 <= a <= n) idx ->
  Forall (fun e => e + p < 2 ^ 31) (EST_with id idx (List.length idx)) ->
  Decode ida (select_rows (Encode ida v) idx) idx = Some v.
Proof.
  intros Hmk Hp Hm1 Hmpp Hv Hvr Hlast Hl Hnd Hir Hest.
  unfold make in Hmk. destruct ((m <? n) && (n <? p)) eqn:E; [|discriminate].
  apply andb_prop in E as [E1 E2]. apply Z.ltb_lt in E1, E2.
  injection Hmk as <-. subst m.
  apply (decode_round_trip n p v idx); auto; lia.
Qed.

Lemma IDA_round_trip_witness :
  make 14 10 257 = Some ida_default /\ prime 257 /\
  Decode ida_default (select_rows (Encode ida_default [1; 2; 3]) [2; 1; 3; 4; 5; 6; 7; 8; 9; 10])
         [2; 1; 3; 4; 5; 6; 7; 8; 9; 10] = Some [1; 2; 3].
Proof.
  assert (Hmk : make 14 10 257 = Some ida_default) by reflexivity.
  assert (Hp : prime 257) by (apply prime_of_b; vm_compute; reflexivity).
  split; [exact Hmk|]. split; [exact Hp|].
  apply (IDA_round_trip 14 10 257 ida_default [1; 2; 3] [2; 1; 3; 4; 5; 6; 7; 8; 9; 10] Hmk Hp).
  - lia.
  - lia.
  - discriminate.
  - apply (Forall_of_forallb (fun x => (0 <=? x) && (x <? 257))).
    + intros x Hx. apply andb_prop in Hx as [A B]. apply Z.leb_le in A. apply Z.ltb_lt in B. lia.
    + vm_compute. reflexivity.
  - vm_compute. discriminate.
  - reflexivity.
  - apply NoDup_of_b. vm_compute. reflexivity.
  - apply (Forall_of_forallb (fun a => (1 <=? a) && (a <=? 14))).
    + intros x Hx. apply andb_prop in Hx as [A B]. apply Z.leb_le in A. apply Z.leb_le in B. lia.
    + vm_compute. reflexivity.
  - apply (Forall_of_forallb (fun e => e + 257 <? 2 ^ 31)).
    + intros x Hx. apply Z.ltb_lt, Hx.
    + vm_compute. reflexivity.
Defined.

End IDAClaims.

(* ------------------------------------------------------------------ *)
(** ** Further properties of the Merkle tree *)

Module MerkleExtraFacts.
Import GenericKey KeyFacts KeyString MerkleTree MerkleFacts MerkleMaps MerkleShape MerkleOps
  MerkleInv MerkleLargest.

Section Frame.
Context {V : Type}.
Local Abbreviation kvs := (list (Z * V)).

Lemma map_find_insert_other k k' v (l : kvs) :
  k' <> k -> map_find k' (map_insert k v l) = map_find k' l.
Proof.
  intros Hne. induction l as [|[k0 v0] l IH]; simpl.
  - destruct (Z.eqb_spec k' k); [lia | reflexivity].
  - destruct (Z.ltb_spec k k0); [|destruct (Z.eqb_spec k k0)].
    + simpl. destruct (Z.eqb_spec k' k); [lia | reflexivity].
    + reflexivity.
    + simpl. destruct (k' =? k0); [reflexivity | exact IH].
Qed.

Lemma map_find_assign_other k k' v (l : kvs) :
  k' <> k -> map_find k' (map_assign k v l) = map_find k' l.
Proof.
  intros Hne. induction l as [|[k0 v0] l IH]; simpl; [reflexivity|].
  destruct (Z.eqb_spec k k0); simpl.
  - subst k0. destruct (Z.eqb_spec k' k); [lia | reflexivity].
  - destruct (k' =? k0); [reflexivity | exact IH].
Qed.

Lemma map_find_erase_other k k' (l : kvs) :
  k' <> k -> map_find k' (map_erase k l) = map_find k' l.
Proof.
  intros Hne. induction l as [|[k0 v0] l IH]; simpl; [reflexivity|].
  destruct (Z.eqb_spec k k0); simpl.
  - subst k0. destruct (Z.eqb_spec k' k); [lia | reflexivity].
  - destruct (k' =? k0); [reflexivity | exact IH].
Qed.

(** In a list with strictly increasing keys, a listed pair is what
    [find] returns for its key. *)
Lemma map_find_In_sorted lo (l : kvs) k v :
  keys_from lo l -> In (k, v) l -> map_find k l = Some v.
Proof.
  revert lo. induction l as [|[k0 v0] l IH]; intros lo Hs Hin; [destruct Hin|].
  destruct Hs as [H0 Hs]. simpl.
  destruct Hin as [E | Hin].
  - injection E as -> ->. rewrite Z.eqb_refl. reflexivity.
  - pose proof (keys_from_lower _ _ Hs) as Hl. rewrite Forall_forall in Hl.
    specialize (Hl _ Hin). simpl in Hl.
    destruct (Z.eqb_spec k k0); [lia|]. exact (IH _ Hs Hin).
Qed.

Lemma keys_from_before lo (l1 : kvs) kv l2 :
  keys_from lo (l1 ++ kv :: l2) -> Forall (fun x => fst x < fst kv) l1.
Proof.
  revert lo. induction l1 as [|x l1 IH]; intros lo H; [constructor|].
  destruct H as [H0 H]. constructor; [|exact (IH _ H)].
  apply keys_from_lower in H. rewrite Forall_forall in H.
  specialize (H kv ltac:(apply in_or_app; right; left; reflexivity)). lia.
Qed.

(** The inner loop of [GetEntries]: inserting, in order, entries whose
    keys all come after the accumulated ones appends them. *)
Lemma fold_insert_append lo (kvs0 acc : kvs) :
  keys_from lo (acc ++ kvs0) ->
  fold_left (fun a kv => map_insert (fst kv) (snd kv) a) kvs0 acc = acc ++ kvs0.
Proof.
  revert acc. induction kvs0 as [|[k v] r IH]; intros acc H; [rewrite app_nil_r; reflexivity|].
  cbn [fold_left fst snd].
  pose proof (keys_from_before _ _ _ _ H) as Hlt.
  rewrite <- (app_nil_r acc) at 1. rewrite (map_insert_app_l k v acc [] Hlt).
  cbn [map_insert]. rewrite IH; [rewrite <- app_assoc; reflexivity|].
  rewrite <- app_assoc. exact H.
Qed.

Lemma fold_insert_concat lo (ls : list kvs) (acc : kvs) :
  keys_from lo (acc ++ List.concat ls) ->
  fold_left (fun acc kvs0 => fold_left (fun a kv => map_insert (fst kv) (snd kv) a) kvs0 acc)
            ls acc = acc ++ List.concat ls.
Proof.
  revert acc. induction ls as [|l ls IH]; intros acc H; [cbn; rewrite app_nil_r; reflexivity|].
  cbn [fold_left List.concat] in *.
  rewrite (fold_insert_append lo l acc).
  - rewrite IH; [rewrite app_assoc; reflexivity|]. rewrite <- app_assoc. exact H.
  - rewrite app_assoc in H. apply keys_from_app_inv in H. apply H.
Qed.

Lemma map_find_some_In k (l : kvs) v : map_find k l = Some v -> In (k, v) l.
Proof.
  induction l as [|[k0 v0] l IH]; simpl; [discriminate|].
  destruct (Z.eqb_spec k k0) as [->|_]; [intros E; injection E as ->; left; reflexivity|].
  intros E. right. exact (IH E).
Qed.

Lemma first_greater_app key (l1 l2 : kvs) :
  first_greater key (l1 ++ l2) =
  match first_greater key l1 with Some x => Some x | None => first_greater key l2 end.
Proof.
  induction l1 as [|kv l1 IH]; [reflexivity|]. cbn [app first_greater].
  destruct (key <? fst kv); [reflexivity | exact IH].
Qed.

Lemma first_greater_none key (l : kvs) :
  Forall (fun kv => fst kv <= key) l -> first_greater key l = None.
Proof.
  induction 1 as [|kv l H _ IH]; [reflexivity|]. cbn [first_greater].
  destruct (Z.ltb_spec key (fst kv)); [lia | exact IH].
Qed.

Lemma first_greater_some key (l : kvs) kv :
  In kv l -> key < fst kv -> first_greater key l <> None.
Proof.
  induction l as [|kv0 l IH]; intros Hin Hlt; [destruct Hin|]. cbn [first_greater].
  destruct (Z.ltb_spec key (fst kv0)); [discriminate|].
  destruct Hin as [<- | Hin]; [lia | exact (IH Hin Hlt)].
Qed.

Lemma first_some_greater key (ls : list kvs) :
  first_some (map (first_greater key) ls) = first_greater key (List.concat ls).
Proof.
  induction ls as [|l ls IH]; [reflexivity|].
  cbn [map List.concat first_some]. rewrite first_greater_app.
  destruct (first_greater key l); [reflexivity | exact IH].
Qed.

Lemma first_some_hd (ls : list kvs) :
  first_some (map (@hd_error _) ls) = hd_error (List.concat ls).
Proof.
  induction ls as [|[|kv l] ls IH]; [reflexivity | exact IH | reflexivity].
Qed.

Lemma last_key_cons_ne (a : Z * V) l :
  l <> [] -> last (map Some (a :: l)) None = last (map Some l) None.
Proof. destruct l; [congruence | reflexivity]. Qed.

Lemma last_Some_In (l : kvs) x : last (map Some l) None = Some x -> In x l.
Proof.
  induction l as [|a l IH]; [discriminate|].
  destruct l as [|b l]; [intros E; injection E as ->; left; reflexivity|].
  rewrite last_key_cons_ne by discriminate. intros E. right. exact (IH E).
Qed.

Lemma last_None_nil (l : kvs) : last (map Some l) None = None -> l = [].
Proof.
  destruct l as [|a l]; [reflexivity|]. intros E. exfalso.
  destruct (last_Some_ne (a :: l) ltac:(discriminate)) as [x Hx]. congruence.
Qed.

End Frame.

Section Tree.
Context {V : Type}.
Variable sha1 : string -> Z.
Hypothesis sha1_pos : forall s, 0 < sha1 s.
Local Abbreviation node := (@Node V).
Local Abbreviation kvs := (list (Z * V)).

Lemma GetEntries_entries (t : node) : wf t -> hash_ok sha1 t -> GetEntries t = entries t.
Proof.
  revert t.
  apply (Node_ind' (fun t => wf t -> hash_ok sha1 t -> GetEntries t = entries t)).
  intros mn mx h pos cs d lg IH Hwf Hh. cbn [GetEntries].
  destruct (Z.eqb_spec h 0) as [E|E].
  - subst h. symmetry. apply (hash_zero_entries sha1 sha1_pos _ Hwf Hh eq_refl).
  - rewrite entries_node. destruct cs as [|c0 cs0].
    + cbn [flat_map]. rewrite app_nil_r. reflexivity.
    + destruct (entries_range _ Hwf) as [Hk _].
      destruct (wf_internal (mkNode mn mx h pos (c0 :: cs0) d lg) Hwf ltac:(discriminate))
        as [Hd [_ [_ [_ [_ [_ Hok]]]]]].
      cbn [data_ child_nodes_] in Hd, Hok. subst d. cbn [app].
      destruct Hh as [_ Hcs]. apply children_ok_Forall in Hok. apply all_of_Forall in Hcs.
      rewrite (map_ext_in (fun c => GetEntries c) (fun c => entries c)).
      * rewrite (fold_insert_concat mn (map (fun c => entries c) (c0 :: cs0)) []).
        -- rewrite flat_map_concat_map. reflexivity.
        -- cbn [app]. rewrite <- flat_map_concat_map.
           rewrite entries_node in Hk. exact Hk.
      * rewrite Forall_forall in *. intros c Hc. apply IH; auto.
Qed.

Lemma GetSmallestEntry_first (t : node) :
  wf t -> hash_ok sha1 t -> GetSmallestEntry t = hd_error (entries t).
Proof.
  revert t.
  apply (Node_ind' (fun t => wf t -> hash_ok sha1 t -> GetSmallestEntry t = hd_error (entries t))).
  intros mn mx h pos cs d lg IH Hwf Hh. cbn [GetSmallestEntry].
  destruct (Z.eqb_spec h 0) as [E|E].
  - subst h. rewrite (hash_zero_entries sha1 sha1_pos _ Hwf Hh eq_refl). reflexivity.
  - rewrite entries_node. destruct cs as [|c0 cs0].
    + cbn [flat_map]. rewrite app_nil_r. destruct d; reflexivity.
    + destruct (wf_internal (mkNode mn mx h pos (c0 :: cs0) d lg) Hwf ltac:(discriminate))
        as [Hd [_ [_ [_ [_ [_ Hok]]]]]].
      cbn [data_ child_nodes_] in Hd, Hok. subst d. cbn [app].
      destruct Hh as [_ Hcs]. apply children_ok_Forall in Hok. apply all_of_Forall in Hcs.
      rewrite (map_ext_in (fun c => GetSmallestEntry c) (fun c => hd_error (entries c))).
      * rewrite <- (map_map entries (@hd_error _)), first_some_hd, flat_map_concat_map.
        reflexivity.
      * rewrite Forall_forall in *. intros c Hc. apply IH; auto.
Qed.

(** The children before the one [ChildNum] picks hold no key above
    [key]. *)
Lemma before_child_below (t : node) key :
  wf t -> child_nodes_ t <> [] ->
  Forall (fun kv : Z * V => fst kv <= key)
         (flat_map entries (firstn (ChildNum t key) (child_nodes_ t))).
Proof.
  intros Hwf Hne.
  destruct (wf_internal t Hwf Hne) as [Hd _].
  destruct (Z_lt_le_dec key (min_key_ t)) as [Hlo|Hlo].
  - assert (E : ChildNum t key = 0%nat).
    { unfold ChildNum. destruct (Z.leb_spec (max_key_ t) key).
      - pose proof (wf_max t Hwf). pose proof (span_ge_4 _ (wf_depth t Hwf)). lia.
      - destruct (Z.ltb_spec key (min_key_ t)); [reflexivity | lia]. }
    rewrite E. constructor.
  - destruct (Z_lt_le_dec key (max_key_ t)) as [Hhi|Hhi].
    + destruct (focus t key Hwf Hne ltac:(lia)) as (c & _ & _ & _ & _ & _ & _ & H1 & _).
      eapply Forall_impl; [|exact H1]. simpl. intros. lia.
    + destruct (entries_range t Hwf) as [_ Hr].
      destruct t as [mn mx h pos cs d lg]. cbn [data_ child_nodes_] in *. subst d.
      rewrite entries_node in Hr. cbn [app] in Hr.
      rewrite <- (firstn_skipn (ChildNum (mkNode mn mx h pos cs [] lg) key) cs) in Hr.
      rewrite flat_map_app in Hr. apply Forall_app in Hr as [Hr _].
      eapply Forall_impl; [|exact Hr]. unfold in_range. cbn [max_key_]. intros kv Hkv.
      cbn [max_key_] in Hhi. lia.
Qed.

Lemma children_next (t : node) key :
  wf t -> child_nodes_ t <> [] ->
  Forall (fun c => Next c key = first_greater key (entries c)) (child_nodes_ t) ->
  first_some (skipn (ChildNum t key) (map (fun c => Next c key) (child_nodes_ t))) =
  first_greater key (entries t).
Proof.
  intros Hwf Hne HN.
  pose proof (before_child_below t key Hwf Hne) as Hb.
  destruct (wf_internal t Hwf Hne) as [Hd _].
  rewrite (map_ext_in _ (fun c => first_greater key (entries c)))
    by (rewrite Forall_forall in HN; exact HN).
  rewrite skipn_map, <- (map_map entries (first_greater key)), first_some_greater.
  destruct t as [mn mx h pos cs d lg]. cbn [data_ child_nodes_] in *. subst d.
  rewrite entries_node. cbn [app].
  set (j := ChildNum (mkNode mn mx h pos cs [] lg) key) in *.
  rewrite <- (firstn_skipn j cs) at 2. rewrite flat_map_app, first_greater_app.
  rewrite (first_greater_none key _ Hb). rewrite flat_map_concat_map. reflexivity.
Qed.

(** Below the root, [Next] is the first entry above [key]. *)
Lemma Next_below (t : node) key :
  wf t -> hash_ok sha1 t -> position_ t <> [] -> Next t key = first_greater key (entries t).
Proof.
  revert t.
  apply (Node_ind' (fun t => wf t -> hash_ok sha1 t -> position_ t <> [] ->
                             Next t key = first_greater key (entries t))).
  intros mn mx h pos cs d lg IH Hwf Hh Hpos.
  set (t := mkNode mn mx h pos cs d lg) in *.
  rewrite Next_unfold.
  destruct (Z.eqb_spec (hash_ t) 0) as [E|E].
  - rewrite (hash_zero_entries sha1 sha1_pos t Hwf Hh E). reflexivity.
  - cbn [position_ t] in Hpos |- *. destruct pos as [|p ps]; [congruence|].
    rewrite andb_false_r.
    destruct cs as [|c0 cs0].
    + unfold t. cbn [child_nodes_ data_]. rewrite entries_node. cbn [flat_map]. rewrite app_nil_r.
      reflexivity.
    + apply (children_next t key Hwf ltac:(discriminate)).
      destruct (wf_children t Hwf ltac:(discriminate)) as [Fw Fp].
      destruct Hh as [_ Hcs]. apply all_of_Forall in Hcs.
      cbn [child_nodes_ t] in *. rewrite Forall_forall in *. intros c Hc.
      apply IH; auto.
Qed.

Lemma last_key_insert lo k v (l : kvs) :
  keys_from lo l ->
  option_map fst (last (map Some (map_insert k v l)) None) =
  bump_largest k (option_map fst (last (map Some l) None)).
Proof.
  revert lo. induction l as [|[k0 v0] l IH]; intros lo Hs; [reflexivity|].
  pose proof Hs as Hs0. destruct Hs as [H0 Hs]. cbn [fst] in H0.
  cbn [map_insert]. destruct (Z.ltb_spec k k0); [|destruct (Z.eqb_spec k k0)].
  - rewrite last_key_cons_ne by discriminate.
    destruct (last_max lo ((k0, v0) :: l) k0 Hs0 (or_introl eq_refl)) as [kl [El Hle]].
    rewrite El. cbn [option_map bump_largest].
    destruct (Z.ltb_spec (fst kl) k); [lia | reflexivity].
  - subst k0.
    destruct (last_max lo ((k, v0) :: l) k Hs0 (or_introl eq_refl)) as [kl [El Hle]].
    rewrite El. cbn [option_map bump_largest].
    destruct (Z.ltb_spec (fst kl) k); [lia | reflexivity].
  - assert (Hne : map_insert k v l <> []).
    { destruct l as [|[k1 v1] l]; cbn [map_insert]; [discriminate|].
      destruct (k <? k1); [discriminate|]. destruct (k =? k1); discriminate. }
    rewrite (last_key_cons_ne _ _ Hne), (IH _ Hs). destruct l as [|kv l].
    + cbn. destruct (Z.ltb_spec k0 k); [reflexivity | lia].
    + reflexivity.
Qed.

Lemma last_key_fst (l : kvs) :
  option_map fst (last (map Some l) None) = last (map Some (map fst l)) None.
Proof.
  induction l as [|kv l IH]; [reflexivity|].
  destruct l as [|kv' l]; [reflexivity|].
  rewrite last_key_cons_ne by discriminate. rewrite IH. reflexivity.
Qed.

(** The root's [largest_key_] is the largest key the tree holds. *)
Lemma largest_exact (t : node) :
  reachable sha1 t -> largest_key_ t = option_map fst (last (map Some (entries t)) None).
Proof.
  induction 1 as [|t k v Hr IH Hk|t k v t' Hr IH Hk Hu|t k t' Hr IH Hk Hd].
  - rewrite empty_tree_entries. unfold empty_tree. rewrite CreateChildren_largest. reflexivity.
  - destruct (reachable_root_inv sha1 t Hr) as (Hmn & Hmx & Hp & Hne & Hwf & Hh).
    unfold in_ring in Hk. rewrite Insert_largest, IH.
    destruct (entries_range t Hwf) as [Hs _].
    destruct (snd (Insert sha1 t k v)) eqn:Eok.
    + destruct (Insert_ok_spec sha1 t k v Hwf ltac:(lia) ltac:(lia) Eok)
        as (_ & _ & _ & _ & _ & _ & He).
      rewrite He. symmetry. exact (last_key_insert _ k v _ Hs).
    + rewrite <- (entries_strip (fst (Insert sha1 t k v))), (Insert_fail_strip sha1 t k v Eok),
        entries_strip.
      assert (Hin : In k (map fst (entries t))).
      { apply (Insert_fail_iff sha1 t k v Hwf ltac:(lia)) in Eok.
        destruct (map_find k (entries t)) as [v0|] eqn:E; [|congruence].
        exact (map_find_some_in k (entries t) v0 E). }
      destruct (last_max _ _ k Hs Hin) as [kl [El Hle]]. rewrite El.
      cbn [option_map bump_largest]. destruct (Z.ltb_spec (fst kl) k); [lia | reflexivity].
  - destruct (reachable_root_inv sha1 t Hr) as (Hmn & Hmx & Hp & Hne & Hwf & Hh).
    unfold in_ring in Hk.
    destruct (Update_ok_spec sha1 t k v t' Hwf ltac:(lia) Hu)
      as (_ & _ & _ & El & _ & _ & _ & He).
    rewrite El, IH, He, !last_key_fst, map_assign_keys. reflexivity.
  - destruct (reachable_root_inv sha1 t Hr) as (Hmn & Hmx & Hp & Hne & Hwf & Hh).
    unfold in_ring in Hk.
    destruct (Delete_ok_spec sha1 t k t' Hwf ltac:(lia) Hd)
      as (_ & _ & _ & El & Hw' & Hh' & _ & _).
    rewrite (El Hne), (GetLargestEntry_last sha1 sha1_pos t' Hw' (Hh' Hh)). reflexivity.
Qed.

End Tree.
End MerkleExtraFacts.

Module MerkleExtras.
Import GenericKey KeyFacts KeyString MerkleTree MerkleFacts MerkleMaps MerkleShape MerkleOps
  MerkleInv MerkleLargest MerkleExtraFacts.

Section Extras.
Context {V : Type}.
Variable sha1 : string -> Z.
Local Abbreviation node := (@Node V).
Local Abbreviation kvs := (list (Z * V)).

Lemma ring_range (t : node) k :
  root_inv sha1 t -> in_ring k -> min_key_ t <= k < max_key_ t.
Proof. intros (Hmn & Hmx & _) Hk. unfold in_ring in Hk. lia. Qed.

(** [Insert(k, v)] never changes what [Lookup] finds for any other key,
    whether it returns or throws ["Key already exists"]. *)
Theorem Insert_keeps_other_keys (t : node) k v k' :
  reachable sha1 t -> in_ring k -> in_ring k' -> k' <> k ->
  Lookup (fst (Insert sha1 t k v)) k' = Lookup t k'.
Proof.
  intros Hr Hk Hk' Hne.
  pose proof (reachable_root_inv sha1 t Hr) as Hinv.
  destruct Hinv as (Hmn & Hmx & Hp & Hcs & Hwf & Hh).
  pose proof (ring_range t k (reachable_root_inv sha1 t Hr) Hk) as Hkr.
  pose proof (ring_range t k' (reachable_root_inv sha1 t Hr) Hk') as Hkr'.
  destruct (snd (Insert sha1 t k v)) eqn:Eok.
  - destruct (Insert_ok_spec sha1 t k v Hwf ltac:(lia) Hkr Eok)
      as (Em & Ex & _ & Hw' & _ & _ & He).
    rewrite (Lookup_entries _ k' Hw' ltac:(rewrite Em, Ex; exact Hkr')), He.
    rewrite (Lookup_entries t k' Hwf Hkr'). apply map_find_insert_other. exact Hne.
  - rewrite <- (Lookup_strip (fst (Insert sha1 t k v))), (Insert_fail_strip sha1 t k v Eok).
    apply Lookup_strip.
Qed.

(** When [Update(k, v)] returns, [Lookup(k)] gives [v] and every other
    key keeps its value. *)
Theorem Update_writes_one_key (t t' : node) k v :
  reachable sha1 t -> in_ring k -> Update sha1 t k v = Some t' ->
  Lookup t' k = Some v /\ (forall k', in_ring k' -> k' <> k -> Lookup t' k' = Lookup t k').
Proof.
  intros Hr Hk Hu.
  destruct (reachable_root_inv sha1 t Hr) as (Hmn & Hmx & Hp & Hcs & Hwf & Hh).
  pose proof (ring_range t k (reachable_root_inv sha1 t Hr) Hk) as Hkr.
  destruct (Update_ok_spec sha1 t k v t' Hwf Hkr Hu) as (Em & Ex & _ & _ & Hw' & _ & _ & He).
  assert (Hpres : map_find k (entries t) <> None).
  { rewrite <- (Lookup_entries t k Hwf Hkr). intros E.
    apply (Update_None_iff sha1 t k v) in E. congruence. }
  split.
  - rewrite (Lookup_entries _ k Hw' ltac:(rewrite Em, Ex; exact Hkr)), He.
    apply map_find_assign_same. exact Hpres.
  - intros k' Hk' Hne.
    pose proof (ring_range t k' (reachable_root_inv sha1 t Hr) Hk') as Hkr'.
    rewrite (Lookup_entries _ k' Hw' ltac:(rewrite Em, Ex; exact Hkr')), He.
    rewrite (Lookup_entries t k' Hwf Hkr'). apply map_find_assign_other. exact Hne.
Qed.

(** When [Delete(k)] returns, [Lookup(k)] throws and every other key
    keeps its value. *)
Theorem Delete_removes_one_key (t t' : node) k :
  reachable sha1 t -> in_ring k -> Delete sha1 t k = Some t' ->
  Lookup t' k = None /\ (forall k', in_ring k' -> k' <> k -> Lookup t' k' = Lookup t k').
Proof.
  intros Hr Hk Hd.
  destruct (reachable_root_inv sha1 t Hr) as (Hmn & Hmx & Hp & Hcs & Hwf & Hh).
  pose proof (ring_range t k (reachable_root_inv sha1 t Hr) Hk) as Hkr.
  destruct (Delete_ok_spec sha1 t k t' Hwf Hkr Hd) as (Em & Ex & _ & _ & Hw' & _ & _ & He).
  split.
  - rewrite (Lookup_entries _ k Hw' ltac:(rewrite Em, Ex; exact Hkr)), He.
    apply (map_find_erase_sorted (min_key_ t)). apply entries_range. exact Hwf.
  - intros k' Hk' Hne.
    pose proof (ring_range t k' (reachable_root_inv sha1 t Hr) Hk') as Hkr'.
    rewrite (Lookup_entries _ k' Hw' ltac:(rewrite Em, Ex; exact Hkr')), He.
    rewrite (Lookup_entries t k' Hwf Hkr'). apply map_find_erase_other. exact Hne.
Qed.

Section Pos.
Hypothesis sha1_pos : forall s, 0 < sha1 s.

(** [GetEntries] lists, with strictly increasing keys, exactly the
    pairs [(k, v)] of ring keys for which [Lookup(k)] returns [v]. *)
Theorem GetEntries_lists_store (t : node) :
  reachable sha1 t ->
  keys_from 0 (GetEntries t) /\
  (forall k v, In (k, v) (GetEntries t) <-> in_ring k /\ Lookup t k = Some v).
Proof.
  intros Hr. pose proof (reachable_root_inv sha1 t Hr) as Hinv.
  destruct Hinv as (Hmn & Hmx & Hp & Hcs & Hwf & Hh).
  rewrite (GetEntries_entries sha1 sha1_pos t Hwf Hh).
  destruct (entries_range t Hwf) as [Hs Hrange]. rewrite Hmn in Hs.
  split; [exact Hs|]. intros k v. split.
  - intros Hin. rewrite Forall_forall in Hrange. specialize (Hrange _ Hin).
    unfold in_range in Hrange. cbn [fst] in Hrange.
    assert (Hk : in_ring k) by (unfold in_ring; lia).
    split; [exact Hk|].
    rewrite (Lookup_entries t k Hwf ltac:(lia)).
    exact (map_find_In_sorted 0 _ k v Hs Hin).
  - intros [Hk HL]. rewrite (Lookup_entries t k Hwf (ring_range t k (reachable_root_inv sha1 t Hr) Hk)) in HL.
    exact (map_find_some_In k _ v HL).
Qed.

(** [GetSmallestEntry] is the first pair [GetEntries] lists and
    [GetLargestEntry] the last; both return nothing exactly on an empty
    tree. *)
Theorem Smallest_Largest_ends (t : node) :
  reachable sha1 t ->
  GetSmallestEntry t = hd_error (GetEntries t) /\
  GetLargestEntry t = last (map Some (GetEntries t)) None.
Proof.
  intros Hr. destruct (reachable_root_inv sha1 t Hr) as (Hmn & Hmx & Hp & Hcs & Hwf & Hh).
  rewrite (GetEntries_entries sha1 sha1_pos t Hwf Hh).
  split; [exact (GetSmallestEntry_first sha1 sha1_pos t Hwf Hh)
         | exact (GetLargestEntry_last sha1 sha1_pos t Hwf Hh)].
Qed.

(** [Next(key)] returns the first pair of [GetEntries] whose key is
    above [key] and wraps around to the first pair when there is none. *)
Theorem Next_wraps_around (t : node) key :
  reachable sha1 t ->
  Next t key = match first_greater key (GetEntries t) with
               | Some kv => Some kv
               | None => hd_error (GetEntries t)
               end.
Proof.
  intros Hr. destruct (reachable_root_inv sha1 t Hr) as (Hmn & Hmx & Hp & Hcs & Hwf & Hh).
  pose proof (largest_exact sha1 sha1_pos t Hr) as Hl.
  destruct (entries_range t Hwf) as [Hs _].
  rewrite (GetEntries_entries sha1 sha1_pos t Hwf Hh), Next_unfold.
  destruct (Z.eqb_spec (hash_ t) 0) as [E|E].
  - rewrite (hash_zero_entries sha1 sha1_pos t Hwf Hh E). reflexivity.
  - rewrite Hp, andb_true_r.
    destruct (key_ge_opt key (largest_key_ t)) eqn:Eg.
    + rewrite (GetSmallestEntry_first sha1 sha1_pos t Hwf Hh).
      destruct (last (map Some (entries t)) None) as [kl|] eqn:El.
      * rewrite Hl in Eg. cbn [option_map key_ge_opt] in Eg. apply Z.leb_le in Eg.
        rewrite first_greater_none; [reflexivity|].
        apply Forall_forall. intros kv Hin.
        destruct (last_max _ _ (fst kv) Hs (in_map fst _ _ Hin)) as [kl' [El' Hle]].
        rewrite El in El'. injection El' as <-. lia.
      * rewrite (last_None_nil _ El). reflexivity.
    + rewrite Hl in Eg.
      destruct (last (map Some (entries t)) None) as [kl|] eqn:El; cbn [option_map key_ge_opt] in Eg;
        [|discriminate].
      apply Z.leb_gt in Eg.
      assert (Hgt : first_greater key (entries t) <> None)
        by exact (first_greater_some key _ kl (last_Some_In _ _ El) Eg).
      destruct (child_nodes_ t) as [|c cs] eqn:Ec; [contradiction|].
      rewrite <- Ec, (children_next t key Hwf ltac:(rewrite Ec; discriminate)).
      * destruct (first_greater key (entries t)); [reflexivity | contradiction].
      * destruct (wf_children t Hwf ltac:(rewrite Ec; discriminate)) as [Fw Fp]. destruct t as [mn mx h pos cs' d lg].
        destruct Hh as [_ Hcs']. apply all_of_Forall in Hcs'. cbn [child_nodes_] in *.
        rewrite Forall_forall in *. intros c' Hc'.
        apply (Next_below sha1 sha1_pos c' key); auto.
Qed.

End Pos.
End Extras.

(** A stand-in for [GenerateSha1Hash] with positive values. *)
Definition len_sha1 (s : string) : Z := Z.of_nat (String.length s) + 1.

Lemma len_sha1_pos s : 0 < len_sha1 s.
Proof. unfold len_sha1. lia. Qed.

Lemma ring_7 : in_ring 7.
Proof. unfold in_ring. rewrite keys_in_ring_eq. lia. Qed.

Lemma ring_3 : in_ring 3.
Proof. unfold in_ring. rewrite keys_in_ring_eq. lia. Qed.

(** The tree holding [3 -> 30] and [7 -> 70]. *)
Definition tree_37 : @Node nat :=
  fst (Insert len_sha1 (fst (Insert len_sha1 (empty_tree len_sha1) 3 30%nat)) 7 70%nat).

Lemma tree_37_reachable : reachable len_sha1 tree_37.
Proof.
  apply reach_insert; [|exact ring_7].
  apply reach_insert; [apply reach_empty | exact ring_3].
Qed.

Lemma Insert_keeps_other_keys_witness :
  reachable len_sha1 tree_37 /\ in_ring 7 /\ in_ring 3 /\ 3 <> 7 /\
  Lookup (fst (Insert len_sha1 tree_37 7 71%nat)) 3 = Lookup tree_37 3.
Proof.
  split; [exact tree_37_reachable|]. split; [exact ring_7|]. split; [exact ring_3|].
  split; [lia|].
  exact (Insert_keeps_other_keys len_sha1 tree_37 7 71%nat 3 tree_37_reachable ring_7 ring_3
           ltac:(lia)).
Defined.

Lemma Update_writes_one_key_witness :
  exists t', reachable len_sha1 tree_37 /\ in_ring 7 /\ Update len_sha1 tree_37 7 71%nat = Some t' /\
  (Lookup t' 7 = Some 71%nat /\
   (forall k', in_ring k' -> k' <> 7 -> Lookup t' k' = Lookup tree_37 k')).
Proof.
  destruct (Update len_sha1 tree_37 7 71%nat) as [t'|] eqn:E; [|vm_compute in E; discriminate].
  exists t'. split; [exact tree_37_reachable|]. split; [exact ring_7|]. split; [reflexivity|].
  exact (Update_writes_one_key len_sha1 tree_37 t' 7 71%nat tree_37_reachable ring_7 E).
Defined.

Lemma Delete_removes_one_key_witness :
  exists t', reachable len_sha1 tree_37 /\ in_ring 7 /\ Delete len_sha1 tree_37 7 = Some t' /\
  (Lookup t' 7 = None /\ (forall k', in_ring k' -> k' <> 7 -> Lookup t' k' = Lookup tree_37 k')).
Proof.
  destruct (Delete len_sha1 tree_37 7) as [t'|] eqn:E; [|vm_compute in E; discriminate].
  exists t'. split; [exact tree_37_reachable|]. split; [exact ring_7|]. split; [reflexivity|].
  exact (Delete_removes_one_key len_sha1 tree_37 t' 7 tree_37_reachable ring_7 E).
Defined.

Lemma GetEntries_lists_store_witness :
  (forall s, 0 < len_sha1 s) /\ reachable len_sha1 tree_37 /\
  (keys_from 0 (GetEntries tree_37) /\
   (forall k v, In (k, v) (GetEntries tree_37) <-> in_ring k /\ Lookup tree_37 k = Some v)).
Proof.
  split; [exact len_sha1_pos|]. split; [exact tree_37_reachable|].
  exact (GetEntries_lists_store len_sha1 len_sha1_pos tree_37 tree_37_reachable).
Defined.

Lemma Smallest_Largest_ends_witness :
  (forall s, 0 < len_sha1 s) /\ reachable len_sha1 tree_37 /\
  (GetSmallestEntry tree_37 = hd_error (GetEntries tree_37) /\
   GetLargestEntry tree_37 = last (map Some (GetEntries tree_37)) None).
Proof.
  split; [exact len_sha1_pos|]. split; [exact tree_37_reachable|].
  exact (Smallest_Largest_ends len_sha1 len_sha1_pos tree_37 tree_37_reachable).
Defined.

Lemma Next_wraps_around_witness :
  (forall s, 0 < len_sha1 s) /\ reachable len_sha1 tree_37 /\
  Next tree_37 9 = match first_greater 9 (GetEntries tree_37) with
                   | Some kv => Some kv
                   | None => hd_error (GetEntries tree_37)
                   end.
Proof.
  split; [exact len_sha1_pos|]. split; [exact tree_37_reachable|].
  exact (Next_wraps_around len_sha1 len_sha1_pos tree_37 9 tree_37_reachable).
Defined.

End MerkleExtras.

(* ------------------------------------------------------------------ *)
(** ** Further properties of the finger table *)

Module FingerExtraFacts.
Import GenericKey KeyFacts ChordPeer FingerTableOps SuccListFacts.

Lemma keys_in_chord_eq : keys_in_chord = 2 ^ 128.
Proof. reflexivity. Qed.

Ltac cmp_all :=
  repeat match goal with
  | |- context[?a =? ?b] => destruct (Z.eqb_spec a b)
  | |- context[?a <=? ?b] => destruct (Z.leb_spec a b)
  | |- context[?a <? ?b] => destruct (Z.ltb_spec a b)
  end.

(** An arc that does not hold [s] is an interval of distances from [s]. *)
Lemma arc_by_dist s lo hi x :
  in_ring s -> in_ring lo -> in_ring hi -> in_ring x ->
  0 < RemotePeerList.dist s lo < RemotePeerList.dist s hi ->
  cw_closed lo hi x =
  (RemotePeerList.dist s lo <=? RemotePeerList.dist s x) &&
  (RemotePeerList.dist s x <=? RemotePeerList.dist s hi).
Proof.
  intros Hs Hlo Hhi Hx Hd.
  destruct (dist_cases s lo Hs Hlo) as [[H1 E1]|[H1 E1]]; rewrite E1 in *;
  destruct (dist_cases s hi Hs Hhi) as [[H2 E2]|[H2 E2]]; rewrite E2 in *;
  destruct (dist_cases s x Hs Hx) as [[H3 E3]|[H3 E3]]; rewrite E3 in *;
  unfold in_ring in *; unfold cw_closed; cmp_all; simpl;
  first [reflexivity | exfalso; lia].
Qed.

(** Entry [n] of the table covers exactly the keys at clockwise distance
    [[2^n, 2^(n+1))] from the starting key. *)
Lemma GetNthRange_covers s n k :
  in_ring s -> in_ring k -> (n < num_entries)%nat ->
  InBetween k (fst (GetNthRange s n)) (snd (GetNthRange s n)) true =
  (2 ^ Z.of_nat n <=? RemotePeerList.dist s k) &&
  (RemotePeerList.dist s k <? 2 ^ (Z.of_nat n + 1)).
Proof.
  intros Hs Hk Hn. unfold num_entries in Hn.
  pose proof Hs as Hs'. pose proof Hk as Hk'.
  unfold in_ring in Hs', Hk'. rewrite keys_in_ring_eq in Hs', Hk'.
  assert (Hp1 : 2 ^ Z.of_nat n < 2 ^ (Z.of_nat n + 1))
    by (apply Z.pow_lt_mono_r; lia).
  assert (Hp0 : 1 <= 2 ^ Z.of_nat n)
    by (change 1 with (2 ^ 0); apply Z.pow_le_mono_r; lia).
  assert (Hp2 : 2 ^ (Z.of_nat n + 1) <= 2 ^ 128) by (apply Z.pow_le_mono_r; lia).
  assert (Hpe : 2 ^ (Z.of_nat n + 1) = 2 * 2 ^ Z.of_nat n)
    by (rewrite Z.pow_add_r by lia; lia).
  unfold GetNthRange, u256. cbn [fst snd]. rewrite keys_in_chord_eq.
  set (a := 2 ^ Z.of_nat n) in *. set (b := 2 ^ (Z.of_nat n + 1)) in *.
  pose proof (Z.mod_pos_bound (s + a) (2 ^ 128) ltac:(lia)) as Ha.
  pose proof (Z.mod_pos_bound (s + b) (2 ^ 128) ltac:(lia)) as Hb.
  rewrite (Z.mod_small ((s + a) mod 2 ^ 128) (2 ^ 256)) by lia.
  rewrite (Z.mod_small ((s + b) mod 2 ^ 128) (2 ^ 256)) by lia.
  set (lo := (s + a) mod 2 ^ 128). set (e := (s + b) mod 2 ^ 128).
  assert (Hlo_d : RemotePeerList.dist s lo = a).
  { unfold RemotePeerList.dist, lo. rewrite keys_in_ring_eq.
    rewrite Zminus_mod_idemp_l. replace (s + a - s) with a by lia.
    apply Z.mod_small. lia. }
  assert (Hlo_r : in_ring lo) by (unfold in_ring; rewrite keys_in_ring_eq; lia).
  destruct (Z.eq_dec e 0) as [E0|E0].
  - (* the upper sum wraps to 0: [0 - 1] wraps to [2^256 - 1] *)
    rewrite E0. change ((0 - 1) mod 2 ^ 256) with (2 ^ 256 - 1).
    assert (Es : s = 2 ^ 128 - b).
    { unfold e in E0. apply Z.mod_divide in E0; [|lia]. destruct E0 as [q Hq].
      assert (q = 1) by nia. subst q. lia. }
    assert (Elo : lo = s + a) by (unfold lo; apply Z.mod_small; lia).
    unfold InBetween. rewrite keys_in_ring_eq.
    rewrite (Z.mod_small lo) by lia. rewrite (Z.mod_small k) by lia.
    destruct (Z.eqb_spec lo (2 ^ 256 - 1)); [lia|].
    destruct (Z.ltb_spec lo (2 ^ 256 - 1)); [|lia].
    destruct (dist_cases s k Hs Hk) as [[H3 E3]|[H3 E3]]; rewrite E3;
      try rewrite keys_in_ring_eq in *; cmp_all; simpl; first [reflexivity | lia].
  - assert (Ehi : (e - 1) mod 2 ^ 256 = e - 1) by (apply Z.mod_small; lia).
    rewrite Ehi.
    assert (Hhi_r : in_ring (e - 1)) by (unfold in_ring; rewrite keys_in_ring_eq; lia).
    assert (Hhi_d : RemotePeerList.dist s (e - 1) = b - 1).
    { unfold RemotePeerList.dist, e. rewrite keys_in_ring_eq.
      replace ((s + b) mod 2 ^ 128 - 1 - s) with ((s + b) mod 2 ^ 128 - (1 + s)) by lia.
      rewrite Zminus_mod_idemp_l.
      replace (s + b - (1 + s)) with (b - 1) by lia. apply Z.mod_small. lia. }
    rewrite InBetween_cw_closed by assumption.
    destruct (Z.eq_dec a 1) as [Ea|Ea].
    + (* [n = 0]: the range is the single key [s + 1] *)
      assert (Elh : lo = e - 1).
      { apply (dist_inj s); [assumption | assumption | assumption | lia]. }
      unfold cw_closed. rewrite Elh, Z.eqb_refl.
      destruct (Z.eqb_spec k (e - 1)) as [->|Ne].
      * rewrite Hhi_d. cmp_all; simpl; first [reflexivity | lia].
      * assert (RemotePeerList.dist s k <> b - 1)
          by (intros D; apply Ne; apply (dist_inj s); [assumption|assumption|assumption|lia]).
        pose proof (dist_range s k Hs Hk). cmp_all; simpl; first [reflexivity | lia].
    + rewrite (arc_by_dist s lo (e - 1) k Hs Hlo_r Hhi_r Hk ltac:(lia)).
      rewrite Hlo_d, Hhi_d. cmp_all; simpl; first [reflexivity | lia].
Qed.


Lemma Lookup_none_all table k :
  (forall f, In f table -> InBetween k (lower_bound f) (upper_bound f) true = false) ->
  FingerTable.Lookup table k = None.
Proof.
  induction table as [|f rest IH]; intros H; simpl; [reflexivity|].
  rewrite (H f (or_introl eq_refl)). apply IH. intros g Hg. apply H. now right.
Qed.

Lemma Lookup_unique table k j f :
  nth_error table j = Some f ->
  InBetween k (lower_bound f) (upper_bound f) true = true ->
  (forall j' f', nth_error table j' = Some f' ->
     InBetween k (lower_bound f') (upper_bound f') true = true -> j' = j) ->
  FingerTable.Lookup table k = Some (successor f).
Proof.
  revert j. induction table as [|g rest IH]; intros j Hj Hc Hu.
  - destruct j; discriminate.
  - simpl. destruct j as [|j].
    + simpl in Hj. injection Hj as <-. rewrite Hc. reflexivity.
    + destruct (InBetween k (lower_bound g) (upper_bound g) true) eqn:Eg.
      * specialize (Hu 0%nat g eq_refl Eg). discriminate.
      * apply (IH j Hj Hc). intros j' f' H1 H2.
        specialize (Hu (S j') f' H1 H2). lia.
Qed.

(** Entry [j] of a table holds the range [GetNthRange s j]. *)
Definition ranged (s : Z) (table : list Finger) : Prop :=
  forall j f, nth_error table j = Some f ->
    (lower_bound f, upper_bound f) = GetNthRange s j.

Lemma populate_loop_ranged net st i c table table' :
  List.length table = i -> ranged (id_ st) table ->
  populate_loop net st i c table = (table', true) ->
  List.length table' = (i + c)%nat /\ ranged (id_ st) table'.
Proof.
  revert i table. induction c as [|c IH]; intros i table Hl Hr H; cbn [populate_loop] in H.
  - injection H as <-. split; [lia | exact Hr].
  - destruct (GetNthRange (id_ st) i) as [lo hi] eqn:Er.
    destruct (entry_successor net st i lo table) as [succ|]; [|discriminate].
    apply IH in H.
    + destruct H as [H1 H2]. split; [lia | exact H2].
    + unfold AddFinger. rewrite length_app. simpl. lia.
    + intros j f Hj. unfold AddFinger in Hj.
      destruct (Nat.lt_ge_cases j (List.length table)) as [Lt|Ge].
      * rewrite nth_error_app1 in Hj by lia. exact (Hr j f Hj).
      * rewrite nth_error_app2 in Hj by lia.
        destruct (j - List.length table)%nat as [|m] eqn:Em; simpl in Hj.
        -- injection Hj as <-. simpl. rewrite <- Er. f_equal. lia.
        -- destruct m; discriminate.
Qed.

End FingerExtraFacts.

Module FingerExtras.
Import GenericKey KeyFacts ChordPeer FingerTableOps SuccListFacts FingerExtraFacts.

(** After [PopulateFingerTable(true)] runs to its end on an empty table,
    the table has 128 fingers, a lookup of the peer's own id throws
    (no finger covers it), and any other key [k] is answered by finger
    number [log2 (k - id)] (clockwise distance), the one whose range
    [[id + 2^n, id + 2^(n+1) - 1]] holds it. *)
Theorem PopulateFingerTable_lookup (net : Net) (st : State) table :
  in_ring (id_ st) -> finger_table_ st = [] ->
  PopulateFingerTable_init net st = (table, true) ->
  List.length table = num_entries /\
  FingerTable.Lookup table (id_ st) = None /\
  (forall k, in_ring k -> k <> id_ st ->
     FingerTable.Lookup table k =
     GetNthEntry table (Z.log2 (RemotePeerList.dist (id_ st) k))).
Proof.
  intros Hs He Hp. unfold PopulateFingerTable_init in Hp. rewrite He in Hp.
  destruct (populate_loop_ranged net st 0 num_entries [] table eq_refl
              ltac:(intros [|j] f Hj; discriminate) Hp) as [Hl Hr].
  simpl in Hl. split; [exact Hl|].
  set (s := id_ st) in *.
  (* whether finger [j] covers [k] *)
  assert (Hcov : forall k j f, in_ring k -> nth_error table j = Some f ->
            InBetween k (lower_bound f) (upper_bound f) true =
            (2 ^ Z.of_nat j <=? RemotePeerList.dist s k) &&
            (RemotePeerList.dist s k <? 2 ^ (Z.of_nat j + 1))).
  { intros k j f Hk Hj.
    assert (Hjl : (j < num_entries)%nat)
      by (rewrite <- Hl; apply nth_error_Some; rewrite Hj; discriminate).
    pose proof (Hr j f Hj) as E.
    replace (lower_bound f) with (fst (GetNthRange s j)) by (rewrite <- E; reflexivity).
    replace (upper_bound f) with (snd (GetNthRange s j)) by (rewrite <- E; reflexivity).
    apply GetNthRange_covers; assumption. }
  split.
  - apply Lookup_none_all. intros f Hf.
    destruct (In_nth_error _ _ Hf) as [j Hj].
    rewrite (Hcov s j f Hs Hj), dist_self.
    assert (0 < 2 ^ Z.of_nat j) by (apply Z.pow_pos_nonneg; lia).
    destruct (Z.leb_spec (2 ^ Z.of_nat j) 0); [lia | reflexivity].
  - intros k Hk Hne.
    pose proof (dist_range s k Hs Hk) as Hd.
    assert (Hd0 : 0 < RemotePeerList.dist s k).
    { destruct (Z.eq_dec (RemotePeerList.dist s k) 0) as [D|D]; [|lia].
      exfalso. apply Hne. apply (dist_inj s); [exact Hs | exact Hk | exact Hs |].
      rewrite dist_self. exact D. }
    set (d := RemotePeerList.dist s k) in *.
    pose proof (Z.log2_spec d Hd0) as [Lg1 Lg2].
    pose proof (Z.log2_nonneg d) as Lg0.
    rewrite keys_in_ring_eq in Hd.
    assert (Hlt : Z.log2 d < 128).
    { destruct (Z.ltb_spec (Z.log2 d) 128) as [|Ge]; [assumption|].
      assert (2 ^ 128 <= 2 ^ Z.log2 d) by (apply Z.pow_le_mono_r; lia). lia. }
    set (n := Z.to_nat (Z.log2 d)).
    assert (En : Z.of_nat n = Z.log2 d) by (unfold n; lia).
    destruct (nth_error table n) as [f|] eqn:Ef.
    2:{ exfalso. apply nth_error_None in Ef. unfold num_entries in Hl. lia. }
    unfold GetNthEntry. destruct (Z.ltb_spec (Z.log2 d) 0); [lia|].
    fold n. rewrite Ef. simpl.
    apply (Lookup_unique table k n f Ef).
    + rewrite (Hcov k n f Hk Ef), En. fold d. rewrite <- Z.add_1_r in Lg2.
      destruct (Z.leb_spec (2 ^ Z.log2 d) d); [|lia].
      destruct (Z.ltb_spec d (2 ^ (Z.log2 d + 1))); [reflexivity|lia].
    + intros j' f' Hj' Hc. rewrite (Hcov k j' f' Hk Hj') in Hc. fold d in Hc.
      apply andb_prop in Hc as [C1 C2].
      apply Z.leb_le in C1. apply Z.ltb_lt in C2.
      assert (Z.log2 d = Z.of_nat j')
        by (apply Z.log2_unique; [lia | rewrite <- Z.add_1_r; lia]).
      lia.
Qed.

(** [ReplaceDeadPeer] changes no range: a lookup afterwards answers what
    it answered before, with every peer bearing the dead peer's id
    replaced; when the replacement has another id, no finger points to
    the dead peer's id any more. *)
Theorem ReplaceDeadPeer_lookup table dead_peer replacement :
  (forall k, FingerTable.Lookup (ReplaceDeadPeer table dead_peer replacement) k =
     option_map (fun p => if rp_id p =? rp_id dead_peer then replacement else p)
                (FingerTable.Lookup table k)) /\
  (rp_id replacement <> rp_id dead_peer ->
   forall f, In f (ReplaceDeadPeer table dead_peer replacement) ->
   rp_id (successor f) <> rp_id dead_peer).
Proof.
  split.
  - intros k. induction table as [|f rest IH]; simpl; [reflexivity|].
    destruct (rp_id (successor f) =? rp_id dead_peer) eqn:Ed; simpl;
      destruct (InBetween k (lower_bound f) (upper_bound f) true);
      simpl; rewrite ?Ed; auto.
  - intros Hne f Hf. unfold ReplaceDeadPeer in Hf. apply in_map_iff in Hf.
    destruct Hf as [g [<- _]].
    destruct (Z.eqb_spec (rp_id (successor g)) (rp_id dead_peer)); simpl; assumption.
Qed.

(** [EditNthFinger(n, succ)] throws exactly when [n] is out of the
    table's range; otherwise [GetNthEntry(n)] then returns [succ], every
    other entry and every range stays as it was. *)
Theorem EditNthFinger_GetNthEntry table n succ :
  (EditNthFinger table n succ = None <-> n < 0 \/ Z.of_nat (List.length table) <= n) /\
  (forall table', EditNthFinger table n succ = Some table' ->
     GetNthEntry table' n = Some succ /\
     (forall m, m <> n -> GetNthEntry table' m = GetNthEntry table m) /\
     map (fun f => (lower_bound f, upper_bound f)) table' =
     map (fun f => (lower_bound f, upper_bound f)) table).
Proof.
  unfold EditNthFinger, GetNthEntry.
  assert (Hnone : forall (t : list Finger) i,
            MerkleTree.at_update (fun f => Some (mkFinger (lower_bound f) (upper_bound f) succ)) t i = None
            <-> (List.length t <= i)%nat).
  { induction t as [|g t IH]; intros [|i]; simpl; split; intros H; try lia; try discriminate;
      try reflexivity.
    - destruct (MerkleTree.at_update _ t i) eqn:E; [discriminate|]. apply IH in E. lia.
    - destruct (MerkleTree.at_update _ t i) eqn:E; [|reflexivity].
      assert (Hn : MerkleTree.at_update (fun f => Some (mkFinger (lower_bound f) (upper_bound f) succ)) t i = None)
        by (apply IH; lia). congruence. }
  assert (Hsome : forall (t t' : list Finger) i,
            MerkleTree.at_update (fun f => Some (mkFinger (lower_bound f) (upper_bound f) succ)) t i = Some t' ->
            option_map successor (nth_error t' i) = Some succ /\
            (forall j, j <> i -> nth_error t' j = nth_error t j) /\
            map (fun f => (lower_bound f, upper_bound f)) t' =
            map (fun f => (lower_bound f, upper_bound f)) t).
  { induction t as [|g t IH]; intros t' [|i] H; simpl in H; try discriminate.
    - injection H as <-. split; [reflexivity|]. split.
      + intros [|j] Hj; [lia | reflexivity].
      + reflexivity.
    - destruct (MerkleTree.at_update _ t i) as [t''|] eqn:E; [|discriminate].
      injection H as <-. destruct (IH t'' i E) as [A [B C]].
      split; [exact A|]. split.
      + intros [|j] Hj; [reflexivity|]. simpl. apply B. lia.
      + simpl. rewrite C. reflexivity. }
  split.
  - destruct (Z.ltb_spec n 0).
    + split; [intros _; left; assumption | reflexivity].
    + rewrite Hnone. lia.
  - intros table' H. destruct (Z.ltb_spec n 0); [discriminate|].
    destruct (Hsome table table' (Z.to_nat n) H) as [A [B C]].
    split; [exact A|]. split; [|exact C].
    intros m Hm. destruct (Z.ltb_spec m 0); [reflexivity|].
    rewrite B by lia. reflexivity.
Qed.

(** A peer alone on the ring: its range [[id + 1, id]] is every key. *)
Definition lone_peer : State :=
  mkState 1000 "127.0.0.1" 5000 1001 [] [] None.

Definition quiet_net : Net := mkNet (fun _ => false) (fun _ _ => None).

Lemma PopulateFingerTable_lookup_witness :
  let table := fst (PopulateFingerTable_init quiet_net lone_peer) in
  List.length table = num_entries /\
  FingerTable.Lookup table (id_ lone_peer) = None /\
  (forall k, in_ring k -> k <> id_ lone_peer ->
     FingerTable.Lookup table k =
     GetNthEntry table (Z.log2 (RemotePeerList.dist (id_ lone_peer) k))).
Proof.
  intros table. apply (PopulateFingerTable_lookup quiet_net lone_peer table).
  - unfold in_ring, keys_in_ring, key_base, key_len. simpl. lia.
  - reflexivity.
  - unfold table. vm_compute. reflexivity.
Defined.

End FingerExtras.

(* ------------------------------------------------------------------ *)
(** ** Further properties of the successor list *)

Module PeerListExtras.
Import GenericKey KeyFacts ChordPeer RemotePeerList SuccListFacts RemotePeerListOps.

Lemma GetIndex_range peers peer :
  In peer peers -> 0 <= GetIndex peers peer < Z.of_nat (List.length peers).
Proof.
  induction peers as [|p rest IH]; intros H; [destruct H|].
  simpl. destruct (Z.eqb_spec (rp_id p) (rp_id peer)); [lia|].
  destruct H as [<-|H]; [congruence|].
  specialize (IH H). destruct (Z.eqb_spec (GetIndex rest peer) (-1)); lia.
Qed.

Lemma Lookup_In prev peers key p :
  RemotePeerList.Lookup prev peers key = Some p -> In p peers.
Proof.
  revert prev. induction peers as [|q rest IH]; intros prev H; simpl in H; [discriminate|].
  destruct (InBetween key prev (rp_id q) true).
  - injection H as <-. now left.
  - right. exact (IH _ H).
Qed.

(** [LookupLiving] answers the successor [Lookup] finds when it is
    alive and nothing otherwise: its fallback loop starts at the
    successor's index [i] with the condition [i % size < i], false at
    once, so no other entry is ever tried. (An [int] index: the list has
    fewer than [2^31] entries.) *)
Theorem LookupLiving_no_fallback net starting_key peers key :
  Z.of_nat (List.length peers) < 2 ^ 31 ->
  LookupLiving net starting_key peers key =
  match RemotePeerList.Lookup starting_key peers key with
  | Some succ => if is_alive net succ then Some succ else None
  | None => None
  end.
Proof.
  intros Hlen. unfold LookupLiving.
  destruct (RemotePeerList.Lookup starting_key peers key) as [succ|] eqn:E; [|reflexivity].
  destruct (is_alive net succ); [reflexivity|].
  pose proof (GetIndex_range peers succ (Lookup_In _ _ _ _ E)) as R.
  set (i := GetIndex peers succ) in *.
  assert (Hs : to_size_t i = i) by (unfold to_size_t; apply Z.mod_small; lia).
  destruct (List.length peers) as [|n'] eqn:En; [simpl in R; lia|].
  simpl. rewrite Hs. rewrite (Z.mod_small i) by lia. rewrite Z.ltb_irrefl. reflexivity.
Qed.

Lemma Lookup_sorted_gen s prev peers key :
  in_ring s -> in_ring key -> in_ring prev ->
  Forall (fun p => in_ring (rp_id p)) peers ->
  increasing_from s (dist s prev) peers ->
  dist s prev <= dist s key ->
  RemotePeerList.Lookup prev peers key =
  find (fun p => dist s key <=? dist s (rp_id p)) peers.
Proof.
  intros Hs Hk. revert prev. induction peers as [|p rest IH]; intros prev Hp Hall Hinc Hle;
    [reflexivity|].
  inversion Hall as [|? ? Hp1 Hrest]; subst. destruct Hinc as [Hlt Hinc].
  simpl. rewrite (arc_dist s prev (rp_id p) key Hs Hp Hp1 Hk Hlt Hle).
  destruct (Z.leb_spec (dist s key) (dist s (rp_id p))); [reflexivity|].
  apply IH; [exact Hp1 | exact Hrest | exact Hinc | lia].
Qed.

(** On a list sorted clockwise from its starting key [s] (the
    successor-list invariant), [Lookup(key)] returns the first entry
    whose ID is at or clockwise past [key], counting from [s]; it
    returns nothing when [key] lies clockwise past the last entry. *)
Theorem Lookup_first_at_or_past (K : nat) s peers key :
  in_ring s -> in_ring key -> succ_list_ok K s peers ->
  RemotePeerList.Lookup s peers key =
  find (fun p => dist s key <=? dist s (rp_id p)) peers.
Proof.
  intros Hs Hk [_ [Hall Hinc]].
  apply Lookup_sorted_gen; try assumption.
  - unfold dist. rewrite Z.sub_diag. exact Hinc.
  - unfold dist. rewrite Z.sub_diag. apply Z.mod_pos_bound.
    rewrite keys_in_ring_eq. lia.
Qed.

Definition list_peer (id : Z) : RemotePeer := mkRemotePeer id id "10.0.0.1" 5000.

Lemma Lookup_first_at_or_past_witness :
  RemotePeerList.Lookup 100 [list_peer 200; list_peer 300; list_peer 50] 10 =
  find (fun p => dist 100 10 <=? dist 100 (rp_id p)) [list_peer 200; list_peer 300; list_peer 50].
Proof.
  apply (Lookup_first_at_or_past 3 100 [list_peer 200; list_peer 300; list_peer 50] 10).
  - unfold in_ring. rewrite keys_in_ring_eq. lia.
  - unfold in_ring. rewrite keys_in_ring_eq. lia.
  - split; [simpl; lia|]. split.
    + apply Forall_forall. intros p Hp. unfold in_ring. rewrite keys_in_ring_eq.
      simpl in Hp. intuition (subst; simpl; lia).
    + vm_compute. repeat split; reflexivity.
Defined.

Lemma LookupLiving_no_fallback_witness :
  LookupLiving (mkNet (fun p => rp_id p =? 30) (fun _ _ => None)) 0
               [list_peer 20; list_peer 30] 15 = None.
Proof.
  rewrite (LookupLiving_no_fallback _ 0 [list_peer 20; list_peer 30] 15) by (simpl; lia).
  vm_compute. reflexivity.
Defined.

End PeerListExtras.

(* ------------------------------------------------------------------ *)
(** ** Properties of [data_fragment] *)

Module StringFacts.

Lemma substring_len_le n m s :
  (String.length (String.substring n m s) <= m)%nat /\
  (String.length (String.substring n m s) <= String.length s - n)%nat.
Proof.
  revert n m. induction s as [|c s IH]; intros [|n] [|m]; simpl; try lia.
  - destruct (IH 0%nat m) as [A B]. simpl in *. lia.
  - destruct (IH n 0%nat). lia.
  - destruct (IH n (S m)). lia.
Qed.

Lemma substring_len n m s :
  (n + m <= String.length s)%nat -> String.length (String.substring n m s) = m.
Proof.
  revert n m. induction s as [|c s IH]; intros [|n] [|m] H; simpl in *; try lia.
  - f_equal. apply IH. lia.
  - apply IH. lia.
  - apply IH. lia.
Qed.

Lemma substring_split a b c s :
  String.substring a (b + c) s =
  String.append (String.substring a b s) (String.substring (a + b) c s).
Proof.
  revert a b. induction s as [|ch s IH]; intros [|a] b.
  - destruct b, c; reflexivity.
  - destruct b, c; reflexivity.
  - destruct b as [|b]; simpl.
    + destruct c; reflexivity.
    + f_equal. apply (IH 0%nat b).
  - simpl. apply IH.
Qed.

Lemma substring_substring a b p q s :
  (p + q <= b)%nat ->
  String.substring p q (String.substring a b s) = String.substring (a + p) q s.
Proof.
  revert a b p q. induction s as [|ch s IH]; intros [|a] b p q H.
  - destruct b, p, q; reflexivity.
  - destruct b, p, q; reflexivity.
  - destruct b as [|b]; [destruct p, q; simpl in *; try lia; reflexivity|].
    destruct p as [|p], q as [|q]; simpl; try reflexivity.
    + f_equal. apply (IH 0%nat b 0%nat q). lia.
    + apply (IH 0%nat b p 0%nat). lia.
    + apply (IH 0%nat b p (S q)). lia.
  - simpl. apply IH. exact H.
Qed.

Lemma substring_all s : String.substring 0 (String.length s) s = s.
Proof. induction s as [|c s IH]; simpl; [reflexivity|]. rewrite IH. reflexivity. Qed.

Lemma index_ge n s1 s2 m : String.index n s1 s2 = Some m -> (n <= m)%nat.
Proof.
  revert n m. induction s2 as [|c t IH]; intros [|n] m H; simpl in H; try lia;
    try discriminate.
  destruct (String.index n s1 t) as [k|] eqn:E; [|discriminate].
  injection H as <-. apply IH in E. lia.
Qed.

Lemma append_length a b :
  String.length (String.append a b) = (String.length a + String.length b)%nat.
Proof. induction a as [|c a IH]; simpl; [reflexivity|]. rewrite IH. reflexivity. Qed.

Lemma append_assoc a b c :
  String.append (String.append a b) c = String.append a (String.append b c).
Proof. induction a as [|ch a IH]; simpl; [reflexivity|]. rewrite IH. reflexivity. Qed.

Lemma get_append_r pre x t :
  String.get (String.length pre + t) (String.append pre x) = String.get t x.
Proof. induction pre as [|c pre IH]; simpl; [reflexivity|]. exact IH. Qed.

End StringFacts.

Module SplitFacts.
Import DataFragment StringFacts.

Definition no_delim (delimiter t : string) : Prop :=
  forall p, String.substring p (String.length delimiter) t <> delimiter.

Lemma no_delim_sub delimiter s a b :
  delimiter <> EmptyString ->
  (forall m, (a <= m)%nat -> (m + String.length delimiter <= a + b)%nat ->
     String.substring m (String.length delimiter) s <> delimiter) ->
  no_delim delimiter (String.substring a b s).
Proof.
  intros Hne Hocc p E.
  destruct (Nat.le_gt_cases (p + String.length delimiter) b) as [Le|Gt].
  - rewrite substring_substring in E by exact Le.
    exact (Hocc (a + p)%nat ltac:(lia) ltac:(lia) E).
  - destruct (substring_len_le p (String.length delimiter) (String.substring a b s)) as [_ L1].
    destruct (substring_len_le a b s) as [L2 _].
    rewrite E in L1.
    assert (0 < String.length delimiter)%nat
      by (destruct delimiter; [congruence | simpl; lia]).
    lia.
Qed.

Lemma split_while_spec s delimiter fuel pos :
  delimiter <> EmptyString -> (pos <= String.length s)%nat ->
  (String.length s + 1 - pos <= fuel)%nat ->
  let toks := split_while s delimiter pos fuel in
  toks <> [] /\
  String.concat delimiter toks = String.substring pos (String.length s - pos) s /\
  Forall (no_delim delimiter) toks.
Proof.
  intros Hne. assert (Hld : (0 < String.length delimiter)%nat)
    by (destruct delimiter; [congruence | simpl; lia]).
  revert pos. induction fuel as [|fuel IH]; intros pos Hpos Hf; [lia|].
  cbn zeta. simpl split_while. unfold find_from.
  destruct (String.index pos delimiter s) as [e|] eqn:Ei.
  - pose proof (index_ge _ _ _ _ Ei) as Hpe.
    pose proof (index_correct1 _ _ _ _ Ei) as Hd.
    assert (He : (e + String.length delimiter <= String.length s)%nat).
    { destruct (substring_len_le e (String.length delimiter) s) as [_ L].
      rewrite Hd in L. lia. }
    destruct (IH (e + String.length delimiter)%nat ltac:(lia) ltac:(lia)) as [Hn [Hc Hf']].
    set (rest := split_while s delimiter (e + String.length delimiter) fuel) in *.
    split; [discriminate|]. split.
    + destruct rest as [|r rs]; [congruence|].
      change (String.concat delimiter (String.substring pos (e - pos) s :: r :: rs))
        with (String.append (String.substring pos (e - pos) s)
               (String.append delimiter (String.concat delimiter (r :: rs)))).
      rewrite Hc.
      replace (String.length s - pos)%nat
        with ((e - pos) + (String.length delimiter
              + (String.length s - (e + String.length delimiter))))%nat by lia.
      rewrite substring_split, substring_split.
      replace (pos + (e - pos))%nat with e by lia.
      rewrite Hd. reflexivity.
    + constructor; [|exact Hf'].
      apply no_delim_sub; [exact Hne|]. intros m H1 H2.
      apply (index_correct2 _ _ _ _ Ei); lia.
  - split; [discriminate|]. split; [reflexivity|].
    constructor; [|constructor].
    apply no_delim_sub; [exact Hne|]. intros m H1 H2.
    apply (index_correct3 _ _ _ _ Ei Hne). exact H1.
Qed.

End SplitFacts.

Module DataFragmentExtras.
Import DataFragment StringFacts SplitFacts.

(** [Split(s, delimiter)] with a non-empty delimiter cuts [s] into
    pieces that rebuild [s] when joined with the delimiter, none of which
    holds an occurrence of the delimiter. *)
Theorem Split_join (s delimiter : string) :
  delimiter <> EmptyString ->
  exists toks, Split s delimiter = Some toks /\
    String.concat delimiter toks = s /\
    Forall (fun t => forall p,
              String.substring p (String.length delimiter) t <> delimiter) toks.
Proof.
  intros Hne.
  destruct (split_while_spec s delimiter (S (String.length s)) 0 Hne ltac:(lia) ltac:(lia))
    as [_ [Hc Hf]].
  exists (split_while s delimiter 0 (S (String.length s))).
  split; [destruct delimiter; [congruence | reflexivity]|].
  split; [|exact Hf].
  rewrite Hc. rewrite Nat.sub_0_r. apply substring_all.
Qed.

Lemma Split_join_witness :
  exists toks, Split "3 2 257 4:1 2 3" ":" = Some toks /\
    String.concat ":" toks = "3 2 257 4:1 2 3"%string /\
    Forall (fun t => forall p,
              String.substring p (String.length ":") t <> ":"%string) toks.
Proof. apply Split_join. discriminate. Defined.

(** [ParseFromBytes(SerializeToBytes(frag))] gives back each value
    reduced modulo 256: only values in [[0, 256)] come back unchanged
    (with the default [p = 257] the value 256 comes back as 0). *)
Theorem Bytes_round_trip (frag : IDA.Vector) :
  ParseFromBytes (SerializeToBytes frag) = map (fun val => val mod 256) frag.
Proof.
  unfold ParseFromBytes, SerializeToBytes.
  rewrite list_ascii_of_string_of_list_ascii, map_map.
  apply map_ext. intros val.
  pose proof (Z.mod_pos_bound val 256 ltac:(lia)).
  rewrite nat_ascii_embedding by lia. lia.
Qed.

End DataFragmentExtras.

Module Base64Facts.
Import DataFragment StringFacts.

Definition alphabet_ok (n : nat) : bool :=
  match alphabet_at (Z.of_nat n) with
  | Some c => match char_to_int c with Some v => v =? Z.of_nat n | None => false end
  | None => false
  end.

Lemma alphabet_ok_all : forallb alphabet_ok (seq 0 64) = true.
Proof. vm_compute. reflexivity. Qed.

(** Each digit of [[0, 64)] is written as a character the map reads
    back. *)
Lemma alphabet_char q :
  0 <= q < 64 -> exists c, alphabet_at q = Some c /\ char_to_int c = Some q.
Proof.
  intros Hq. pose proof alphabet_ok_all as H. rewrite forallb_forall in H.
  specialize (H (Z.to_nat q) ltac:(apply in_seq; lia)).
  unfold alphabet_ok in H. rewrite Z2Nat.id in H by lia.
  destruct (alphabet_at q) as [c|]; [|discriminate].
  destruct (char_to_int c) as [v|] eqn:E; [|discriminate].
  apply Z.eqb_eq in H. subst v. exists c. split; [reflexivity | exact E].
Qed.

Lemma alphabet_at_64 : alphabet_at 64 = Some (ascii_of_nat 0).
Proof. reflexivity. Qed.

Lemma char_to_int_nul : char_to_int (ascii_of_nat 0) = None.
Proof. vm_compute. reflexivity. Qed.

Lemma pow64_int_small k : (k <= 5)%nat -> pow64_int (Z.of_nat k) = Some (64 ^ Z.of_nat k).
Proof.
  intros Hk. unfold pow64_int.
  destruct (Z.ltb_spec (Z.of_nat k) 0); [lia|].
  destruct (Z.leb_spec (Z.of_nat k) 5); [reflexivity|lia].
Qed.

Lemma pow64_pos k : 0 < 64 ^ Z.of_nat k.
Proof. apply Z.pow_pos_nonneg; lia. Qed.

Lemma pow64_succ k : 64 ^ Z.of_nat (S k) = 64 * 64 ^ Z.of_nat k.
Proof. rewrite Nat2Z.inj_succ, Z.pow_succ_r by lia. reflexivity. Qed.

(** A value of [[0, 64^k)] is written with [k] characters, read back by
    [parse_el] wherever they sit. *)
Lemma ser_ok k val :
  (k <= 6)%nat -> 0 <= val < 64 ^ Z.of_nat k ->
  exists str, ser_digits val k = Some str /\ String.length str = k /\
  forall s i d j el, (j + k = d)%nat -> 0 <= el -> el + val < 2 ^ 31 ->
    (forall t, (t < k)%nat -> digit_at s (i + j + t) = digit_at str t) ->
    parse_el s i d j k el = Some (el + val).
Proof.
  revert val. induction k as [|k IH]; intros val Hk Hv.
  - exists EmptyString. simpl in Hv. split; [reflexivity|]. split; [reflexivity|].
    intros. simpl. f_equal. lia.
  - rewrite pow64_succ in Hv. pose proof (pow64_pos k) as Hw.
    set (w := 64 ^ Z.of_nat k) in *.
    assert (Hq : Z.quot val w = val / w) by (apply Z.quot_div_nonneg; lia).
    assert (Hq2 : 0 <= val / w < 64).
    { split; [apply Z.div_pos; lia | apply Z.div_lt_upper_bound; lia]. }
    assert (Hr : val - Z.quot val w * w = val mod w)
      by (rewrite Hq, Z.mod_eq by lia; lia).
    destruct (alphabet_char (val / w) Hq2) as [c [Hc Hci]].
    destruct (IH (val mod w) ltac:(lia) ltac:(apply Z.mod_pos_bound; lia))
      as [rest [Hs [Hl Hp]]].
    exists (String c rest). simpl ser_digits.
    rewrite pow64_int_small by lia. fold w. rewrite Hq, Hc.
    rewrite <- Hq, Hr, Hs. split; [reflexivity|].
    split; [simpl; rewrite Hl; reflexivity|].
    intros s i d j el Hd Hel Hov Hdig. simpl parse_el.
    rewrite <- (Nat.add_0_r (i + j)), (Hdig 0%nat ltac:(lia)).
    change (digit_at (String c rest) 0) with (char_to_int c). rewrite Hci.
    replace (Z.of_nat d - Z.of_nat j - 1) with (Z.of_nat k) by lia.
    rewrite pow64_int_small by lia. fold w.
    pose proof (Z.mod_eq val w ltac:(lia)) as Em.
    pose proof (Z.mod_pos_bound val w ltac:(lia)) as Hm.
    assert (Hqw : 0 <= val / w * w) by (apply Z.mul_nonneg_nonneg; lia).
    assert (Hcomm : val / w * w = w * (val / w)) by ring.
    match goal with
    | |- context[if ?b then None else _] =>
        replace b with false
          by (symmetry; apply orb_false_iff; split; apply Z.ltb_ge; lia)
    end.
    rewrite (Hp s i d (S j)).
    + f_equal. lia.
    + lia.
    + lia.
    + lia.
    + intros t Ht. replace (i + S j + t)%nat with (i + j + S t)%nat by lia.
      rewrite Hdig by lia. reflexivity.
Qed.

(** [64^k] itself, for [k >= 1]: its first character is the NUL at
    index 64 of the alphabet. *)
Lemma ser_top k :
  (1 <= k <= 6)%nat ->
  exists rest, ser_digits (64 ^ Z.of_nat k) k = Some (String (ascii_of_nat 0) rest).
Proof.
  intros Hk. destruct k as [|k]; [lia|].
  destruct (ser_ok k 0 ltac:(lia) ltac:(pose proof (pow64_pos k); lia)) as [rest [Hs _]].
  exists rest. rewrite pow64_succ. cbn [ser_digits]. rewrite pow64_int_small by lia.
  pose proof (pow64_pos k) as Hw.
  rewrite Z.quot_mul by lia. rewrite alphabet_at_64.
  replace (64 * 64 ^ Z.of_nat k - 64 * 64 ^ Z.of_nat k) with 0 by lia.
  rewrite Hs. reflexivity.
Qed.

Lemma pow64_le_31 (d : nat) : (d <= 5)%nat -> 64 ^ Z.of_nat d <= 2 ^ 30.
Proof.
  intros H. change (2 ^ 30) with (64 ^ 5).
  apply Z.pow_le_mono_r; lia.
Qed.

Ltac pow64_bound :=
  match goal with
  | Hd : (1 <= ?d <= 5)%nat |- _ => pose proof (pow64_le_31 d ltac:(lia)); lia
  end.

Lemma digit_at_app pre str out t :
  (t < String.length str)%nat ->
  digit_at (String.append pre (String.append str out)) (String.length pre + t) =
  digit_at str t.
Proof.
  intros Ht. unfold digit_at. rewrite get_append_r.
  rewrite <- append_correct1 by exact Ht. reflexivity.
Qed.

Lemma parse_loop_ser frag (d : nat) out pre fuel :
  (1 <= d <= 5)%nat ->
  Forall (fun x => 0 <= x < 64 ^ Z.of_nat d) frag ->
  ser_values frag (64 ^ Z.of_nat d) (Z.of_nat d) = Some out ->
  (List.length frag <= fuel)%nat ->
  String.length out = (d * List.length frag)%nat /\
  parse_loop (String.append pre out) d (String.length pre) fuel = Some frag.
Proof.
  intros Hd. revert out pre fuel.
  induction frag as [|x rest IH]; intros out pre fuel Hall Hser Hf.
  - simpl in Hser. injection Hser as <-. split; [simpl; lia|].
    destruct fuel; simpl; [reflexivity|].
    rewrite append_length. simpl. rewrite Nat.add_0_r, Nat.ltb_irrefl. reflexivity.
  - inversion Hall as [|? ? Hx Hrest]; subst.
    simpl in Hser. destruct (Z.ltb_spec (64 ^ Z.of_nat d) x); [lia|].
    rewrite Nat2Z.id in Hser.
    destruct (ser_ok d x ltac:(lia) Hx) as [str [Hs [Hl Hp]]].
    rewrite Hs in Hser.
    destruct (ser_values rest (64 ^ Z.of_nat d) (Z.of_nat d)) as [out'|] eqn:Eo;
      [|discriminate].
    injection Hser as <-.
    destruct fuel as [|fuel]; [simpl in Hf; lia|].
    destruct (IH out' (String.append pre str) fuel Hrest eq_refl ltac:(simpl in Hf; lia))
      as [Hl' Hp'].
    split; [rewrite append_length, Hl, Hl'; simpl; lia|].
    simpl parse_loop.
    assert (Hlt : Nat.ltb (String.length pre) (String.length (String.append pre (String.append str out'))) = true).
    { apply Nat.ltb_lt. rewrite !append_length. lia. }
    rewrite Hlt.
    rewrite (Hp _ (String.length pre) d 0%nat 0 ltac:(lia) ltac:(lia) ltac:(pow64_bound)).
    2:{ intros t Ht. rewrite Nat.add_0_r. apply digit_at_app. lia. }
    rewrite <- append_assoc.
    replace (String.length pre + d)%nat with (String.length (String.append pre str))
      by (rewrite append_length; lia).
    rewrite Hp'. reflexivity.
Qed.

Lemma parse_loop_top frag (d : nat) out pre fuel :
  (1 <= d <= 5)%nat ->
  Forall (fun x => 0 <= x <= 64 ^ Z.of_nat d) frag ->
  In (64 ^ Z.of_nat d) frag ->
  ser_values frag (64 ^ Z.of_nat d) (Z.of_nat d) = Some out ->
  (List.length frag <= fuel)%nat ->
  parse_loop (String.append pre out) d (String.length pre) fuel = None.
Proof.
  intros Hd. revert out pre fuel.
  induction frag as [|x rest IH]; intros out pre fuel Hall Hin Hser Hf; [destruct Hin|].
  inversion Hall as [|? ? Hx Hrest]; subst.
  simpl in Hser. destruct (Z.ltb_spec (64 ^ Z.of_nat d) x); [lia|].
  rewrite Nat2Z.id in Hser.
  destruct (ser_digits x d) as [str|] eqn:Hs; [|discriminate].
  destruct (ser_values rest (64 ^ Z.of_nat d) (Z.of_nat d)) as [out'|] eqn:Eo;
    [|discriminate].
  injection Hser as <-.
  destruct fuel as [|fuel]; [simpl in Hf; lia|].
  simpl parse_loop.
  assert (Hpos : (0 < String.length str)%nat).
  { destruct str; [|simpl; lia]. destruct d; [lia|]. simpl in Hs.
    destruct (pow64_int (Z.of_nat d)); [|discriminate].
    destruct (alphabet_at _); [|discriminate].
    destruct (ser_digits _ d); discriminate. }
  assert (Hlt : Nat.ltb (String.length pre) (String.length (String.append pre (String.append str out'))) = true).
  { apply Nat.ltb_lt. rewrite !append_length. lia. }
  rewrite Hlt.
  destruct (Z.eq_dec x (64 ^ Z.of_nat d)) as [Ex|Nx].
  - subst x. destruct (ser_top d ltac:(lia)) as [r Hr]. rewrite Hr in Hs.
    injection Hs as <-. destruct d as [|d']; [lia|]. simpl parse_el.
    rewrite Nat.add_0_r. unfold digit_at. rewrite <- (Nat.add_0_r (String.length pre)).
    rewrite get_append_r.
    change (String.get 0 (String (ascii_of_nat 0) (String.append r out'))) with (Some (ascii_of_nat 0)).
    cbv beta iota. rewrite char_to_int_nul. reflexivity.
  - destruct (ser_ok d x ltac:(lia) ltac:(lia)) as [str' [Hs' [Hl Hp]]].
    rewrite Hs in Hs'. injection Hs' as <-.
    rewrite (Hp _ (String.length pre) d 0%nat 0 ltac:(lia) ltac:(lia) ltac:(pow64_bound)).
    2:{ intros t Ht. rewrite Nat.add_0_r. apply digit_at_app. lia. }
    destruct Hin as [Ex|Hin]; [congruence|].
    rewrite <- append_assoc.
    replace (String.length pre + d)%nat with (String.length (String.append pre str))
      by (rewrite append_length; lia).
    rewrite (IH out' (String.append pre str) fuel Hrest Hin eq_refl ltac:(simpl in Hf; lia)).
    reflexivity.
Qed.

End Base64Facts.

Module Base64Facts2.
Import DataFragment StringFacts Base64Facts.

Lemma ser_digits_length v k s : ser_digits v k = Some s -> String.length s = k.
Proof.
  revert v s. induction k as [|k IH]; intros v s H; simpl in H.
  - injection H as <-. reflexivity.
  - destruct (pow64_int (Z.of_nat k)); [|discriminate].
    destruct (alphabet_at _); [|discriminate].
    destruct (ser_digits _ k) eqn:E; [|discriminate].
    injection H as <-. simpl. rewrite (IH _ _ E). reflexivity.
Qed.

Lemma ser_values_length frag m nd out :
  ser_values frag m nd = Some out ->
  String.length out = (Z.to_nat nd * List.length frag)%nat.
Proof.
  revert out. induction frag as [|x rest IH]; intros out H; simpl in H.
  - injection H as <-. simpl. lia.
  - destruct (m <? x); [discriminate|].
    destruct (ser_digits x (Z.to_nat nd)) eqn:E1; [|discriminate].
    destruct (ser_values rest m nd) eqn:E2; [|discriminate].
    injection H as <-. rewrite append_length, (ser_digits_length _ _ _ E1), (IH _ eq_refl).
    simpl. lia.
Qed.

Lemma ser_digits_le (d : nat) x :
  (1 <= d <= 5)%nat -> 0 <= x <= 64 ^ Z.of_nat d -> exists str, ser_digits x d = Some str.
Proof.
  intros Hd Hx. destruct (Z.eq_dec x (64 ^ Z.of_nat d)) as [->|N].
  - destruct (ser_top d ltac:(lia)) as [r Hr]. eexists. exact Hr.
  - destruct (ser_ok d x ltac:(lia) ltac:(lia)) as [str [Hs _]]. eexists. exact Hs.
Qed.

Lemma ser_values_none (d : nat) frag :
  (1 <= d <= 5)%nat -> Forall (fun x => 0 <= x) frag ->
  (ser_values frag (64 ^ Z.of_nat d) (Z.of_nat d) = None <->
   Exists (fun x => 64 ^ Z.of_nat d < x) frag).
Proof.
  intros Hd. induction frag as [|x rest IH]; intros Hall.
  - simpl. split; [discriminate | intros H; inversion H].
  - inversion Hall as [|? ? Hx Hrest]; subst. simpl.
    destruct (Z.ltb_spec (64 ^ Z.of_nat d) x) as [Lt|Ge].
    + split; [intros _; now constructor | reflexivity].
    + rewrite Nat2Z.id.
      destruct (ser_digits_le d x Hd ltac:(lia)) as [str Hs]. rewrite Hs.
      specialize (IH Hrest).
      destruct (ser_values rest (64 ^ Z.of_nat d) (Z.of_nat d)) as [o|].
      * split; [discriminate|]. intros H. inversion H as [? ? H1|? ? H1]; subst; [lia|].
        apply IH in H1. discriminate.
      * split; [intros _; apply Exists_cons_tl; apply IH; reflexivity | reflexivity].
Qed.

End Base64Facts2.

Module Base64Extras.
Import DataFragment StringFacts Base64Facts Base64Facts2.

Lemma pow64_int_nd nd : 1 <= nd <= 5 -> pow64_int nd = Some (64 ^ nd).
Proof.
  intros H. unfold pow64_int. destruct (Z.ltb_spec nd 0); [lia|].
  destruct (Z.leb_spec nd 5); [reflexivity|lia].
Qed.

(** For [1 <= num_digits <= 5], [SerializeToBase64] writes every value of
    [[0, 64^num_digits)] with [num_digits] characters, and
    [ParseFromBase64] reads the result back to the same values. *)
Theorem Base64_round_trip (frag : IDA.Vector) (num_digits : Z) :
  1 <= num_digits <= 5 ->
  Forall (fun x => 0 <= x < 64 ^ num_digits) frag ->
  exists s, SerializeToBase64 frag num_digits = Some s /\
    String.length s = (Z.to_nat num_digits * List.length frag)%nat /\
    ParseFromBase64 s num_digits = Some frag.
Proof.
  intros Hnd Hall.
  set (d := Z.to_nat num_digits). assert (Ed : num_digits = Z.of_nat d) by (unfold d; lia).
  rewrite Ed in Hall.
  destruct (ser_values frag (64 ^ Z.of_nat d) (Z.of_nat d)) as [out|] eqn:Eo.
  2:{ exfalso. apply ser_values_none in Eo; [| lia |].
      - apply Exists_exists in Eo. destruct Eo as [x [Hx Hlt]].
        rewrite Forall_forall in Hall. specialize (Hall x Hx). lia.
      - eapply Forall_impl; [|exact Hall]. simpl. lia. }
  exists out. unfold SerializeToBase64. rewrite pow64_int_nd by exact Hnd.
  rewrite Ed. rewrite Eo. split; [reflexivity|].
  destruct (parse_loop_ser frag d out EmptyString (String.length out) ltac:(lia) Hall Eo)
    as [Hl Hp].
  { rewrite (ser_values_length _ _ _ _ Eo), Nat2Z.id. nia. }
  rewrite <- Ed. split; [rewrite Hl; reflexivity|].
  unfold ParseFromBase64.
  destruct (Z.eqb_spec num_digits 0); [lia|]. destruct (Z.ltb_spec num_digits 0); [lia|].
  fold d. exact Hp.
Qed.

(** For [1 <= num_digits <= 5] and non-negative values,
    [SerializeToBase64] throws exactly when some value exceeds
    [64^num_digits]. *)
Theorem Base64_serialize_fails (frag : IDA.Vector) (num_digits : Z) :
  1 <= num_digits <= 5 -> Forall (fun x => 0 <= x) frag ->
  (SerializeToBase64 frag num_digits = None <->
   Exists (fun x => 64 ^ num_digits < x) frag).
Proof.
  intros Hnd Hall. unfold SerializeToBase64. rewrite pow64_int_nd by exact Hnd.
  replace num_digits with (Z.of_nat (Z.to_nat num_digits)) by lia.
  apply ser_values_none; [lia | exact Hall].
Qed.

(** The bound test of [SerializeToBase64] is [val > max_int], so the
    value [64^num_digits] is serialized: its first character is the NUL
    that ends [BASE_64_ALPHABET], which [ParseFromBase64] rejects. *)
Theorem Base64_max_value_unparsable (frag : IDA.Vector) (num_digits : Z) :
  1 <= num_digits <= 5 ->
  Forall (fun x => 0 <= x <= 64 ^ num_digits) frag ->
  In (64 ^ num_digits) frag ->
  exists s, SerializeToBase64 frag num_digits = Some s /\
    ParseFromBase64 s num_digits = None.
Proof.
  intros Hnd Hall Hin.
  set (d := Z.to_nat num_digits). assert (Ed : num_digits = Z.of_nat d) by (unfold d; lia).
  rewrite Ed in Hall, Hin.
  destruct (ser_values frag (64 ^ Z.of_nat d) (Z.of_nat d)) as [out|] eqn:Eo.
  2:{ exfalso. apply ser_values_none in Eo; [| lia |].
      - apply Exists_exists in Eo. destruct Eo as [x [Hx Hlt]].
        rewrite Forall_forall in Hall. specialize (Hall x Hx). lia.
      - eapply Forall_impl; [|exact Hall]. simpl. lia. }
  exists out. unfold SerializeToBase64. rewrite pow64_int_nd by exact Hnd.
  rewrite Ed, Eo. split; [reflexivity|].
  unfold ParseFromBase64. rewrite <- Ed.
  destruct (Z.eqb_spec num_digits 0); [lia|]. destruct (Z.ltb_spec num_digits 0); [lia|].
  fold d. apply (parse_loop_top frag d out EmptyString); try assumption; [lia|].
  rewrite (ser_values_length _ _ _ _ Eo), Nat2Z.id. nia.
Qed.

Lemma Base64_round_trip_witness :
  exists s, SerializeToBase64 [0; 63; 64; 256; 4095] 2 = Some s /\
    String.length s = (Z.to_nat 2 * List.length [0; 63; 64; 256; 4095])%nat /\
    ParseFromBase64 s 2 = Some [0; 63; 64; 256; 4095].
Proof.
  apply Base64_round_trip; [lia|].
  repeat constructor; lia.
Defined.

Lemma Base64_serialize_fails_witness :
  SerializeToBase64 [5; 4097] 2 = None <-> Exists (fun x => 64 ^ 2 < x) [5; 4097].
Proof. apply Base64_serialize_fails; [lia | repeat constructor; lia]. Defined.

Lemma Base64_max_value_unparsable_witness :
  exists s, SerializeToBase64 [7; 4096] 2 = Some s /\ ParseFromBase64 s 2 = None.
Proof.
  apply (Base64_max_value_unparsable [7; 4096] 2); [lia | repeat constructor; lia |].
  right. left. reflexivity.
Defined.

End Base64Extras.


Module ModInverseFacts.
Import IDA IDAArith.

Lemma ModInverse_loop_gcd : forall fuel t nt r nr,
  0 <= nr < r -> r < 2 ^ 31 -> Z.of_nat fuel > nr ->
  snd (ModInverse_loop fuel t nt r nr) = Z.gcd r nr.
Proof.
  induction fuel as [|fuel IH]; intros t nt r nr Hnr Hr Hf.
  - lia.
  - cbn [ModInverse_loop].
    destruct (Z.eqb_spec nr 0) as [E|E].
    + subst nr. cbn [snd]. rewrite Z.gcd_0_r, Z.abs_eq by lia. reflexivity.
    + set (q := Z.quot r nr).
      assert (Hq : q = r / nr) by (apply Z.quot_div_nonneg; lia).
      assert (Hmod : r - q * nr = r mod nr) by (rewrite Hq, Z.mod_eq by lia; ring).
      assert (Hqr : nr * q <= r) by (rewrite Hq; apply Z.mul_div_le; lia).
      assert (Hq0 : 0 <= q) by (rewrite Hq; apply Z.div_pos; lia).
      pose proof (Z.mod_pos_bound r nr ltac:(lia)) as Hb.
      rewrite (i32_id (q * nr)) by nia.
      rewrite (i32_id (r - q * nr)) by nia.
      rewrite IH by (rewrite ?Nat2Z.inj_succ in Hf; lia).
      rewrite Hmod, Z.gcd_comm, Z.gcd_mod, Z.gcd_comm by lia. reflexivity.
Qed.

End ModInverseFacts.

Module ModInverseExtras.
Import IDA IDAArith IDAInverse IDAClaims ModInverseFacts.

(** ModInverse on a prime modulus: for a prime [p] with [2 * p < 2^31]
    and [0 < d < p], [ModInverse d p] returns the inverse of [d] modulo
    [p], in the range [1 .. p - 1]. *)
Theorem ModInverse_prime_inverse (d p : Z) :
  prime p -> 0 < d < p -> 2 * p < 2 ^ 31 ->
  exists inv, ModInverse d p = Some inv /\ (inv * d) mod p = 1 /\ 0 < inv < p.
Proof.
  intros Hp Hd H2. exact (ModInverse_spec p d Hp Hd H2).
Qed.

Lemma ModInverse_prime_inverse_witness :
  prime 257 /\ 0 < 3 < 257 /\ 2 * 257 < 2 ^ 31 /\
  exists inv, ModInverse 3 257 = Some inv /\ (inv * 3) mod 257 = 1 /\ 0 < inv < 257.
Proof.
  assert (Hp : prime 257) by (apply prime_of_b; vm_compute; reflexivity).
  split; [exact Hp|]. split; [lia|]. split; [lia|].
  apply (ModInverse_prime_inverse 3 257 Hp); lia.
Defined.

(** ModInverse's ["N is not invertible"] error: for [0 <= n < p < 2^31],
    when [n] and [p] share a factor greater than one, [ModInverse n p]
    throws. *)
Theorem ModInverse_not_invertible (n p : Z) :
  0 <= n < p -> p < 2 ^ 31 -> 1 < Z.gcd n p -> ModInverse n p = None.
Proof.
  intros Hn Hp Hg. unfold ModInverse. rewrite Z.abs_eq by lia.
  pose proof (ModInverse_loop_gcd (S (Z.to_nat n)) 0 1 p n) as G.
  destruct (ModInverse_loop (S (Z.to_nat n)) 0 1 p n) as [t r]. cbn [snd] in G.
  rewrite G by (rewrite ?Nat2Z.inj_succ, ?Z2Nat.id by lia; lia).
  rewrite Z.gcd_comm. apply Z.ltb_lt in Hg. rewrite Hg. reflexivity.
Qed.

Lemma ModInverse_not_invertible_witness :
  0 <= 6 < 256 /\ 256 < 2 ^ 31 /\ 1 < Z.gcd 6 256 /\ ModInverse 6 256 = None.
Proof.
  split; [lia|]. split; [lia|]. split; [reflexivity|].
  apply ModInverse_not_invertible; [lia | lia | reflexivity].
Defined.

End ModInverseExtras.


Module EncodeFacts.
Import IDA IDASegments.

Lemma split_loop_length m : (1 <= m)%nat -> forall fuel v, (List.length v <= fuel)%nat ->
  List.length (split_loop fuel m v) = ((List.length v + m - 1) / m)%nat.
Proof.
  intros Hm. induction fuel as [|fuel IH]; intros v Hl.
  - destruct v; [|cbn in Hl; lia]. cbn. symmetry. apply Nat.div_small. lia.
  - destruct v as [|x v'].
    + cbn. symmetry. apply Nat.div_small. lia.
    + cbn [split_loop]. set (v := x :: v') in *.
      cbn [List.length]. rewrite IH by (rewrite length_skipn; unfold v in *; cbn [List.length] in *; lia).
      rewrite length_skipn.
      assert (Hv : (1 <= List.length v)%nat) by (unfold v; cbn; lia).
      destruct (Nat.le_gt_cases m (List.length v)) as [Hle|Hgt].
      * replace (List.length v + m - 1)%nat with ((List.length v - m + m - 1) + 1 * m)%nat by lia.
        rewrite Nat.div_add by lia. lia.
      * replace (List.length v - m + m - 1)%nat with (m - 1)%nat by lia.
        rewrite Nat.div_small by lia.
        apply (Nat.div_unique _ _ 1 (List.length v - 1)); lia.
Qed.

End EncodeFacts.

Module EncodeExtras.
Import IDA IDAClaims EncodeFacts.

(** IDA::Encode's output shape: for an [IDA] built by [make n m p] with
    [1 <= m], [Encode] returns [n] fragments, and every fragment holds
    one value per segment, that is [ceil(|v| / m)] values. *)
Theorem Encode_shape (n m p : Z) (ida : IDA) (v : Vector) :
  make n m p = Some ida -> 1 <= m ->
  List.length (Encode ida v) = Z.to_nat n /\
  Forall (fun frag => List.length frag = ((List.length v + Z.to_nat m - 1) / Z.to_nat m)%nat)
         (Encode ida v).
Proof.
  intros Hmk Hm. unfold make in Hmk.
  destruct ((m <? n) && (n <? p)); [|discriminate]. injection Hmk as <-.
  unfold Encode, SplitToSegments. cbn [n_ m_]. split.
  - rewrite length_map, length_seq. reflexivity.
  - apply Forall_forall. intros frag Hin. apply in_map_iff in Hin as (i & <- & _).
    rewrite length_map. apply split_loop_length; lia.
Qed.

Lemma Encode_shape_witness :
  make 14 10 257 = Some ida_default /\ 1 <= 10 /\
  List.length (Encode ida_default (repeat 7 25)) = 14%nat /\
  Forall (fun frag => List.length frag = 3%nat) (Encode ida_default (repeat 7 25)).
Proof.
  assert (Hmk : make 14 10 257 = Some ida_default) by reflexivity.
  split; [exact Hmk|]. split; [lia|].
  exact (Encode_shape 14 10 257 ida_default (repeat 7 25) Hmk ltac:(lia)).
Defined.

End EncodeExtras.
